(** * appshot: the screenshot generation engine (generate.mjs)

    A shallow embedding of the generation orchestrator: string and path
    helpers, the UI control surface, the per-task retry machine
    (processScreenshot), the size scheduler (processSize) and the run
    coordinator (main), followed by the properties the specification
    states about them.

    JavaScript strings are modelled as [string]; an [ascii] stands for one
    code unit below 256 (the Latin-1 range, closed under toLowerCase).
    Asynchronous code is modelled as a tree of awaited actions ([Prog]):
    the environment (file system, network, Playwright) answers every action
    with a value or an exception. *)

From Stdlib Require Import Strings.String Strings.Ascii Lists.List Bool.Bool.
From Stdlib Require Import Arith.Arith Arith.PeanoNat ZArith.ZArith micromega.Lia.
From Stdlib Require Import Numbers.DecimalString.
Import ListNotations.

Local Open Scope string_scope.
Local Open Scope list_scope.

(* ===================================================================== *)
(** ** JavaScript string helpers *)
(* ===================================================================== *)

Module Js.

(** The double-quote character, code unit 34. *)
Definition dquote : ascii := "034"%char.
Definition slash : ascii := "/"%char.

Definition is_dquote (c : ascii) : bool := Ascii.eqb c dquote.

(** The regular-expression class [\s], restricted to code units below 256:
    TAB, LF, VT, FF, CR, SPACE and NBSP. *)
Definition is_space (c : ascii) : bool :=
  match nat_of_ascii c with
  | 9 | 10 | 11 | 12 | 13 | 32 | 160 => true
  | _ => false
  end.

(** [s.replace(/DQUOTE/g, r)]: every double-quote character becomes [r]. *)
Fixpoint replace_dquotes (r : string) (s : string) : string :=
  match s with
  | EmptyString => EmptyString
  | String c rest =>
      if is_dquote c then (r ++ replace_dquotes r rest)%string
      else String c (replace_dquotes r rest)
  end.

(** [s.replace(/\s+/g, r)]: every maximal run of whitespace becomes one [r].
    [inRun] records that the previous code unit was whitespace. *)
Fixpoint replace_ws_runs_from (inRun : bool) (r : string) (s : string) : string :=
  match s with
  | EmptyString => EmptyString
  | String c rest =>
      if is_space c then
        if inRun then replace_ws_runs_from true r rest
        else (r ++ replace_ws_runs_from true r rest)%string
      else String c (replace_ws_runs_from false r rest)
  end.

Definition replace_ws_runs (r s : string) : string := replace_ws_runs_from false r s.

(** [String.prototype.toLowerCase] on code units below 256: A-Z and the
    Latin-1 capitals (except the multiplication sign, 215) move up by 32. *)
Definition lower_char (c : ascii) : ascii :=
  let n := nat_of_ascii c in
  if (((65 <=? n) && (n <=? 90)) || ((192 <=? n) && (n <=? 222) && negb (n =? 215)))%nat
  then ascii_of_nat (n + 32) else c.

Fixpoint toLowerCase (s : string) : string :=
  match s with
  | EmptyString => EmptyString
  | String c rest => String (lower_char c) (toLowerCase rest)
  end.

(** [s.includes(sub)] *)
Fixpoint includes (s sub : string) : bool :=
  String.prefix sub s ||
  match s with
  | EmptyString => false
  | String _ rest => includes rest sub
  end.

(** [n.toString()] for a number that is a safe integer (of magnitude at
    most 2^53 - 1): its decimal digits, with a minus sign when negative.
    The numbers of the configuration that are turned into text (width,
    height, gradient angle) are modelled as integers; for other numbers
    (fractions, or magnitudes from 2^53 on, where [Number.prototype.toString]
    rounds or switches to exponent notation) the text is not modelled. *)
Definition toString (n : Z) : string := NilZero.string_of_int (Z.to_int n).

(** JavaScript truthiness of a string: every string but the empty one. *)
Definition truthy_string (s : string) : bool := negb (String.eqb s "").

End Js.

(* ===================================================================== *)
(** ** Node's [path] module (POSIX flavour) *)
(* ===================================================================== *)

Module Path.

Definition is_slash (c : ascii) : bool := Ascii.eqb c Js.slash.

(** Split at every slash; the result is never empty. *)
Fixpoint split (s : string) : list string :=
  match s with
  | EmptyString => [EmptyString]
  | String c rest =>
      if is_slash c then EmptyString :: split rest
      else match split rest with
           | seg :: segs => String c seg :: segs
           | [] => [String c EmptyString]
           end
  end.

(** One step of [normalizeString]: [stack] holds the segments kept so far,
    innermost first. *)
Definition push_segment (allowAboveRoot : bool) (stack : list string) (seg : string)
  : list string :=
  if String.eqb seg "" then stack
  else if String.eqb seg "." then stack
  else if String.eqb seg ".." then
    match stack with
    | top :: below =>
        if String.eqb top ".." then (if allowAboveRoot then ".." :: stack else stack)
        else below
    | [] => if allowAboveRoot then [".."] else []
    end
  else seg :: stack.

Definition normalizeSegments (allowAboveRoot : bool) (segs : list string) : list string :=
  rev (fold_left (push_segment allowAboveRoot) segs []).

Definition startsWithSlash (p : string) : bool :=
  match p with
  | String c _ => is_slash c
  | EmptyString => false
  end.

Fixpoint endsWithSlash (p : string) : bool :=
  match p with
  | EmptyString => false
  | String c EmptyString => is_slash c
  | String _ rest => endsWithSlash rest
  end.

(** [path.normalize] *)
Definition normalize (p : string) : string :=
  if String.eqb p "" then "."
  else
    let isAbsolute := startsWithSlash p in
    let trailingSeparator := endsWithSlash p in
    let body := String.concat "/" (normalizeSegments (negb isAbsolute) (split p)) in
    if String.eqb body "" then
      (if isAbsolute then "/" else if trailingSeparator then "./" else ".")
    else
      let body' := if trailingSeparator then (body ++ "/")%string else body in
      if isAbsolute then ("/" ++ body')%string else body'.

(** [path.join(...args)]: the non-empty arguments joined by a slash, then
    normalized. *)
Definition join (args : list string) : string :=
  match filter Js.truthy_string args with
  | [] => "."
  | parts => normalize (String.concat "/" parts)
  end.

(** [path.dirname]: scan from the end, skipping trailing slashes, for the
    last slash at index 1 or later that has a segment after it. The scan
    works on the reversed tail of the path (everything but index 0). *)
Fixpoint dirname_scan (matchedSlash : bool) (revTail : list ascii) : option (list ascii) :=
  match revTail with
  | [] => None
  | c :: before =>
      if is_slash c then
        if matchedSlash then dirname_scan true before
        else Some before
      else dirname_scan false before
  end.

Definition dirname (p : string) : string :=
  match p with
  | EmptyString => "."
  | String c0 tail =>
      let hasRoot := is_slash c0 in
      match dirname_scan true (rev (list_ascii_of_string tail)) with
      | None => if hasRoot then "/" else "."
      | Some before =>
          match before with
          | [] => if hasRoot then "//" else String c0 EmptyString
          | _ => String c0 (string_of_list_ascii (rev before))
          end
      end
  end.

End Path.

(* ===================================================================== *)
(** ** Label helpers of generate.mjs *)
(* ===================================================================== *)

(** [sanitizeSize]: the size label as a directory name. *)
Definition sanitizeSize (sizeName : string) : string :=
  Js.replace_ws_runs "_" (Js.replace_dquotes "_" sizeName).

(** [getDeviceSelectorAttr]: the label as a preset key of the size picker. *)
Definition getDeviceSelectorAttr (sizeName : string) : string :=
  Js.replace_dquotes "" (Js.replace_ws_runs "-" (Js.toLowerCase sizeName)).

Definition label_6_9 : string := ("iPhone 6.9" ++ String Js.dquote "")%string.

(* ===================================================================== *)
(** ** Configuration model (config.json after JSON.parse) *)
(* ===================================================================== *)

(** One entry of [config.screenshots]. [titles] lists the own properties of
    the titles object in [Object.keys] order. *)
Module Screenshot.
Record t := { id : string; titles : list (string * string) }.
End Screenshot.

Module Border.
Record t := { width : Z; color : string; opacity : option Z }.
End Border.

(** One entry of [config.output.sizes]; absent properties are [None]. *)
Module Size.
Record t := {
  device : string;
  width : Z;
  height : Z;
  yuzuDevice : option string;
  rawDir : option string;
  cornerRadius : option Z;
  border : option Border.t
}.
End Size.

Module Design.
Record background_t := { color1 : string; color2 : string; angle : Z }.
Record device_t := { cornerRadius : option Z }.
Record text_t := {
  font : option string;
  headlineWeight : option string;
  headlineColor : string;
  verticalOffset : option Z
}.
Record t := { background : background_t; device : device_t; text : text_t }.
End Design.

Module Output.
Record t := { path : string; sizes : list Size.t }.
End Output.

Module Config.
Record t := { screenshots : list Screenshot.t; design : Design.t; output : Output.t }.
End Config.

(** [Object.keys(obj)] and [obj[key]] on a titles object. A key taken from
    [keys] is always found; a missing key reads as the empty title. *)
Definition keys (titles : list (string * string)) : list string := map fst titles.

Fixpoint lookup (titles : list (string * string)) (key : string) : string :=
  match titles with
  | [] => ""
  | (k, v) :: rest => if String.eqb k key then v else lookup rest key
  end.

(** [a || b] on an optional string: the first operand when it is truthy. *)
Definition or_default (a : option string) (b : string) : string :=
  match a with
  | Some s => if Js.truthy_string s then s else b
  | None => b
  end.

(** [a ?? b]: the first operand unless it is null or undefined. *)
Definition nullish {A} (a : option A) (b : A) : A :=
  match a with
  | Some x => x
  | None => b
  end.

(* ===================================================================== *)
(** ** Awaited actions and the environment's replies *)
(* ===================================================================== *)

Definition handle := nat.

Record Error := { message : string }.

Inductive Value :=
| VUndefined
| VBool (b : bool)
| VNum (n : nat)
| VHandle (h : handle).

Inductive Reply :=
| Done (v : Value)
| Raised (e : Error).

Definition truthy (v : Value) : bool :=
  match v with
  | VUndefined => false
  | VBool b => b
  | VNum n => negb (Nat.eqb n 0)
  | VHandle _ => true
  end.

Definition as_handle (v : Value) : handle :=
  match v with
  | VHandle h => h
  | VNum n => n
  | _ => 0
  end.

Definition as_length (v : Value) : nat :=
  match v with
  | VNum n => n
  | _ => 0
  end.

(** Playwright locators, as the chain of calls that builds them. *)
Inductive Locator :=
| Css (selector : string)
| Item (l : Locator) (index : nat)
| Within (l : Locator) (selector : string)
| First (l : Locator).

(** The functions passed to [evaluate]. *)
Inductive Script :=
| CanvasHasContent
| DispatchCustomSizeEvents
| SetCornerRadius (val : Z)
| SetFrameProps (width : Z) (color : string) (opacity : Z)
| SetTextOffsetY (val : Z)
| ClassListContainsActive.

Inductive PageOp :=
| Goto (url : string)
| Reload
| WaitForTimeout (ms : N)
| Click (selector : string) (timeout : option N)
| Fill (selector value : string)
| SelectOption (selector value : string)
| WaitForSelector (selector : string) (timeout : N)
| Evaluate (script : Script)
| LocatorAll (l : Locator)
| LocatorClick (l : Locator) (timeout : option N)
| LocatorFill (l : Locator) (value : string)
| LocatorEvaluate (l : Locator) (script : Script)
| LocatorSetInputFiles (l : Locator) (path : string)
| ExpectDownload (timeout : N)
| AwaitDownload.

Inductive Level := Log | Warn | ErrorLevel.

(** Console lines, one constructor per call site, with the values
    interpolated into its template. *)
Inductive Message :=
| MsgUsingCliUrl (url : string)
| MsgUsingLocal
| MsgUsingDemo
| MsgCanvasBlank
| MsgPresetUnavailable
| MsgFontNotFound (font : string)
| MsgRawNotFound (logPrefix rawPath : string)
| MsgProcessing (logPrefix : string) (attempt maxRetries : nat)
| MsgDone (logPrefix : string)
| MsgError (logPrefix errorMessage : string)
| MsgRetrying (logPrefix : string)
| MsgFailedAfter (logPrefix : string) (maxRetries : nat)
| MsgBrowserCrashed
| MsgRule
| MsgSizeHeader (device : string) (width height : Z)
| MsgNavigating
| MsgRefreshing (processedInContext : nat)
| MsgRecovering (errorMessage : string)
| MsgSkipping (errorMessage : string)
| MsgAppName
| MsgEngineName
| MsgConfigLoaded
| MsgScreenshots (n : nat)
| MsgLocales (n : nat)
| MsgSizes (n : nat)
| MsgTotal (n : nat)
| MsgWave1 (devices : list string)
| MsgWaveSequential (device : string)
| MsgComplete
| MsgSuccess (successCount total : nat)
| MsgFailures (failureCount total : nat)
| MsgSomeFailed
| MsgAllGenerated
| MsgFatal (errorMessage : string).

Inductive Action :=
| Fetch (url : string) (timeout : N)
| FsAccess (path : string)
| FsMkdir (path : string)
| ChromiumLaunch
| BrowserClose (browser : handle)
| BrowserNewContext (browser : handle)
| ContextClose (context : handle)
| ContextNewPage (context : handle)
| OnPage (page : handle) (op : PageOp)
| DownloadSaveAs (download : handle) (path : string)
| Console (level : Level) (msg : Message)
| ProcessExit (code : nat)
| Enter (page : handle) (screenshotId locale device : string) (attempt : nat).

(** Calls that are not awaited on the environment: console output, the
    arming of the download listener, [process.exit], and [Enter], a ghost
    mark left at every entry of [processScreenshot]. *)
Definition silent (a : Action) : bool :=
  match a with
  | Console _ _ | ProcessExit _ | Enter _ _ _ _ _ => true
  | OnPage _ (ExpectDownload _) => true
  | _ => false
  end.

(** Calls that return a new object; the object is named by a fresh handle. *)
Definition allocates (a : Action) : bool :=
  match a with
  | ChromiumLaunch | BrowserNewContext _ | ContextNewPage _ => true
  | OnPage _ AwaitDownload => true
  | _ => false
  end.

Definition Event : Type := Action * Reply.

(* ===================================================================== *)
(** ** Programs: trees of awaited actions *)
(* ===================================================================== *)

(** A computation performs an action, receives the environment's reply and
    continues, until it produces a result. Every loop of generate.mjs is
    bounded, so the trees are well founded. *)
Inductive Tree (X : Type) : Type :=
| Ret (x : X)
| Do (act : Action) (k : Reply -> Tree X).

Arguments Ret {X} x.
Arguments Do {X} act k.

Fixpoint tbind {X Y} (t : Tree X) (f : X -> Tree Y) : Tree Y :=
  match t with
  | Ret x => f x
  | Do act k => Do act (fun r => tbind (k r) f)
  end.

(** How a function call ends: with a value, or with a thrown exception. *)
Inductive Outcome (A : Type) : Type :=
| Returned (a : A)
| Threw (e : Error).

Arguments Returned {A} a.
Arguments Threw {A} e.

(** The mutable variables of one [processSize] activation: [browser] is
    assigned by the nested [launchBrowser], the others by the loop. A
    variable declared with [let] but not yet assigned is [None]. *)
Record Store := {
  browser : option handle;
  context : option handle;
  page : option handle;
  processedInContext : nat;
  successCount : nat;
  failureCount : nat
}.

Definition emptyStore : Store :=
  {| browser := None; context := None; page := None;
     processedInContext := 0; successCount := 0; failureCount := 0 |}.

(** An async function body: from the variables in scope to a tree that ends
    with the outcome and the variables' final values. *)
Definition Prog (A : Type) : Type := Store -> Tree (Outcome A * Store).

Definition ret {A} (a : A) : Prog A := fun s => Ret (Returned a, s).

Definition throw {A} (e : Error) : Prog A := fun s => Ret (Threw e, s).

Definition bind {A B} (p : Prog A) (f : A -> Prog B) : Prog B :=
  fun s => tbind (p s) (fun r =>
    match fst r with
    | Returned a => f a (snd r)
    | Threw e => Ret (Threw e, snd r)
    end).

(** [try { p } catch (e) { h e }] *)
Definition tryCatch {A} (p : Prog A) (h : Error -> Prog A) : Prog A :=
  fun s => tbind (p s) (fun r =>
    match fst r with
    | Returned a => Ret (Returned a, snd r)
    | Threw e => h e (snd r)
    end).

(** [try { p } finally { f }] *)
Definition tryFinally {A} (p : Prog A) (f : Prog unit) : Prog A :=
  fun s => tbind (p s) (fun r =>
    tbind (f (snd r)) (fun r' =>
      match fst r' with
      | Returned _ => Ret (fst r, snd r')
      | Threw e => Ret (Threw e, snd r')
      end)).

(** [await] of an environment call: its value, or its exception thrown. *)
Definition await (act : Action) : Prog Value :=
  fun s => Do act (fun r =>
    match r with
    | Done v => Ret (Returned v, s)
    | Raised e => Ret (Threw e, s)
    end).

(** A call that cannot fail and whose result is not used. *)
Definition emit (act : Action) : Prog unit :=
  fun s => Do act (fun _ => Ret (Returned tt, s)).

Definition get : Prog Store := fun s => Ret (Returned s, s).
Definition put (s' : Store) : Prog unit := fun _ => Ret (Returned tt, s').

Declare Scope prog_scope.
Delimit Scope prog_scope with prog.
Bind Scope prog_scope with Prog.

Notation "x <- p ;; q" := (bind p (fun x => q))
  (at level 61, p at next level, right associativity) : prog_scope.
Notation "p ;; q" := (bind p (fun _ => q))
  (at level 61, right associativity) : prog_scope.

Local Open Scope prog_scope.

(** [for (const x of xs) { body x }] *)
Fixpoint forEach {X} (xs : list X) (body : X -> Prog unit) : Prog unit :=
  match xs with
  | [] => ret tt
  | x :: rest => body x ;; forEach rest body
  end.

(** A call of a function with its own local variables: the callee starts
    from [emptyStore] and the caller's variables are untouched. *)
Definition call {A} (callee : Prog A) : Prog A :=
  fun s => tbind (callee emptyStore) (fun r => Ret (fst r, s)).

(** *** Promise.all *)

(** The promises of [Promise.all] advance one awaited action at a time, in
    an order the event loop decides: [schedule] lists which promise is
    resumed next. When the schedule is used up the promises still pending
    run to completion in order. The first rejection seen rejects the whole. *)
Fixpoint settleInOrder {A} (ts : list (Tree (Outcome A * Store))) : Tree (Outcome (list A)) :=
  match ts with
  | [] => Ret (Returned [])
  | t :: rest =>
      tbind t (fun r =>
        match fst r with
        | Threw e => Ret (Threw e)
        | Returned a =>
            tbind (settleInOrder rest) (fun o =>
              match o with
              | Returned l => Ret (Returned (a :: l))
              | Threw e => Ret (Threw e)
              end)
        end)
  end.

Fixpoint replaceAt {X} (i : nat) (x : X) (l : list X) : list X :=
  match l, i with
  | [], _ => []
  | _ :: rest, O => x :: rest
  | y :: rest, S j => y :: replaceAt j x rest
  end.

Fixpoint interleave {A} (schedule : list nat) (ts : list (Tree (Outcome A * Store)))
  : Tree (Outcome (list A)) :=
  match schedule with
  | [] => settleInOrder ts
  | i :: later =>
      match nth_error ts i with
      | Some (Do act k) => Do act (fun r => interleave later (replaceAt i (k r) ts))
      | Some (Ret (Threw e, _)) => Ret (Threw e)
      | _ => interleave later ts
      end
  end.

Definition promiseAll {A} (schedule : list nat) (ps : list (Prog A)) : Prog (list A) :=
  fun s => tbind (interleave schedule (map (fun p => p s) ps)) (fun o => Ret (o, s)).

(* ===================================================================== *)
(** ** Running a program against an environment *)
(* ===================================================================== *)

Section Semantics.

Context {World : Type}.

(** The environment: how it answers an action and how it changes. *)
Variable exec : Action -> World -> Reply * World.

Record St := { world : World; trace : list Event }.

(** One action: silent calls do not reach the environment; a call that
    creates an object returns a handle no earlier call returned. *)
Definition step (act : Action) (st : St) : Reply * St :=
  let '(r, w) := if silent act then (Done VUndefined, world st) else exec act (world st) in
  let r' := match r with
            | Done v => if allocates act then Done (VHandle (length (trace st))) else Done v
            | Raised e => Raised e
            end in
  (r', {| world := w; trace := trace st ++ [(act, r')] |}).

Fixpoint run {X} (t : Tree X) (st : St) : X * St :=
  match t with
  | Ret x => (x, st)
  | Do act k => let '(r, st') := step act st in run (k r) st'
  end.

End Semantics.

Arguments St World : clear implicits.

(* ===================================================================== *)
(** ** Bindings of the calls generate.mjs makes *)
(* ===================================================================== *)

Definition console (level : Level) (msg : Message) : Prog unit := emit (Console level msg).

Definition access (path : string) : Prog unit := await (FsAccess path) ;; ret tt.
Definition mkdir (path : string) : Prog unit := await (FsMkdir path) ;; ret tt.

Definition onPage (page : handle) (op : PageOp) : Prog Value := await (OnPage page op).

Definition page_goto (page : handle) (url : string) : Prog unit :=
  onPage page (Goto url) ;; ret tt.
Definition page_reload (page : handle) : Prog unit :=
  onPage page Reload ;; ret tt.
Definition page_waitForTimeout (page : handle) (ms : N) : Prog unit :=
  onPage page (WaitForTimeout ms) ;; ret tt.
Definition page_click (page : handle) (selector : string) (timeout : option N) : Prog unit :=
  onPage page (Click selector timeout) ;; ret tt.
Definition page_fill (page : handle) (selector value : string) : Prog unit :=
  onPage page (Fill selector value) ;; ret tt.
Definition page_selectOption (page : handle) (selector value : string) : Prog unit :=
  onPage page (SelectOption selector value) ;; ret tt.
Definition page_waitForSelector (page : handle) (selector : string) (timeout : N) : Prog unit :=
  onPage page (WaitForSelector selector timeout) ;; ret tt.
Definition page_evaluate (page : handle) (script : Script) : Prog Value :=
  onPage page (Evaluate script).
Definition locator_all (page : handle) (l : Locator) : Prog nat :=
  v <- onPage page (LocatorAll l) ;; ret (as_length v).
Definition locator_click (page : handle) (l : Locator) (timeout : option N) : Prog unit :=
  onPage page (LocatorClick l timeout) ;; ret tt.
Definition locator_fill (page : handle) (l : Locator) (value : string) : Prog unit :=
  onPage page (LocatorFill l value) ;; ret tt.
Definition locator_evaluate (page : handle) (l : Locator) (script : Script) : Prog Value :=
  onPage page (LocatorEvaluate l script).
Definition locator_setInputFiles (page : handle) (l : Locator) (path : string) : Prog unit :=
  onPage page (LocatorSetInputFiles l path) ;; ret tt.

Definition chromium_launch : Prog handle :=
  v <- await ChromiumLaunch ;; ret (as_handle v).
Definition browser_close (b : handle) : Prog unit := await (BrowserClose b) ;; ret tt.
Definition browser_newContext (b : handle) : Prog handle :=
  v <- await (BrowserNewContext b) ;; ret (as_handle v).
Definition context_close (c : handle) : Prog unit := await (ContextClose c) ;; ret tt.
Definition context_newPage (c : handle) : Prog handle :=
  v <- await (ContextNewPage c) ;; ret (as_handle v).

(** Reading a property of [null] or [undefined], or a [let] variable before
    its declaration has run, throws. *)
Definition typeError (what : string) : Error :=
  {| message := ("Cannot read properties of undefined (reading '" ++ what ++ "')")%string |}.

Definition deref {A} (what : string) (v : option A) : Prog A :=
  match v with
  | Some x => ret x
  | None => throw (typeError what)
  end.

(** A selector fragment in double quotes. *)
Definition quoted (s : string) : string :=
  String Js.dquote (s ++ String Js.dquote "")%string.

(* ===================================================================== *)
(** ** Constants *)
(* ===================================================================== *)

Definition MAX_RETRIES : nat := 3.
Definition CANVAS_WAIT_MS : N := 2000.
Definition DOWNLOAD_TIMEOUT_MS : N := 30000.
Definition PER_SCREENSHOT_TIMEOUT_MS : N := 90000.

Definition LOCAL_URL : string := "http://localhost:8080".
Definition DEMO_URL : string := "https://yuzu-hub.github.io/appscreen/".

(* ===================================================================== *)
(** ** UI control surface *)
(* ===================================================================== *)

Definition ensureDir (path : string) : Prog unit :=
  tryCatch (access path) (fun _ => mkdir path).

Definition waitForCanvasRender (page : handle) : Prog unit :=
  page_waitForTimeout page CANVAS_WAIT_MS ;;
  hasContent <- page_evaluate page CanvasHasContent ;;
  if negb (truthy hasContent) then
    console Warn MsgCanvasBlank ;;
    page_waitForTimeout page 1000%N
  else ret tt.

Definition screenshotItems : Locator := Css ".screenshot-item:not(.upload-item)".

(** The loop of [clearYuzuScreenshots]; [remaining] is [40 - attempts]. *)
Fixpoint clearYuzuScreenshots_loop (remaining : nat) (page : handle) : Prog unit :=
  match remaining with
  | O => ret tt
  | S remaining' =>
      items <- locator_all page screenshotItems ;;
      if Nat.eqb items 0 then ret tt
      else
        removed <- tryCatch
          (locator_click page (Within (Item screenshotItems 0) ".screenshot-menu-btn") (Some 2000%N) ;;
           page_waitForTimeout page 150%N ;;
           page_click page ".screenshot-menu-item.screenshot-delete" (Some 2000%N) ;;
           page_waitForTimeout page 150%N ;;
           ret true)
          (fun _ => ret false) ;;
        if (removed : bool) then clearYuzuScreenshots_loop remaining' page else ret tt
  end.

Definition clearYuzuScreenshots (page : handle) : Prog unit :=
  clearYuzuScreenshots_loop 40 page.

Definition uploadScreenshot (page : handle) (screenshotPath : string) : Prog unit :=
  clearYuzuScreenshots page ;;
  locator_setInputFiles page (Css "#file-input") screenshotPath ;;
  page_waitForTimeout page 500%N ;;
  tryCatch
    (locator_click page (First screenshotItems) (Some 2000%N) ;;
     page_waitForTimeout page 200%N)
    (fun _ => ret tt).

Definition deviceOption (deviceAttr : string) : string :=
  (".device-option[data-device=" ++ quoted deviceAttr ++ "]")%string.

Definition selectOutputSize (page : handle) (size : Size.t) : Prog unit :=
  let deviceAttr := or_default (Size.yuzuDevice size) (getDeviceSelectorAttr (Size.device size)) in
  page_click page "#output-size-trigger" None ;;
  page_waitForTimeout page 300%N ;;
  if String.eqb deviceAttr "custom" then
    page_click page (deviceOption "custom") None ;;
    page_waitForTimeout page 500%N ;;
    page_waitForSelector page "#custom-size-inputs.visible" 5000%N ;;
    page_fill page "#custom-width" (Js.toString (Size.width size)) ;;
    page_waitForTimeout page 200%N ;;
    page_fill page "#custom-height" (Js.toString (Size.height size)) ;;
    page_waitForTimeout page 500%N ;;
    page_evaluate page DispatchCustomSizeEvents ;;
    page_waitForTimeout page 500%N
  else
    page_click page (deviceOption deviceAttr) None ;;
    page_waitForTimeout page 500%N.

Definition tabButton (tab : string) : string :=
  ("button.tab[data-tab=" ++ quoted tab ++ "]")%string.

Definition dataType (container type : string) : string :=
  (container ++ " button[data-type=" ++ quoted type ++ "]")%string.

Definition colorInput : string := ("input[type=" ++ quoted "color" ++ "]")%string.

Definition configureBackground (page : handle) (design : Design.t) : Prog unit :=
  page_click page (tabButton "background") None ;;
  page_waitForTimeout page 300%N ;;
  page_click page (dataType "#bg-type-selector" "gradient") None ;;
  page_waitForTimeout page 300%N ;;
  page_fill page "#gradient-angle" (Js.toString (Design.angle (Design.background design))) ;;
  page_waitForTimeout page 200%N ;;
  let gradientStops := Css "#gradient-stops .gradient-stop" in
  stops <- locator_all page gradientStops ;;
  if Nat.leb 2 stops then
    locator_fill page (Within (Item gradientStops 0) colorInput)
                 (Design.color1 (Design.background design)) ;;
    locator_fill page (Within (Item gradientStops 1) colorInput)
                 (Design.color2 (Design.background design)) ;;
    page_waitForTimeout page 200%N
  else ret tt.

Definition frameToggle : Locator := Css "#frame-toggle".
Definition headlineToggle : Locator := Css "#headline-toggle".
Definition subheadlineToggle : Locator := Css "#subheadline-toggle".

(** Lines 297-305 of [configureDevice]: click the frame toggle, read it
    back, click again when the first click switched it off. *)
Definition enableFrame (page : handle) : Prog unit :=
  locator_click page frameToggle None ;;
  page_waitForTimeout page 500%N ;;
  borderActive <- locator_evaluate page frameToggle ClassListContainsActive ;;
  if negb (truthy borderActive) then
    locator_click page frameToggle None ;;
    page_waitForTimeout page 500%N
  else ret tt.

Definition configureDevice (page : handle) (design : Design.t) (size : Size.t) : Prog unit :=
  page_click page (tabButton "screenshot") None ;;
  page_waitForTimeout page 500%N ;;
  page_waitForSelector page "#device-type-selector" 5000%N ;;
  page_click page (dataType "#device-type-selector" "2d") None ;;
  page_waitForTimeout page 500%N ;;
  tryCatch
    (page_click page "#position-preset-trigger" None ;;
     page_waitForSelector page "#position-preset-content" 3000%N ;;
     page_click page ("button.position-preset[data-preset=" ++ quoted "bleed-bottom" ++ "]")%string None ;;
     page_waitForTimeout page 300%N)
    (fun _ => console Log MsgPresetUnavailable) ;;
  let cornerRadius :=
    nullish (Size.cornerRadius size)
            (nullish (Design.cornerRadius (Design.device design)) 24%Z) in
  page_evaluate page (SetCornerRadius cornerRadius) ;;
  page_waitForTimeout page 200%N ;;
  match Size.border size with
  | Some border =>
      enableFrame page ;;
      page_evaluate page
        (SetFrameProps (Border.width border) (Border.color border)
                       (nullish (Border.opacity border) 100%Z)) ;;
      page_waitForTimeout page 200%N
  | None => ret tt
  end.

(** Lines 328-333 of [configureText]: read the headline toggle and click it
    when it is off. *)
Definition enableHeadline (page : handle) : Prog unit :=
  isEnabled <- locator_evaluate page headlineToggle ClassListContainsActive ;;
  if negb (truthy isEnabled) then
    locator_click page headlineToggle None ;;
    page_waitForTimeout page 500%N
  else ret tt.

(** Lines 372-377 of [configureText]: read the subheadline toggle and click
    it when it is on. *)
Definition disableSubheadline (page : handle) : Prog unit :=
  subEnabled <- locator_evaluate page subheadlineToggle ClassListContainsActive ;;
  if truthy subEnabled then
    locator_click page subheadlineToggle None ;;
    page_waitForTimeout page 300%N
  else ret tt.

Definition configureText (page : handle) (design : Design.t) (titleText : string) : Prog unit :=
  page_click page (tabButton "text") None ;;
  page_waitForTimeout page 300%N ;;
  enableHeadline page ;;
  page_fill page "#headline-text" titleText ;;
  page_waitForTimeout page 300%N ;;
  let font := or_default (Design.font (Design.text design)) "Open Sans" in
  page_click page "#font-picker-trigger" None ;;
  page_waitForTimeout page 200%N ;;
  page_fill page "#font-search" font ;;
  page_waitForTimeout page 300%N ;;
  tryCatch
    (page_click page (".font-option:has-text(" ++ quoted font ++ ")")%string (Some 3000%N) ;;
     page_waitForTimeout page 200%N)
    (fun _ => console Warn (MsgFontNotFound font)) ;;
  let weight := or_default (Design.headlineWeight (Design.text design)) "900" in
  page_selectOption page "#headline-weight" weight ;;
  page_waitForTimeout page 200%N ;;
  page_fill page "#headline-color" (Design.headlineColor (Design.text design)) ;;
  page_waitForTimeout page 200%N ;;
  let textOffsetY := nullish (Design.verticalOffset (Design.text design)) 12%Z in
  page_evaluate page (SetTextOffsetY textOffsetY) ;;
  page_waitForTimeout page 200%N ;;
  disableSubheadline page ;;
  waitForCanvasRender page.

(** [exportScreenshot]. The listener of line 389 is armed without being
    awaited: [waitForEvent] returns a promise at once, and the handler of
    that promise is attached by the [await] of line 395 only. When the click
    of line 392 throws, the exception passes to the caller like that of any
    awaited call, which is what the tree below says, and the promise is left
    without a handler for good. What the Node runtime does with such a
    promise is not part of the tree: see [abandonsListener]. *)
Definition exportScreenshot (page : handle) (outputPath : string) : Prog unit :=
  ensureDir (Path.dirname outputPath) ;;
  emit (OnPage page (ExpectDownload DOWNLOAD_TIMEOUT_MS)) ;;
  page_click page "#export-current" None ;;
  download <- onPage page AwaitDownload ;;
  await (DownloadSaveAs (as_handle download) outputPath) ;;
  ret tt.

(* ===================================================================== *)
(** ** Artifact generator, size scheduler and run coordinator *)
(* ===================================================================== *)

Module SizeResult.
Record t := { successCount : nat; failureCount : nat }.
End SizeResult.

(** How [main] ends: by falling off its end, or inside [process.exit]. *)
Inductive Completion :=
| Finished
| Exited (code : nat).

Definition modify (f : Store -> Store) : Prog unit :=
  fun s => Ret (Returned tt, f s).

Definition set_browser (b : option handle) (s : Store) : Store :=
  {| browser := b; context := context s; page := page s;
     processedInContext := processedInContext s;
     successCount := successCount s; failureCount := failureCount s |}.

(** [({ context, page } = ...)] *)
Definition set_session (cp : handle * handle) (s : Store) : Store :=
  {| browser := browser s; context := Some (fst cp); page := Some (snd cp);
     processedInContext := processedInContext s;
     successCount := successCount s; failureCount := failureCount s |}.

Definition set_processedInContext (n : nat) (s : Store) : Store :=
  {| browser := browser s; context := context s; page := page s;
     processedInContext := n;
     successCount := successCount s; failureCount := failureCount s |}.

Definition set_successCount (n : nat) (s : Store) : Store :=
  {| browser := browser s; context := context s; page := page s;
     processedInContext := processedInContext s;
     successCount := n; failureCount := failureCount s |}.

Definition set_failureCount (n : nat) (s : Store) : Store :=
  {| browser := browser s; context := context s; page := page s;
     processedInContext := processedInContext s;
     successCount := successCount s; failureCount := n |}.

Section Script.

(** The directory of generate.mjs and the command-line arguments
    ([process.argv.slice(2)]). *)
Variable __dirname : string.
Variable args : list string.

Fixpoint indexOf (x : string) (l : list string) : option nat :=
  match l with
  | [] => None
  | y :: rest => if String.eqb y x then Some 0 else option_map S (indexOf x rest)
  end.

(** [args.includes(flag) ? args[args.indexOf(flag) + 1] : fallback]; an
    index past the end reads [undefined]. *)
Definition argAfter (flag : string) : option (option string) :=
  match indexOf flag args with
  | Some i => Some (nth_error args (i + 1))
  | None => None
  end.

Definition configPath : option string :=
  match argAfter "--config" with
  | Some v => v
  | None => Some (Path.join [__dirname; "config.json"])
  end.

Definition yuzuBaseUrl : option string :=
  match argAfter "--yuzu-url" with
  | Some v => v
  | None => None
  end.

(** Lines 73-89 of [detectYuzuUrl]: probe the local instance, fall back to
    the live demo. *)
Definition autoDetect : Prog string :=
  found <- tryCatch
    (response <- await (Fetch LOCAL_URL 3000%N) ;;
     if truthy response then console Log MsgUsingLocal ;; ret true else ret false)
    (fun _ => ret false) ;;
  if (found : bool) then ret LOCAL_URL
  else console Log MsgUsingDemo ;; ret DEMO_URL.

Definition detectYuzuUrl : Prog string :=
  match yuzuBaseUrl with
  | Some url =>
      if Js.truthy_string url then
        console Log (MsgUsingCliUrl url) ;;
        ret url
      else autoDetect
  | None => autoDetect
  end.

Definition logPrefixOf (locale : string) (size : Size.t) (screenshotId : string) : string :=
  ("  [" ++ locale ++ "] [" ++ Size.device size ++ "] " ++ screenshotId)%string.

Definition rawPathOf (size : Size.t) (locale screenshotId : string) : string :=
  let sizeRawDir := Path.join [__dirname; or_default (Size.rawDir size) "raw"] in
  Path.join [sizeRawDir; locale; (screenshotId ++ ".png")%string].

Definition outputPathOf (outputDir locale : string) (size : Size.t) (screenshotId : string)
  : string :=
  let sizeFolder := sanitizeSize (Size.device size) in
  Path.join [outputDir; locale; sizeFolder; (screenshotId ++ ".png")%string].

(** The body of the [try] block of [processScreenshot] (lines 416-443). *)
Definition attemptSteps (page : handle) (screenshot : Screenshot.t) (locale : string)
    (size : Size.t) (design : Design.t) (outputDir : string) (attempt : nat) : Prog bool :=
  let screenshotId := Screenshot.id screenshot in
  let title := lookup (Screenshot.titles screenshot) locale in
  let rawPath := rawPathOf size locale screenshotId in
  let outputPath := outputPathOf outputDir locale size screenshotId in
  let logPrefix := logPrefixOf locale size screenshotId in
  exists_ <- tryCatch
    (access rawPath ;; ret true)
    (fun _ => console ErrorLevel (MsgRawNotFound logPrefix rawPath) ;; ret false) ;;
  if negb exists_ then ret false
  else
    console Log (MsgProcessing logPrefix attempt MAX_RETRIES) ;;
    page_reload page ;;
    page_waitForTimeout page 500%N ;;
    selectOutputSize page size ;;
    uploadScreenshot page rawPath ;;
    configureBackground page design ;;
    configureDevice page design size ;;
    configureText page design title ;;
    exportScreenshot page outputPath ;;
    console Log (MsgDone logPrefix) ;;
    ret true.

(** The steps of the [catch] block that precede the recursive call. *)
Definition retryReset (page : handle) (logPrefix : string) : Prog unit :=
  console Log (MsgRetrying logPrefix) ;;
  page_waitForTimeout page 1500%N ;;
  page_reload page ;;
  page_waitForTimeout page 1000%N.

Definition outOfFuel : Error := {| message := "recursion bound" |}.

(** [processScreenshot], by recursion on [fuel]: each recursive call has
    [attempt] one higher and is made only while [attempt < MAX_RETRIES], so
    [MAX_RETRIES - attempt] calls are enough and [outOfFuel] is never
    thrown (see [processScreenshot_fuel]). *)
Fixpoint processScreenshot_rec (fuel : nat) (page : handle) (screenshot : Screenshot.t)
    (locale : string) (size : Size.t) (design : Design.t) (outputDir : string)
    (attempt : nat) : Prog bool :=
  let logPrefix := logPrefixOf locale size (Screenshot.id screenshot) in
  emit (Enter page (Screenshot.id screenshot) locale (Size.device size) attempt) ;;
  tryCatch
    (attemptSteps page screenshot locale size design outputDir attempt)
    (fun error =>
       console ErrorLevel (MsgError logPrefix (message error)) ;;
       if Nat.ltb attempt MAX_RETRIES then
         retryReset page logPrefix ;;
         match fuel with
         | S fuel' =>
             processScreenshot_rec fuel' page screenshot locale size design outputDir
                                   (attempt + 1)
         | O => throw outOfFuel
         end
       else
         console ErrorLevel (MsgFailedAfter logPrefix MAX_RETRIES) ;;
         ret false).

Definition processScreenshot (page : handle) (screenshot : Screenshot.t) (locale : string)
    (size : Size.t) (design : Design.t) (outputDir : string) (attempt : nat) : Prog bool :=
  processScreenshot_rec (MAX_RETRIES - attempt) page screenshot locale size design outputDir
                        attempt.

(** [try { await context.close(); } catch {}] *)
Definition closeContext : Prog unit :=
  tryCatch
    (s <- get ;; c <- deref "close" (context s) ;; context_close c)
    (fun _ => ret tt).

(** [try { await browser.close(); } catch {}] *)
Definition closeBrowser : Prog unit :=
  tryCatch
    (s <- get ;; b <- deref "close" (browser s) ;; browser_close b)
    (fun _ => ret tt).

Definition launchBrowser : Prog unit :=
  tryCatch
    (s <- get ;;
     match browser s with
     | Some b => browser_close b
     | None => ret tt
     end)
    (fun _ => ret tt) ;;
  b <- chromium_launch ;;
  modify (set_browser (Some b)).

(** The sequence both branches of [createFreshPage] run. *)
Definition openSession (yuzuUrl : string) (size : Size.t) : Prog (handle * handle) :=
  s <- get ;;
  b <- deref "newContext" (browser s) ;;
  context <- browser_newContext b ;;
  page <- context_newPage context ;;
  page_goto page yuzuUrl ;;
  page_waitForTimeout page 1000%N ;;
  selectOutputSize page size ;;
  ret (context, page).

Definition createFreshPage (yuzuUrl : string) (size : Size.t) : Prog (handle * handle) :=
  tryCatch
    (openSession yuzuUrl size)
    (fun _ =>
       console Log MsgBrowserCrashed ;;
       launchBrowser ;;
       openSession yuzuUrl size).

Definition CONTEXT_REFRESH_INTERVAL (size : Size.t) : nat :=
  let isIpad := Js.includes (Js.toLowerCase (Size.device size)) "ipad" in
  if isIpad then 6 else 12.

(** [processScreenshot(page, ...)] with the current value of [page]. *)
Definition processOnCurrentPage (screenshot : Screenshot.t) (locale : string) (size : Size.t)
    (design : Design.t) (outputDir : string) : Prog bool :=
  s <- get ;;
  p <- deref "reload" (page s) ;;
  processScreenshot p screenshot locale size design outputDir 1.

(** The body of the inner loop of [processSize] (lines 525-555). *)
Definition processTask (size : Size.t) (yuzuUrl : string) (config : Config.t)
    (outputDir : string) (screenshot : Screenshot.t) (locale : string) : Prog unit :=
  s <- get ;;
  (if Nat.leb (CONTEXT_REFRESH_INTERVAL size) (processedInContext s) then
     console Log (MsgRefreshing (processedInContext s)) ;;
     closeContext ;;
     cp <- createFreshPage yuzuUrl size ;;
     modify (set_session cp) ;;
     modify (set_processedInContext 0)
   else ret tt) ;;
  success <- tryCatch
    (processOnCurrentPage screenshot locale size (Config.design config) outputDir)
    (fun fatalError =>
       console Log (MsgRecovering (message fatalError)) ;;
       closeContext ;;
       cp <- createFreshPage yuzuUrl size ;;
       modify (set_session cp) ;;
       modify (set_processedInContext 0) ;;
       tryCatch
         (processOnCurrentPage screenshot locale size (Config.design config) outputDir)
         (fun retryError =>
            console ErrorLevel (MsgSkipping (message retryError)) ;;
            ret false)) ;;
  s <- get ;;
  modify (set_processedInContext (processedInContext s + 1)) ;;
  s <- get ;;
  if (success : bool) then modify (set_successCount (successCount s + 1))
  else modify (set_failureCount (failureCount s + 1)).

(** The body of the [try] block of [processSize] (lines 513-560). *)
Definition sizeSteps (size : Size.t) (yuzuUrl : string) (config : Config.t)
    (outputDir : string) : Prog unit :=
  console Log MsgRule ;;
  console Log (MsgSizeHeader (Size.device size) (Size.width size) (Size.height size)) ;;
  console Log MsgRule ;;
  cp <- createFreshPage yuzuUrl size ;;
  modify (set_session cp) ;;
  console Log MsgNavigating ;;
  modify (set_processedInContext 0) ;;
  forEach (Config.screenshots config) (fun screenshot =>
    forEach (keys (Screenshot.titles screenshot)) (fun locale =>
      processTask size yuzuUrl config outputDir screenshot locale)) ;;
  closeContext.

Definition processSize (size : Size.t) (yuzuUrl : string) (config : Config.t)
  : Prog SizeResult.t :=
  call (
    let outputDir := Path.join [__dirname; Output.path (Config.output config)] in
    launchBrowser ;;
    tryFinally (sizeSteps size yuzuUrl config outputDir) closeBrowser ;;
    s <- get ;;
    ret {| SizeResult.successCount := successCount s;
           SizeResult.failureCount := failureCount s |}).

Definition isIphone (s : Size.t) : bool :=
  Js.includes (Js.toLowerCase (Size.device s)) "iphone".

(** [for (const x of xs) { results.push(await f x) }] *)
Fixpoint collect {X B} (xs : list X) (f : X -> Prog B) : Prog (list B) :=
  match xs with
  | [] => ret []
  | x :: rest => r <- f x ;; rs <- collect rest f ;; ret (r :: rs)
  end.

Definition sumOf (f : SizeResult.t -> nat) (sizeResults : list SizeResult.t) : nat :=
  fold_left (fun sum r => sum + f r) sizeResults 0.

(** [main]; [schedule] is the order in which the event loop resumes the
    promises of the parallel wave. *)
Definition main (schedule : list nat) (config : Config.t) : Prog Completion :=
  console Log MsgRule ;;
  console Log MsgAppName ;;
  console Log MsgEngineName ;;
  console Log MsgRule ;;
  yuzuUrl <- detectYuzuUrl ;;
  first <- deref "titles" (hd_error (Config.screenshots config)) ;;
  let sizes := Output.sizes (Config.output config) in
  let totalScreenshots :=
    length (Config.screenshots config) * length (keys (Screenshot.titles first))
    * length sizes in
  console Log MsgConfigLoaded ;;
  console Log (MsgScreenshots (length (Config.screenshots config))) ;;
  console Log (MsgLocales (length (keys (Screenshot.titles first)))) ;;
  console Log (MsgSizes (length sizes)) ;;
  console Log (MsgTotal totalScreenshots) ;;
  let iphoneSizes := filter isIphone sizes in
  let ipadSizes := filter (fun s => negb (isIphone s)) sizes in
  iphoneResults <-
    (if Nat.ltb 0 (length iphoneSizes) then
       console Log (MsgWave1 (map Size.device iphoneSizes)) ;;
       promiseAll schedule (map (fun size => processSize size yuzuUrl config) iphoneSizes)
     else ret []) ;;
  ipadResults <- collect ipadSizes (fun size =>
    console Log (MsgWaveSequential (Size.device size)) ;;
    processSize size yuzuUrl config) ;;
  let sizeResults := iphoneResults ++ ipadResults in
  let successCount := sumOf SizeResult.successCount sizeResults in
  let failureCount := sumOf SizeResult.failureCount sizeResults in
  console Log MsgRule ;;
  console Log MsgComplete ;;
  console Log MsgRule ;;
  console Log (MsgSuccess successCount totalScreenshots) ;;
  console Log (MsgFailures failureCount totalScreenshots) ;;
  if Nat.ltb 0 failureCount then
    console Log MsgSomeFailed ;;
    emit (ProcessExit 1) ;;
    ret (Exited 1)
  else
    console Log MsgAllGenerated ;;
    ret Finished.

(** The last statement of the script: [main().catch(...)], and the exit
    status the process ends with. *)
Definition execute (schedule : list nat) (config : Config.t) : Prog nat :=
  tryCatch
    (c <- main schedule config ;;
     match c with
     | Exited code => ret code
     | Finished => ret 0
     end)
    (fun error =>
       console ErrorLevel (MsgFatal (message error)) ;;
       emit (ProcessExit 1) ;;
       ret 1).

End Script.

(* ===================================================================== *)
(** ** A simulated environment *)
(* ===================================================================== *)

(** A small executable environment used to run the script on concrete
    inputs: a clock, a file system, one document with its three toggles,
    and switches for the faults the script has to survive. *)
Module Sim.

Record t := {
  clock : N;
  missing : list string;
  frame : bool;
  headline : bool;
  subheadline : bool;
  localUp : bool;
  launchable : bool;
  pageAlive : bool;
  downloads : bool;
  latency : N
}.

Definition tick (d : N) (w : t) : t :=
  {| clock := clock w + d; missing := missing w; frame := frame w;
     headline := headline w; subheadline := subheadline w; localUp := localUp w;
     launchable := launchable w; pageAlive := pageAlive w; downloads := downloads w;
     latency := latency w |}.

Definition setToggles (f h sh : bool) (w : t) : t :=
  {| clock := clock w; missing := missing w; frame := f;
     headline := h; subheadline := sh; localUp := localUp w;
     launchable := launchable w; pageAlive := pageAlive w; downloads := downloads w;
     latency := latency w |}.

Definition failure (msg : string) : Reply := Raised {| message := msg |}.

Definition isToggle (name : string) (l : Locator) : bool :=
  match l with
  | Css selector => String.eqb selector name
  | _ => false
  end.

Definition onPage (op : PageOp) (w : t) : Reply * t :=
  match op with
  | WaitForTimeout ms => (Done VUndefined, tick ms w)
  | Reload => (Done VUndefined, tick (latency w) (setToggles false (headline w) (subheadline w) w))
  | LocatorClick l _ =>
      let w' := tick (latency w) w in
      if isToggle "#frame-toggle" l
      then (Done VUndefined, setToggles (negb (frame w)) (headline w) (subheadline w) w')
      else if isToggle "#headline-toggle" l
      then (Done VUndefined, setToggles (frame w) (negb (headline w)) (subheadline w) w')
      else if isToggle "#subheadline-toggle" l
      then (Done VUndefined, setToggles (frame w) (headline w) (negb (subheadline w)) w')
      else (Done VUndefined, w')
  | LocatorEvaluate l ClassListContainsActive =>
      if isToggle "#frame-toggle" l then (Done (VBool (frame w)), w)
      else if isToggle "#headline-toggle" l then (Done (VBool (headline w)), w)
      else if isToggle "#subheadline-toggle" l then (Done (VBool (subheadline w)), w)
      else (Done (VBool false), w)
  | Evaluate CanvasHasContent => (Done (VBool true), w)
  | LocatorAll l =>
      if isToggle "#gradient-stops .gradient-stop" l then (Done (VNum 2), w)
      else (Done (VNum 0), w)
  | AwaitDownload =>
      if downloads w then (Done (VHandle 0), tick (latency w) w)
      else (failure "Timeout 30000ms exceeded while waiting for event download",
            tick DOWNLOAD_TIMEOUT_MS w)
  | _ => (Done VUndefined, tick (latency w) w)
  end.

Definition exec (act : Action) (w : t) : Reply * t :=
  match act with
  | Fetch _ _ =>
      if localUp w then (Done (VBool true), w) else (failure "fetch failed", w)
  | FsAccess path =>
      if existsb (String.eqb path) (missing w)
      then (failure "ENOENT: no such file or directory", w)
      else (Done VUndefined, w)
  | ChromiumLaunch =>
      if launchable w then (Done (VHandle 0), w)
      else (failure "browserType.launch: Executable does not exist", w)
  | OnPage _ op =>
      if pageAlive w then onPage op w
      else (failure "Target page, context or browser has been closed", w)
  | BrowserNewContext _ | ContextNewPage _ =>
      if pageAlive w then (Done (VHandle 0), w)
      else (failure "Target page, context or browser has been closed", w)
  | _ => (Done VUndefined, w)
  end.

(** Everything works, nothing takes time beyond the fixed waits. *)
Definition healthy : t :=
  {| clock := 0; missing := []; frame := false; headline := false; subheadline := true;
     localUp := true; launchable := true; pageAlive := true; downloads := true;
     latency := 0 |}.

Definition start (w : t) : St t := {| world := w; trace := [] |}.

End Sim.

(** Sample configuration values. *)
Module Sample.

Definition design : Design.t :=
  {| Design.background := {| Design.color1 := "#112233"; Design.color2 := "#445566";
                             Design.angle := 135 |};
     Design.device := {| Design.cornerRadius := None |};
     Design.text := {| Design.font := Some "Inter"; Design.headlineWeight := None;
                       Design.headlineColor := "#ffffff"; Design.verticalOffset := None |} |}.

Definition sizeOf (label : string) : Size.t :=
  {| Size.device := label; Size.width := 1320; Size.height := 2868;
     Size.yuzuDevice := None; Size.rawDir := None; Size.cornerRadius := None;
     Size.border := Some {| Border.width := 4; Border.color := "#000000";
                            Border.opacity := None |} |}.

Definition iphone : Size.t := sizeOf label_6_9.
Definition ipad : Size.t := sizeOf "iPad 13".

Definition home : Screenshot.t :=
  {| Screenshot.id := "home-screen"; Screenshot.titles := [("en", "Home"); ("de", "Start")] |}.
Definition search : Screenshot.t :=
  {| Screenshot.id := "search"; Screenshot.titles := [("en", "Search"); ("de", "Suche")] |}.
Definition onlyEnglish : Screenshot.t :=
  {| Screenshot.id := "intro"; Screenshot.titles := [("en", "Welcome")] |}.

Definition configOf (screenshots : list Screenshot.t) (sizes : list Size.t) : Config.t :=
  {| Config.screenshots := screenshots; Config.design := design;
     Config.output := {| Output.path := "output"; Output.sizes := sizes |} |}.

End Sample.

Definition messagesOf (tr : list Event) : list Message :=
  flat_map (fun ev => match fst ev with Console _ m => [m] | _ => [] end) tr.

(* ===================================================================== *)
(** ** Notions used by the properties *)
(* ===================================================================== *)

(** Following the specification's wording: one pass over the size label in
    which every double-quote character and every run of whitespace becomes
    a single underscore. *)
Fixpoint sanitizedLabel_from (inRun : bool) (label : string) : string :=
  match label with
  | EmptyString => EmptyString
  | String c rest =>
      if Js.is_dquote c then String "_" (sanitizedLabel_from false rest)
      else if Js.is_space c then
        (if inRun then sanitizedLabel_from true rest
         else String "_" (sanitizedLabel_from true rest))
      else String c (sanitizedLabel_from false rest)
  end.

Definition sanitizedLabel (label : string) : string := sanitizedLabel_from false label.

Fixpoint hasSlash (s : string) : bool :=
  match s with
  | EmptyString => false
  | String c rest => Path.is_slash c || hasSlash rest
  end.

(** A path segment that [path.join] leaves as it is: not empty, not a dot
    segment, free of slashes. *)
Definition plainSegment (seg : string) : bool :=
  negb (String.eqb seg "") && negb (String.eqb seg ".") && negb (String.eqb seg "..")
  && negb (hasSlash seg).

(** The absolute path made of the given segments. *)
Definition absolute (segs : list string) : string := String "/" (String.concat "/" segs).

(** A size entry that differs from [Sample.sizeOf label] in nothing. *)
Definition taskPath (outputDir : string) (task : string * string * string) : string :=
  let '(locale, label, screenshotId) := task in
  outputPathOf outputDir locale (Sample.sizeOf label) screenshotId.

(** The probe of the local instance. *)
Definition probe : Action := Fetch LOCAL_URL 3000%N.

(** The state after a silent call. *)
Definition note {World : Type} (act : Action) (st : St World) : St World :=
  {| world := world st; trace := trace st ++ [(act, Done VUndefined)] |}.

(** The attempt numbers of the entries into [processScreenshot], in order. *)
Definition attemptsEntered (tr : list Event) : list nat :=
  flat_map (fun ev => match fst ev with Enter _ _ _ _ attempt => [attempt] | _ => [] end) tr.

(** The page operations performed, in order. *)
Definition pageOps (tr : list Event) : list (handle * PageOp) :=
  flat_map (fun ev => match fst ev with
                      | OnPage p op => if silent (OnPage p op) then [] else [(p, op)]
                      | _ => []
                      end) tr.

(** Sample environments. *)
Module Worlds.

(** The German source image of the home screen is missing. *)
Definition missingSource : Sim.t :=
  {| Sim.clock := 0; Sim.missing := ["/repo/raw/de/home-screen.png"];
     Sim.frame := false; Sim.headline := false; Sim.subheadline := true;
     Sim.localUp := true; Sim.launchable := true; Sim.pageAlive := true;
     Sim.downloads := true; Sim.latency := 0 |}.

(** The export never produces a download. *)
Definition noDownload : Sim.t :=
  {| Sim.clock := 0; Sim.missing := [];
     Sim.frame := false; Sim.headline := false; Sim.subheadline := true;
     Sim.localUp := true; Sim.launchable := true; Sim.pageAlive := true;
     Sim.downloads := false; Sim.latency := 0 |}.

(** The page is gone: every call on it, and every new context, fails. *)
Definition deadPage : Sim.t :=
  {| Sim.clock := 0; Sim.missing := [];
     Sim.frame := false; Sim.headline := false; Sim.subheadline := true;
     Sim.localUp := true; Sim.launchable := true; Sim.pageAlive := false;
     Sim.downloads := true; Sim.latency := 0 |}.

(** The browser cannot be launched. *)
Definition noBrowser : Sim.t :=
  {| Sim.clock := 0; Sim.missing := [];
     Sim.frame := false; Sim.headline := false; Sim.subheadline := true;
     Sim.localUp := true; Sim.launchable := false; Sim.pageAlive := true;
     Sim.downloads := true; Sim.latency := 0 |}.

(** Everything works, and every UI operation takes 3 seconds. *)
Definition slow : Sim.t :=
  {| Sim.clock := 0; Sim.missing := [];
     Sim.frame := false; Sim.headline := false; Sim.subheadline := true;
     Sim.localUp := true; Sim.launchable := true; Sim.pageAlive := true;
     Sim.downloads := true; Sim.latency := 3000 |}.

(** A document whose three toggles are in the given states. *)
Definition toggled (f h sh : bool) : Sim.t := Sim.setToggles f h sh Sim.healthy.

End Worlds.

(** Flip semantics of a toggle control on [page], in the states where the
    page is usable ([alive]): reading the class list tells whether the
    toggle is [active] and changes nothing; a click inverts it; waiting
    leaves it as it is. *)
Record Flips {World : Type} (exec : Action -> World -> Reply * World)
    (page : handle) (toggle : Locator) (alive : World -> Prop) (active : World -> bool)
  : Prop := {
  flips_read : forall w, alive w ->
    exists w', exec (OnPage page (LocatorEvaluate toggle ClassListContainsActive)) w
               = (Done (VBool (active w)), w')
               /\ alive w' /\ active w' = active w;
  flips_click : forall w timeout, alive w ->
    exists v w', exec (OnPage page (LocatorClick toggle timeout)) w = (Done v, w')
                 /\ alive w' /\ active w' = negb (active w);
  flips_wait : forall w ms, alive w ->
    exists v w', exec (OnPage page (WaitForTimeout ms)) w = (Done v, w')
                 /\ alive w' /\ active w' = active w
}.

(** Every action a program can perform, whatever the replies, satisfies
    [ok], and every result it can end with satisfies [leaf]. *)
Fixpoint always {X} (ok : Action -> Prop) (leaf : X -> Prop) (t : Tree X) : Prop :=
  match t with
  | Ret x => leaf x
  | Do act k => ok act /\ forall r, always ok leaf (k r)
  end.

(** A function body that performs [ok] actions only and assigns to none of
    the variables in scope. *)
Definition Always {A} (ok : Action -> Prop) (p : Prog A) : Prop :=
  forall s, always ok (fun r => snd r = s) (p s).

(** The replies a program can get: a silent call returns [undefined]. *)
Definition quiet (act : Action) (r : Reply) : Prop :=
  silent act = true -> r = Done VUndefined.

(** [wp t Q]: on every path through [t] along such replies, the events
    performed and the result satisfy [Q]. *)
Fixpoint wp {X} (t : Tree X) (Q : list Event -> X -> Prop) : Prop :=
  match t with
  | Ret x => Q [] x
  | Do act k => forall r, quiet act r -> wp (k r) (fun evs x => Q ((act, r) :: evs) x)
  end.

Definition isEnter (act : Action) : bool :=
  match act with
  | Enter _ _ _ _ _ => true
  | _ => false
  end.

(** What one task may do: work on its own page, touch the file system,
    save a download, write to the console. It creates and closes nothing. *)
Definition taskAction (page : handle) (act : Action) : Prop :=
  match act with
  | OnPage p _ => p = page
  | FsAccess _ | FsMkdir _ | DownloadSaveAs _ _ | Console _ _ => True
  | _ => False
  end.

(** The same, or an entry into [processScreenshot] for that page and task
    with an attempt number of at least [lowest]. *)
Definition taskOrEnterFrom (lowest : nat) (page : handle) (screenshotId locale device : string)
    (act : Action) : Prop :=
  taskAction page act
  \/ exists attempt, lowest <= attempt /\ act = Enter page screenshotId locale device attempt.

(** The run of attempt number [attempt]: the entry mark, then the steps of
    the [try] block. *)
Definition attemptRun {World : Type} (exec : Action -> World -> Reply * World)
    (dir : string) (page : handle) (screenshot : Screenshot.t) (locale : string)
    (size : Size.t) (design : Design.t) (outputDir : string) (attempt : nat)
    (s : Store) (st : St World) : (Outcome bool * Store) * St World :=
  run exec (attemptSteps dir page screenshot locale size design outputDir attempt s)
      (note (Enter page (Screenshot.id screenshot) locale (Size.device size) attempt) st).

(** The run of the [catch] block up to the recursive call, after an attempt
    that ended in [r] by throwing [e]: the error line, then the reset. *)
Definition resetRun {World : Type} (exec : Action -> World -> Reply * World)
    (page : handle) (screenshot : Screenshot.t) (locale : string) (size : Size.t)
    (e : Error) (r : (Outcome bool * Store) * St World) : (Outcome unit * Store) * St World :=
  let logPrefix := logPrefixOf locale size (Screenshot.id screenshot) in
  run exec (retryReset page logPrefix (snd (fst r)))
      (note (Console ErrorLevel (MsgError logPrefix (message e))) (snd r)).

(** What [detectYuzuUrl] may do: probe, and report its choice. *)
Definition detectAction (act : Action) : Prop :=
  match act with
  | Fetch _ _ => True
  | Console Log (MsgUsingCliUrl _) | Console Log MsgUsingLocal | Console Log MsgUsingDemo => True
  | _ => False
  end.

(** The four lines [main] starts with. *)
Definition banner : list Event :=
  [(Console Log MsgRule, Done VUndefined); (Console Log MsgAppName, Done VUndefined);
   (Console Log MsgEngineName, Done VUndefined); (Console Log MsgRule, Done VUndefined)].

(* ===================================================================== *)
(** ** Notions about the tasks of a run *)
(* ===================================================================== *)

(** A task starts with the entry into [processScreenshot] at attempt 1. *)
Definition startsTaskOn (page : handle) (ev : Event) : bool :=
  match fst ev with
  | Enter p _ _ _ 1 => Nat.eqb p page
  | _ => false
  end.

Definition isTaskStart (ev : Event) : bool :=
  match fst ev with
  | Enter _ _ _ _ 1 => true
  | _ => false
  end.

(** The number of tasks started on [page]. *)
Definition tasksStartedOn (page : handle) (evs : list Event) : nat :=
  length (filter (startsTaskOn page) evs).

(** The task ([screenshotId], [locale], [device]) was started. *)
Definition entered (evs : list Event) (screenshotId locale device : string) : Prop :=
  exists page, In (Enter page screenshotId locale device 1, Done VUndefined) evs.

(** Events [k] and [k + 1] are the creation of the context [c] and, in it,
    of the page [q]. *)
Definition createdAt (evs : list Event) (k : nat) (c q : handle) : Prop :=
  exists b x v,
    nth_error evs k = Some (BrowserNewContext b, Done x)
    /\ nth_error evs (S k) = Some (ContextNewPage c, Done v)
    /\ as_handle x = c /\ as_handle v = q.

(** No two page creations returned the same page. *)
Definition distinctPages (evs : list Event) : Prop :=
  forall a b c c' v v',
    nth_error evs a = Some (ContextNewPage c, Done v) ->
    nth_error evs b = Some (ContextNewPage c', Done v') ->
    as_handle v = as_handle v' -> a = b.

(** The number of (screenshot, locale) pairs the loops of [processSize]
    visit, and the number of tasks of a run. *)
Definition pairsOf (screenshots : list Screenshot.t) : nat :=
  list_sum (map (fun screenshot => length (keys (Screenshot.titles screenshot))) screenshots).

Definition declaredTasks (config : Config.t) : nat :=
  pairsOf (Config.screenshots config) * length (Output.sizes (Config.output config)).

(** [totalScreenshots] as [main] computes it, from the first screenshot. *)
Definition totalExpected (config : Config.t) : nat :=
  length (Config.screenshots config)
  * length (keys (Screenshot.titles
                    (hd {| Screenshot.id := ""; Screenshot.titles := [] |}
                        (Config.screenshots config))))
  * length (Output.sizes (Config.output config)).

(** [processScreenshot] after its entry mark: the [try] with its [catch]. *)
Definition afterEntry (dir : string) (fuel : nat) (page : handle) (screenshot : Screenshot.t)
    (locale : string) (size : Size.t) (design : Design.t) (outputDir : string)
    (attempt : nat) : Prog bool :=
  let logPrefix := logPrefixOf locale size (Screenshot.id screenshot) in
  (tryCatch
     (attemptSteps dir page screenshot locale size design outputDir attempt)
     (fun error =>
        console ErrorLevel (MsgError logPrefix (message error)) ;;
        if Nat.ltb attempt MAX_RETRIES then
          retryReset page logPrefix ;;
          match fuel with
          | S fuel' =>
              processScreenshot_rec dir fuel' page screenshot locale size design outputDir
                                    (attempt + 1)
          | O => throw outOfFuel
          end
        else
          console ErrorLevel (MsgFailedAfter logPrefix MAX_RETRIES) ;;
          ret false))%prog.

(** Event [i] is the start of a task on page [p]. *)
Definition taskStartAt (evs : list Event) (i : nat) (p : handle) : Prop :=
  exists screenshotId locale device r,
    nth_error evs i = Some (Enter p screenshotId locale device 1, r).

Definition noStarts (evs : list Event) : Prop :=
  Forall (fun ev => isTaskStart ev = false) evs.

(** Every task ran on a page created, with its context, before the task. *)
Definition pagesCreatedBefore (evs : list Event) : Prop :=
  forall i p, taskStartAt evs i p -> exists k c, S k < i /\ createdAt evs k c p.

(** Every task so far ran on the current page, or the current page was
    created after that task began. *)
Definition currentOrLater (evs : list Event) (current : handle) : Prop :=
  forall i p, taskStartAt evs i p ->
    p = current \/ exists k c, i < k /\ createdAt evs k c current.

(** Of two tasks, the later one ran on the same page as the earlier one or
    on a page created, with its context, between the two. *)
Definition forwardOnly (evs : list Event) : Prop :=
  forall i j p q, i < j -> taskStartAt evs i p -> taskStartAt evs j q ->
    q = p \/ exists k c, i < k /\ S k < j /\ createdAt evs k c q.

Definition bounded (interval : nat) (evs : list Event) : Prop :=
  forall p, tasksStartedOn p evs <= interval.

(** What holds of the sessions of one size at every moment. *)
Definition Safe (interval : nat) (evs : list Event) : Prop :=
  forwardOnly evs /\ (distinctPages evs -> bounded interval evs).

(** The same with the current page [current] on which [m] tasks started. *)
Definition Sessions (interval : nat) (evs : list Event) (current : handle) (m : nat) : Prop :=
  (exists k c, createdAt evs k c current)
  /\ pagesCreatedBefore evs
  /\ currentOrLater evs current
  /\ forwardOnly evs
  /\ (distinctPages evs ->
      tasksStartedOn current evs = m
      /\ forall p, p <> current -> tasksStartedOn p evs <= interval).

(** The variables of the loop of [processSize] are the same in [s'] as in
    [s]; [browser] may differ. *)
Definition sameTask (s s' : Store) : Prop :=
  context s' = context s /\ page s' = page s
  /\ processedInContext s' = processedInContext s
  /\ successCount s' = successCount s /\ failureCount s' = failureCount s.

(** Actions of the session management: nothing of a task. *)
Definition sessionAction (act : Action) : Prop := isEnter act = false.

(** Between two iterations of the loop of [processSize]: a session is
    current, [n] outcomes are counted, and the counter of the session is
    within the interval and tells the tasks started on its page. *)
Definition LoopInv (interval n : nat) (tr : list Event) (s : Store) : Prop :=
  exists ctx cur,
    context s = Some ctx /\ page s = Some cur
    /\ successCount s + failureCount s = n
    /\ processedInContext s <= interval
    /\ Sessions interval tr cur (processedInContext s).

(** After the refresh check of an iteration: the same, with room for one
    more task in the session. *)
Definition TaskReady (interval n : nat) (tr : list Event) (s : Store) : Prop :=
  exists ctx cur,
    context s = Some ctx /\ page s = Some cur
    /\ successCount s + failureCount s = n
    /\ processedInContext s < interval
    /\ Sessions interval tr cur (processedInContext s).

(** After the task of an iteration, before the counters are updated. *)
Definition TaskDone (interval n : nat) (tr : list Event) (s : Store) : Prop :=
  exists ctx cur,
    context s = Some ctx /\ page s = Some cur
    /\ successCount s + failureCount s = n
    /\ processedInContext s < interval
    /\ Sessions interval tr cur (S (processedInContext s)).

(** Every (screenshot, locale) pair of the configuration was started for
    the size labelled [device]. *)
Definition allEntered (evs : list Event) (screenshots : list Screenshot.t) (device : string)
  : Prop :=
  forall screenshot, In screenshot screenshots ->
  forall locale, In locale (keys (Screenshot.titles screenshot)) ->
    entered evs (Screenshot.id screenshot) locale device.

(** What is known of the result [a] of one promise or one collected call:
    its own events are among the events of the whole, and they satisfy its
    specification. *)
Definition settled {A} (evs : list Event) (Q : list Event -> Outcome A * Store -> Prop) (a : A)
  : Prop :=
  exists evs' s', incl evs' evs /\ Q evs' (Returned a, s').

(** What a result of [processSize] for [size] says. *)
Definition sizeOutcome (config : Config.t) (size : Size.t) (evs : list Event)
    (r : Outcome SizeResult.t * Store) : Prop :=
  match fst r with
  | Returned result =>
      SizeResult.successCount result + SizeResult.failureCount result
      = pairsOf (Config.screenshots config)
      /\ allEntered evs (Config.screenshots config) (Size.device size)
  | Threw _ => True
  end.

(** The lines that end [main], with the aggregated counters. *)
Definition summaryEvents (successCount failureCount total : nat) : list Event :=
  [(Console Log MsgRule, Done VUndefined);
   (Console Log MsgComplete, Done VUndefined);
   (Console Log MsgRule, Done VUndefined);
   (Console Log (MsgSuccess successCount total), Done VUndefined);
   (Console Log (MsgFailures failureCount total), Done VUndefined)]
  ++ (if Nat.ltb 0 failureCount
      then [(Console Log MsgSomeFailed, Done VUndefined); (ProcessExit 1, Done VUndefined)]
      else [(Console Log MsgAllGenerated, Done VUndefined)]).

(** The two lines of the top-level catch. *)
Definition fatalEvents (errorMessage : string) : list Event :=
  [(Console ErrorLevel (MsgFatal errorMessage), Done VUndefined);
   (ProcessExit 1, Done VUndefined)].

(** Every screenshot declares as many locales as the first one. *)
Definition uniformLocales (config : Config.t) : Prop :=
  forall screenshot, In screenshot (Config.screenshots config) ->
    length (keys (Screenshot.titles screenshot))
    = length (keys (Screenshot.titles
                      (hd {| Screenshot.id := ""; Screenshot.titles := [] |}
                          (Config.screenshots config)))).

(** [main] completed: its events end with the summary for the counters
    [sc] and [fc]; the counters account for every declared task, and every
    declared task was started before the summary. *)
Definition completed (config : Config.t) (evs : list Event) (sc fc : nat) : Prop :=
  exists pre,
    evs = pre ++ summaryEvents sc fc (totalExpected config)
    /\ sc + fc = declaredTasks config
    /\ forall size, In size (Output.sizes (Config.output config)) ->
         allEntered pre (Config.screenshots config) (Size.device size).

(** Sample configurations. *)
Module Configs.

(** Two screenshots, two locales each, one size: four tasks. *)
Definition uniform : Config.t := Sample.configOf [Sample.home; Sample.search] [Sample.iphone].

(** The first screenshot declares one locale, the second two: three tasks. *)
Definition mixed : Config.t := Sample.configOf [Sample.onlyEnglish; Sample.home] [Sample.iphone].

End Configs.

(* ===================================================================== *)
(** ** Notions used by the properties of the helper functions *)
(* ===================================================================== *)

(** Some code unit of [s] satisfies [p]. *)
Fixpoint anyChar (p : ascii -> bool) (s : string) : bool :=
  match s with
  | EmptyString => false
  | String c rest => p c || anyChar p rest
  end.

(** The capitals A to Z. *)
Definition is_capital (c : ascii) : bool :=
  let n := nat_of_ascii c in Nat.leb 65 n && Nat.leb n 90.

(** What [sanitizeSize] is there to remove. *)
Definition quoteOrSpace (c : ascii) : bool := Js.is_dquote c || Js.is_space c.

(** The number of events whose action satisfies [f]. *)
Definition countIf (f : Action -> bool) (evs : list Event) : nat :=
  length (filter (fun ev => f (fst ev)) evs).

(** An exception that leaves a function was raised by the last call it
    awaited, and that call satisfies [ok]. *)
Definition throwsFrom {A} (ok : Action -> Prop) (evs : list Event) (r : Outcome A * Store)
  : Prop :=
  forall e, fst r = Threw e -> exists pre act, evs = pre ++ [(act, Raised e)] /\ ok act.

Definition Throws {A} (ok : Action -> Prop) (p : Prog A) : Prop :=
  forall s, wp (p s) (throwsFrom ok).

Definition isFetch (act : Action) : bool :=
  match act with
  | Fetch _ _ => true
  | _ => false
  end.

Definition isListing (act : Action) : bool :=
  match act with
  | OnPage _ (LocatorAll _) => true
  | _ => false
  end.

Definition isSetInputFiles (act : Action) : bool :=
  match act with
  | OnPage _ (LocatorSetInputFiles _ _) => true
  | _ => false
  end.

(** How a list of events ends. *)
Definition endsWith (evs : list Event) (suffix : list Event) : Prop :=
  exists pre, evs = pre ++ suffix.

(** The last event is a call that raised. *)
Definition endsRaised (evs : list Event) : Prop :=
  exists pre act e, evs = pre ++ [(act, Raised e)].

(** What the loop of [clearYuzuScreenshots] does on [page]: list the
    items, click, wait. *)
Definition clearAction (page : handle) (act : Action) : Prop :=
  match act with
  | OnPage p (LocatorAll _) | OnPage p (LocatorClick _ _) | OnPage p (Click _ _)
  | OnPage p (WaitForTimeout _) => p = page
  | _ => False
  end.

(** How the events of a task end, by its outcome: the download was saved
    to the output path and the line of success written; the source image
    was found missing; the third attempt failed. *)
Definition savedAs (outputPath logPrefix : string) (evs : list Event) : Prop :=
  exists d v,
    endsWith evs [(DownloadSaveAs d outputPath, Done v);
                  (Console Log (MsgDone logPrefix), Done VUndefined)].

Definition sourceMissing (rawPath logPrefix : string) (evs : list Event) : Prop :=
  exists e,
    endsWith evs [(FsAccess rawPath, Raised e);
                  (Console ErrorLevel (MsgRawNotFound logPrefix rawPath), Done VUndefined)].

Definition gaveUp (logPrefix : string) (evs : list Event) : Prop :=
  exists errorMessage,
    endsWith evs [(Console ErrorLevel (MsgError logPrefix errorMessage), Done VUndefined);
                  (Console ErrorLevel (MsgFailedAfter logPrefix MAX_RETRIES), Done VUndefined)].

(** The page operations of the catch block of [processScreenshot]. *)
Definition resetOp (op : PageOp) : Prop :=
  op = WaitForTimeout 1500%N \/ op = Reload \/ op = WaitForTimeout 1000%N.

(* ===================================================================== *)
(** ** Notions about browsers and sessions *)
(* ===================================================================== *)

Definition isLaunch (act : Action) : bool :=
  match act with
  | ChromiumLaunch => true
  | _ => false
  end.

(** The line [createFreshPage] writes before it relaunches the browser. *)
Definition crashLine : Event := (Console Log MsgBrowserCrashed, Done VUndefined).

(** The exception [e] was raised by the last event, after the crash line
    and with no task started in between: the second attempt of
    [createFreshPage] failed. *)
Definition afterCrash (evs : list Event) (e : Error) : Prop :=
  exists pre mid act,
    evs = pre ++ crashLine :: mid ++ [(act, Raised e)] /\ noStarts mid.

Definition throwsAfterCrash {A} (evs : list Event) (r : Outcome A * Store) : Prop :=
  forall e, fst r = Threw e -> afterCrash evs e.

Definition CrashThrows {A} (p : Prog A) : Prop :=
  forall s, wp (p s) throwsAfterCrash.

(** Event [i] is a successful launch that returned the browser [h]; a
    later event is the closing of [h]. *)
Definition launchedAt (evs : list Event) (i : nat) (h : handle) : Prop :=
  exists v, nth_error evs i = Some (ChromiumLaunch, Done v) /\ as_handle v = h.

Definition closedLater (evs : list Event) (i : nat) (h : handle) : Prop :=
  exists j r, i < j /\ nth_error evs j = Some (BrowserClose h, r).

(** Every browser launched was closed, or at least asked to close. *)
Definition browsersClosed (evs : list Event) : Prop :=
  forall i h, launchedAt evs i h -> closedLater evs i h.

(** The same but for the browser the variable [browser] holds. *)
Definition Tracked (evs : list Event) (s : Store) : Prop :=
  exists b, browser s = Some b
            /\ forall i h, launchedAt evs i h -> h = b \/ closedLater evs i h.

(** [inv] holds of the events and the variables along every path of [p],
    also when [p] throws. *)
Definition Keeps {A} (inv : list Event -> Store -> Prop) (p : Prog A) : Prop :=
  forall tr s, inv tr s -> wp (p s) (fun evs r => inv (tr ++ evs) (snd r)).

Definition noLaunch (act : Action) : Prop := isLaunch act = false.

Definition closesBrowser (act : Action) : Prop := exists b, act = BrowserClose b.

(** Console output and the probe of the local instance: nothing that
    touches a browser or the file system. *)
Definition reportsOnly (act : Action) : Prop :=
  match act with
  | Console _ _ | Fetch _ _ | ProcessExit _ => True
  | _ => False
  end.

(* ===================================================================== *)
(** ** Notions about the control surface *)
(* ===================================================================== *)

(** What [selectOutputSize] clicks: the trigger of the dropdown, or a
    device option whose key holds no double quote and no whitespace. Of the
    other characters of the key nothing is said: a backslash of the label,
    for one, is kept (see [attr_backslash]). *)
Definition sizeSelectorOk (act : Action) : Prop :=
  match act with
  | OnPage _ (Click selector _) =>
      selector = "#output-size-trigger"
      \/ exists key, selector = deviceOption key /\ anyChar quoteOrSpace key = false
  | _ => True
  end.

Definition isCornerRadius (act : Action) : bool :=
  match act with
  | OnPage _ (Evaluate (SetCornerRadius _)) => true
  | _ => false
  end.

(** The four steps of the position preset in [configureDevice]. *)
Definition presetStep (page : handle) (act : Action) : Prop :=
  act = OnPage page (Click "#position-preset-trigger" None)
  \/ act = OnPage page (WaitForSelector "#position-preset-content" 3000%N)
  \/ act = OnPage page
             (Click ("button.position-preset[data-preset=" ++ quoted "bleed-bottom" ++ "]")%string
                    None)
  \/ act = OnPage page (WaitForTimeout 300%N).

(** An action that leaves the frame alone. *)
Definition leavesFrame (act : Action) : Prop :=
  match act with
  | OnPage _ (LocatorClick _ _) | OnPage _ (LocatorEvaluate _ _)
  | OnPage _ (Evaluate (SetFrameProps _ _ _)) => False
  | _ => True
  end.

(* ===================================================================== *)
(** ** Fixed waits *)
(* ===================================================================== *)

(** The milliseconds of a [waitForTimeout] that completed. *)
Definition waitOf (ev : Event) : N :=
  match ev with
  | (OnPage _ (WaitForTimeout ms), Done _) => ms
  | _ => 0%N
  end.

(** The fixed waits of a list of events, in milliseconds. *)
Definition waited (evs : list Event) : N :=
  fold_right (fun ev total => (waitOf ev + total)%N) 0%N evs.

(** On every path the fixed waits of [p] add up to at most [ub], and to at
    least [lb] when [p] returns. *)
Definition Waits {A} (lb ub : N) (p : Prog A) : Prop :=
  forall s, wp (p s) (fun evs r =>
    (waited evs <= ub)%N /\ (forall a, fst r = Returned a -> (lb <= waited evs)%N)).

Definition waitless (act : Action) : Prop :=
  match act with
  | OnPage _ (WaitForTimeout _) => False
  | _ => True
  end.

Definition isLocatorFill (act : Action) : bool :=
  match act with
  | OnPage _ (LocatorFill _ _) => true
  | _ => false
  end.

Definition gradientStops : Locator := Css "#gradient-stops .gradient-stop".

(** Whenever the headline text is filled, it is filled with [title]. *)
Definition headlineIs (title : string) (act : Action) : Prop :=
  match act with
  | OnPage _ (Fill selector value) => String.eqb selector "#headline-text" = true -> value = title
  | _ => True
  end.

(* ===================================================================== *)
(** ** The download listener and the runtime *)
(* ===================================================================== *)

(** A listener left without handler: the export click (line 392) raised,
    so that the [await] of the listener's promise (line 395) is never
    reached. Node (from version 15 on) ends the process with status 1 as
    soon as a promise without handler rejects, whatever the script is doing
    then, and the promise of the listener rejects when no download arrives
    within DOWNLOAD_TIMEOUT_MS or when the page closes. From such an event
    on, the events of a run are those of the script only for as long as the
    runtime lets the process live. *)
Definition abandonsListener (ev : Event) : bool :=
  match ev with
  | (OnPage _ (Click selector _), Raised _) => String.eqb selector "#export-current"
  | _ => false
  end.

(** No export click raised: every listener that was armed got its handler,
    and the process ends the way the script ends it. *)
Definition listenersHandled (evs : list Event) : bool :=
  forallb (fun ev => negb (abandonsListener ev)) evs.

(* ===================================================================== *)
(** ** Notions about the attempts of a task *)
(* ===================================================================== *)

(** Following the claim's wording: the reload and reconfiguration sequence
    of an attempt, that is reload, settle, reselect the size, upload,
    configure background, device and text, export. *)
Definition reconfigureSequence (dir : string) (page : handle) (screenshot : Screenshot.t)
    (locale : string) (size : Size.t) (design : Design.t) (outputDir : string)
  : list (Prog unit) :=
  let screenshotId := Screenshot.id screenshot in
  [page_reload page;
   page_waitForTimeout page 500%N;
   selectOutputSize page size;
   uploadScreenshot page (rawPathOf dir size locale screenshotId);
   configureBackground page design;
   configureDevice page design size;
   configureText page design (lookup (Screenshot.titles screenshot) locale);
   exportScreenshot page (outputPathOf outputDir locale size screenshotId)].

(** The steps one after the other, each one run when the one before it
    returned. *)
Definition inOrder (steps : list (Prog unit)) : Prog unit :=
  forEach steps (fun step => step).

(** The attempt number [attempt], started in [before] and ended in [after],
    ran the sequence up to the step that raised [e]: after the entry mark
    the access check passed and the progress line was written; from there
    the steps of the sequence ran in order until one of them threw [e];
    [e] was raised by the last call of the attempt. *)
Definition ranUpToRaise {World : Type} (exec : Action -> World -> Reply * World)
    (dir : string) (page : handle) (screenshot : Screenshot.t) (locale : string)
    (size : Size.t) (design : Design.t) (outputDir : string) (attempt : nat)
    (s : Store) (before : St World) (e : Error) (after : St World) : Prop :=
  let screenshotId := Screenshot.id screenshot in
  let rawPath := rawPathOf dir size locale screenshotId in
  let logPrefix := logPrefixOf locale size screenshotId in
  exists v w s',
    exec (FsAccess rawPath) (world before) = (Done v, w)
    /\ run exec
           (inOrder (reconfigureSequence dir page screenshot locale size design outputDir) s)
           {| world := w;
              trace := trace before
                       ++ [(Enter page screenshotId locale (Size.device size) attempt,
                            Done VUndefined);
                           (FsAccess rawPath, Done v);
                           (Console Log (MsgProcessing logPrefix attempt MAX_RETRIES),
                            Done VUndefined)] |}
       = ((Threw e, s'), after)
    /\ exists pre act, trace after = pre ++ [(act, Raised e)].

(* ===================================================================== *)
(** ** Notions about the verdicts of a run *)
(* ===================================================================== *)

(** The line that closes a task that succeeded (line 442). *)
Definition isDoneLine (act : Action) : bool :=
  match act with
  | Console _ (MsgDone _) => true
  | _ => false
  end.

(** The lines that close a task that failed: the source image is missing
    (line 420), the last attempt failed (line 456), the second call after a
    recovery threw (line 545). *)
Definition isFailureLine (act : Action) : bool :=
  match act with
  | Console _ (MsgRawNotFound _ _) | Console _ (MsgFailedAfter _ _)
  | Console _ (MsgSkipping _) => true
  | _ => false
  end.

Definition isVerdictLine (act : Action) : bool := isDoneLine act || isFailureLine act.

(** An action that is no verdict on a task. *)
Definition noVerdict (act : Action) : Prop := isVerdictLine act = false.

(** The verdict lines among the events of one call of [processScreenshot]
    that ended with [o]: one line of success when it returned true, one
    line of failure when it returned false, none when it threw. *)
Definition callVerdict (o : Outcome bool) (evs : list Event) : Prop :=
  countIf isDoneLine evs = match o with Returned true => 1 | _ => 0 end
  /\ countIf isFailureLine evs = match o with Returned false => 1 | _ => 0 end.

(** The counters of [processSize] tell the verdict lines written so far. *)
Definition Tallied (tr : list Event) (s : Store) : Prop :=
  successCount s = countIf isDoneLine tr /\ failureCount s = countIf isFailureLine tr.

(** The same with the verdict of the current task written but not yet
    counted. *)
Definition TalliedBut (success : bool) (tr : list Event) (s : Store) : Prop :=
  successCount s + (if success then 1 else 0) = countIf isDoneLine tr
  /\ failureCount s + (if success then 0 else 1) = countIf isFailureLine tr.

(** The calls that open a session: a new context, a new page in it, the
    navigation to the tool, and the waits, clicks and fills that select the
    output size. *)
Definition opensSession (act : Action) : Prop :=
  match act with
  | BrowserNewContext _ | ContextNewPage _ => True
  | OnPage _ (Goto _) | OnPage _ (WaitForTimeout _) | OnPage _ (Click _ _)
  | OnPage _ (WaitForSelector _ _) | OnPage _ (Fill _ _)
  | OnPage _ (Evaluate DispatchCustomSizeEvents) => True
  | _ => False
  end.

(** The error [e] was raised by a launch of the browser, or, after the line
    that announces a relaunch, by one of the calls that open a session. *)
Definition raisedOutsideTasks (evs : list Event) (e : Error) : Prop :=
  exists before act after,
    evs = before ++ (act, Raised e) :: after
    /\ (act = ChromiumLaunch \/ (In crashLine before /\ opensSession act)).

(** When [p] throws, its events and the exception satisfy [P]. *)
Definition Rejects (P : list Event -> Error -> Prop) {A} (p : Prog A) : Prop :=
  forall s, wp (p s) (fun evs r => forall e, fst r = Threw e -> P evs e).

(** A property of event lists that survives the insertion of an event. *)
Definition insertable (C : list Event -> Error -> Prop) : Prop :=
  forall a b ev e, C (a ++ b) e -> C (a ++ ev :: b) e.

(** What makes [main] reject with [e] after the events [pre]: an empty
    screenshot list, whose first element cannot be read; a browser that
    cannot be launched; a session that cannot be opened after a relaunch. *)
Definition fatalCause (config : Config.t) (pre : list Event) (e : Error) : Prop :=
  (Config.screenshots config = [] /\ e = typeError "titles")
  \/ raisedOutsideTasks pre e.

(** The simulated environment with an export button that cannot be
    clicked: the click times out, every other call is answered as before. *)
Definition execStuckExport (act : Action) (w : Sim.t) : Reply * Sim.t :=
  match act with
  | OnPage _ (Click selector _) =>
      if String.eqb selector "#export-current"
      then (Sim.failure "Timeout 30000ms exceeded", Sim.tick 30000 w)
      else Sim.exec act w
  | _ => Sim.exec act w
  end.

(* ===================================================================== *)
(** ** Sanity checks of the helpers *)
(* ===================================================================== *)

Example sanitize_t : sanitizeSize label_6_9 = "iPhone_6.9_".
Proof. reflexivity. Qed.
Example attr_t : getDeviceSelectorAttr label_6_9 = "iphone-6.9".
Proof. reflexivity. Qed.
(** A backslash (code unit 92) of the label is kept in the key. *)
Example attr_backslash :
  getDeviceSelectorAttr ("iPad 13" ++ String "092"%char "")
  = ("ipad-13" ++ String "092"%char "")%string.
Proof. reflexivity. Qed.
Example join_t : Path.join ["/repo"; "out/"; "de"; "a b"; "x.png"] = "/repo/out/de/a b/x.png".
Proof. reflexivity. Qed.
Example join_t2 : Path.join ["/repo"; "../out"; ""; "./x.png"] = "/out/x.png".
Proof. reflexivity. Qed.
Example dirname_t : Path.dirname "/a/b/c.png" = "/a/b".
Proof. reflexivity. Qed.
Example dirname_t2 : Path.dirname "a//b" = "a/".
Proof. reflexivity. Qed.
Example dirname_t3 : Path.dirname "/a" = "/".
Proof. reflexivity. Qed.
Example dirname_t4 : Path.dirname "/a/b/" = "/a".
Proof. reflexivity. Qed.

(* ===================================================================== *)
(** ** Equations of the semantics *)
(* ===================================================================== *)

Section RunFacts.

Context {World : Type}.
Variable exec : Action -> World -> Reply * World.

Lemma run_tbind {X Y} (t : Tree X) (f : X -> Tree Y) (st : St World) :
  run exec (tbind t f) st = run exec (f (fst (run exec t st))) (snd (run exec t st)).
Proof.
  revert st. induction t as [x | act k IH]; intros st; simpl.
  - reflexivity.
  - destruct (step exec act st) as [r st']. apply IH.
Qed.

Lemma run_ret {A} (a : A) s st : run exec (ret a s) st = ((Returned a, s), st).
Proof. reflexivity. Qed.

Lemma run_throw {A} (e : Error) s st : run exec (@throw A e s) st = ((Threw e, s), st).
Proof. reflexivity. Qed.

Lemma run_bind {A B} (p : Prog A) (f : A -> Prog B) s st :
  run exec (bind p f s) st =
  match fst (fst (run exec (p s) st)) with
  | Returned a => run exec (f a (snd (fst (run exec (p s) st)))) (snd (run exec (p s) st))
  | Threw e => ((Threw e, snd (fst (run exec (p s) st))), snd (run exec (p s) st))
  end.
Proof.
  unfold bind. rewrite run_tbind.
  destruct (run exec (p s) st) as [[o s'] st']; simpl. destruct o; reflexivity.
Qed.

Lemma run_tryCatch {A} (p : Prog A) (h : Error -> Prog A) s st :
  run exec (tryCatch p h s) st =
  match fst (fst (run exec (p s) st)) with
  | Returned a => ((Returned a, snd (fst (run exec (p s) st))), snd (run exec (p s) st))
  | Threw e => run exec (h e (snd (fst (run exec (p s) st)))) (snd (run exec (p s) st))
  end.
Proof.
  unfold tryCatch. rewrite run_tbind.
  destruct (run exec (p s) st) as [[o s'] st']; simpl. destruct o; reflexivity.
Qed.

Lemma run_await act s st :
  run exec (await act s) st =
  match fst (step exec act st) with
  | Done v => ((Returned v, s), snd (step exec act st))
  | Raised e => ((Threw e, s), snd (step exec act st))
  end.
Proof.
  unfold await; simpl. destruct (step exec act st) as [r st']; simpl. destruct r; reflexivity.
Qed.

Lemma run_emit act s st : run exec (emit act s) st = ((Returned tt, s), snd (step exec act st)).
Proof.
  unfold emit; simpl. destruct (step exec act st) as [r st']; reflexivity.
Qed.

(** A silent call leaves the environment alone and adds its event. *)
Lemma step_silent act st :
  silent act = true ->
  step exec act st = (Done VUndefined,
                 {| world := world st; trace := trace st ++ [(act, Done VUndefined)] |}).
Proof.
  intros H. unfold step. rewrite H.
  destruct act; simpl in H; try discriminate; try reflexivity.
  destruct op; simpl in H; try discriminate; reflexivity.
Qed.

(** An awaited call that creates nothing returns the environment's reply. *)
Lemma step_plain act st :
  silent act = false -> allocates act = false ->
  step exec act st = (fst (exec act (world st)),
                 {| world := snd (exec act (world st));
                    trace := trace st ++ [(act, fst (exec act (world st)))] |}).
Proof.
  intros Hs Ha. unfold step. rewrite Hs, Ha.
  destruct (exec act (world st)) as [r w]; simpl. destruct r; reflexivity.
Qed.

Lemma run_console level msg s st :
  run exec (console level msg s) st =
  ((Returned tt, s),
   {| world := world st; trace := trace st ++ [(Console level msg, Done VUndefined)] |}).
Proof. unfold console. rewrite run_emit, step_silent; reflexivity. Qed.

(** The same equations in big-step form, for stepping through a run. *)
Lemma run_bind_ret {A B} (p : Prog A) (f : A -> Prog B) s st a s1 st1 r :
  run exec (p s) st = ((Returned a, s1), st1) ->
  run exec (f a s1) st1 = r ->
  run exec (bind p f s) st = r.
Proof. intros H1 H2. rewrite run_bind, H1. exact H2. Qed.

Lemma run_bind_threw {A B} (p : Prog A) (f : A -> Prog B) s st e s1 st1 :
  run exec (p s) st = ((Threw e, s1), st1) ->
  run exec (bind p f s) st = ((Threw e, s1), st1).
Proof. intros H1. rewrite run_bind, H1. reflexivity. Qed.

Lemma run_catch_ret {A} (p : Prog A) (h : Error -> Prog A) s st a s1 st1 :
  run exec (p s) st = ((Returned a, s1), st1) ->
  run exec (tryCatch p h s) st = ((Returned a, s1), st1).
Proof. intros H1. rewrite run_tryCatch, H1. reflexivity. Qed.

Lemma run_catch_threw {A} (p : Prog A) (h : Error -> Prog A) s st e s1 st1 r :
  run exec (p s) st = ((Threw e, s1), st1) ->
  run exec (h e s1) st1 = r ->
  run exec (tryCatch p h s) st = r.
Proof. intros H1 H2. rewrite run_tryCatch, H1. exact H2. Qed.

Lemma run_await_done act s st v w :
  silent act = false -> allocates act = false ->
  exec act (world st) = (Done v, w) ->
  run exec (await act s) st
  = ((Returned v, s), {| world := w; trace := trace st ++ [(act, Done v)] |}).
Proof.
  intros Hs Ha H. rewrite run_await, step_plain by assumption. rewrite H. reflexivity.
Qed.

Lemma run_await_raised act s st e w :
  silent act = false ->
  exec act (world st) = (Raised e, w) ->
  run exec (await act s) st
  = ((Threw e, s), {| world := w; trace := trace st ++ [(act, Raised e)] |}).
Proof.
  intros Hs H. rewrite run_await. unfold step. rewrite Hs, H. reflexivity.
Qed.

End RunFacts.

(* ===================================================================== *)
(** ** Output paths *)
(* ===================================================================== *)

Section PathFacts.

Lemma sanitize_from_refines (b : bool) (label : string) :
  Js.replace_ws_runs_from b "_" (Js.replace_dquotes "_" label) = sanitizedLabel_from b label.
Proof.
  revert b. induction label as [| c rest IH]; intros b; simpl.
  - reflexivity.
  - destruct (Js.is_dquote c) eqn:Hq; simpl.
    + now rewrite IH.
    + destruct (Js.is_space c); [destruct b|]; now rewrite IH.
Qed.

Lemma split_noSlash (s : string) : hasSlash s = false -> Path.split s = [s].
Proof.
  induction s as [| c r IH]; simpl; intros H.
  - reflexivity.
  - apply orb_false_iff in H as [Hc Hr]. rewrite Hc, (IH Hr). reflexivity.
Qed.

Lemma split_app_slash (a b : string) :
  hasSlash a = false -> Path.split (a ++ String "/" b) = a :: Path.split b.
Proof.
  induction a as [| c r IH]; simpl; intros H.
  - reflexivity.
  - apply orb_false_iff in H as [Hc Hr]. rewrite Hc, (IH Hr). reflexivity.
Qed.

Lemma plain_noSlash seg : plainSegment seg = true -> hasSlash seg = false.
Proof.
  unfold plainSegment. intros H. apply andb_prop in H as [_ H].
  now apply negb_true_iff in H.
Qed.

Lemma plain_nonempty seg : plainSegment seg = true -> seg <> EmptyString.
Proof. intros H ->. discriminate H. Qed.

Lemma concat_cons2 (sep x y : string) (l : list string) :
  String.concat sep (x :: y :: l) = (x ++ sep ++ String.concat sep (y :: l))%string.
Proof. reflexivity. Qed.

Lemma split_concat (segs : list string) :
  segs <> [] -> Forall (fun seg => plainSegment seg = true) segs ->
  Path.split (String.concat "/" segs) = segs.
Proof.
  induction segs as [| x [| y l] IH]; intros Hne Hall.
  - contradiction.
  - simpl. apply split_noSlash, plain_noSlash. now inversion Hall.
  - rewrite concat_cons2. inversion Hall as [| ? ? Hx Hrest]; subst.
    change ("/" ++ String.concat "/" (y :: l))%string
      with (String "/" (String.concat "/" (y :: l))).
    rewrite split_app_slash by now apply plain_noSlash.
    rewrite IH; [reflexivity | discriminate | assumption].
Qed.

Lemma concat_nonempty (segs : list string) :
  segs <> [] -> Forall (fun seg => plainSegment seg = true) segs ->
  String.concat "/" segs <> EmptyString.
Proof.
  destruct segs as [| x [| y l]]; intros Hne Hall.
  - contradiction.
  - simpl. apply plain_nonempty. now inversion Hall.
  - rewrite concat_cons2. inversion Hall as [| ? ? Hx _]; subst.
    destruct x; [discriminate Hx | discriminate].
Qed.

Lemma endsWithSlash_cons c (s : string) :
  s <> EmptyString -> Path.endsWithSlash (String c s) = Path.endsWithSlash s.
Proof. destruct s; [contradiction | reflexivity]. Qed.

Lemma endsWithSlash_app (a b : string) :
  b <> EmptyString -> Path.endsWithSlash (a ++ b) = Path.endsWithSlash b.
Proof.
  intros Hb. induction a as [| c r IH]; simpl append.
  - reflexivity.
  - rewrite endsWithSlash_cons; [exact IH |]. destruct r; simpl; [exact Hb | discriminate].
Qed.

Lemma endsWithSlash_noSlash (s : string) : hasSlash s = false -> Path.endsWithSlash s = false.
Proof.
  induction s as [| c r IH]; intros H.
  - reflexivity.
  - simpl in H. apply orb_false_iff in H as [Hc Hr].
    destruct r; [exact Hc | rewrite endsWithSlash_cons by discriminate; now apply IH].
Qed.

Lemma endsWithSlash_concat (segs : list string) :
  segs <> [] -> Forall (fun seg => plainSegment seg = true) segs ->
  Path.endsWithSlash (String.concat "/" segs) = false.
Proof.
  induction segs as [| x [| y l] IH]; intros Hne Hall.
  - contradiction.
  - simpl. apply endsWithSlash_noSlash, plain_noSlash. now inversion Hall.
  - rewrite concat_cons2. inversion Hall as [| ? ? Hx Hrest]; subst.
    assert (Hc : String.concat "/" (y :: l) <> EmptyString)
      by (apply concat_nonempty; [discriminate | assumption]).
    rewrite endsWithSlash_app by discriminate.
    change ("/" ++ String.concat "/" (y :: l))%string
      with (String "/" (String.concat "/" (y :: l))).
    rewrite endsWithSlash_cons by assumption.
    apply IH; [discriminate | assumption].
Qed.

Lemma push_plain (b : bool) (stack : list string) (seg : string) :
  plainSegment seg = true -> Path.push_segment b stack seg = seg :: stack.
Proof.
  unfold plainSegment, Path.push_segment. intros H.
  apply andb_prop in H as [H _]. apply andb_prop in H as [H H3].
  apply andb_prop in H as [H1 H2].
  apply negb_true_iff in H1, H2, H3. now rewrite H1, H2, H3.
Qed.

Lemma fold_push_plain (b : bool) (segs stack : list string) :
  Forall (fun seg => plainSegment seg = true) segs ->
  fold_left (Path.push_segment b) segs stack = rev segs ++ stack.
Proof.
  revert stack. induction segs as [| x l IH]; intros stack Hall; simpl.
  - reflexivity.
  - inversion Hall; subst. rewrite push_plain by assumption.
    rewrite IH by assumption. now rewrite <- app_assoc.
Qed.

(** An absolute path of plain segments is already normal. *)
Lemma normalize_absolute (segs : list string) :
  segs <> [] -> Forall (fun seg => plainSegment seg = true) segs ->
  Path.normalize (absolute segs) = absolute segs.
Proof.
  intros Hne Hall. unfold Path.normalize, absolute.
  assert (Hc := concat_nonempty segs Hne Hall).
  cbn [String.eqb Path.startsWithSlash negb].
  change (Path.is_slash "/") with true. cbv iota.
  rewrite endsWithSlash_cons by assumption.
  rewrite endsWithSlash_concat by assumption.
  cbn [Path.split]. change (Path.is_slash "/") with true. cbv iota.
  rewrite split_concat by assumption.
  unfold Path.normalizeSegments. cbn [fold_left].
  change (Path.push_segment false [] "") with (@nil string).
  rewrite fold_push_plain by assumption. rewrite app_nil_r, rev_involutive.
  destruct (String.eqb_spec (String.concat "/" segs) ""); [contradiction | reflexivity].
Qed.

End PathFacts.

Section JoinFacts.

Lemma string_app_assoc (a b c : string) : ((a ++ b) ++ c)%string = (a ++ b ++ c)%string.
Proof. induction a; simpl; [reflexivity | now rewrite IHa]. Qed.

Lemma concat_app (xs ys : list string) :
  xs <> [] -> ys <> [] ->
  String.concat "/" (xs ++ ys)
  = (String.concat "/" xs ++ String "/" (String.concat "/" ys))%string.
Proof.
  intros Hx Hy. induction xs as [| x [| y l] IH].
  - contradiction.
  - destruct ys; [contradiction | reflexivity].
  - change ((x :: y :: l) ++ ys) with (x :: (y :: l) ++ ys).
    change ((y :: l) ++ ys) with (y :: l ++ ys) at 1.
    rewrite concat_cons2. change (y :: l ++ ys) with ((y :: l) ++ ys).
    rewrite IH by discriminate. rewrite concat_cons2.
    rewrite !string_app_assoc. reflexivity.
Qed.

Lemma string_length_app (a b : string) :
  String.length (a ++ b) = String.length a + String.length b.
Proof. induction a; simpl; [reflexivity | now rewrite IHa]. Qed.

Lemma append_inj_l (a x y : string) : (a ++ x)%string = (a ++ y)%string -> x = y.
Proof. induction a; simpl; intros H; [exact H | injection H; auto]. Qed.

Lemma append_inj_r (t x y : string) : (x ++ t)%string = (y ++ t)%string -> x = y.
Proof.
  revert y. induction x as [| c r IH]; intros [| c' r'] H; simpl in H.
  - reflexivity.
  - apply (f_equal String.length) in H. simpl in H. rewrite string_length_app in H. lia.
  - apply (f_equal String.length) in H. simpl in H. rewrite string_length_app in H. lia.
  - injection H as -> H. f_equal. now apply IH.
Qed.

Lemma app_slash_inj (a b a' b' : string) :
  hasSlash a = false -> hasSlash a' = false ->
  (a ++ String "/" b)%string = (a' ++ String "/" b')%string -> a = a' /\ b = b'.
Proof.
  revert a'. induction a as [| c r IH]; intros [| c' r'] Ha Ha' H; simpl in *.
  - injection H as ->. auto.
  - injection H as <- _. discriminate Ha'.
  - injection H as -> _. discriminate Ha.
  - injection H as -> H.
    apply orb_false_iff in Ha as [_ Ha]. apply orb_false_iff in Ha' as [_ Ha'].
    destruct (IH r' Ha Ha' H) as [-> ->]. auto.
Qed.

(** [path.join] of a plain absolute directory and three plain segments is
    their concatenation with slashes. *)
Lemma join_plain (root : list string) (a b c : string) :
  root <> [] -> Forall (fun seg => plainSegment seg = true) root ->
  plainSegment a = true -> plainSegment b = true -> plainSegment c = true ->
  Path.join [absolute root; a; b; c]
  = (absolute root ++ "/" ++ a ++ "/" ++ b ++ "/" ++ c)%string.
Proof.
  intros Hne Hroot Ha Hb Hc. unfold Path.join.
  assert (Hf : filter Js.truthy_string [absolute root; a; b; c] = [absolute root; a; b; c]).
  { cbn [filter]. change (Js.truthy_string (absolute root)) with true. cbv iota.
    assert (T : forall s, plainSegment s = true -> Js.truthy_string s = true).
    { intros s Hs. unfold Js.truthy_string. apply negb_true_iff, String.eqb_neq.
      now apply plain_nonempty. }
    now rewrite (T a Ha), (T b Hb), (T c Hc). }
  rewrite Hf.
  assert (Hcat : String.concat "/" [absolute root; a; b; c] = absolute (root ++ [a; b; c])).
  { unfold absolute. rewrite concat_app by (assumption || discriminate). reflexivity. }
  rewrite Hcat. rewrite normalize_absolute.
  - unfold absolute. rewrite concat_app by (assumption || discriminate). reflexivity.
  - destruct root; discriminate.
  - apply Forall_app. split; [assumption | repeat constructor; assumption].
Qed.

End JoinFacts.

(** C5, as stated, fails: two distinct tasks whose size labels are "iPad 13"
    and "iPad_13" get one and the same output path. *)
Lemma output_path_collision :
  ~ (forall (outputDir : string) (t1 t2 : string * string * string),
        t1 <> t2 -> taskPath outputDir t1 <> taskPath outputDir t2).
Proof.
  intros H.
  apply (H "/repo/output" ("de", "iPad 13", "home-screen") ("de", "iPad_13", "home-screen")).
  - discriminate.
  - reflexivity.
Qed.

(** C5 (amended): the output path depends on the size entry through its
    label only; the label is sanitized by replacing every double quote and
    every whitespace run with an underscore; for a plain output root and
    plain components the path is root/locale/sanitizedLabel/id.png; and two
    tasks share a path exactly when they agree on the locale, on the
    sanitized label and on the artifact id. *)
Theorem output_path_layout
    (root : list string) (locale1 locale2 id1 id2 : string) (size1 size2 : Size.t) :
  root <> [] ->
  Forall (fun seg => plainSegment seg = true) root ->
  plainSegment locale1 = true -> plainSegment locale2 = true ->
  plainSegment (sanitizeSize (Size.device size1)) = true ->
  plainSegment (sanitizeSize (Size.device size2)) = true ->
  plainSegment (id1 ++ ".png") = true -> plainSegment (id2 ++ ".png") = true ->
  sanitizeSize (Size.device size1) = sanitizedLabel (Size.device size1)
  /\ (Size.device size1 = Size.device size2 ->
      outputPathOf (absolute root) locale1 size1 id1
      = outputPathOf (absolute root) locale1 size2 id1)
  /\ outputPathOf (absolute root) locale1 size1 id1
     = (absolute root ++ "/" ++ locale1 ++ "/" ++ sanitizedLabel (Size.device size1)
        ++ "/" ++ id1 ++ ".png")%string
  /\ (outputPathOf (absolute root) locale1 size1 id1
      = outputPathOf (absolute root) locale2 size2 id2
      <-> locale1 = locale2
          /\ sanitizedLabel (Size.device size1) = sanitizedLabel (Size.device size2)
          /\ id1 = id2).
Proof.
  intros Hne Hroot Hl1 Hl2 Hs1 Hs2 Hi1 Hi2.
  assert (R : forall label, sanitizeSize label = sanitizedLabel label)
    by (intros; apply sanitize_from_refines).
  assert (P1 := join_plain root _ _ _ Hne Hroot Hl1 Hs1 Hi1).
  assert (P2 := join_plain root _ _ _ Hne Hroot Hl2 Hs2 Hi2).
  unfold outputPathOf. rewrite <- !R.
  repeat split.
  - intros E. now rewrite E.
  - exact P1.
  - rewrite P1, P2 in H. apply append_inj_l in H. simpl in H. injection H as H.
    apply app_slash_inj in H as [H _]; auto using plain_noSlash.
  - rewrite P1, P2 in H. apply append_inj_l in H. simpl in H. injection H as H.
    apply app_slash_inj in H as [_ H]; auto using plain_noSlash.
    apply app_slash_inj in H as [H _]; auto using plain_noSlash.
  - rewrite P1, P2 in H. apply append_inj_l in H. simpl in H. injection H as H.
    apply app_slash_inj in H as [_ H]; auto using plain_noSlash.
    apply app_slash_inj in H as [_ H]; auto using plain_noSlash.
    now apply append_inj_r in H.
  - intros (-> & E & ->). now rewrite E.
Qed.

(** The path of the specification's example, and a collision-free pair. *)
Lemma output_path_layout_witness :
  outputPathOf "/repo/output" "de" Sample.iphone "home-screen"
  = "/repo/output/de/iPhone_6.9_/home-screen.png"
  /\ outputPathOf "/repo/output" "de" Sample.iphone "home-screen"
     <> outputPathOf "/repo/output" "en" Sample.ipad "home-screen".
Proof.
  destruct (output_path_layout ["repo"; "output"] "de" "en" "home-screen" "home-screen"
              Sample.iphone Sample.ipad) as (_ & _ & P & C);
    try reflexivity; try discriminate.
  - repeat constructor.
  - split.
    + exact P.
    + intros E. apply C in E. destruct E as [E _]. discriminate E.
Defined.

(* ===================================================================== *)
(** ** Properties of every action of a program *)
(* ===================================================================== *)

Section AlwaysFacts.

Variable ok : Action -> Prop.

Lemma always_tbind {X Y} (leaf : X -> Prop) (leaf' : Y -> Prop) (t : Tree X) (f : X -> Tree Y) :
  always ok leaf t -> (forall x, leaf x -> always ok leaf' (f x)) ->
  always ok leaf' (tbind t f).
Proof.
  intros Ht Hf. induction t as [x | act k IH]; simpl in *.
  - apply Hf, Ht.
  - destruct Ht as [Ha Hk]. split; [exact Ha | intros r; apply IH, Hk].
Qed.

Lemma always_weaken {X} (ok' : Action -> Prop) (leaf leaf' : X -> Prop) (t : Tree X) :
  (forall act, ok act -> ok' act) -> (forall x, leaf x -> leaf' x) ->
  always ok leaf t -> always ok' leaf' t.
Proof.
  intros Wa Wl H. induction t as [x | act k IH]; simpl in *.
  - apply Wl, H.
  - destruct H as [Ha Hk]. split; [apply Wa, Ha | intros r; apply IH, Hk].
Qed.

Lemma Always_ret {A} (a : A) : Always ok (ret a).
Proof. intros s. reflexivity. Qed.

Lemma Always_throw {A} (e : Error) : Always ok (@throw A e).
Proof. intros s. reflexivity. Qed.

Lemma Always_bind {A B} (p : Prog A) (f : A -> Prog B) :
  Always ok p -> (forall a, Always ok (f a)) -> Always ok (bind p f).
Proof.
  intros Hp Hf s. unfold bind. eapply always_tbind; [apply Hp |].
  intros [[a | e] s']; simpl; intros ->; [apply Hf | reflexivity].
Qed.

Lemma Always_tryCatch {A} (p : Prog A) (h : Error -> Prog A) :
  Always ok p -> (forall e, Always ok (h e)) -> Always ok (tryCatch p h).
Proof.
  intros Hp Hh s. unfold tryCatch. eapply always_tbind; [apply Hp |].
  intros [[a | e] s']; simpl; intros ->; [reflexivity | apply Hh].
Qed.

Lemma Always_await act : ok act -> Always ok (await act).
Proof. intros H s. split; [exact H | intros [v | e]; reflexivity]. Qed.

Lemma Always_emit act : ok act -> Always ok (emit act).
Proof. intros H s. split; [exact H | intros r; reflexivity]. Qed.

Lemma Always_get : Always ok get.
Proof. intros s. reflexivity. Qed.

Lemma Always_deref {A} what (v : option A) : Always ok (deref what v).
Proof. destruct v; [apply Always_ret | apply Always_throw]. Qed.

Lemma Always_forEach {X} (xs : list X) (body : X -> Prog unit) :
  (forall x, Always ok (body x)) -> Always ok (forEach xs body).
Proof.
  intros H. induction xs as [| x rest IH]; simpl.
  - apply Always_ret.
  - apply Always_bind; [apply H | intros _; exact IH].
Qed.

(** What a run adds to the trace are events of the program's own actions,
    and the result is one of its leaves. *)
Lemma run_always {World : Type} (exec : Action -> World -> Reply * World)
    {X} (leaf : X -> Prop) (t : Tree X) (st : St World) :
  always ok leaf t ->
  exists evs, trace (snd (run exec t st)) = trace st ++ evs
              /\ Forall (fun ev => ok (fst ev)) evs
              /\ leaf (fst (run exec t st)).
Proof.
  revert st. induction t as [x | act k IH]; intros st H; simpl in *.
  - exists []. split; [now rewrite app_nil_r | split; [constructor | exact H]].
  - destruct H as [Ha Hk]. destruct (step exec act st) as [r st'] eqn:E.
    destruct (IH r st' (Hk r)) as (evs & T & F & L).
    assert (T' : trace st' = trace st ++ [(act, r)]).
    { unfold step in E. destruct (if silent act then _ else _) as [r0 w].
      injection E as <- <-. reflexivity. }
    exists ((act, r) :: evs). split; [| split].
    + rewrite T, T', <- app_assoc. reflexivity.
    + constructor; assumption.
    + exact L.
Qed.

End AlwaysFacts.

Lemma always_True {X} (t : Tree X) : always (fun _ => True) (fun _ => True) t.
Proof. induction t; simpl; auto. Qed.

(** A run only ever extends the trace. *)
Lemma run_extends {World : Type} (exec : Action -> World -> Reply * World)
    {X} (t : Tree X) (st : St World) :
  exists evs, trace (snd (run exec t st)) = trace st ++ evs.
Proof.
  destruct (run_always (fun _ => True) exec _ t st (always_True t)) as (evs & T & _).
  now exists evs.
Qed.

(** Decomposes a goal [Always ok p] along the structure of [p]. *)
Ltac always_step :=
  lazymatch goal with
  | |- Always _ (bind _ _) => apply Always_bind; [| intros ?]
  | |- Always _ (tryCatch _ _) => apply Always_tryCatch; [| intros ?]
  | |- Always _ (ret _) => apply Always_ret
  | |- Always _ (throw _) => apply Always_throw
  | |- Always _ (await _) => apply Always_await
  | |- Always _ (emit _) => apply Always_emit
  | |- Always _ get => apply Always_get
  | |- Always _ (deref _ _) => apply Always_deref
  | |- Always _ (forEach _ _) => apply Always_forEach; intros ?
  | |- Always _ (if ?b then _ else _) => destruct b
  | |- Always _ (match ?x with _ => _ end) => destruct x
  end.

(* ===================================================================== *)
(** ** Resolving the remote UI location *)
(* ===================================================================== *)

Ltac run_simpl :=
  repeat (rewrite ?run_bind, ?run_tryCatch, ?run_await, ?run_console, ?run_emit,
            ?run_ret, ?run_throw;
          cbn [fst snd world trace]).

Section Detect.

Context {World : Type}.
Variable exec : Action -> World -> Reply * World.

Lemma run_autoDetect s (st : St World) :
  fst (fst (run exec (autoDetect s) st))
  = Returned (match fst (exec probe (world st)) with
              | Done v => if truthy v then LOCAL_URL else DEMO_URL
              | Raised _ => DEMO_URL
              end).
Proof.
  unfold autoDetect. run_simpl.
  rewrite step_plain by reflexivity. cbn [fst snd]. fold probe.
  destruct (fst (exec probe (world st))) as [v | e]; run_simpl.
  - destruct (truthy v); run_simpl; reflexivity.
  - reflexivity.
Qed.

End Detect.

(** C7, as stated, fails: with a local instance answering the probe and an
    override on the command line, the override is what is resolved. *)
Lemma detect_override_beats_local :
  fst (Sim.exec probe Sim.healthy) = Done (VBool true)
  /\ fst (fst (run Sim.exec
                   (detectYuzuUrl ["--yuzu-url"; "http://localhost:9090"] emptyStore)
                   (Sim.start Sim.healthy)))
     = Returned "http://localhost:9090"
  /\ "http://localhost:9090" <> LOCAL_URL.
Proof. repeat split. discriminate. Qed.

(** C7 (amended): the location is resolved with the precedence explicit
    override, then local instance, then public fallback. A non-empty value
    after --yuzu-url is returned without probing; otherwise the local
    address is returned when the probe answers ok, and the live demo
    address when the probe answers not ok or fails. *)
Theorem detect_precedence {World : Type} (exec : Action -> World -> Reply * World)
    (args : list string) (s : Store) (st : St World) :
  (forall url, yuzuBaseUrl args = Some url -> url <> EmptyString ->
     run exec (detectYuzuUrl args s) st
     = ((Returned url, s),
        {| world := world st;
           trace := trace st ++ [(Console Log (MsgUsingCliUrl url), Done VUndefined)] |}))
  /\ (yuzuBaseUrl args = None \/ yuzuBaseUrl args = Some EmptyString ->
      (forall v, fst (exec probe (world st)) = Done v -> truthy v = true ->
         fst (fst (run exec (detectYuzuUrl args s) st)) = Returned LOCAL_URL)
      /\ (forall v, fst (exec probe (world st)) = Done v -> truthy v = false ->
         fst (fst (run exec (detectYuzuUrl args s) st)) = Returned DEMO_URL)
      /\ (forall e, fst (exec probe (world st)) = Raised e ->
         fst (fst (run exec (detectYuzuUrl args s) st)) = Returned DEMO_URL)).
Proof.
  split.
  - intros url Hu Hne. unfold detectYuzuUrl. rewrite Hu.
    assert (T : Js.truthy_string url = true)
      by (apply negb_true_iff, String.eqb_neq; exact Hne).
    rewrite T. run_simpl. reflexivity.
  - intros Hu.
    assert (E : detectYuzuUrl args = autoDetect).
    { unfold detectYuzuUrl. destruct Hu as [-> | ->]; reflexivity. }
    rewrite E, run_autoDetect.
    repeat split; intros x Hx; rewrite Hx; try intros ->; reflexivity.
Qed.

Lemma detect_precedence_witness :
  run Sim.exec (detectYuzuUrl ["--yuzu-url"; "http://localhost:9090"] emptyStore)
      (Sim.start Sim.healthy)
  = ((Returned "http://localhost:9090", emptyStore),
     {| world := Sim.healthy;
        trace := [(Console Log (MsgUsingCliUrl "http://localhost:9090"), Done VUndefined)] |})
  /\ fst (fst (run Sim.exec (detectYuzuUrl ["--config"; "app.json"] emptyStore)
                   (Sim.start Sim.healthy)))
     = Returned LOCAL_URL.
Proof.
  split.
  - apply (proj1 (detect_precedence Sim.exec ["--yuzu-url"; "http://localhost:9090"]
                    emptyStore (Sim.start Sim.healthy)));
      [reflexivity | discriminate].
  - destruct (proj2 (detect_precedence Sim.exec ["--config"; "app.json"]
                       emptyStore (Sim.start Sim.healthy))) as (L & _).
    + left; reflexivity.
    + apply (L (VBool true)); reflexivity.
Defined.

(* ===================================================================== *)
(** ** The retry machine *)
(* ===================================================================== *)

Section Retry.

Context {World : Type}.
Variable exec : Action -> World -> Reply * World.
Variable __dirname : string.

Lemma run_note act s (st : St World) :
  silent act = true -> run exec (emit act s) st = ((Returned tt, s), note act st).
Proof. intros H. rewrite run_emit, step_silent by exact H. reflexivity. Qed.

Lemma processScreenshot_rec_unfold fuel page screenshot locale size design outputDir attempt :
  processScreenshot_rec __dirname fuel page screenshot locale size design outputDir attempt
  = (let logPrefix := logPrefixOf locale size (Screenshot.id screenshot) in
     emit (Enter page (Screenshot.id screenshot) locale (Size.device size) attempt) ;;
     tryCatch
       (attemptSteps __dirname page screenshot locale size design outputDir attempt)
       (fun error =>
          console ErrorLevel (MsgError logPrefix (message error)) ;;
          if Nat.ltb attempt MAX_RETRIES then
            retryReset page logPrefix ;;
            match fuel with
            | S fuel' =>
                processScreenshot_rec __dirname fuel' page screenshot locale size design
                                      outputDir (attempt + 1)
            | O => throw outOfFuel
            end
          else
            console ErrorLevel (MsgFailedAfter logPrefix MAX_RETRIES) ;;
            ret false))%prog.
Proof. destruct fuel; reflexivity. Qed.

(** One transition of the retry machine: run the attempt; on an exception
    log it and, below the bound, reset the page and enter the next attempt,
    else fail. An exception of the reset itself is not caught. *)
Lemma run_processScreenshot_rec fuel page screenshot locale size design outputDir attempt s st :
  let logPrefix := logPrefixOf locale size (Screenshot.id screenshot) in
  let entered := note (Enter page (Screenshot.id screenshot) locale (Size.device size) attempt) st in
  let r := run exec (attemptSteps __dirname page screenshot locale size design outputDir
                                  attempt s) entered in
  run exec (processScreenshot_rec __dirname fuel page screenshot locale size design outputDir
                                  attempt s) st
  = match fst (fst r) with
    | Returned b => ((Returned b, snd (fst r)), snd r)
    | Threw e =>
        let logged := note (Console ErrorLevel (MsgError logPrefix (message e))) (snd r) in
        if Nat.ltb attempt MAX_RETRIES then
          let r' := run exec (retryReset page logPrefix (snd (fst r))) logged in
          match fst (fst r') with
          | Returned _ =>
              match fuel with
              | S fuel' =>
                  run exec (processScreenshot_rec __dirname fuel' page screenshot locale size
                              design outputDir (attempt + 1) (snd (fst r'))) (snd r')
              | O => ((Threw outOfFuel, snd (fst r')), snd r')
              end
          | Threw e' => ((Threw e', snd (fst r')), snd r')
          end
        else
          ((Returned false, snd (fst r)),
           note (Console ErrorLevel (MsgFailedAfter logPrefix MAX_RETRIES)) logged)
    end.
Proof.
  intros logPrefix entered r.
  rewrite processScreenshot_rec_unfold. cbv zeta.
  rewrite run_bind, run_note by reflexivity. cbn [fst snd].
  rewrite run_tryCatch. fold entered. fold r.
  destruct (fst (fst r)) as [b | e]; [reflexivity |].
  rewrite run_bind, run_console. cbn [fst snd].
  fold (note (Console ErrorLevel (MsgError logPrefix (message e))) (snd r)).
  destruct (Nat.ltb attempt MAX_RETRIES).
  - rewrite run_bind. fold logPrefix.
    destruct (fst (fst (run exec (retryReset page logPrefix (snd (fst r))) _))) as [u | e'].
    + destruct fuel; reflexivity.
    + reflexivity.
  - rewrite run_bind, run_console. cbn [fst snd]. rewrite run_ret. reflexivity.
Qed.

(** The recursion bound is never reached: any fuel of at least
    [MAX_RETRIES - attempt] gives the run of [processScreenshot]. *)
Lemma processScreenshot_fuel fuel page screenshot locale size design outputDir attempt s st :
  MAX_RETRIES - attempt <= fuel ->
  run exec (processScreenshot_rec __dirname fuel page screenshot locale size design outputDir
                                  attempt s) st
  = run exec (processScreenshot __dirname page screenshot locale size design outputDir
                                attempt s) st.
Proof.
  unfold processScreenshot.
  revert attempt s st. induction fuel as [| fuel IH]; intros attempt s st Hle.
  - replace (MAX_RETRIES - attempt) with 0 by lia. reflexivity.
  - rewrite !run_processScreenshot_rec. cbv zeta.
    destruct (fst (fst (run exec (attemptSteps __dirname page screenshot locale size design
                                               outputDir attempt s) _))) as [b | e];
      [reflexivity |].
    destruct (Nat.ltb attempt MAX_RETRIES) eqn:L; [| reflexivity].
    apply Nat.ltb_lt in L.
    destruct (fst (fst (run exec (retryReset page _ _) _))); [| reflexivity].
    destruct (MAX_RETRIES - attempt) as [| m] eqn:M; [lia |].
    rewrite IH by lia. replace m with (MAX_RETRIES - (attempt + 1)) by lia. reflexivity.
Qed.

(** With the source file missing the attempt ends at the access check. *)
Lemma run_attemptSteps_missing page screenshot locale size design outputDir attempt s st e w' :
  let rawPath := rawPathOf __dirname size locale (Screenshot.id screenshot) in
  let logPrefix := logPrefixOf locale size (Screenshot.id screenshot) in
  exec (FsAccess rawPath) (world st) = (Raised e, w') ->
  run exec (attemptSteps __dirname page screenshot locale size design outputDir attempt s) st
  = ((Returned false, s),
     {| world := w';
        trace := trace st ++ [(FsAccess rawPath, Raised e);
                              (Console ErrorLevel (MsgRawNotFound logPrefix rawPath),
                               Done VUndefined)] |}).
Proof.
  intros rawPath logPrefix H. unfold attemptSteps. cbv zeta. fold rawPath logPrefix.
  eapply run_bind_ret.
  - eapply run_catch_threw.
    + unfold access.
      eapply run_bind_threw, run_bind_threw, run_await_raised; [reflexivity | exact H].
    + eapply run_bind_ret; [apply run_console | apply run_ret].
  - cbn [negb world trace]. rewrite run_ret, <- app_assoc. reflexivity.
Qed.

End Retry.

(** C3: when the access check of the source file fails, the first call of
    [processScreenshot] returns false at once: the trace grows by the entry
    with attempt 1, the failed access and the error line that carries the
    resolved path, so there is no retry and no page operation. *)
Theorem missing_source_fails_without_retry {World : Type}
    (exec : Action -> World -> Reply * World) (__dirname : string)
    (page : handle) (screenshot : Screenshot.t) (locale : string) (size : Size.t)
    (design : Design.t) (outputDir : string) (s : Store) (st : St World)
    (e : Error) (w' : World) :
  let rawPath := rawPathOf __dirname size locale (Screenshot.id screenshot) in
  let logPrefix := logPrefixOf locale size (Screenshot.id screenshot) in
  let result := run exec (processScreenshot __dirname page screenshot locale size design
                                            outputDir 1 s) st in
  exec (FsAccess rawPath) (world st) = (Raised e, w') ->
  result
  = ((Returned false, s),
     {| world := w';
        trace := trace st ++
          [(Enter page (Screenshot.id screenshot) locale (Size.device size) 1, Done VUndefined);
           (FsAccess rawPath, Raised e);
           (Console ErrorLevel (MsgRawNotFound logPrefix rawPath), Done VUndefined)] |})
  /\ attemptsEntered (trace (snd result)) = attemptsEntered (trace st) ++ [1]
  /\ pageOps (trace (snd result)) = pageOps (trace st).
Proof.
  intros rawPath logPrefix result H.
  assert (E : result
    = ((Returned false, s),
       {| world := w';
          trace := trace st ++
            [(Enter page (Screenshot.id screenshot) locale (Size.device size) 1, Done VUndefined);
             (FsAccess rawPath, Raised e);
             (Console ErrorLevel (MsgRawNotFound logPrefix rawPath), Done VUndefined)] |})).
  { unfold result, processScreenshot. rewrite run_processScreenshot_rec. cbv zeta.
    rewrite (run_attemptSteps_missing exec __dirname _ _ _ _ _ _ _ _ _ e w') by exact H.
    cbn [fst snd note trace world]. rewrite <- app_assoc. reflexivity. }
  rewrite E. cbn [fst snd trace]. repeat split.
  - unfold attemptsEntered. rewrite flat_map_app. reflexivity.
  - unfold pageOps. rewrite flat_map_app. cbn. now rewrite app_nil_r.
Qed.

Lemma missing_source_witness :
  let result := run Sim.exec
                  (processScreenshot "/repo" 7 Sample.home "de" Sample.iphone Sample.design
                                     "/repo/output" 1 emptyStore)
                  (Sim.start Worlds.missingSource) in
  fst (fst result) = Returned false
  /\ attemptsEntered (trace (snd result)) = [1]
  /\ pageOps (trace (snd result)) = [].
Proof.
  destruct (missing_source_fails_without_retry Sim.exec "/repo" 7 Sample.home "de"
              Sample.iphone Sample.design "/repo/output" emptyStore
              (Sim.start Worlds.missingSource)
              {| message := "ENOENT: no such file or directory" |} Worlds.missingSource)
    as (E & A & P).
  - reflexivity.
  - cbv zeta. rewrite E in *. repeat split; assumption.
Defined.

(* ===================================================================== *)
(** ** Toggle verification *)
(* ===================================================================== *)

Section Toggles.

Context {World : Type}.
Variable exec : Action -> World -> Reply * World.
Variable page : handle.
Variable toggle : Locator.
Variable alive : World -> Prop.
Variable active : World -> bool.
Hypothesis flips : Flips exec page toggle alive active.

Lemma run_toggle_read s (st : St World) :
  alive (world st) ->
  exists st', run exec (locator_evaluate page toggle ClassListContainsActive s) st
              = ((Returned (VBool (active (world st))), s), st')
              /\ alive (world st') /\ active (world st') = active (world st).
Proof.
  intros Hal. destruct (flips_read _ _ _ _ _ flips (world st) Hal) as (w' & E & Hal' & Ha).
  eexists. split.
  - unfold locator_evaluate, onPage. eapply run_await_done; [reflexivity | reflexivity | exact E].
  - cbn [world]. auto.
Qed.

Lemma run_toggle_click timeout s (st : St World) :
  alive (world st) ->
  exists st', run exec (locator_click page toggle timeout s) st = ((Returned tt, s), st')
              /\ alive (world st') /\ active (world st') = negb (active (world st)).
Proof.
  intros Hal.
  destruct (flips_click _ _ _ _ _ flips (world st) timeout Hal) as (v & w' & E & Hal' & Ha).
  eexists. split.
  - unfold locator_click, onPage. eapply run_bind_ret.
    + eapply run_await_done; [reflexivity | reflexivity | exact E].
    + apply run_ret.
  - cbn [world]. auto.
Qed.

Lemma run_toggle_wait ms s (st : St World) :
  alive (world st) ->
  exists st', run exec (page_waitForTimeout page ms s) st = ((Returned tt, s), st')
              /\ alive (world st') /\ active (world st') = active (world st).
Proof.
  intros Hal.
  destruct (flips_wait _ _ _ _ _ flips (world st) ms Hal) as (v & w' & E & Hal' & Ha).
  eexists. split.
  - unfold page_waitForTimeout, onPage. eapply run_bind_ret.
    + eapply run_await_done; [reflexivity | reflexivity | exact E].
    + apply run_ret.
  - cbn [world]. auto.
Qed.

(** Click, then wait: the toggle is inverted. *)
Lemma run_click_wait timeout ms s (st : St World) :
  alive (world st) ->
  exists st', run exec ((locator_click page toggle timeout ;; page_waitForTimeout page ms)%prog s) st
              = ((Returned tt, s), st')
              /\ alive (world st') /\ active (world st') = negb (active (world st)).
Proof.
  intros Hal.
  destruct (run_toggle_click timeout s st Hal) as (st1 & E1 & Hal1 & A1).
  destruct (run_toggle_wait ms s st1 Hal1) as (st2 & E2 & Hal2 & A2).
  exists st2. split.
  - eapply run_bind_ret; [exact E1 | exact E2].
  - split; [assumption | congruence].
Qed.

End Toggles.

Section ToggleOperations.

Context {World : Type}.
Variable exec : Action -> World -> Reply * World.
Variable page : handle.
Variable alive : World -> Prop.
Variable active : World -> bool.

(** Lines 297-305: click, read back, click again when inactive. *)
Lemma run_enableFrame s (st : St World) :
  Flips exec page frameToggle alive active -> alive (world st) ->
  exists st', run exec (enableFrame page s) st = ((Returned tt, s), st')
              /\ alive (world st') /\ active (world st') = true.
Proof.
  intros F Hal. unfold enableFrame.
  destruct (run_toggle_click exec page _ alive _ F None s st Hal) as (st1 & E1 & Hal1 & A1).
  destruct (run_toggle_wait exec page _ alive _ F 500%N s st1 Hal1) as (st2 & E2 & Hal2 & A2).
  destruct (run_toggle_read exec page _ alive _ F s st2 Hal2) as (st3 & E3 & Hal3 & A3).
  destruct (run_click_wait exec page _ alive _ F None 500%N s st3 Hal3)
    as (st4 & E4 & Hal4 & A4).
  destruct (active (world st2)) eqn:B.
  - exists st3. repeat split; [| assumption | assumption].
    eapply run_bind_ret; [exact E1 |]. eapply run_bind_ret; [exact E2 |].
    eapply run_bind_ret; [exact E3 |]. apply run_ret.
  - exists st4. repeat split; [| assumption | now rewrite A4, A3].
    eapply run_bind_ret; [exact E1 |]. eapply run_bind_ret; [exact E2 |].
    eapply run_bind_ret; [exact E3 |]. exact E4.
Qed.

(** Lines 328-333: read, click when inactive. *)
Lemma run_enableHeadline s (st : St World) :
  Flips exec page headlineToggle alive active -> alive (world st) ->
  exists st', run exec (enableHeadline page s) st = ((Returned tt, s), st')
              /\ alive (world st') /\ active (world st') = true.
Proof.
  intros F Hal. unfold enableHeadline.
  destruct (run_toggle_read exec page _ alive _ F s st Hal) as (st1 & E1 & Hal1 & A1).
  destruct (run_click_wait exec page _ alive _ F None 500%N s st1 Hal1)
    as (st2 & E2 & Hal2 & A2).
  destruct (active (world st)) eqn:B.
  - exists st1. repeat split; [| assumption | assumption].
    eapply run_bind_ret; [exact E1 | apply run_ret].
  - exists st2. repeat split; [| assumption | now rewrite A2, A1].
    eapply run_bind_ret; [exact E1 | exact E2].
Qed.

(** Lines 372-377: read, click when active. *)
Lemma run_disableSubheadline s (st : St World) :
  Flips exec page subheadlineToggle alive active -> alive (world st) ->
  exists st', run exec (disableSubheadline page s) st = ((Returned tt, s), st')
              /\ alive (world st') /\ active (world st') = false.
Proof.
  intros F Hal. unfold disableSubheadline.
  destruct (run_toggle_read exec page _ alive _ F s st Hal) as (st1 & E1 & Hal1 & A1).
  destruct (run_click_wait exec page _ alive _ F None 300%N s st1 Hal1)
    as (st2 & E2 & Hal2 & A2).
  destruct (active (world st)) eqn:B.
  - exists st2. repeat split; [| assumption | now rewrite A2, A1].
    eapply run_bind_ret; [exact E1 | exact E2].
  - exists st1. repeat split; [| assumption | assumption].
    eapply run_bind_ret; [exact E1 | apply run_ret].
Qed.

End ToggleOperations.

(** C8: under flip semantics for clicks, each toggle-verification
    operation returns normally and leaves its toggle in the requested
    state, whatever the state before: the frame toggle and the headline
    toggle end active, the subheadline toggle ends inactive. *)
Theorem toggle_verification_outcome {World : Type}
    (exec : Action -> World -> Reply * World) (page : handle) (alive : World -> Prop)
    (frameActive headlineActive subheadlineActive : World -> bool)
    (s : Store) (st : St World) :
  Flips exec page frameToggle alive frameActive ->
  Flips exec page headlineToggle alive headlineActive ->
  Flips exec page subheadlineToggle alive subheadlineActive ->
  alive (world st) ->
  (fst (run exec (enableFrame page s) st) = (Returned tt, s)
   /\ frameActive (world (snd (run exec (enableFrame page s) st))) = true)
  /\ (fst (run exec (enableHeadline page s) st) = (Returned tt, s)
      /\ headlineActive (world (snd (run exec (enableHeadline page s) st))) = true)
  /\ (fst (run exec (disableSubheadline page s) st) = (Returned tt, s)
      /\ subheadlineActive (world (snd (run exec (disableSubheadline page s) st))) = false).
Proof.
  intros Hf Hh Hs Hal.
  destruct (run_enableFrame exec page alive _ s st Hf Hal) as (st1 & E1 & _ & A1).
  destruct (run_enableHeadline exec page alive _ s st Hh Hal) as (st2 & E2 & _ & A2).
  destruct (run_disableSubheadline exec page alive _ s st Hs Hal) as (st3 & E3 & _ & A3).
  rewrite E1, E2, E3. cbn [fst snd]. auto.
Qed.

Section SimToggles.

Let alive (w : Sim.t) : Prop := Sim.pageAlive w = true.

Lemma sim_flips_frame page : Flips Sim.exec page frameToggle alive Sim.frame.
Proof.
  split; unfold alive; intros w.
  - intros Hal. exists w. cbn. now rewrite Hal.
  - intros timeout Hal. cbn. rewrite Hal. eexists _, _. split; [reflexivity |]. now cbn.
  - intros ms Hal. cbn. rewrite Hal. eexists _, _. split; [reflexivity |]. now cbn.
Qed.

Lemma sim_flips_headline page : Flips Sim.exec page headlineToggle alive Sim.headline.
Proof.
  split; unfold alive; intros w.
  - intros Hal. exists w. cbn. now rewrite Hal.
  - intros timeout Hal. cbn. rewrite Hal. eexists _, _. split; [reflexivity |]. now cbn.
  - intros ms Hal. cbn. rewrite Hal. eexists _, _. split; [reflexivity |]. now cbn.
Qed.

Lemma sim_flips_subheadline page :
  Flips Sim.exec page subheadlineToggle alive Sim.subheadline.
Proof.
  split; unfold alive; intros w.
  - intros Hal. exists w. cbn. now rewrite Hal.
  - intros timeout Hal. cbn. rewrite Hal. eexists _, _. split; [reflexivity |]. now cbn.
  - intros ms Hal. cbn. rewrite Hal. eexists _, _. split; [reflexivity |]. now cbn.
Qed.

End SimToggles.

(** The three operations on a document whose frame is already active, whose
    headline is off and whose subheadline is on. *)
Lemma toggle_verification_witness :
  let st := Sim.start (Worlds.toggled true false true) in
  Sim.frame (world (snd (run Sim.exec (enableFrame 7 emptyStore) st))) = true
  /\ Sim.headline (world (snd (run Sim.exec (enableHeadline 7 emptyStore) st))) = true
  /\ Sim.subheadline (world (snd (run Sim.exec (disableSubheadline 7 emptyStore) st))) = false.
Proof.
  intros st.
  destruct (toggle_verification_outcome Sim.exec 7 (fun w => Sim.pageAlive w = true)
              Sim.frame Sim.headline Sim.subheadline emptyStore st
              (sim_flips_frame 7) (sim_flips_headline 7) (sim_flips_subheadline 7))
    as ((_ & F) & (_ & H) & (_ & S)).
  - reflexivity.
  - auto.
Defined.

(* ===================================================================== *)
(** ** What a task touches *)
(* ===================================================================== *)

Ltac ui_unfold :=
  unfold page_goto, page_reload, page_waitForTimeout, page_click, page_fill,
    page_selectOption, page_waitForSelector, page_evaluate, locator_all, locator_click,
    locator_fill, locator_evaluate, locator_setInputFiles, onPage, console, access, mkdir.

Ltac always_auto :=
  ui_unfold; repeat always_step; try (simpl; auto; fail); try reflexivity.

Section TaskActions.

Variable page : handle.

Lemma Always_ensureDir path : Always (taskAction page) (ensureDir path).
Proof. unfold ensureDir. always_auto. Qed.

Lemma Always_waitForCanvasRender : Always (taskAction page) (waitForCanvasRender page).
Proof. unfold waitForCanvasRender. always_auto. Qed.

Lemma Always_clearYuzuScreenshots_loop remaining :
  Always (taskAction page) (clearYuzuScreenshots_loop remaining page).
Proof.
  induction remaining as [| n IH]; simpl.
  - apply Always_ret.
  - always_auto.
Qed.

Lemma Always_uploadScreenshot path : Always (taskAction page) (uploadScreenshot page path).
Proof.
  unfold uploadScreenshot, clearYuzuScreenshots.
  apply Always_bind; [apply Always_clearYuzuScreenshots_loop | intros _].
  always_auto.
Qed.

Lemma Always_selectOutputSize size : Always (taskAction page) (selectOutputSize page size).
Proof. unfold selectOutputSize. cbv zeta. always_auto. Qed.

Lemma Always_configureBackground design :
  Always (taskAction page) (configureBackground page design).
Proof. unfold configureBackground. cbv zeta. always_auto. Qed.

Lemma Always_configureDevice design size :
  Always (taskAction page) (configureDevice page design size).
Proof. unfold configureDevice, enableFrame. cbv zeta. always_auto. Qed.

Lemma Always_configureText design title :
  Always (taskAction page) (configureText page design title).
Proof.
  unfold configureText, enableHeadline, disableSubheadline. cbv zeta.
  repeat (apply Always_bind; [| intros ?]);
    try apply Always_waitForCanvasRender; always_auto.
Qed.

Lemma Always_exportScreenshot path : Always (taskAction page) (exportScreenshot page path).
Proof.
  unfold exportScreenshot.
  apply Always_bind; [apply Always_ensureDir | intros _]. always_auto.
Qed.

Lemma Always_attemptSteps dir screenshot locale size design outputDir attempt :
  Always (taskAction page)
         (attemptSteps dir page screenshot locale size design outputDir attempt).
Proof.
  unfold attemptSteps. cbv zeta.
  apply Always_bind; [always_auto | intros found].
  destruct (negb found); [apply Always_ret |].
  repeat (apply Always_bind; [| intros ?]);
    auto using Always_selectOutputSize, Always_uploadScreenshot, Always_configureBackground,
      Always_configureDevice, Always_configureText, Always_exportScreenshot;
    always_auto.
  - unfold enableFrame. always_auto.
  - apply Always_ensureDir.
Qed.

Lemma Always_retryReset logPrefix : Always (taskAction page) (retryReset page logPrefix).
Proof. unfold retryReset. always_auto. Qed.

Lemma Always_weaken {A} (ok ok' : Action -> Prop) (p : Prog A) :
  (forall act, ok act -> ok' act) -> Always ok p -> Always ok' p.
Proof. intros W H s. eapply always_weaken; [exact W | | apply H]. auto. Qed.

(** The part of [processScreenshot] after the entry mark: every later entry
    has a higher attempt number. *)
Lemma Always_processScreenshot_rec dir fuel screenshot locale size design outputDir attempt :
  Always (taskOrEnterFrom attempt page (Screenshot.id screenshot) locale (Size.device size))
         (processScreenshot_rec dir fuel page screenshot locale size design outputDir attempt).
Proof.
  revert attempt. induction fuel as [| fuel IH]; intros attempt;
    rewrite processScreenshot_rec_unfold; cbv zeta.
  all: apply Always_bind;
    [apply Always_emit; right; eexists; split; [apply le_n | reflexivity] | intros _].
  all: apply Always_tryCatch;
    [eapply Always_weaken; [| apply Always_attemptSteps]; intros act H; left; exact H
    | intros e].
  all: apply Always_bind; [apply Always_emit; left; exact I | intros _].
  all: destruct (Nat.ltb attempt MAX_RETRIES).
  all: try (apply Always_bind;
            [eapply Always_weaken; [| apply Always_retryReset]; intros act H; left; exact H
            | intros _]).
  all: try apply Always_throw.
  all: try (eapply Always_weaken; [| apply IH]; intros act [H | (a & Ha & ->)];
            [left; exact H | right; exists a; split; [lia | reflexivity]]).
  all: apply Always_bind; [apply Always_emit; left; exact I | intros _; apply Always_ret].
Qed.

End TaskActions.

(* ===================================================================== *)
(** ** Retry exhaustion *)
(* ===================================================================== *)

Section Exhaustion.

Context {World : Type}.
Variable exec : Action -> World -> Reply * World.
Variable dir : string.
Variable page : handle.
Variable screenshot : Screenshot.t.
Variable locale : string.
Variable size : Size.t.
Variable design : Design.t.
Variable outputDir : string.

Lemma attemptsEntered_app tr evs :
  attemptsEntered (tr ++ evs) = attemptsEntered tr ++ attemptsEntered evs.
Proof. unfold attemptsEntered. apply flat_map_app. Qed.

Lemma attemptsEntered_task evs :
  Forall (fun ev => taskAction page (fst ev)) evs -> attemptsEntered evs = [].
Proof.
  induction 1 as [| [act r] evs H _ IH]; [reflexivity |].
  unfold attemptsEntered in *. simpl. rewrite IH.
  destruct act; simpl in H; try contradiction; reflexivity.
Qed.

Lemma attemptRun_entered attempt s (st : St World) :
  attemptsEntered
    (trace (snd (attemptRun exec dir page screenshot locale size design outputDir attempt s st)))
  = attemptsEntered (trace st) ++ [attempt].
Proof.
  unfold attemptRun.
  destruct (run_always (taskAction page) exec _
              (attemptSteps dir page screenshot locale size design outputDir attempt s)
              (note (Enter page (Screenshot.id screenshot) locale (Size.device size) attempt) st)
              (Always_attemptSteps page _ _ _ _ _ _ _ s)) as (evs & T & F & _).
  rewrite T. cbn [note trace]. rewrite !attemptsEntered_app, (attemptsEntered_task evs F).
  now rewrite app_nil_r.
Qed.

Lemma resetRun_entered e (r : (Outcome bool * Store) * St World) :
  attemptsEntered (trace (snd (resetRun exec page screenshot locale size e r)))
  = attemptsEntered (trace (snd r)).
Proof.
  unfold resetRun. cbv zeta.
  match goal with
  | |- context [run exec (retryReset page ?l ?s) ?st] =>
      destruct (run_always (taskAction page) exec _ (retryReset page l s) st
                  (Always_retryReset page l s)) as (evs & T & F & _)
  end.
  rewrite T. cbn [note trace]. rewrite !attemptsEntered_app, (attemptsEntered_task evs F).
  cbn. now rewrite !app_nil_r.
Qed.

Lemma run_page_reload s (st : St World) :
  run exec (page_reload page s) st
  = match fst (exec (OnPage page Reload) (world st)) with
    | Done _ =>
        ((Returned tt, s),
         {| world := snd (exec (OnPage page Reload) (world st));
            trace := trace st ++ [(OnPage page Reload, fst (exec (OnPage page Reload) (world st)))] |})
    | Raised e =>
        ((Threw e, s),
         {| world := snd (exec (OnPage page Reload) (world st));
            trace := trace st ++ [(OnPage page Reload, fst (exec (OnPage page Reload) (world st)))] |})
    end.
Proof.
  unfold page_reload, onPage. rewrite run_bind, run_await, step_plain by reflexivity.
  cbn [fst snd]. destruct (fst (exec (OnPage page Reload) (world st))); reflexivity.
Qed.

End Exhaustion.

(** C2, as stated, fails: on a page that is gone the first attempt raises,
    the reset in the catch block raises too, and that exception leaves
    [processScreenshot] after a single attempt. *)
Lemma retry_dead_page :
  let st := Sim.start Worlds.deadPage in
  let gone := {| message := "Target page, context or browser has been closed" |} in
  let result := run Sim.exec
                  (processScreenshot "/repo" 7 Sample.home "de" Sample.iphone Sample.design
                                     "/repo/output" 1 emptyStore) st in
  fst (fst (attemptRun Sim.exec "/repo" 7 Sample.home "de" Sample.iphone Sample.design
                       "/repo/output" 1 emptyStore st)) = Threw gone
  /\ fst (fst result) = Threw gone
  /\ attemptsEntered (trace (snd result)) = [1].
Proof. repeat split. Qed.

(* ===================================================================== *)
(** ** The per-screenshot timeout *)
(* ===================================================================== *)

(** C9 does not hold of the code: [PER_SCREENSHOT_TIMEOUT_MS] is declared
    but no function uses it. In an environment where every UI operation
    takes 3 seconds (well below Playwright's own 30 second limits) the
    single attempt of a task runs for more than 90 seconds and is neither
    aborted nor retried: it is the only attempt and it succeeds. *)
Theorem attempt_exceeds_soft_timeout :
  let result := run Sim.exec
                  (processScreenshot "/repo" 7 Sample.home "de" Sample.iphone Sample.design
                                     "/repo/output" 1 emptyStore)
                  (Sim.start Worlds.slow) in
  fst (fst result) = Returned true
  /\ attemptsEntered (trace (snd result)) = [1]
  /\ (PER_SCREENSHOT_TIMEOUT_MS < Sim.clock (world (snd result)))%N.
Proof. vm_compute. repeat split. Qed.

(* ===================================================================== *)
(** ** The empty screenshot list *)
(* ===================================================================== *)

Section EmptyList.

Context {World : Type}.
Variable exec : Action -> World -> Reply * World.
Variable dir : string.
Variable args : list string.

Lemma Always_detectYuzuUrl : Always detectAction (detectYuzuUrl args).
Proof.
  unfold detectYuzuUrl, autoDetect. always_auto.
Qed.

(** [detectYuzuUrl] always returns an address. *)
Lemma detectYuzuUrl_returns s (st : St World) :
  exists url, fst (run exec (detectYuzuUrl args s) st) = (Returned url, s).
Proof.
  assert (A : exists url, fst (run exec (autoDetect s) st) = (Returned url, s)).
  { unfold autoDetect. rewrite run_bind, run_tryCatch, run_bind, run_await. cbn [fst snd].
    destruct (fst (step exec (Fetch LOCAL_URL 3000) st)) as [v | e]; cbn [fst snd].
    - destruct (truthy v).
      + rewrite run_bind, run_console. cbn [fst snd]. rewrite !run_ret. cbn [fst snd].
        rewrite run_ret. eexists; reflexivity.
      + rewrite !run_ret. cbn [fst snd]. rewrite run_bind, run_console. cbn [fst snd].
        rewrite run_ret. eexists; reflexivity.
    - rewrite !run_ret. cbn [fst snd]. rewrite run_bind, run_console. cbn [fst snd].
      rewrite run_ret. eexists; reflexivity. }
  unfold detectYuzuUrl. destruct (yuzuBaseUrl args) as [url |]; [| exact A].
  destruct (Js.truthy_string url); [| exact A].
  rewrite run_bind, run_console. cbn [fst snd]. rewrite run_ret. eexists; reflexivity.
Qed.

End EmptyList.

(** C10: with an empty screenshot list [main] throws when it reads the
    titles of the first screenshot. The run writes the banner, resolves the
    address, then reports the fatal error and exits with status 1; nothing
    else happens, so no browser is launched and no size is scheduled. *)
Theorem empty_screenshots_abort {World : Type} (exec : Action -> World -> Reply * World)
    (dir : string) (args : list string) (schedule : list nat)
    (design : Design.t) (output : Output.t) (s : Store) (st : St World) :
  let config := {| Config.screenshots := []; Config.design := design;
                   Config.output := output |} in
  let result := run exec (execute dir args schedule config s) st in
  fst result = (Returned 1, s)
  /\ exists detectEvents,
       Forall (fun ev => detectAction (fst ev)) detectEvents
       /\ trace (snd result)
          = trace st ++ banner ++ detectEvents
            ++ [(Console ErrorLevel (MsgFatal (message (typeError "titles"))), Done VUndefined);
                (ProcessExit 1, Done VUndefined)].
Proof.
  intros config result.
  set (st4 := {| world := world st; trace := trace st ++ banner |}).
  destruct (detectYuzuUrl_returns exec args s st4) as (url & D).
  destruct (run_always detectAction exec _ (detectYuzuUrl args s) st4
              (Always_detectYuzuUrl args s)) as (evs & T & F & _).
  destruct (run exec (detectYuzuUrl args s) st4) as [[o s'] st5] eqn:R.
  cbn [fst snd] in D, T. injection D as -> ->.
  assert (M : run exec (main dir args schedule config s) st
              = ((Threw (typeError "titles"), s), st5)).
  { unfold main.
    eapply run_bind_ret; [apply run_console |].
    eapply run_bind_ret; [apply run_console |].
    eapply run_bind_ret; [apply run_console |].
    eapply run_bind_ret; [apply run_console |].
    cbn [world trace]. rewrite <- !app_assoc.
    eapply run_bind_ret; [exact R |].
    eapply run_bind_threw. apply run_throw. }
  assert (E : result
              = ((Returned 1, s),
                 note (ProcessExit 1)
                      (note (Console ErrorLevel (MsgFatal (message (typeError "titles")))) st5))).
  { unfold result, execute. eapply run_catch_threw.
    - eapply run_bind_threw. exact M.
    - eapply run_bind_ret; [apply run_console |].
      eapply run_bind_ret; [apply run_note; reflexivity | apply run_ret]. }
  rewrite E. split; [reflexivity |]. exists evs. split; [exact F |].
  cbn [snd note trace]. rewrite T. unfold st4. cbn [trace].
  rewrite <- !app_assoc. reflexivity.
Qed.

(* ===================================================================== *)
(** ** Reasoning about every path of a program *)
(* ===================================================================== *)

Section WpFacts.

Lemma wp_mono {X} (t : Tree X) (Q Q' : list Event -> X -> Prop) :
  (forall evs x, Q evs x -> Q' evs x) -> wp t Q -> wp t Q'.
Proof.
  revert Q Q'. induction t as [x | act k IH]; simpl; intros Q Q' W H.
  - apply W, H.
  - intros r Hr. eapply IH; [| apply H, Hr]. intros evs x. apply W.
Qed.

Lemma wp_conj {X} (t : Tree X) (Q Q' : list Event -> X -> Prop) :
  wp t Q -> wp t Q' -> wp t (fun evs x => Q evs x /\ Q' evs x).
Proof.
  revert Q Q'. induction t as [x | act k IH]; simpl; intros Q Q' H H'.
  - split; assumption.
  - intros r Hr. apply (IH r _ _ (H r Hr) (H' r Hr)).
Qed.

Lemma wp_tbind {X Y} (t : Tree X) (f : X -> Tree Y) (Q : list Event -> Y -> Prop) :
  wp t (fun evs x => wp (f x) (fun evs' y => Q (evs ++ evs') y)) -> wp (tbind t f) Q.
Proof.
  revert Q. induction t as [x | act k IH]; simpl; intros Q H.
  - exact H.
  - intros r Hr. apply IH. apply H, Hr.
Qed.

Lemma wp_always {X} (ok : Action -> Prop) (leaf : X -> Prop) (t : Tree X) :
  always ok leaf t -> wp t (fun evs x => Forall (fun ev => ok (fst ev)) evs /\ leaf x).
Proof.
  induction t as [x | act k IH]; simpl; intros H.
  - split; [constructor | exact H].
  - destruct H as [Ha Hk]. intros r _. eapply wp_mono; [| apply IH, Hk].
    intros evs x [F L]. split; [constructor; assumption | exact L].
Qed.

Lemma wp_ret {A} (a : A) s (Q : list Event -> Outcome A * Store -> Prop) :
  Q [] (Returned a, s) -> wp (ret a s) Q.
Proof. exact (fun H => H). Qed.

Lemma wp_throw {A} (e : Error) s (Q : list Event -> Outcome A * Store -> Prop) :
  Q [] (Threw e, s) -> wp (@throw A e s) Q.
Proof. exact (fun H => H). Qed.

Lemma wp_get s (Q : list Event -> Outcome Store * Store -> Prop) :
  Q [] (Returned s, s) -> wp (get s) Q.
Proof. exact (fun H => H). Qed.

Lemma wp_modify f s (Q : list Event -> Outcome unit * Store -> Prop) :
  Q [] (Returned tt, f s) -> wp (modify f s) Q.
Proof. exact (fun H => H). Qed.

Lemma wp_bind {A B} (p : Prog A) (f : A -> Prog B) s
    (Q : list Event -> Outcome B * Store -> Prop) :
  wp (p s) (fun evs r =>
    match fst r with
    | Returned a => wp (f a (snd r)) (fun evs' r' => Q (evs ++ evs') r')
    | Threw e => Q evs (Threw e, snd r)
    end) ->
  wp (bind p f s) Q.
Proof.
  intros H. unfold bind. apply wp_tbind. eapply wp_mono; [| exact H].
  intros evs [[a | e] s'] H'; simpl in *; [exact H' | now rewrite app_nil_r].
Qed.

Lemma wp_tryCatch {A} (p : Prog A) (h : Error -> Prog A) s
    (Q : list Event -> Outcome A * Store -> Prop) :
  wp (p s) (fun evs r =>
    match fst r with
    | Returned a => Q evs (Returned a, snd r)
    | Threw e => wp (h e (snd r)) (fun evs' r' => Q (evs ++ evs') r')
    end) ->
  wp (tryCatch p h s) Q.
Proof.
  intros H. unfold tryCatch. apply wp_tbind. eapply wp_mono; [| exact H].
  intros evs [[a | e] s'] H'; simpl in *; [now rewrite app_nil_r | exact H'].
Qed.

Lemma wp_tryFinally {A} (p : Prog A) (f : Prog unit) s
    (Q : list Event -> Outcome A * Store -> Prop) :
  wp (p s) (fun evs r =>
    wp (f (snd r)) (fun evs' r' =>
      match fst r' with
      | Returned _ => Q (evs ++ evs') (fst r, snd r')
      | Threw e => Q (evs ++ evs') (Threw e, snd r')
      end)) ->
  wp (tryFinally p f s) Q.
Proof.
  intros H. unfold tryFinally. apply wp_tbind. eapply wp_mono; [| exact H].
  intros evs r H'. apply wp_tbind. eapply wp_mono; [| exact H'].
  intros evs' [[u | e] s'] H''; simpl in *; now rewrite app_nil_r.
Qed.

Lemma wp_await act s (Q : list Event -> Outcome Value * Store -> Prop) :
  (forall v, Q [(act, Done v)] (Returned v, s)) ->
  (forall e, Q [(act, Raised e)] (Threw e, s)) ->
  wp (await act s) Q.
Proof. intros Hv He [v | e] _; simpl; [apply Hv | apply He]. Qed.

Lemma wp_emit act s (Q : list Event -> Outcome unit * Store -> Prop) :
  silent act = true ->
  Q [(act, Done VUndefined)] (Returned tt, s) -> wp (emit act s) Q.
Proof. intros Hs H r Hr. simpl. now rewrite (Hr Hs). Qed.

Lemma wp_console level msg s (Q : list Event -> Outcome unit * Store -> Prop) :
  Q [(Console level msg, Done VUndefined)] (Returned tt, s) -> wp (console level msg s) Q.
Proof. apply wp_emit. reflexivity. Qed.

Lemma wp_call {A} (p : Prog A) s (Q : list Event -> Outcome A * Store -> Prop) :
  wp (p emptyStore) (fun evs r => Q evs (fst r, s)) -> wp (call p s) Q.
Proof.
  intros H. unfold call. apply wp_tbind. eapply wp_mono; [| exact H].
  intros evs r H'. simpl. now rewrite app_nil_r.
Qed.

Lemma silent_not_allocates act : silent act = true -> allocates act = false.
Proof.
  destruct act; simpl; try discriminate; try reflexivity.
  destruct op; simpl; try discriminate; reflexivity.
Qed.

Lemma step_spec {World : Type} (exec : Action -> World -> Reply * World) act (st : St World) :
  quiet act (fst (step exec act st))
  /\ trace (snd (step exec act st)) = trace st ++ [(act, fst (step exec act st))]
  /\ (allocates act = true -> forall v, fst (step exec act st) = Done v ->
      v = VHandle (length (trace st))).
Proof.
  unfold step, quiet. destruct (silent act) eqn:Hs.
  - rewrite (silent_not_allocates act Hs). cbn.
    split; [reflexivity | split; [reflexivity | discriminate]].
  - destruct (exec act (world st)) as [[v | e] w]; cbn.
    + split; [discriminate | split; [reflexivity |]].
      intros Ha v' E. rewrite Ha in E. now injection E as <-.
    + split; [discriminate | split; [reflexivity | discriminate]].
Qed.

(** What holds of every path holds of the run against any environment. *)
Lemma wp_run {World : Type} (exec : Action -> World -> Reply * World)
    {X} (t : Tree X) (Q : list Event -> X -> Prop) (st : St World) :
  wp t Q ->
  exists evs, trace (snd (run exec t st)) = trace st ++ evs /\ Q evs (fst (run exec t st)).
Proof.
  revert Q st. induction t as [x | act k IH]; intros Q st H; simpl in *.
  - exists []. split; [now rewrite app_nil_r | exact H].
  - destruct (step_spec exec act st) as (Hq & Ht & _).
    destruct (step exec act st) as [r st'] eqn:E. cbn [fst snd] in *.
    destruct (IH r _ st' (H r Hq)) as (evs & T & HQ).
    exists ((act, r) :: evs). split; [| exact HQ].
    rewrite T, Ht, <- app_assoc. reflexivity.
Qed.

End WpFacts.

(* ===================================================================== *)
(** ** One task, on every path *)
(* ===================================================================== *)

Section TaskPaths.

Variable dir : string.
Variable page : handle.
Variable screenshot : Screenshot.t.
Variable locale : string.
Variable size : Size.t.
Variable design : Design.t.
Variable outputDir : string.

Lemma processScreenshot_rec_entry fuel attempt :
  processScreenshot_rec dir fuel page screenshot locale size design outputDir attempt
  = (emit (Enter page (Screenshot.id screenshot) locale (Size.device size) attempt) ;;
     afterEntry dir fuel page screenshot locale size design outputDir attempt)%prog.
Proof. destruct fuel; reflexivity. Qed.

Lemma Always_afterEntry fuel attempt :
  Always (taskOrEnterFrom (S attempt) page (Screenshot.id screenshot) locale (Size.device size))
         (afterEntry dir fuel page screenshot locale size design outputDir attempt).
Proof.
  unfold afterEntry. cbv zeta.
  apply Always_tryCatch;
    [eapply Always_weaken; [| apply Always_attemptSteps]; intros act H; left; exact H
    | intros e].
  apply Always_bind; [apply Always_emit; left; exact I | intros _].
  destruct (Nat.ltb attempt MAX_RETRIES).
  - apply Always_bind;
      [eapply Always_weaken; [| apply Always_retryReset]; intros act H; left; exact H
      | intros _].
    destruct fuel as [| fuel']; [apply Always_throw |].
    eapply Always_weaken; [| apply Always_processScreenshot_rec].
    intros act [H | (a & Ha & ->)];
      [left; exact H | right; exists a; split; [lia | reflexivity]].
  - apply Always_bind; [apply Always_emit; left; exact I | intros _; apply Always_ret].
Qed.

(** On every path a call of [processScreenshot] at attempt 1 starts with
    its entry mark; what follows are actions of this task on this page and
    entries at attempt 2 or higher; no variable in scope is assigned. *)
Lemma wp_processScreenshot s :
  wp (processScreenshot dir page screenshot locale size design outputDir 1 s)
     (fun evs r =>
        snd r = s
        /\ exists rest,
             evs = (Enter page (Screenshot.id screenshot) locale (Size.device size) 1,
                    Done VUndefined) :: rest
             /\ Forall (fun ev => taskOrEnterFrom 2 page (Screenshot.id screenshot) locale
                                                  (Size.device size) (fst ev)) rest).
Proof.
  unfold processScreenshot. rewrite processScreenshot_rec_entry.
  apply wp_bind, wp_emit; [reflexivity |]. cbn [fst snd].
  eapply wp_mono; [| apply (wp_always _ _ _ (Always_afterEntry _ 1 s))].
  intros evs r [F L]. split; [exact L |]. exists evs. split; [reflexivity | exact F].
Qed.

End TaskPaths.

(* ===================================================================== *)
(** ** Sessions along a trace *)
(* ===================================================================== *)

Section SessionFacts.

Variable interval : nat.

Lemma taskStartAt_app tr evs i p :
  taskStartAt (tr ++ evs) i p <->
  (i < length tr /\ taskStartAt tr i p)
  \/ (length tr <= i /\ taskStartAt evs (i - length tr) p).
Proof.
  unfold taskStartAt. destruct (Nat.lt_ge_cases i (length tr)) as [L | G].
  - rewrite nth_error_app1 by exact L. split.
    + intros H. left. split; [exact L | exact H].
    + intros [[_ H] | [G _]]; [exact H | lia].
  - rewrite nth_error_app2 by exact G. split.
    + intros H. right. split; [exact G | exact H].
    + intros [[L _] | [_ H]]; [lia | exact H].
Qed.

Lemma taskStartAt_lt evs i p : taskStartAt evs i p -> i < length evs.
Proof.
  intros (a & b & c & r & H). apply nth_error_Some. congruence.
Qed.

Lemma noStarts_taskStartAt evs i p : noStarts evs -> ~ taskStartAt evs i p.
Proof.
  intros N (a & b & c & r & H). apply nth_error_In in H.
  unfold noStarts in N. rewrite Forall_forall in N. specialize (N _ H). discriminate N.
Qed.

Lemma createdAt_app_l tr evs k c q : createdAt tr k c q -> createdAt (tr ++ evs) k c q.
Proof.
  intros (b & x & v & H1 & H2 & E). exists b, x, v.
  assert (L : S k < length tr) by (apply nth_error_Some; congruence).
  rewrite !nth_error_app1 by lia. auto.
Qed.

Lemma createdAt_app_r tr evs k c q :
  createdAt evs k c q -> createdAt (tr ++ evs) (length tr + k) c q.
Proof.
  intros (b & x & v & H1 & H2 & E). exists b, x, v.
  rewrite !nth_error_app2 by lia.
  replace (length tr + k - length tr) with k by lia.
  replace (S (length tr + k) - length tr) with (S k) by lia. auto.
Qed.

Lemma createdAt_shift tr evs c q :
  (exists k, createdAt evs k c q) -> exists k, createdAt (tr ++ evs) k c q.
Proof. intros [k H]. exists (length tr + k). now apply createdAt_app_r. Qed.

Lemma createdAt_lt evs k c q : createdAt evs k c q -> S k < length evs.
Proof. intros (b & x & v & _ & H2 & _). apply nth_error_Some. congruence. Qed.

Lemma distinctPages_prefix tr evs : distinctPages (tr ++ evs) -> distinctPages tr.
Proof.
  intros D a b c c' v v' Ha Hb E.
  assert (La : a < length tr) by (apply nth_error_Some; congruence).
  assert (Lb : b < length tr) by (apply nth_error_Some; congruence).
  apply (D a b c c' v v'); [now rewrite nth_error_app1 | now rewrite nth_error_app1 | exact E].
Qed.

Lemma distinctPages_created evs k c k' c' q :
  distinctPages evs -> createdAt evs k c q -> createdAt evs k' c' q -> k = k'.
Proof.
  intros D (b & x & v & _ & H2 & _ & E) (b' & x' & v' & _ & H2' & _ & E').
  assert (S k = S k') by (apply (D _ _ _ _ _ _ H2 H2'); congruence). lia.
Qed.

Lemma tasksStartedOn_app p tr evs :
  tasksStartedOn p (tr ++ evs) = tasksStartedOn p tr + tasksStartedOn p evs.
Proof. unfold tasksStartedOn. now rewrite filter_app, length_app. Qed.

Lemma tasksStartedOn_noStarts p evs : noStarts evs -> tasksStartedOn p evs = 0.
Proof.
  unfold tasksStartedOn. induction 1 as [| [act r] evs H _ IH]; [reflexivity |].
  simpl. unfold startsTaskOn, isTaskStart in *. simpl in *.
  destruct act; try exact IH. destruct attempt as [| [| n]]; try exact IH. discriminate H.
Qed.

(** A page on which a task started was created before. *)
Lemma tasksStartedOn_pos p evs :
  0 < tasksStartedOn p evs -> exists i, taskStartAt evs i p.
Proof.
  unfold tasksStartedOn. induction evs as [| [act r] evs IH]; simpl; [lia |].
  destruct (startsTaskOn p (act, r)) eqn:Hst.
  - intros _. exists 0. unfold startsTaskOn in Hst. simpl in Hst.
    destruct act; try discriminate. destruct attempt as [| [| n]]; try discriminate.
    apply Nat.eqb_eq in Hst. subst. now exists screenshotId, locale, device, r.
  - intros H. destruct (IH H) as (i & a & b & c & r' & Hi).
    exists (S i), a, b, c, r'. exact Hi.
Qed.

Lemma taskStartAt_quiet tr evs i p :
  noStarts evs -> taskStartAt (tr ++ evs) i p -> i < length tr /\ taskStartAt tr i p.
Proof.
  intros N H. apply taskStartAt_app in H as [H | [_ H]]; [exact H |].
  now apply noStarts_taskStartAt in H.
Qed.

Lemma taskStartAt_head act r rest i p :
  noStarts rest -> taskStartAt ((act, r) :: rest) i p ->
  i = 0 /\ exists a b c, act = Enter p a b c 1.
Proof.
  intros N H. destruct i as [| i].
  - destruct H as (a & b & c & r' & H). simpl in H. injection H as -> _.
    split; [reflexivity | now exists a, b, c].
  - exfalso. apply (noStarts_taskStartAt rest i p N).
    destruct H as (a & b & c & r' & H). now exists a, b, c, r'.
Qed.

Lemma Sessions_init tr k c cur :
  noStarts tr -> createdAt tr k c cur -> Sessions interval tr cur 0.
Proof.
  intros N C. repeat split.
  - now exists k, c.
  - intros i p H. now apply noStarts_taskStartAt in H.
  - intros i p H. now apply noStarts_taskStartAt in H.
  - intros i j p q _ H. now apply noStarts_taskStartAt in H.
  - now apply tasksStartedOn_noStarts.
  - intros p _. rewrite tasksStartedOn_noStarts by exact N. lia.
Qed.

Lemma Sessions_quiet tr evs cur m :
  Sessions interval tr cur m -> noStarts evs -> Sessions interval (tr ++ evs) cur m.
Proof.
  intros ((k & c & C) & P & K & B & D) N. repeat split.
  - exists k, c. now apply createdAt_app_l.
  - intros i p H. apply (taskStartAt_quiet _ _ _ _ N) in H as [_ H].
    destruct (P i p H) as (k' & c' & L & C'). exists k', c'.
    split; [exact L | now apply createdAt_app_l].
  - intros i p H. apply (taskStartAt_quiet _ _ _ _ N) in H as [_ H].
    destruct (K i p H) as [E | (k' & c' & L & C')]; [now left | right].
    exists k', c'. split; [exact L | now apply createdAt_app_l].
  - intros i j p q L Hi Hj.
    apply (taskStartAt_quiet _ _ _ _ N) in Hi as [_ Hi].
    apply (taskStartAt_quiet _ _ _ _ N) in Hj as [_ Hj].
    destruct (B i j p q L Hi Hj) as [E | (k' & c' & L1 & L2 & C')]; [now left | right].
    exists k', c'. repeat split; [exact L1 | exact L2 | now apply createdAt_app_l].
  - rewrite tasksStartedOn_app, (tasksStartedOn_noStarts _ _ N), Nat.add_0_r.
    apply D. eapply distinctPages_prefix; eassumption.
  - intros p Hp. rewrite tasksStartedOn_app, (tasksStartedOn_noStarts _ _ N), Nat.add_0_r.
    apply D; [eapply distinctPages_prefix; eassumption | exact Hp].
Qed.

Lemma Sessions_switch tr evs cur m k c q :
  Sessions interval tr cur m -> m <= interval -> noStarts evs -> createdAt evs k c q ->
  Sessions interval (tr ++ evs) q 0.
Proof.
  intros ((k0 & c0 & C0) & P & K & B & D) Hm N C. repeat split.
  - exists (length tr + k), c. now apply createdAt_app_r.
  - intros i p H. apply (taskStartAt_quiet _ _ _ _ N) in H as [_ H].
    destruct (P i p H) as (k' & c' & L & C'). exists k', c'.
    split; [exact L | now apply createdAt_app_l].
  - intros i p H. apply (taskStartAt_quiet _ _ _ _ N) in H as [L _].
    right. exists (length tr + k), c. split; [lia | now apply createdAt_app_r].
  - intros i j p p' L Hi Hj.
    apply (taskStartAt_quiet _ _ _ _ N) in Hi as [_ Hi].
    apply (taskStartAt_quiet _ _ _ _ N) in Hj as [_ Hj].
    destruct (B i j p p' L Hi Hj) as [E | (k' & c' & L1 & L2 & C')]; [now left | right].
    exists k', c'. repeat split; [exact L1 | exact L2 | now apply createdAt_app_l].
  - rewrite tasksStartedOn_app, (tasksStartedOn_noStarts _ _ N), Nat.add_0_r.
    destruct (tasksStartedOn q tr) as [| n] eqn:T; [reflexivity | exfalso].
    destruct (tasksStartedOn_pos q tr) as (i & Hi); [lia |].
    destruct (P i q Hi) as (k' & c' & L & C').
    assert (k' = length tr + k).
    { eapply distinctPages_created; [eassumption | |].
      - apply createdAt_app_l. exact C'.
      - apply createdAt_app_r. exact C. }
    apply createdAt_lt in C'. lia.
  - intros p Hp. rewrite tasksStartedOn_app, (tasksStartedOn_noStarts _ _ N), Nat.add_0_r.
    assert (D' : distinctPages tr) by (eapply distinctPages_prefix; eassumption).
    destruct (D D') as [Dc Do]. destruct (Nat.eq_dec p cur) as [-> | Hc].
    + lia.
    + now apply Do.
Qed.

Lemma Sessions_task tr cur m a b c r rest :
  Sessions interval tr cur m -> noStarts rest ->
  Sessions interval (tr ++ (Enter cur a b c 1, r) :: rest) cur (S m).
Proof.
  intros ((k0 & c0 & C0) & P & K & B & D) N. repeat split.
  - exists k0, c0. now apply createdAt_app_l.
  - intros i p H. apply taskStartAt_app in H as [[L H] | [G H]].
    + destruct (P i p H) as (k' & c' & L' & C'). exists k', c'.
      split; [exact L' | now apply createdAt_app_l].
    + apply (taskStartAt_head _ _ _ _ _ N) in H as [Z (a1 & b1 & c1 & E)].
      injection E as <-. exists k0, c0. split.
      * apply createdAt_lt in C0. lia.
      * now apply createdAt_app_l.
  - intros i p H. apply taskStartAt_app in H as [[L H] | [G H]].
    + destruct (K i p H) as [E | (k' & c' & L' & C')]; [now left | right].
      exists k', c'. split; [exact L' | now apply createdAt_app_l].
    + apply (taskStartAt_head _ _ _ _ _ N) in H as [Z (a1 & b1 & c1 & E)].
      injection E as <-. now left.
  - intros i j p q L Hi Hj.
    apply taskStartAt_app in Hi as [[Li Hi] | [Gi Hi]];
      apply taskStartAt_app in Hj as [[Lj Hj] | [Gj Hj]].
    + destruct (B i j p q L Hi Hj) as [E | (k' & c' & L1 & L2 & C')]; [now left | right].
      exists k', c'. repeat split; [exact L1 | exact L2 | now apply createdAt_app_l].
    + apply (taskStartAt_head _ _ _ _ _ N) in Hj as [Z (a1 & b1 & c1 & E)].
      injection E as <-.
      destruct (K i p Hi) as [E | (k' & c' & L' & C')]; [now left | right].
      exists k', c'. repeat split; [exact L' | | now apply createdAt_app_l].
      apply createdAt_lt in C'. lia.
    + lia.
    + apply (taskStartAt_head _ _ _ _ _ N) in Hi as [Zi _].
      apply (taskStartAt_head _ _ _ _ _ N) in Hj as [Zj _]. lia.
  - rewrite tasksStartedOn_app.
    assert (D' : distinctPages tr) by (eapply distinctPages_prefix; eassumption).
    destruct (D D') as [Dc _]. rewrite Dc.
    change ((Enter cur a b c 1, r) :: rest) with ([(Enter cur a b c 1, r)] ++ rest).
    rewrite tasksStartedOn_app, (tasksStartedOn_noStarts _ _ N).
    unfold tasksStartedOn, startsTaskOn. simpl. rewrite Nat.eqb_refl. simpl. lia.
  - intros p Hp. rewrite tasksStartedOn_app.
    assert (D' : distinctPages tr) by (eapply distinctPages_prefix; eassumption).
    destruct (D D') as [_ Do].
    change ((Enter cur a b c 1, r) :: rest) with ([(Enter cur a b c 1, r)] ++ rest).
    rewrite tasksStartedOn_app, (tasksStartedOn_noStarts _ _ N).
    unfold tasksStartedOn at 2, startsTaskOn. simpl.
    assert (Hne : Nat.eqb cur p = false) by (apply Nat.eqb_neq; congruence).
    rewrite Hne. simpl. rewrite !Nat.add_0_r. now apply Do.
Qed.

Lemma Sessions_Safe tr cur m :
  Sessions interval tr cur m -> m <= interval -> Safe interval tr.
Proof.
  intros (_ & _ & _ & B & D) Hm. split; [exact B |].
  intros Dp p. destruct (D Dp) as [Dc Do].
  destruct (Nat.eq_dec p cur) as [-> | Hc]; [lia | now apply Do].
Qed.

Lemma Safe_noStarts tr : noStarts tr -> Safe interval tr.
Proof.
  intros N. split.
  - intros i j p q _ H. now apply noStarts_taskStartAt in H.
  - intros _ p. rewrite tasksStartedOn_noStarts by exact N. lia.
Qed.

Lemma Safe_quiet tr evs : Safe interval tr -> noStarts evs -> Safe interval (tr ++ evs).
Proof.
  intros [B D] N. split.
  - intros i j p q L Hi Hj.
    apply (taskStartAt_quiet _ _ _ _ N) in Hi as [_ Hi].
    apply (taskStartAt_quiet _ _ _ _ N) in Hj as [_ Hj].
    destruct (B i j p q L Hi Hj) as [E | (k' & c' & L1 & L2 & C')]; [now left | right].
    exists k', c'. repeat split; [exact L1 | exact L2 | now apply createdAt_app_l].
  - intros Dp p. rewrite tasksStartedOn_app, (tasksStartedOn_noStarts _ _ N), Nat.add_0_r.
    apply D. eapply distinctPages_prefix; eassumption.
Qed.

Lemma noStarts_app evs evs' : noStarts evs -> noStarts evs' -> noStarts (evs ++ evs').
Proof. intros H H'. apply Forall_app. now split. Qed.

End SessionFacts.

(* ===================================================================== *)
(** ** Session management, on every path *)
(* ===================================================================== *)

Section SessionPaths.

Lemma sessionAction_noStarts evs :
  Forall (fun ev => sessionAction (fst ev)) evs -> noStarts evs.
Proof.
  apply Forall_impl. intros [act r] H. unfold sessionAction in H. unfold isTaskStart.
  cbn [fst] in *. destruct act; try reflexivity. discriminate H.
Qed.

Lemma taskAction_session page act : taskAction page act -> sessionAction act.
Proof. destruct act; simpl; intros H; try reflexivity; contradiction. Qed.

Lemma taskAction_noStarts page evs :
  Forall (fun ev => taskAction page (fst ev)) evs -> noStarts evs.
Proof.
  intros H. apply sessionAction_noStarts. revert H. apply Forall_impl.
  intros ev. apply taskAction_session.
Qed.

Lemma taskOrEnterFrom_noStarts page a b c evs :
  Forall (fun ev => taskOrEnterFrom 2 page a b c (fst ev)) evs -> noStarts evs.
Proof.
  apply Forall_impl. intros [act r] H. cbn [fst] in H.
  destruct H as [H | (n & Hn & ->)]; unfold isTaskStart; simpl.
  - destruct act; simpl in H; try reflexivity; contradiction.
  - destruct n as [| [| n]]; [lia | lia | reflexivity].
Qed.

Lemma sameTask_refl s : sameTask s s.
Proof. repeat split. Qed.

Lemma sameTask_trans s1 s2 s3 : sameTask s1 s2 -> sameTask s2 s3 -> sameTask s1 s3.
Proof. unfold sameTask. intuition congruence. Qed.

Lemma Always_closeContext : Always sessionAction closeContext.
Proof. unfold closeContext, context_close. always_auto. Qed.

Lemma Always_closeBrowser : Always sessionAction closeBrowser.
Proof. unfold closeBrowser, browser_close. always_auto. Qed.

Lemma wp_await_map {A} act (f : Value -> A) s (Q : list Event -> Outcome A * Store -> Prop) :
  (forall v, Q [(act, Done v)] (Returned (f v), s)) ->
  (forall e, Q [(act, Raised e)] (Threw e, s)) ->
  wp ((v <- await act ;; ret (f v))%prog s) Q.
Proof.
  intros Hv He. apply wp_bind, wp_await; intros x; cbn [fst snd]; [apply Hv | apply He].
Qed.

Lemma wp_launchBrowser s :
  wp (launchBrowser s) (fun evs r => noStarts evs /\ sameTask s (snd r)).
Proof.
  unfold launchBrowser. apply wp_bind.
  eapply wp_mono; cycle 1.
  { apply (wp_always sessionAction (fun r => snd r = s)).
    assert (A : Always sessionAction
                  (tryCatch (s0 <- get ;;
                             match browser s0 with
                             | Some b => browser_close b
                             | None => ret tt
                             end)
                            (fun _ => ret tt))%prog)
      by (unfold browser_close; always_auto).
    apply A. }
  intros evs [[u | e] s1] [F L]; cbn [fst snd] in *; subst s1.
  - apply wp_bind. unfold chromium_launch. apply wp_await_map.
    + intros v. cbn [fst snd]. apply wp_modify. split.
      * apply noStarts_app; [now apply sessionAction_noStarts | repeat constructor].
      * repeat split.
    + intros e. cbn [fst snd]. split.
      * apply noStarts_app; [now apply sessionAction_noStarts | repeat constructor].
      * apply sameTask_refl.
  - split; [now apply sessionAction_noStarts | apply sameTask_refl].
Qed.

(** Steps over a store-preserving prefix of a sequence. *)
Lemma wp_over {A B} (ok : Action -> Prop) (p : Prog A) (f : A -> Prog B) s
    (Q : list Event -> Outcome B * Store -> Prop) :
  Always ok p ->
  (forall evs, Forall (fun ev => ok (fst ev)) evs ->
     (forall a, wp (f a s) (fun evs' r' => Q (evs ++ evs') r'))
     /\ (forall e, Q evs (Threw e, s))) ->
  wp (bind p f s) Q.
Proof.
  intros Hp H. apply wp_bind. eapply wp_mono; [| apply (wp_always _ _ _ (Hp s))].
  intros evs [[a | e] s1] [F L]; cbn [fst snd] in *; subst s1; apply (H evs F).
Qed.

Lemma Always_page_goto page url : Always (taskAction page) (page_goto page url).
Proof. always_auto. Qed.

Lemma Always_page_waitForTimeout page ms :
  Always (taskAction page) (page_waitForTimeout page ms).
Proof. always_auto. Qed.

Lemma wp_openSession url size s :
  wp (openSession url size s)
     (fun evs r =>
        snd r = s /\ noStarts evs
        /\ match fst r with
           | Returned cp => createdAt evs 0 (fst cp) (snd cp)
           | Threw _ => True
           end).
Proof.
  unfold openSession. apply wp_bind, wp_get. cbn [fst snd].
  apply wp_bind. destruct (browser s) as [b |]; cbn [deref].
  2: { apply wp_throw. cbn. repeat split. constructor. }
  apply wp_ret. cbn [fst snd app].
  apply wp_bind. unfold browser_newContext. apply wp_await_map.
  2: { intros e. cbn. repeat split. repeat constructor. }
  intros x. cbn [fst snd].
  apply wp_bind. unfold context_newPage. apply wp_await_map.
  2: { intros e. cbn. repeat split. repeat constructor. }
  intros v. cbn [fst snd].
  set (c := as_handle x). set (q := as_handle v).
  assert (C : forall rest,
             createdAt ([(BrowserNewContext b, Done x)] ++ [(ContextNewPage c, Done v)] ++ rest)
                       0 c q).
  { intros rest. exists b, x, v. repeat split. }
  apply (wp_over (taskAction q)); [apply Always_page_goto |]. intros e1 F1. split.
  2: { intros e. cbn [fst snd]. repeat split.
       apply noStarts_app; [repeat constructor |].
       apply noStarts_app; [repeat constructor | now apply (taskAction_noStarts q)]. }
  intros _.
  apply (wp_over (taskAction q)); [apply Always_page_waitForTimeout |]. intros e2 F2. split.
  2: { intros e. cbn [fst snd]. repeat split.
       apply noStarts_app; [repeat constructor |].
       apply noStarts_app; [repeat constructor |].
       apply noStarts_app; now apply (taskAction_noStarts q). }
  intros _.
  apply (wp_over (taskAction q)); [apply Always_selectOutputSize |]. intros e3 F3.
  assert (N : noStarts ([(BrowserNewContext b, Done x)] ++ [(ContextNewPage c, Done v)]
                        ++ e1 ++ e2 ++ e3 ++ [])).
  { apply noStarts_app; [repeat constructor |].
    apply noStarts_app; [repeat constructor |].
    apply noStarts_app; [now apply (taskAction_noStarts q) |].
    apply noStarts_app; [now apply (taskAction_noStarts q) |].
    apply noStarts_app; [now apply (taskAction_noStarts q) | constructor]. }
  split.
  - intros _. apply wp_ret. cbn [fst snd]. repeat split; [exact N | apply C].
  - intros e. cbn [fst snd]. repeat split. rewrite app_nil_r in N. exact N.
Qed.

Lemma wp_createFreshPage url size s :
  wp (createFreshPage url size s)
     (fun evs r =>
        sameTask s (snd r) /\ noStarts evs
        /\ match fst r with
           | Returned cp => exists k, createdAt evs k (fst cp) (snd cp)
           | Threw _ => True
           end).
Proof.
  unfold createFreshPage. apply wp_tryCatch.
  eapply wp_mono; [| apply wp_openSession].
  intros evs [[cp | e] s1] (-> & N & C); cbn [fst snd] in *.
  - repeat split; [exact N | now exists 0].
  - apply wp_bind, wp_console. cbn [fst snd].
    apply wp_bind. eapply wp_mono; [| apply wp_launchBrowser].
    intros evs2 [[u | e2] s2] (N2 & T2); cbn [fst snd] in *.
    + eapply wp_mono; [| apply wp_openSession].
      intros evs3 [[cp | e3] s3] (-> & N3 & C3); cbn [fst snd] in *.
      * repeat split; try apply T2.
        -- apply noStarts_app; [exact N |].
           apply noStarts_app; [repeat constructor |]. now apply noStarts_app.
        -- do 3 apply createdAt_shift. now exists 0.
      * repeat split; try apply T2.
        apply noStarts_app; [exact N |].
        apply noStarts_app; [repeat constructor |]. now apply noStarts_app.
    + repeat split; try apply T2.
      apply noStarts_app; [exact N |]. apply noStarts_app; [repeat constructor | exact N2].
Qed.

End SessionPaths.

Ltac norm_app :=
  repeat (progress (rewrite <- ?app_assoc; cbn [app])); rewrite ?app_nil_r.
Ltac norm_app_in H :=
  repeat (progress (rewrite <- ?app_assoc in H; cbn [app] in H)); rewrite ?app_nil_r in H.

(* ===================================================================== *)
(** ** One iteration of the size scheduler, on every path *)
(* ===================================================================== *)

Section Iteration.

Variable dir : string.
Variable size : Size.t.
Variable yuzuUrl : string.
Variable config : Config.t.
Variable outputDir : string.
Variable screenshot : Screenshot.t.
Variable locale : string.

Let interval := CONTEXT_REFRESH_INTERVAL size.

Lemma interval_pos : 0 < interval.
Proof.
  unfold interval, CONTEXT_REFRESH_INTERVAL. cbv zeta.
  destruct (Js.includes _ _); lia.
Qed.

Lemma entered_app_l tr evs a b c : entered tr a b c -> entered (tr ++ evs) a b c.
Proof. intros [p H]. exists p. apply in_or_app. now left. Qed.

Lemma entered_app_r tr evs a b c : entered evs a b c -> entered (tr ++ evs) a b c.
Proof. intros [p H]. exists p. apply in_or_app. now right. Qed.

(** Closing the context, creating a session and making it current. *)
Lemma wp_renewSession tr s n cur m :
  successCount s + failureCount s = n -> m <= interval -> Sessions interval tr cur m ->
  wp ((closeContext ;;
       cp <- createFreshPage yuzuUrl size ;;
       modify (set_session cp) ;;
       modify (set_processedInContext 0))%prog s)
     (fun evs r =>
        noStarts evs
        /\ match fst r with
           | Returned _ => TaskReady interval n (tr ++ evs) (snd r)
           | Threw _ => Safe interval (tr ++ evs)
           end).
Proof.
  intros Hn Hle Ss.
  assert (Sf : forall evs, noStarts evs -> Safe interval (tr ++ evs)).
  { intros evs N. apply Safe_quiet; [| exact N]. eapply Sessions_Safe; eassumption. }
  apply (wp_over sessionAction); [apply Always_closeContext |]. intros e1 F1.
  apply sessionAction_noStarts in F1.
  split; [| intros e; cbn [fst snd]; split; [exact F1 | now apply Sf]].
  intros _. apply wp_bind. eapply wp_mono; [| apply wp_createFreshPage].
  intros e2 [[cp | e] s2] (T & N2 & C); cbn [fst snd] in *.
  - apply wp_bind, wp_modify. cbn [fst snd]. apply wp_modify. cbn [fst snd].
    rewrite !app_nil_r.
    assert (N : noStarts (e1 ++ e2)) by now apply noStarts_app.
    split; [exact N |].
    destruct C as [k C]. destruct T as (T1 & T2 & T3 & T4 & T5).
    exists (fst cp), (snd cp).
    split; [reflexivity |]. split; [reflexivity |].
    split; [cbn; lia |]. split; [cbn; apply interval_pos |].
    cbn [set_processedInContext set_session processedInContext].
    eapply (Sessions_switch interval tr (e1 ++ e2) cur _ (length e1 + k));
      [exact Ss | exact Hle | exact N | apply createdAt_app_r; exact C].
  - assert (N : noStarts (e1 ++ e2)) by now apply noStarts_app.
    split; [exact N | now apply Sf].
Qed.

(** The refresh check at the head of the iteration. *)
Lemma wp_refreshCheck tr s n :
  LoopInv interval n tr s ->
  wp ((if Nat.leb (CONTEXT_REFRESH_INTERVAL size) (processedInContext s) then
         console Log (MsgRefreshing (processedInContext s)) ;;
         closeContext ;;
         cp <- createFreshPage yuzuUrl size ;;
         modify (set_session cp) ;;
         modify (set_processedInContext 0)
       else ret tt)%prog s)
     (fun evs r =>
        noStarts evs
        /\ match fst r with
           | Returned _ => TaskReady interval n (tr ++ evs) (snd r)
           | Threw _ => Safe interval (tr ++ evs)
           end).
Proof.
  intros I. fold interval. destruct (Nat.leb interval (processedInContext s)) eqn:L.
  - apply wp_bind, wp_console. cbn [fst snd].
    set (line := (Console Log (MsgRefreshing (processedInContext s)), Done VUndefined)).
    destruct I as (ctx & cur & Hc & Hp & Hn & Hle & Ss).
    assert (S' : Sessions interval (tr ++ [line]) cur (processedInContext s))
      by (apply Sessions_quiet; [exact Ss | repeat constructor]).
    eapply wp_mono; [| apply (wp_renewSession _ s n _ _ Hn Hle S')].
    intros evs r [N H]. split; [constructor; [reflexivity | exact N] |].
    rewrite <- app_assoc in H. exact H.
  - apply wp_ret. cbn [fst snd]. rewrite app_nil_r. split; [constructor |].
    destruct I as (ctx & cur & Hc & Hp & Hn & Hle & Ss).
    exists ctx, cur. do 3 (split; [assumption |]).
    apply Nat.leb_gt in L. split; [exact L | exact Ss].
Qed.

(** The task itself: it starts on the current page. *)
Lemma wp_processOnCurrentPage tr s n :
  TaskReady interval n tr s ->
  wp (processOnCurrentPage dir screenshot locale size (Config.design config) outputDir s)
     (fun evs r =>
        snd r = s /\ TaskDone interval n (tr ++ evs) s
        /\ entered evs (Screenshot.id screenshot) locale (Size.device size)).
Proof.
  intros (ctx & cur & Hc & Hp & Hn & Hlt & Ss).
  unfold processOnCurrentPage. apply wp_bind, wp_get. cbn [fst snd]. rewrite Hp.
  apply wp_bind, wp_ret. cbn [fst snd app].
  eapply wp_mono; [| apply wp_processScreenshot].
  intros evs r (L & rest & -> & F). split; [exact L |]. split.
  - exists ctx, cur. do 4 (split; [assumption |]).
    apply Sessions_task; [exact Ss | eapply taskOrEnterFrom_noStarts; exact F].
  - exists cur. now left.
Qed.

(** The update of the counters that ends the iteration. *)
Lemma wp_countOutcome tr s n (success : bool) :
  TaskDone interval n tr s ->
  wp ((s1 <- get ;;
       modify (set_processedInContext (processedInContext s1 + 1)) ;;
       s2 <- get ;;
       if success then modify (set_successCount (successCount s2 + 1))
       else modify (set_failureCount (failureCount s2 + 1)))%prog s)
     (fun evs r => evs = [] /\ fst r = Returned tt /\ LoopInv interval (S n) tr (snd r)).
Proof.
  intros (ctx & cur & Hc & Hp & Hn & Hlt & Ss).
  apply wp_bind, wp_get. cbn [fst snd]. apply wp_bind, wp_modify. cbn [fst snd].
  apply wp_bind, wp_get. cbn [fst snd].
  destruct success; apply wp_modify; cbn [fst snd app].
  all: split; [reflexivity |]; split; [reflexivity |].
  all: exists ctx, cur; split; [exact Hc |]; split; [exact Hp |].
  all: split; [cbn; lia |]; split; [cbn; lia |].
  all: cbn; replace (processedInContext s + 1) with (S (processedInContext s)) by lia; exact Ss.
Qed.

(** The recovery of the catch block for a fatal error. *)
Lemma wp_recover tr s n (fatalError : Error) :
  TaskDone interval n tr s ->
  wp ((console Log (MsgRecovering (message fatalError)) ;;
       closeContext ;;
       cp <- createFreshPage yuzuUrl size ;;
       modify (set_session cp) ;;
       modify (set_processedInContext 0) ;;
       tryCatch
         (processOnCurrentPage dir screenshot locale size (Config.design config) outputDir)
         (fun retryError =>
            console ErrorLevel (MsgSkipping (message retryError)) ;;
            ret false))%prog s)
     (fun evs r =>
        match fst r with
        | Returned _ => TaskDone interval n (tr ++ evs) (snd r)
        | Threw _ => Safe interval (tr ++ evs)
        end).
Proof.
  intros (ctx & cur & Hc & Hp & Hn & Hlt & Ss).
  apply wp_bind, wp_console. cbn [fst snd].
  set (line := (Console Log (MsgRecovering (message fatalError)), Done VUndefined)).
  assert (S' : Sessions interval (tr ++ [line]) cur (S (processedInContext s)))
    by (apply Sessions_quiet; [exact Ss | repeat constructor]).
  assert (Sf : forall evs, noStarts evs -> Safe interval (tr ++ [line] ++ evs)).
  { intros evs N. rewrite app_assoc. apply Safe_quiet; [| exact N].
    eapply Sessions_Safe; [exact S' | lia]. }
  apply (wp_over sessionAction); [apply Always_closeContext |]. intros e1 F1.
  apply sessionAction_noStarts in F1.
  split; [| intros e; cbn [fst snd]; now apply Sf].
  intros _. apply wp_bind. eapply wp_mono; [| apply wp_createFreshPage].
  intros e2 [[cp | e] s2] (T & N2 & C); cbn [fst snd] in *.
  2: { apply Sf. now apply noStarts_app. }
  apply wp_bind, wp_modify. cbn [fst snd]. apply wp_bind, wp_modify. cbn [fst snd].
  assert (N : noStarts (e1 ++ e2)) by now apply noStarts_app.
  destruct C as [k C]. destruct T as (T1 & T2 & T3 & T4 & T5).
  set (s3 := set_processedInContext 0 (set_session cp s2)).
  assert (Rd : TaskReady interval n ((tr ++ [line]) ++ e1 ++ e2) s3).
  { exists (fst cp), (snd cp).
    split; [reflexivity |]. split; [reflexivity |].
    split; [cbn; lia |]. split; [cbn; apply interval_pos |].
    cbn [s3 set_processedInContext set_session processedInContext].
    eapply (Sessions_switch interval _ (e1 ++ e2) cur _ (length e1 + k));
      [exact S' | lia | exact N | apply createdAt_app_r; exact C]. }
  apply wp_tryCatch. eapply wp_mono; [| apply (wp_processOnCurrentPage _ s3 n Rd)].
  intros e3 [[b | e] s4] (-> & D & _); cbn [fst snd] in *.
  - norm_app. norm_app_in D. exact D.
  - apply wp_bind, wp_console. cbn [fst snd]. apply wp_ret. cbn [fst snd].
    destruct D as (ctx' & cur' & Hc' & Hp' & Hn' & Hlt' & S4).
    exists ctx', cur'. do 4 (split; [assumption |]).
    assert (X := Sessions_quiet interval _
                   [(Console ErrorLevel (MsgSkipping (message e)), Done VUndefined)] _ _ S4
                   ltac:(repeat constructor)).
    norm_app. norm_app_in X. exact X.
Qed.

(** One iteration: the loop invariant is kept with one more outcome
    counted and the task entered; when the iteration throws, the trace is
    still safe. *)
Lemma wp_processTask tr s n :
  LoopInv interval n tr s ->
  wp (processTask dir size yuzuUrl config outputDir screenshot locale s)
     (fun evs r =>
        match fst r with
        | Returned _ =>
            LoopInv interval (S n) (tr ++ evs) (snd r)
            /\ entered (tr ++ evs) (Screenshot.id screenshot) locale (Size.device size)
        | Threw _ => Safe interval (tr ++ evs)
        end).
Proof.
  intros I. unfold processTask. apply wp_bind, wp_get. cbn [fst snd].
  apply wp_bind. eapply wp_mono; [| apply (wp_refreshCheck tr s n I)].
  intros e0 [[u | e] s0] [N0 H]; cbn [fst snd] in *; [| norm_app; exact H].
  apply wp_bind, wp_tryCatch.
  eapply wp_mono; [| apply (wp_processOnCurrentPage _ s0 n H)].
  intros e1 [[b | e] s1] (-> & D & En); cbn [fst snd] in *.
  - eapply wp_mono; [| apply (wp_countOutcome _ _ _ b D)].
    intros e2 r (-> & Hr & L). rewrite Hr. norm_app. norm_app_in L. split; [exact L |].
    apply entered_app_r, entered_app_r. exact En.
  - eapply wp_mono; [| apply (wp_recover _ _ _ e D)].
    intros e2 [[b | e'] s2] H2; cbn [fst snd] in *.
    + eapply wp_mono; [| apply (wp_countOutcome _ _ _ b H2)].
      intros e3 r (-> & Hr & L). rewrite Hr. norm_app. norm_app_in L. split; [exact L |].
      apply entered_app_r, entered_app_r, entered_app_l. exact En.
    + norm_app. norm_app_in H2. exact H2.
Qed.

End Iteration.

(* ===================================================================== *)
(** ** The loops of the size scheduler, on every path *)
(* ===================================================================== *)

Section Loops.

Lemma wp_forEach {X} (xs : list X) (body : X -> Prog unit) (w : X -> nat)
    (Inv : nat -> list Event -> Store -> Prop) (P : X -> list Event -> Prop)
    (E : list Event -> Prop) :
  (forall x tr evs, P x tr -> P x (tr ++ evs)) ->
  (forall x n tr s, In x xs -> Inv n tr s ->
     wp (body x s) (fun evs r =>
       match fst r with
       | Returned _ => Inv (n + w x) (tr ++ evs) (snd r) /\ P x (tr ++ evs)
       | Threw _ => E (tr ++ evs)
       end)) ->
  forall n tr s, Inv n tr s ->
    wp (forEach xs body s) (fun evs r =>
      match fst r with
      | Returned _ =>
          Inv (n + list_sum (map w xs)) (tr ++ evs) (snd r)
          /\ (forall x, In x xs -> P x (tr ++ evs))
      | Threw _ => E (tr ++ evs)
      end).
Proof.
  intros Pm. induction xs as [| x rest IH]; intros B n tr s I.
  - apply wp_ret. cbn [fst snd map list_sum fold_right]. rewrite Nat.add_0_r, app_nil_r.
    split; [exact I | intros x []].
  - cbn [forEach]. apply wp_bind.
    eapply wp_mono; [| apply (B x n tr s (or_introl eq_refl) I)].
    intros e1 [[u | e] s1]; cbn [fst snd]; [| intros H; exact H].
    intros [I1 P1].
    eapply wp_mono; [| apply (IH (fun y n' tr' s' Hy => B y n' tr' s' (or_intror Hy)) _ _ _ I1)].
    intros e2 [[u2 | e2'] s2]; cbn [fst snd].
    + intros [I2 P2]. rewrite <- app_assoc in I2.
      cbn [map list_sum fold_right]. rewrite Nat.add_assoc. split; [exact I2 |].
      intros y [<- | Hy].
      * rewrite app_assoc. apply Pm, P1.
      * rewrite app_assoc. apply P2, Hy.
    + rewrite <- app_assoc. exact (fun H => H).
Qed.

Lemma list_sum_ones {X} (l : list X) : list_sum (map (fun _ => 1) l) = length l.
Proof. induction l; simpl; [reflexivity | now rewrite IHl]. Qed.

End Loops.

Section SizePaths.

Variable dir : string.
Variable size : Size.t.
Variable yuzuUrl : string.
Variable config : Config.t.
Variable outputDir : string.

Let interval := CONTEXT_REFRESH_INTERVAL size.

(** The inner loop: all locales of one screenshot. *)
Lemma wp_localeLoop screenshot n tr s :
  LoopInv interval n tr s ->
  wp (forEach (keys (Screenshot.titles screenshot))
              (fun locale => processTask dir size yuzuUrl config outputDir screenshot locale) s)
     (fun evs r =>
        match fst r with
        | Returned _ =>
            LoopInv interval (n + length (keys (Screenshot.titles screenshot)))
                    (tr ++ evs) (snd r)
            /\ (forall locale, In locale (keys (Screenshot.titles screenshot)) ->
                entered (tr ++ evs) (Screenshot.id screenshot) locale (Size.device size))
        | Threw _ => Safe interval (tr ++ evs)
        end).
Proof.
  intros I.
  eapply wp_mono; cycle 1.
  { apply (wp_forEach (keys (Screenshot.titles screenshot)) _ (fun _ => 1)
             (LoopInv interval)
             (fun locale evs => entered evs (Screenshot.id screenshot) locale (Size.device size))
             (Safe interval)); [| | exact I].
    - intros locale tr' evs. apply entered_app_l.
    - intros locale n' tr' s' _ I'. rewrite Nat.add_1_r.
      apply (wp_processTask dir size yuzuUrl config outputDir screenshot locale tr' s' n' I'). }
  intros evs r. cbv beta. rewrite list_sum_ones. exact (fun H => H).
Qed.

(** The outer loop: all screenshots. *)
Lemma wp_screenshotLoop n tr s :
  LoopInv interval n tr s ->
  wp (forEach (Config.screenshots config) (fun screenshot =>
        forEach (keys (Screenshot.titles screenshot))
                (fun locale => processTask dir size yuzuUrl config outputDir screenshot locale)) s)
     (fun evs r =>
        match fst r with
        | Returned _ =>
            LoopInv interval (n + pairsOf (Config.screenshots config)) (tr ++ evs) (snd r)
            /\ allEntered (tr ++ evs) (Config.screenshots config) (Size.device size)
        | Threw _ => Safe interval (tr ++ evs)
        end).
Proof.
  intros I.
  apply (wp_forEach (Config.screenshots config) _
           (fun screenshot => length (keys (Screenshot.titles screenshot)))
           (LoopInv interval)
           (fun screenshot evs =>
              forall locale, In locale (keys (Screenshot.titles screenshot)) ->
                entered evs (Screenshot.id screenshot) locale (Size.device size))
           (Safe interval)); [| | exact I].
  - intros screenshot tr' evs H locale Hl. apply entered_app_l, H, Hl.
  - intros screenshot n' tr' s' _ I'. apply (wp_localeLoop screenshot n' tr' s' I').
Qed.

Lemma LoopInv_Safe n tr s : LoopInv interval n tr s -> Safe interval tr.
Proof.
  intros (ctx & cur & _ & _ & _ & Hle & Ss). eapply Sessions_Safe; eassumption.
Qed.

(** The try block of [processSize], started after a trace without tasks. *)
Lemma wp_sizeSteps tr s :
  noStarts tr -> successCount s + failureCount s = 0 ->
  wp (sizeSteps dir size yuzuUrl config outputDir s)
     (fun evs r =>
        Safe interval (tr ++ evs)
        /\ match fst r with
           | Returned _ =>
               successCount (snd r) + failureCount (snd r) = pairsOf (Config.screenshots config)
               /\ allEntered (tr ++ evs) (Config.screenshots config) (Size.device size)
           | Threw _ => True
           end).
Proof.
  intros N0 Hz. unfold sizeSteps.
  apply wp_bind, wp_console. cbn [fst snd].
  apply wp_bind, wp_console. cbn [fst snd].
  apply wp_bind, wp_console. cbn [fst snd].
  apply wp_bind. eapply wp_mono; [| apply wp_createFreshPage].
  intros e2 [[cp | e] s2] (T & N2 & C); cbn [fst snd] in *.
  2: { split; [| exact I]. apply Safe_noStarts. apply noStarts_app; [exact N0 |].
       repeat (apply Forall_cons; [reflexivity |]). exact N2. }
  apply wp_bind, wp_modify. cbn [fst snd].
  apply wp_bind, wp_console. cbn [fst snd].
  apply wp_bind, wp_modify. cbn [fst snd].
  set (c1 := (Console Log MsgRule, Done VUndefined)).
  set (c2 := (Console Log (MsgSizeHeader (Size.device size) (Size.width size) (Size.height size)),
              Done VUndefined)).
  set (nav := (Console Log MsgNavigating, Done VUndefined)).
  set (tr0 := tr ++ c1 :: c2 :: c1 :: e2 ++ [nav]).
  set (s0 := set_processedInContext 0 (set_session cp s2)).
  assert (Ntr0 : noStarts tr0).
  { apply noStarts_app; [exact N0 |]. repeat (apply Forall_cons; [reflexivity |]).
    apply noStarts_app; [exact N2 | repeat constructor]. }
  assert (I0 : LoopInv interval 0 tr0 s0).
  { destruct T as (T1 & T2 & T3 & T4 & T5). destruct C as [k C].
    exists (fst cp), (snd cp).
    split; [reflexivity |]. split; [reflexivity |].
    split; [cbn; lia |]. split; [cbn; lia |].
    cbn [s0 set_processedInContext set_session processedInContext].
    destruct (createdAt_shift (tr ++ [c1; c2; c1]) (e2 ++ [nav]) (fst cp) (snd cp)) as [k' C'].
    { exists k. now apply createdAt_app_l. }
    apply (Sessions_init interval tr0 k' (fst cp)); [exact Ntr0 |].
    unfold tr0. rewrite <- app_assoc in C'. exact C'. }
  apply wp_bind. eapply wp_mono; [| apply (wp_screenshotLoop 0 tr0 s0 I0)].
  intros e3 [[u | e] s3]; cbn [fst snd].
  - intros [I3 En].
    eapply wp_mono; [| apply (wp_always _ _ _ (Always_closeContext s3))].
    intros e4 r [F L]. apply sessionAction_noStarts in F.
    assert (Sf := Safe_quiet interval _ e4 (LoopInv_Safe _ _ _ I3) F).
    assert (En' : allEntered ((tr0 ++ e3) ++ e4) (Config.screenshots config) (Size.device size))
      by (intros sc Hsc locale Hl; apply entered_app_l; now apply En).
    unfold tr0 in Sf, En'. norm_app_in Sf. norm_app_in En'. norm_app.
    split; [exact Sf |]. destruct (fst r); [| exact I]. rewrite L.
    destruct I3 as (_ & _ & _ & _ & Hn & _). split; [exact Hn | exact En'].
  - intros Sf. unfold tr0 in Sf. norm_app_in Sf. norm_app. split; [exact Sf | exact I].
Qed.

End SizePaths.

Section SizeResults.

Variable dir : string.
Variable size : Size.t.
Variable yuzuUrl : string.
Variable config : Config.t.

Let interval := CONTEXT_REFRESH_INTERVAL size.

(** [processSize], on every path: the caller's variables are untouched,
    the sessions are safe, and a result counts one outcome for every
    (screenshot, locale) pair, each of which was started. *)
Lemma wp_processSize s :
  wp (processSize dir size yuzuUrl config s)
     (fun evs r =>
        snd r = s /\ Safe interval evs
        /\ match fst r with
           | Returned result =>
               SizeResult.successCount result + SizeResult.failureCount result
               = pairsOf (Config.screenshots config)
               /\ allEntered evs (Config.screenshots config) (Size.device size)
           | Threw _ => True
           end).
Proof.
  unfold processSize. apply wp_call. cbv zeta.
  apply wp_bind. eapply wp_mono; [| apply wp_launchBrowser].
  intros e1 [[u | e] s1] [N1 T1]; cbn [fst snd] in *.
  2: { split; [reflexivity |]. split; [now apply Safe_noStarts | exact I]. }
  assert (Hz : successCount s1 + failureCount s1 = 0).
  { destruct T1 as (_ & _ & _ & T4 & T5). rewrite T4, T5. reflexivity. }
  apply wp_bind, wp_tryFinally.
  eapply wp_mono; [| apply (wp_sizeSteps dir size yuzuUrl config _ e1 s1 N1 Hz)].
  intros e2 r2 [Sf H].
  eapply wp_mono; [| apply (wp_always _ _ _ (Always_closeBrowser (snd r2)))].
  intros e3 r3 [F L]. apply sessionAction_noStarts in F.
  assert (Sf' := Safe_quiet interval _ e3 Sf F). norm_app_in Sf'.
  destruct (fst r3) as [u3 | e3']; cbn [fst snd].
  - destruct (fst r2) as [u2 | e2'].
    + apply wp_bind, wp_get. cbn [fst snd]. apply wp_ret. cbn [fst snd SizeResult.successCount
        SizeResult.failureCount]. norm_app.
      split; [reflexivity |]. split; [exact Sf' |]. rewrite L.
      destruct H as [Hn En]. split; [exact Hn |].
      intros sc Hsc locale Hl. rewrite app_assoc. apply entered_app_l. now apply En.
    + norm_app. split; [reflexivity |]. split; [exact Sf' | exact I].
  - norm_app. split; [reflexivity |]. split; [exact Sf' | exact I].
Qed.

End SizeResults.

(* ===================================================================== *)
(** ** Session refresh *)
(* ===================================================================== *)

Section Handles.

Context {World : Type}.
Variable exec : Action -> World -> Reply * World.

(** The object a creating call returns is named by the position of the
    call in the trace. *)
Lemma run_handles {X} (t : Tree X) (st : St World) :
  exists evs, trace (snd (run exec t st)) = trace st ++ evs
    /\ forall k act v, nth_error evs k = Some (act, Done v) -> allocates act = true ->
         v = VHandle (length (trace st) + k).
Proof.
  revert st. induction t as [x | act k IH]; intros st; simpl.
  - exists []. split; [now rewrite app_nil_r |]. intros [| k] act v H; discriminate H.
  - destruct (step_spec exec act st) as (_ & Ht & Ha).
    destruct (step exec act st) as [r st'] eqn:E. cbn [fst snd] in *.
    destruct (IH r st') as (evs & T & H).
    exists ((act, r) :: evs). split; [rewrite T, Ht, <- app_assoc; reflexivity |].
    intros [| j] act' v Hn Hal.
    + simpl in Hn. injection Hn as <- ->. rewrite Nat.add_0_r. now apply Ha.
    + simpl in Hn. rewrite (H j act' v Hn Hal), Ht, length_app. simpl. f_equal. lia.
Qed.

Lemma run_distinctPages {X} (t : Tree X) (st : St World) evs :
  trace (snd (run exec t st)) = trace st ++ evs -> distinctPages evs.
Proof.
  intros T. destruct (run_handles t st) as (evs' & T' & H).
  rewrite T in T'. apply app_inv_head in T'. subst evs'.
  intros a b c c' v v' Ha Hb E.
  rewrite (H a _ _ Ha eq_refl), (H b _ _ Hb eq_refl) in E. simpl in E. lia.
Qed.

End Handles.

Section RefreshFacts.

Lemma taskStartAt_firstn evs j i p :
  taskStartAt (firstn j evs) i p -> i < j /\ taskStartAt evs i p.
Proof.
  intros H. assert (L := taskStartAt_lt _ _ _ H). rewrite length_firstn in L.
  split; [lia |]. destruct H as (a & b & c & r & H).
  exists a, b, c, r. rewrite nth_error_firstn in H.
  destruct (Nat.ltb i j) eqn:Lt; [exact H | discriminate H].
Qed.

Lemma tasksStartedOn_split evs j p q :
  taskStartAt evs j q ->
  tasksStartedOn p evs
  = tasksStartedOn p (firstn j evs) + (if Nat.eqb q p then 1 else 0)
    + tasksStartedOn p (skipn (S j) evs).
Proof.
  intros (a & b & c & r & H).
  destruct (nth_error_split _ _ H) as (l1 & l2 & E & L). subst j. subst evs. clear H.
  assert (Sk : forall (ev : Event), skipn (S (length l1)) (l1 ++ ev :: l2) = l2).
  { clear. intros ev. induction l1 as [| x l1 IH]; [reflexivity | exact IH]. }
  rewrite Sk, firstn_app, firstn_all, Nat.sub_diag. cbn [firstn]. rewrite app_nil_r.
  rewrite tasksStartedOn_app.
  change ((Enter q a b c 1, r) :: l2) with ([(Enter q a b c 1, r)] ++ l2).
  rewrite tasksStartedOn_app. unfold tasksStartedOn at 2, startsTaskOn.
  cbn [filter fst].
  destruct (Nat.eqb q p); cbn [length]; lia.
Qed.

End RefreshFacts.

(** C4: in a run of [processSize] the number of tasks started on any one
    page never exceeds the refresh interval of the size (6 when the
    lower-cased label contains ipad, 12 otherwise); the pages created are
    pairwise distinct; and a task that starts when exactly that many tasks
    have been started on a page [p] runs on another page, created together
    with its context after every task on [p] began. *)
Theorem session_refresh_bound {World : Type} (exec : Action -> World -> Reply * World)
    (dir : string) (size : Size.t) (yuzuUrl : string) (config : Config.t)
    (s : Store) (st : St World) :
  let interval := CONTEXT_REFRESH_INTERVAL size in
  let result := run exec (processSize dir size yuzuUrl config s) st in
  interval = (if Js.includes (Js.toLowerCase (Size.device size)) "ipad" then 6 else 12)
  /\ exists evs,
       trace (snd result) = trace st ++ evs
       /\ distinctPages evs
       /\ (forall p, tasksStartedOn p evs <= interval)
       /\ (forall j p q,
             taskStartAt evs j q -> tasksStartedOn p (firstn j evs) = interval ->
             q <> p
             /\ exists k c, S k < j /\ createdAt evs k c q
                            /\ forall i, i < j -> taskStartAt evs i p -> i < k).
Proof.
  intros interval result. split; [reflexivity |].
  destruct (wp_run exec _ _ st (wp_processSize dir size yuzuUrl config s))
    as (evs & T & _ & [Fw Bd] & _).
  exists evs. split; [exact T |].
  assert (D : distinctPages evs) by (eapply run_distinctPages; exact T).
  split; [exact D |]. specialize (Bd D). split; [exact Bd |].
  intros j p q Hq Hc.
  assert (Hne : q <> p).
  { intros ->. specialize (Bd p). rewrite (tasksStartedOn_split evs j p p Hq) in Bd.
    rewrite Nat.eqb_refl in Bd. fold interval in Bd. lia. }
  split; [exact Hne |].
  destruct (tasksStartedOn_pos p (firstn j evs)) as (i0 & H0).
  { rewrite Hc. apply interval_pos. }
  apply taskStartAt_firstn in H0 as [L0 H0].
  destruct (Fw i0 j p q L0 H0 Hq) as [E | (k & c & L1 & L2 & C)]; [contradiction |].
  exists k, c. split; [exact L2 |]. split; [exact C |].
  intros i Li Hi.
  destruct (Fw i j p q Li Hi Hq) as [E | (k' & c' & L1' & L2' & C')]; [contradiction |].
  rewrite (distinctPages_created evs k c k' c' q D C C'). exact L1'.
Qed.

(* ===================================================================== *)
(** ** Promise.all and sequential collection, on every path *)
(* ===================================================================== *)

Section Waves.

Context {A : Type}.

Lemma settled_cons ev evs (Q : list Event -> Outcome A * Store -> Prop) a : settled evs Q a -> settled (ev :: evs) Q a.
Proof.
  intros (evs' & s' & I & H). exists evs', s'. split; [| exact H].
  intros x Hx. right. now apply I.
Qed.

Lemma settled_shift ev evs (Q : list Event -> Outcome A * Store -> Prop) a :
  settled evs (fun evs' r => Q (ev :: evs') r) a -> settled (ev :: evs) Q a.
Proof.
  intros (evs' & s' & I & H). exists (ev :: evs'), s'. split; [| exact H].
  intros x [<- | Hx]; [now left | right; now apply I].
Qed.

Lemma settled_app_r pre evs (Q : list Event -> Outcome A * Store -> Prop) a : settled evs Q a -> settled (pre ++ evs) Q a.
Proof.
  intros (evs' & s' & I & H). exists evs', s'. split; [| exact H].
  intros x Hx. apply in_or_app. right. now apply I.
Qed.

Lemma wp_settleInOrder (ts : list (Tree (Outcome A * Store)))
    (Qs : list (list Event -> Outcome A * Store -> Prop)) :
  Forall2 (fun t Q => wp t Q) ts Qs ->
  wp (settleInOrder ts)
     (fun evs o => forall l, o = Returned l -> Forall2 (settled evs) Qs l).
Proof.
  induction 1 as [| t Q ts Qs Ht _ IH]; cbn [settleInOrder].
  - intros l E. injection E as <-. constructor.
  - apply wp_tbind. eapply wp_mono; [| exact Ht].
    intros e1 [[a | e] s1] H1; cbn [fst snd]; [| intros l E; discriminate E].
    apply wp_tbind. eapply wp_mono; [| exact IH].
    intros e2 [l | e] H2; cbn [wp]; intros l0 E; [| discriminate E].
    injection E as <-. constructor.
    + exists e1, s1. split; [| exact H1]. intros x Hx. apply in_or_app. now left.
    + specialize (H2 l eq_refl). rewrite app_nil_r.
      revert H2. apply Forall2_impl. intros Q0 a0. apply settled_app_r.
Qed.

Lemma Forall2_replaceAt {X Y} (R : X -> Y -> Prop) i x y xs ys :
  Forall2 R xs ys -> R x y -> Forall2 R (replaceAt i x xs) (replaceAt i y ys).
Proof.
  intros H Hxy. revert i. induction H as [| x0 y0 xs ys H0 H1 IH]; intros i.
  - destruct i; constructor.
  - destruct i as [| i]; cbn [replaceAt]; constructor; auto.
Qed.

Lemma Forall2_nth_error {X Y} (R : X -> Y -> Prop) i x xs ys :
  Forall2 R xs ys -> nth_error xs i = Some x -> exists y, nth_error ys i = Some y /\ R x y.
Proof.
  intros H. revert i. induction H as [| x0 y0 xs ys H0 _ IH]; intros [| i] E;
    simpl in E; try discriminate.
  - injection E as <-. now exists y0.
  - now apply IH.
Qed.

Lemma settled_replaceAt ev evs i (Q : list Event -> Outcome A * Store -> Prop) Qs l :
  nth_error Qs i = Some Q ->
  Forall2 (settled evs) (replaceAt i (fun evs' r => Q (ev :: evs') r) Qs) l ->
  Forall2 (settled (ev :: evs)) Qs l.
Proof.
  revert i l. induction Qs as [| Q0 Qs IH]; intros [| i] l E H; simpl in E; try discriminate.
  - injection E as ->. cbn [replaceAt] in H. inversion H as [| ? a ? l' Ha Hl]; subst.
    constructor; [now apply settled_shift |].
    revert Hl. apply Forall2_impl. intros Q1 a1. apply settled_cons.
  - cbn [replaceAt] in H. inversion H as [| ? a ? l' Ha Hl]; subst.
    constructor; [now apply settled_cons | now apply (IH i)].
Qed.

Lemma wp_interleave schedule (ts : list (Tree (Outcome A * Store)))
    (Qs : list (list Event -> Outcome A * Store -> Prop)) :
  Forall2 (fun t Q => wp t Q) ts Qs ->
  wp (interleave schedule ts)
     (fun evs o => forall l, o = Returned l -> Forall2 (settled evs) Qs l).
Proof.
  revert ts Qs. induction schedule as [| i later IH]; intros ts Qs H; cbn [interleave].
  - now apply wp_settleInOrder.
  - destruct (nth_error ts i) as [[[[a | e] s1] | act k] |] eqn:E.
    + now apply IH.
    + intros l El. discriminate El.
    + destruct (Forall2_nth_error _ _ _ _ _ H E) as (Q & EQ & HQ).
      intros r Hr. cbn [wp] in HQ. specialize (HQ r Hr).
      eapply wp_mono; cycle 1.
      { apply (IH _ (replaceAt i (fun evs' x => Q ((act, r) :: evs') x) Qs)).
        now apply Forall2_replaceAt. }
      intros evs o Ho l El. eapply settled_replaceAt; [exact EQ | now apply Ho].
    + now apply IH.
Qed.

End Waves.

Section Collecting.

Lemma Forall2_map_left {X Y Z} (R : Y -> Z -> Prop) (g : X -> Y) xs l :
  Forall2 R (map g xs) l <-> Forall2 (fun x z => R (g x) z) xs l.
Proof.
  revert l. induction xs as [| x xs IH]; intros l; split; intros H.
  - inversion H. constructor.
  - inversion H. constructor.
  - simpl in H. inversion H; subst. constructor; [assumption | now apply IH].
  - inversion H; subst. simpl. constructor; [assumption | now apply IH].
Qed.

Lemma Forall2_map_both {X Y Z} (R : Y -> Z -> Prop) (g : X -> Y) (h : X -> Z) xs :
  (forall x, In x xs -> R (g x) (h x)) -> Forall2 R (map g xs) (map h xs).
Proof.
  induction xs as [| x xs IH]; intros H; simpl; constructor.
  - apply H. now left.
  - apply IH. intros y Hy. apply H. now right.
Qed.

Lemma wp_promiseAll {X A} schedule (xs : list X) (f : X -> Prog A)
    (Q : X -> list Event -> Outcome A * Store -> Prop) s :
  (forall x, In x xs -> wp (f x s) (Q x)) ->
  wp (promiseAll schedule (map f xs) s)
     (fun evs r =>
        snd r = s
        /\ forall l, fst r = Returned l -> Forall2 (fun x a => settled evs (Q x) a) xs l).
Proof.
  intros H. unfold promiseAll. apply wp_tbind. rewrite map_map.
  eapply wp_mono; cycle 1.
  { apply (wp_interleave schedule _ (map Q xs)).
    now apply (Forall2_map_both (fun t Q0 => wp t Q0)). }
  intros evs o Ho. cbn [wp fst snd]. rewrite app_nil_r. split; [reflexivity |].
  intros l E. apply Forall2_map_left. now apply Ho.
Qed.

Lemma wp_collect {X A} (xs : list X) (f : X -> Prog A)
    (Q : X -> list Event -> Outcome A * Store -> Prop) s :
  (forall x, In x xs -> wp (f x s) (fun evs r => snd r = s /\ Q x evs r)) ->
  wp (collect xs f s)
     (fun evs r =>
        snd r = s
        /\ forall l, fst r = Returned l -> Forall2 (fun x a => settled evs (Q x) a) xs l).
Proof.
  induction xs as [| x xs IH]; intros H; cbn [collect].
  - apply wp_ret. split; [reflexivity |]. intros l E. injection E as <-. constructor.
  - apply wp_bind. eapply wp_mono; [| apply (H x (or_introl eq_refl))].
    intros e1 [[a | e] s1] [-> Hq]; cbn [fst snd] in *.
    2: { split; [reflexivity | intros l E; discriminate E]. }
    apply wp_bind. eapply wp_mono; [| apply IH; intros y Hy; apply H; now right].
    intros e2 [[l | e] s2] [-> Hl]; cbn [fst snd] in *.
    2: { split; [reflexivity | intros l E; discriminate E]. }
    apply wp_ret. cbn [fst snd]. split; [reflexivity |].
    intros l0 E. injection E as <-. rewrite app_nil_r. constructor.
    + exists e1, s1. split; [| exact Hq]. intros ev Hev. apply in_or_app. now left.
    + specialize (Hl l eq_refl). revert Hl. apply Forall2_impl.
      intros y b. apply settled_app_r.
Qed.

End Collecting.

(* ===================================================================== *)
(** ** The run coordinator, on every path *)
(* ===================================================================== *)

Section MainPaths.

Variable dir : string.
Variable args : list string.
Variable schedule : list nat.
Variable config : Config.t.

Lemma fold_sum_from (f : SizeResult.t -> nat) l a :
  fold_left (fun sum r => sum + f r) l a = a + list_sum (map f l).
Proof.
  revert a. induction l as [| x l IH]; intros a; simpl; [lia |].
  rewrite IH. lia.
Qed.

Lemma sumOf_list_sum (f : SizeResult.t -> nat) l : sumOf f l = list_sum (map f l).
Proof. unfold sumOf. now rewrite fold_sum_from. Qed.

Lemma entered_incl evs evs' a b c : incl evs' evs -> entered evs' a b c -> entered evs a b c.
Proof. intros I [p H]. exists p. now apply I. Qed.

Lemma allEntered_incl evs evs' screenshots device :
  incl evs' evs -> allEntered evs' screenshots device -> allEntered evs screenshots device.
Proof. intros I H sc Hsc locale Hl. eapply entered_incl; [exact I | now apply H]. Qed.

(** The results of a wave: one outcome per pair and size, all started. *)
Lemma wave_settled evs (sizes : list Size.t) (l : list SizeResult.t) :
  Forall2 (fun size a => settled evs (sizeOutcome config size) a) sizes l ->
  sumOf SizeResult.successCount l + sumOf SizeResult.failureCount l
  = pairsOf (Config.screenshots config) * length sizes
  /\ forall size, In size sizes ->
       allEntered evs (Config.screenshots config) (Size.device size).
Proof.
  rewrite !sumOf_list_sum.
  induction 1 as [| size a sizes l (evs' & s' & I & Hn & He) _ [IHn IHe]]; simpl.
  - split; [lia | intros size []].
  - split; [nia |]. intros x [<- | Hx]; [| now apply IHe].
    eapply allEntered_incl; eassumption.
Qed.

Lemma wp_processSize_outcome size yuzuUrl s :
  wp (processSize dir size yuzuUrl config s)
     (fun evs r => snd r = s /\ sizeOutcome config size evs r).
Proof.
  eapply wp_mono; [| apply wp_processSize].
  intros evs r (Hs & _ & H). split; [exact Hs | exact H].
Qed.

(** The parallel wave. *)
Lemma wp_wave1 yuzuUrl s :
  let iphoneSizes := filter isIphone (Output.sizes (Config.output config)) in
  wp ((if Nat.ltb 0 (length iphoneSizes) then
         console Log (MsgWave1 (map Size.device iphoneSizes)) ;;
         promiseAll schedule (map (fun size => processSize dir size yuzuUrl config) iphoneSizes)
       else ret [])%prog s)
     (fun evs r =>
        snd r = s
        /\ forall l, fst r = Returned l ->
             Forall2 (fun size a => settled evs (sizeOutcome config size) a) iphoneSizes l).
Proof.
  intros iphoneSizes. destruct iphoneSizes as [| x xs] eqn:E.
  - apply wp_ret. split; [reflexivity |]. intros l El. injection El as <-. constructor.
  - cbn [length Nat.ltb Nat.leb]. rewrite <- E.
    apply wp_bind, wp_console. cbn [fst snd].
    eapply wp_mono; cycle 1.
    { apply (wp_promiseAll schedule iphoneSizes
               (fun size => processSize dir size yuzuUrl config) (sizeOutcome config)).
      intros size _. eapply wp_mono; [| apply wp_processSize_outcome].
      intros evs r [_ H]. exact H. }
    intros evs r [Hs H]. split; [exact Hs |]. intros l El. specialize (H l El).
    revert H. apply Forall2_impl. intros size a.
    apply (settled_app_r [(Console Log (MsgWave1 (map Size.device iphoneSizes)), Done VUndefined)]).
Qed.

(** The sequential wave. *)
Lemma wp_wave2 yuzuUrl s :
  let ipadSizes := filter (fun s => negb (isIphone s)) (Output.sizes (Config.output config)) in
  wp (collect ipadSizes (fun size =>
        console Log (MsgWaveSequential (Size.device size)) ;;
        processSize dir size yuzuUrl config)%prog s)
     (fun evs r =>
        snd r = s
        /\ forall l, fst r = Returned l ->
             Forall2 (fun size a => settled evs (sizeOutcome config size) a) ipadSizes l).
Proof.
  intros ipadSizes. apply wp_collect. intros size _.
  apply wp_bind, wp_console. cbn [fst snd].
  eapply wp_mono; [| apply wp_processSize_outcome].
  intros evs r [Hs H]. split; [exact Hs |].
  unfold sizeOutcome in *. destruct (fst r); [| exact I].
  destruct H as [Hn He]. split; [exact Hn |].
  eapply allEntered_incl; [| exact He]. intros ev Hev. now right.
Qed.

(** The end of [main]: the summary and the decision on [process.exit]. *)
Lemma wp_summary (sc fc total : nat) s :
  wp ((console Log MsgRule ;;
       console Log MsgComplete ;;
       console Log MsgRule ;;
       console Log (MsgSuccess sc total) ;;
       console Log (MsgFailures fc total) ;;
       if Nat.ltb 0 fc then
         console Log MsgSomeFailed ;;
         emit (ProcessExit 1) ;;
         ret (Exited 1)
       else
         console Log MsgAllGenerated ;;
         ret Finished)%prog s)
     (fun evs r =>
        evs = summaryEvents sc fc total
        /\ r = (Returned (if Nat.ltb 0 fc then Exited 1 else Finished), s)).
Proof.
  do 5 (apply wp_bind, wp_console; cbn [fst snd]).
  unfold summaryEvents. destruct (Nat.ltb 0 fc).
  - apply wp_bind, wp_console. cbn [fst snd].
    apply wp_bind, wp_emit; [reflexivity |]. cbn [fst snd].
    apply wp_ret. split; reflexivity.
  - apply wp_bind, wp_console. cbn [fst snd]. apply wp_ret. split; reflexivity.
Qed.

(** [main] on every path: when it returns, it completed. *)
Lemma wp_main s :
  wp (main dir args schedule config s)
     (fun evs r =>
        snd r = s
        /\ match fst r with
           | Returned c =>
               exists sc fc,
                 completed config evs sc fc
                 /\ c = (if Nat.ltb 0 fc then Exited 1 else Finished)
           | Threw _ => True
           end).
Proof.
  unfold main.
  do 4 (apply wp_bind, wp_console; cbn [fst snd]).
  apply (wp_over detectAction); [apply Always_detectYuzuUrl |]. intros e1 F1.
  split; [| intros e; split; [reflexivity | exact I]]. intros yuzuUrl.
  destruct (Config.screenshots config) as [| first rest] eqn:Es; cbn [hd_error deref].
  { apply wp_bind, wp_throw. cbn [fst snd]. split; [reflexivity | exact I]. }
  apply wp_bind, wp_ret. cbn [fst snd]. cbv zeta.
  do 5 (apply wp_bind, wp_console; cbn [fst snd]).
  apply wp_bind. eapply wp_mono; [| apply (wp_wave1 yuzuUrl s)].
  intros e2 [[l1 | e] s2] [Hs2 H1]; cbn [fst snd] in *; subst s2;
    [| split; [reflexivity | exact I]].
  apply wp_bind. eapply wp_mono; [| apply (wp_wave2 yuzuUrl s)].
  intros e3 [[l2 | e] s3] [Hs3 H2]; cbn [fst snd] in *; subst s3;
    [| split; [reflexivity | exact I]].
  eapply wp_mono; [| apply wp_summary].
  intros e4 r [-> ->]. cbn [fst snd]. split; [reflexivity |].
  specialize (H1 l1 eq_refl). specialize (H2 l2 eq_refl).
  apply wave_settled in H1 as [N1 A1]. apply wave_settled in H2 as [N2 A2].
  exists (sumOf SizeResult.successCount (l1 ++ l2)), (sumOf SizeResult.failureCount (l1 ++ l2)).
  split; [| reflexivity].
  eexists. split; [| split].
  - unfold totalExpected. rewrite Es. cbn [hd length].
    rewrite !app_assoc. reflexivity.
  - unfold declaredTasks.
    rewrite <- (filter_length isIphone (Output.sizes (Config.output config))).
    rewrite !sumOf_list_sum, !map_app, !list_sum_app.
    rewrite !sumOf_list_sum in N1, N2. nia.
  - intros size Hsize.
    destruct (isIphone size) eqn:Hi.
    + eapply allEntered_incl; [| apply A1; apply filter_In; now split].
      intros ev Hev. rewrite !in_app_iff. tauto.
    + eapply allEntered_incl;
        [| apply A2; apply filter_In; split; [exact Hsize | now rewrite Hi]].
      intros ev Hev. rewrite !in_app_iff. tauto.
Qed.

End MainPaths.

(* ===================================================================== *)
(** ** Counters and exit status of a run *)
(* ===================================================================== *)

Section Totals.

Lemma pairsOf_uniform (screenshots : list Screenshot.t) (k : nat) :
  (forall screenshot, In screenshot screenshots ->
     length (keys (Screenshot.titles screenshot)) = k) ->
  pairsOf screenshots = length screenshots * k.
Proof.
  unfold pairsOf. induction screenshots as [| x l IH]; intros H; simpl; [reflexivity |].
  rewrite (H x (or_introl eq_refl)), IH; [reflexivity |].
  intros y Hy. apply H. now right.
Qed.

Lemma declaredTasks_uniform config :
  uniformLocales config -> declaredTasks config = totalExpected config.
Proof.
  intros U. unfold declaredTasks, totalExpected. now rewrite (pairsOf_uniform _ _ U).
Qed.

End Totals.

(** C1, as stated, fails: with a first screenshot of one locale and a
    second of two, for one size, the run ends with 3 successes and 0
    failures against a total of 2 (2 screenshots x 1 locale x 1 size); the
    three outcomes are not 2 x 2 x 1 either, the count with the two locales
    that occur. *)
Lemma counters_exceed_total :
  let result := run Sim.exec (main "/repo" [] [] Configs.mixed emptyStore)
                    (Sim.start Sim.healthy) in
  fst (fst result) = Returned Finished
  /\ In (MsgSuccess 3 2) (messagesOf (trace (snd result)))
  /\ In (MsgFailures 0 2) (messagesOf (trace (snd result)))
  /\ totalExpected Configs.mixed = 2
  /\ 3 + 0 <> totalExpected Configs.mixed
  /\ 3 + 0 <> 2 * 2 * 1.
Proof.
  vm_compute. repeat split; try discriminate; try reflexivity.
  - do 24 right. now left.
  - do 25 right. now left.
Qed.

(** C1 (amended): when [main] returns, whatever the environment and the
    order of the parallel wave, its events end with the summary lines, and
    the success and failure counters printed there add up to the number of
    declared tasks: the sum over the screenshots of their numbers of
    locales, times the number of sizes. This is the printed total when
    every screenshot declares as many locales as the first. *)
Theorem counters_account_for_tasks {World : Type} (exec : Action -> World -> Reply * World)
    (dir : string) (args : list string) (schedule : list nat) (config : Config.t)
    (s : Store) (st : St World) (c : Completion) :
  let result := run exec (main dir args schedule config s) st in
  fst (fst result) = Returned c ->
  exists pre sc fc,
    trace (snd result) = trace st ++ pre ++ summaryEvents sc fc (totalExpected config)
    /\ sc + fc = declaredTasks config
    /\ (uniformLocales config -> sc + fc = totalExpected config).
Proof.
  intros result Hc.
  destruct (wp_run exec _ _ st (wp_main dir args schedule config s)) as (evs & T & _ & H).
  fold result in T, H. rewrite Hc in H.
  destruct H as (sc & fc & (pre & E & Hn & _) & _).
  exists pre, sc, fc. split; [now rewrite T, E |]. split; [exact Hn |].
  intros U. rewrite Hn. now apply declaredTasks_uniform.
Qed.

Lemma counters_account_for_tasks_witness :
  exists pre sc fc,
    trace (snd (run Sim.exec (main "/repo" [] [] Configs.uniform emptyStore)
                    (Sim.start Sim.healthy)))
    = [] ++ pre ++ summaryEvents sc fc 4
    /\ sc + fc = 4.
Proof.
  destruct (counters_account_for_tasks Sim.exec "/repo" [] [] Configs.uniform emptyStore
              (Sim.start Sim.healthy) Finished) as (pre & sc & fc & T & N & U).
  - vm_compute. reflexivity.
  - exists pre, sc, fc. split; [exact T | exact N].
Defined.

(** C6, as stated, fails: when the browser cannot be launched the run
    exits with status 1 although no task recorded a failure, and none of
    the three declared tasks was attempted. *)
Lemma exit_without_failure :
  let result := run Sim.exec (execute "/repo" [] [] Configs.mixed emptyStore)
                    (Sim.start Worlds.noBrowser) in
  fst (fst result) = Returned 1
  /\ attemptsEntered (trace (snd result)) = []
  /\ (forall f t, ~ In (MsgFailures f t) (messagesOf (trace (snd result))))
  /\ declaredTasks Configs.mixed = 3.
Proof.
  vm_compute. repeat split.
  intros f t H. repeat (destruct H as [H | H]; [discriminate H |]). exact H.
Qed.

(* ===================================================================== *)
(** * Further properties of generate.mjs *)
(* ===================================================================== *)

(* ===================================================================== *)
(** ** The label helpers *)
(* ===================================================================== *)

Section Labels.

Lemma anyChar_app p (a b : string) :
  anyChar p (a ++ b)%string = anyChar p a || anyChar p b.
Proof.
  induction a as [| c a IH]; simpl; [reflexivity |]. now rewrite IH, orb_assoc.
Qed.

Lemma anyChar_or p q (s : string) :
  anyChar (fun c => p c || q c) s = anyChar p s || anyChar q s.
Proof.
  induction s as [| c s IH]; simpl; [reflexivity |]. rewrite IH.
  destruct (p c), (q c), (anyChar p s), (anyChar q s); reflexivity.
Qed.

Lemma replace_dquotes_clean r s :
  anyChar Js.is_dquote r = false -> anyChar Js.is_dquote (Js.replace_dquotes r s) = false.
Proof.
  intros Hr. induction s as [| c s IH]; simpl; [reflexivity |].
  destruct (Js.is_dquote c) eqn:E; simpl.
  - now rewrite anyChar_app, Hr, IH.
  - now rewrite E, IH.
Qed.

Lemma replace_dquotes_keeps p r s :
  anyChar p r = false -> anyChar p s = false -> anyChar p (Js.replace_dquotes r s) = false.
Proof.
  intros Hr. induction s as [| c s IH]; simpl; [reflexivity |].
  intros H. apply orb_false_iff in H as [Hc Hs].
  destruct (Js.is_dquote c); simpl.
  - now rewrite anyChar_app, Hr, IH.
  - now rewrite Hc, IH.
Qed.

Lemma replace_dquotes_id r s :
  anyChar Js.is_dquote s = false -> Js.replace_dquotes r s = s.
Proof.
  induction s as [| c s IH]; simpl; [reflexivity |].
  intros H. apply orb_false_iff in H as [Hc Hs]. now rewrite Hc, IH.
Qed.

Lemma replace_ws_runs_clean b r s :
  anyChar Js.is_space r = false ->
  anyChar Js.is_space (Js.replace_ws_runs_from b r s) = false.
Proof.
  intros Hr. revert b. induction s as [| c s IH]; intros b; simpl; [reflexivity |].
  destruct (Js.is_space c) eqn:E.
  - destruct b; [apply IH |]. now rewrite anyChar_app, Hr, IH.
  - simpl. now rewrite E, IH.
Qed.

Lemma replace_ws_runs_keeps p b r s :
  anyChar p r = false -> anyChar p s = false ->
  anyChar p (Js.replace_ws_runs_from b r s) = false.
Proof.
  intros Hr. revert b. induction s as [| c s IH]; intros b; simpl; [reflexivity |].
  intros H. apply orb_false_iff in H as [Hc Hs].
  destruct (Js.is_space c).
  - destruct b; [now apply IH |]. now rewrite anyChar_app, Hr, IH.
  - simpl. now rewrite Hc, IH.
Qed.

Lemma replace_ws_runs_id b r s :
  anyChar Js.is_space s = false -> Js.replace_ws_runs_from b r s = s.
Proof.
  revert b. induction s as [| c s IH]; intros b; simpl; [reflexivity |].
  intros H. apply orb_false_iff in H as [Hc Hs]. now rewrite Hc, IH.
Qed.

Lemma lower_char_not_capital c : is_capital (Js.lower_char c) = false.
Proof. destruct c as [[] [] [] [] [] [] [] []]; reflexivity. Qed.

Lemma toLowerCase_no_capital s : anyChar is_capital (Js.toLowerCase s) = false.
Proof.
  induction s as [| c s IH]; simpl; [reflexivity |].
  now rewrite lower_char_not_capital, IH.
Qed.

End Labels.

(** X1 ([sanitizeSize]): the folder name made from a size label holds no
    double quote and no whitespace, whatever the label. *)
Theorem sanitizeSize_clean (sizeName : string) :
  anyChar quoteOrSpace (sanitizeSize sizeName) = false.
Proof.
  unfold quoteOrSpace, sanitizeSize, Js.replace_ws_runs. rewrite anyChar_or.
  apply orb_false_iff. split.
  - apply replace_ws_runs_keeps; [reflexivity |]. now apply replace_dquotes_clean.
  - now apply replace_ws_runs_clean.
Qed.

(** X2 ([sanitizeSize]): sanitizing a folder name again changes nothing. *)
Theorem sanitizeSize_idempotent (sizeName : string) :
  sanitizeSize (sanitizeSize sizeName) = sanitizeSize sizeName.
Proof.
  assert (Id : forall s, anyChar quoteOrSpace s = false -> sanitizeSize s = s).
  { intros s H. unfold quoteOrSpace in H. rewrite anyChar_or in H.
    apply orb_false_iff in H as [Hq Hs].
    unfold sanitizeSize, Js.replace_ws_runs.
    rewrite (replace_dquotes_id _ _ Hq). now apply replace_ws_runs_id. }
  apply Id.
  unfold quoteOrSpace, sanitizeSize, Js.replace_ws_runs. rewrite anyChar_or.
  apply orb_false_iff. split.
  - apply replace_ws_runs_keeps; [reflexivity |]. now apply replace_dquotes_clean.
  - now apply replace_ws_runs_clean.
Qed.

(** X3 ([getDeviceSelectorAttr]): the preset key made from a size label
    holds no double quote, no whitespace and no capital A to Z. *)
Theorem getDeviceSelectorAttr_clean (sizeName : string) :
  anyChar (fun c => quoteOrSpace c || is_capital c) (getDeviceSelectorAttr sizeName) = false.
Proof.
  unfold quoteOrSpace, getDeviceSelectorAttr, Js.replace_ws_runs. rewrite !anyChar_or.
  repeat (apply orb_false_iff; split).
  - now apply replace_dquotes_clean.
  - apply replace_dquotes_keeps; [reflexivity |]. now apply replace_ws_runs_clean.
  - apply replace_dquotes_keeps; [reflexivity |].
    apply replace_ws_runs_keeps; [reflexivity |]. apply toLowerCase_no_capital.
Qed.

(* ===================================================================== *)
(** ** The command line *)
(* ===================================================================== *)

Section CommandLine.

Lemma indexOf_absent x l : ~ In x l -> indexOf x l = None.
Proof.
  induction l as [| y l IH]; simpl; [reflexivity |]. intros H.
  destruct (String.eqb y x) eqn:E.
  - apply String.eqb_eq in E. exfalso. apply H. now left.
  - rewrite IH; [reflexivity |]. intros Hin. apply H. now right.
Qed.

Lemma indexOf_first x pre rest :
  ~ In x pre -> indexOf x (pre ++ x :: rest) = Some (length pre).
Proof.
  induction pre as [| y pre IH]; simpl; intros H.
  - now rewrite String.eqb_refl.
  - destruct (String.eqb y x) eqn:E.
    + apply String.eqb_eq in E. exfalso. apply H. now left.
    + rewrite IH; [reflexivity |]. intros Hin. apply H. now right.
Qed.

Lemma argAfter_first flag pre rest :
  ~ In flag pre -> argAfter (pre ++ flag :: rest) flag = Some (hd_error rest).
Proof.
  intros H. unfold argAfter. rewrite (indexOf_first _ _ _ H). f_equal.
  rewrite nth_error_app2 by lia.
  replace (length pre + 1 - length pre) with 1 by lia. now destruct rest.
Qed.

Lemma argAfter_absent flag args : ~ In flag args -> argAfter args flag = None.
Proof. intros H. unfold argAfter. now rewrite indexOf_absent. Qed.

End CommandLine.

(** X4 (the --config option, lines 47-49): the configuration path is the
    argument that follows the first --config, undefined when --config is
    the last argument; without the option it is config.json beside the
    script. *)
Theorem configPath_resolution (dir : string) (pre rest : list string) :
  ~ In "--config" pre ->
  configPath dir pre = Some (Path.join [dir; "config.json"])
  /\ configPath dir (pre ++ "--config" :: rest) = hd_error rest.
Proof.
  intros H. unfold configPath.
  now rewrite (argAfter_absent _ _ H), (argAfter_first _ _ rest H).
Qed.

Lemma configPath_resolution_witness :
  configPath "/repo" ["--yuzu-url"; "http://localhost:9090"] = Some "/repo/config.json"
  /\ configPath "/repo" (["--yuzu-url"; "http://localhost:9090"]
                          ++ "--config" :: ["app.json"; "--config"; "other.json"])
     = Some "app.json".
Proof.
  apply (configPath_resolution "/repo" ["--yuzu-url"; "http://localhost:9090"]
           ["app.json"; "--config"; "other.json"]).
  simpl. intros [H | [H | []]]; discriminate H.
Defined.

(** X5 (the --yuzu-url option, lines 50-52 and 68): the override is the
    argument that follows the first --yuzu-url; when the option is the
    last argument or is followed by an empty argument, and when it is
    absent, [detectYuzuUrl] probes as if no override were given. *)
Theorem yuzu_url_without_value (pre rest : list string) :
  ~ In "--yuzu-url" pre ->
  yuzuBaseUrl (pre ++ "--yuzu-url" :: rest) = hd_error rest
  /\ (hd_error rest = None \/ hd_error rest = Some EmptyString ->
      detectYuzuUrl (pre ++ "--yuzu-url" :: rest) = autoDetect)
  /\ detectYuzuUrl pre = autoDetect.
Proof.
  intros H.
  assert (E : yuzuBaseUrl (pre ++ "--yuzu-url" :: rest) = hd_error rest).
  { unfold yuzuBaseUrl. rewrite (argAfter_first _ _ rest H). now destruct (hd_error rest). }
  split; [exact E |]. split.
  - intros Hv. unfold detectYuzuUrl. rewrite E. destruct Hv as [-> | ->]; reflexivity.
  - unfold detectYuzuUrl, yuzuBaseUrl. now rewrite (argAfter_absent _ _ H).
Qed.

Lemma yuzu_url_without_value_witness :
  yuzuBaseUrl (["--config"; "app.json"] ++ "--yuzu-url" :: []) = None
  /\ detectYuzuUrl (["--config"; "app.json"] ++ "--yuzu-url" :: []) = autoDetect.
Proof.
  destruct (yuzu_url_without_value ["--config"; "app.json"] []) as (E & D & _).
  - simpl. intros [H | [H | []]]; discriminate H.
  - split; [exact E | apply D; left; reflexivity].
Defined.

(* ===================================================================== *)
(** ** Where exceptions come from *)
(* ===================================================================== *)

Section ThrowFacts.

Lemma wp_True {X} (t : Tree X) : wp t (fun _ _ => True).
Proof. induction t as [x | act k IH]; simpl; [exact I | intros r _; apply IH]. Qed.

Lemma throwsFrom_app {A} ok evs evs' (r : Outcome A * Store) :
  throwsFrom ok evs' r -> throwsFrom ok (evs ++ evs') r.
Proof.
  intros H e E. destruct (H e E) as (pre & act & -> & Hok).
  exists (evs ++ pre), act. split; [now rewrite app_assoc | exact Hok].
Qed.

Variable ok : Action -> Prop.

Lemma Throws_ret {A} (a : A) : Throws ok (ret a).
Proof. intros s e E. discriminate E. Qed.

Lemma Throws_get : Throws ok get.
Proof. intros s e E. discriminate E. Qed.

Lemma Throws_modify f : Throws ok (modify f).
Proof. intros s e E. discriminate E. Qed.

Lemma Throws_emit act : Throws ok (emit act).
Proof. intros s r _ e E. discriminate E. Qed.

Lemma Throws_await act : ok act -> Throws ok (await act).
Proof.
  intros H s [v | e] _ e' E; simpl in *; [discriminate E |].
  injection E as <-. exists [], act. split; [reflexivity | exact H].
Qed.

Lemma Throws_bind {A B} (p : Prog A) (f : A -> Prog B) :
  Throws ok p -> (forall a, Throws ok (f a)) -> Throws ok (bind p f).
Proof.
  intros Hp Hf s. apply wp_bind. eapply wp_mono; [| apply Hp].
  intros evs [[a | e] s1] H; cbn [fst snd].
  - eapply wp_mono; [| apply Hf]. intros evs' r'. apply throwsFrom_app.
  - intros e' E. cbn [fst] in E. injection E as <-. apply (H e eq_refl).
Qed.

Lemma Throws_tryCatch {A} (p : Prog A) (h : Error -> Prog A) :
  (forall e, Throws ok (h e)) -> Throws ok (tryCatch p h).
Proof.
  intros Hh s. apply wp_tryCatch. eapply wp_mono; [| apply wp_True].
  intros evs [[a | e] s1] _; cbn [fst snd].
  - intros e E. discriminate E.
  - eapply wp_mono; [| apply Hh]. intros evs' r'. apply throwsFrom_app.
Qed.

Lemma Throws_forEach {X} (xs : list X) (body : X -> Prog unit) :
  (forall x, Throws ok (body x)) -> Throws ok (forEach xs body).
Proof.
  intros H. induction xs as [| x rest IH]; simpl.
  - apply Throws_ret.
  - apply Throws_bind; [apply H | intros _; exact IH].
Qed.

End ThrowFacts.

Lemma Throws_weaken {A} (ok ok' : Action -> Prop) (p : Prog A) :
  (forall act, ok act -> ok' act) -> Throws ok p -> Throws ok' p.
Proof.
  intros W H s. eapply wp_mono; [| apply H].
  intros evs r T e E. destruct (T e E) as (pre & act & -> & Hok).
  exists pre, act. split; [reflexivity | now apply W].
Qed.

(** Decomposes a goal [Throws ok p] along the structure of [p]. *)
Ltac throws_step :=
  lazymatch goal with
  | |- Throws _ (bind _ _) => apply Throws_bind; [| intros ?]
  | |- Throws _ (tryCatch _ _) => apply Throws_tryCatch; intros ?
  | |- Throws _ (ret _) => apply Throws_ret
  | |- Throws _ (await _) => apply Throws_await
  | |- Throws _ (emit _) => apply Throws_emit
  | |- Throws _ get => apply Throws_get
  | |- Throws _ (modify _) => apply Throws_modify
  | |- Throws _ (forEach _ _) => apply Throws_forEach; intros ?
  | |- Throws _ (if ?b then _ else _) => destruct b
  | |- Throws _ (match ?x with _ => _ end) => destruct x
  end.

Ltac throws_auto :=
  ui_unfold; repeat throws_step; try (simpl; auto; fail); try reflexivity.

(** Decomposes a goal [wp (p s) Q] along the structure of [p]. *)
Ltac wp_step :=
  lazymatch goal with
  | |- wp (bind _ _ _) _ => apply wp_bind
  | |- wp (tryCatch _ _ _) _ => apply wp_tryCatch
  | |- wp (await _ _) _ => apply wp_await; intros ?
  | |- wp (emit _ _) _ => apply wp_emit; [reflexivity |]
  | |- wp (ret _ _) _ => apply wp_ret
  | |- wp (throw _ _) _ => apply wp_throw
  | |- wp (get _) _ => apply wp_get
  | |- wp (modify _ _) _ => apply wp_modify
  | |- wp ((if ?b then _ else _) _) _ => destruct b eqn:?
  end; cbn [fst snd].

Ltac wp_auto := ui_unfold; repeat wp_step.

(* ===================================================================== *)
(** ** Resolving the location, on every path *)
(* ===================================================================== *)

(** X6 ([detectYuzuUrl]): in every environment the function returns an
    address and never throws, whatever the probe does; it probes at most
    once, does nothing but probe and report, and the address is the
    override, the local address or the live demo address. *)
Theorem detectYuzuUrl_total {World : Type} (exec : Action -> World -> Reply * World)
    (args : list string) (s : Store) (st : St World) :
  let result := run exec (detectYuzuUrl args s) st in
  exists url evs,
    fst result = (Returned url, s)
    /\ trace (snd result) = trace st ++ evs
    /\ Forall (fun ev => detectAction (fst ev)) evs
    /\ countIf isFetch evs <= 1
    /\ (yuzuBaseUrl args = Some url \/ url = LOCAL_URL \/ url = DEMO_URL).
Proof.
  intros result.
  assert (W : wp (detectYuzuUrl args s)
                 (fun evs r =>
                    exists url, r = (Returned url, s)
                    /\ Forall (fun ev => detectAction (fst ev)) evs
                    /\ countIf isFetch evs <= 1
                    /\ (yuzuBaseUrl args = Some url \/ url = LOCAL_URL \/ url = DEMO_URL))).
  { unfold detectYuzuUrl.
    assert (A : wp (autoDetect s)
                   (fun evs r =>
                      exists url, r = (Returned url, s)
                      /\ Forall (fun ev => detectAction (fst ev)) evs
                      /\ countIf isFetch evs <= 1
                      /\ (yuzuBaseUrl args = Some url \/ url = LOCAL_URL \/ url = DEMO_URL))).
    { unfold autoDetect. wp_auto.
      - eexists. split; [reflexivity |]. repeat split; [repeat constructor | cbn; lia | auto].
      - eexists. split; [reflexivity |]. repeat split; [repeat constructor | cbn; lia | auto].
      - eexists. split; [reflexivity |]. repeat split; [repeat constructor | cbn; lia | auto]. }
    destruct (yuzuBaseUrl args) as [url |]; [| exact A].
    destruct (Js.truthy_string url); [| exact A].
    wp_auto. exists url. repeat split; [repeat constructor | cbn; lia | auto]. }
  destruct (wp_run exec _ _ st W) as (evs & T & url & E & H).
  exists url, evs. split; [exact E | split; [exact T | exact H]].
Qed.

(* ===================================================================== *)
(** ** File and list helpers of the control surface *)
(* ===================================================================== *)

(** X7 ([ensureDir]): the directory is created exactly when the access
    check fails, with the same path; the failure of the check never leaves
    the function, only a failure of mkdir does. *)
Theorem ensureDir_outcome {World : Type} (exec : Action -> World -> Reply * World)
    (path : string) (s : Store) (st : St World) :
  let result := run exec (ensureDir path s) st in
  exists evs,
    trace (snd result) = trace st ++ evs
    /\ snd (fst result) = s
    /\ ((exists v, evs = [(FsAccess path, Done v)] /\ fst (fst result) = Returned tt)
        \/ (exists e v, evs = [(FsAccess path, Raised e); (FsMkdir path, Done v)]
                        /\ fst (fst result) = Returned tt)
        \/ (exists e e', evs = [(FsAccess path, Raised e); (FsMkdir path, Raised e')]
                         /\ fst (fst result) = Threw e')).
Proof.
  intros result.
  assert (W : wp (ensureDir path s)
                 (fun evs r =>
                    snd r = s
                    /\ ((exists v, evs = [(FsAccess path, Done v)] /\ fst r = Returned tt)
                        \/ (exists e v, evs = [(FsAccess path, Raised e); (FsMkdir path, Done v)]
                                        /\ fst r = Returned tt)
                        \/ (exists e e', evs = [(FsAccess path, Raised e);
                                                (FsMkdir path, Raised e')]
                                         /\ fst r = Threw e')))).
  { unfold ensureDir. wp_auto.
    - split; [reflexivity |]. left. eexists. split; reflexivity.
    - split; [reflexivity |]. right. left. do 2 eexists. split; reflexivity.
    - split; [reflexivity |]. right. right. do 2 eexists. split; reflexivity. }
  destruct (wp_run exec _ _ st W) as (evs & T & H).
  exists evs. split; [exact T | exact H].
Qed.

Section ClearFacts.

Variable page : handle.

Let listing : Action := OnPage page (LocatorAll screenshotItems).

Lemma countIf_app f evs evs' : countIf f (evs ++ evs') = countIf f evs + countIf f evs'.
Proof. unfold countIf. now rewrite filter_app, length_app. Qed.

Lemma endsWith_app pre evs suffix : endsWith evs suffix -> endsWith (pre ++ evs) suffix.
Proof. intros [l ->]. exists (pre ++ l). now rewrite app_assoc. Qed.

Lemma endsRaised_app pre evs : endsRaised evs -> endsRaised (pre ++ evs).
Proof. intros (l & act & e & ->). exists (pre ++ l), act, e. now rewrite app_assoc. Qed.

Lemma endsRaised_last pre act e : endsRaised (pre ++ [(act, Raised e)]).
Proof. now exists pre, act, e. Qed.

Lemma Always_clearLoop remaining :
  Always (clearAction page) (clearYuzuScreenshots_loop remaining page).
Proof.
  induction remaining as [| n IH]; simpl.
  - apply Always_ret.
  - always_auto.
Qed.

(** The loop of [clearYuzuScreenshots] with [remaining] rounds to go. *)
Lemma wp_clearLoop remaining s :
  wp (clearYuzuScreenshots_loop remaining page s)
     (fun evs r =>
        countIf isListing evs <= remaining
        /\ (forall e, fst r = Threw e -> endsWith evs [(listing, Raised e)])
        /\ (fst r = Returned tt ->
            (exists v, as_length v = 0 /\ endsWith evs [(listing, Done v)])
            \/ endsRaised evs
            \/ countIf isListing evs = remaining)).
Proof.
  induction remaining as [| n IH]; cbn [clearYuzuScreenshots_loop].
  - apply wp_ret. split; [apply le_n |]. split; [intros e E; discriminate E |].
    intros _. right. right. reflexivity.
  - unfold locator_all, onPage. apply wp_bind, wp_await_map; intros v; cbn [fst snd].
    2: { split; [cbn; lia |]. split.
         - intros e E. injection E as <-. now exists [].
         - intros E. discriminate E. }
    destruct (Nat.eqb (as_length v) 0) eqn:Z.
    + apply wp_ret. apply Nat.eqb_eq in Z.
      split; [cbn; lia |]. split; [intros e E; discriminate E |].
      intros _. left. exists v. split; [exact Z | now exists []].
    + assert (Stop : forall mid act e,
                countIf isListing (mid ++ [(act, Raised e)]) = 0 ->
                countIf isListing ([(listing, Done v)] ++ (mid ++ [(act, Raised e)]) ++ []) <= S n
                /\ (forall e0, @fst (Outcome unit) Store (Returned tt, s) = Threw e0 ->
                      endsWith ([(listing, Done v)] ++ (mid ++ [(act, Raised e)]) ++ [])
                               [(listing, Raised e0)])
                /\ (@fst (Outcome unit) Store (Returned tt, s) = Returned tt ->
                    (exists v0, as_length v0 = 0
                                /\ endsWith ([(listing, Done v)] ++ (mid ++ [(act, Raised e)]) ++ [])
                                            [(listing, Done v0)])
                    \/ endsRaised ([(listing, Done v)] ++ (mid ++ [(act, Raised e)]) ++ [])
                    \/ countIf isListing ([(listing, Done v)] ++ (mid ++ [(act, Raised e)]) ++ [])
                       = S n)).
      { intros mid act e Hm. rewrite app_nil_r. split; [| split].
        - rewrite countIf_app, Hm. cbn. lia.
        - intros e0 E. discriminate E.
        - intros _. right. left. rewrite app_assoc. apply endsRaised_last. }
      wp_auto.
      * eapply wp_mono; [| apply IH]. intros evs' r' (Hc & Ht & Hr).
        split; [| split].
        -- rewrite !countIf_app. cbn. cbn in Hc. lia.
        -- intros e E. apply endsWith_app, endsWith_app. now apply Ht.
        -- intros E. destruct (Hr E) as [(last & Hz & Hw) | [Hw | He]].
           ++ left. exists last. split; [exact Hz |]. now apply endsWith_app, endsWith_app.
           ++ right. left. now apply endsRaised_app, endsRaised_app.
           ++ right. right. rewrite !countIf_app, He. reflexivity.
      * apply (Stop [_; _; _]). reflexivity.
      * apply (Stop [_; _]). reflexivity.
      * apply (Stop [_]). reflexivity.
      * apply (Stop []). reflexivity.
Qed.

End ClearFacts.

(** X8 ([clearYuzuScreenshots]): in every environment the loop lists the
    items at most 40 times and does nothing but list, click and wait on
    its page; only a failing listing makes it throw; and when it returns,
    the last listing was empty, or a click or wait of the removal failed,
    or 40 rounds were made (the list may then still hold items). *)
Theorem clearYuzuScreenshots_bounded {World : Type} (exec : Action -> World -> Reply * World)
    (page : handle) (s : Store) (st : St World) :
  let result := run exec (clearYuzuScreenshots page s) st in
  let listing := OnPage page (LocatorAll screenshotItems) in
  exists evs,
    trace (snd result) = trace st ++ evs
    /\ snd (fst result) = s
    /\ Forall (fun ev => clearAction page (fst ev)) evs
    /\ countIf isListing evs <= 40
    /\ (forall e, fst (fst result) = Threw e -> endsWith evs [(listing, Raised e)])
    /\ (fst (fst result) = Returned tt ->
        (exists v, as_length v = 0 /\ endsWith evs [(listing, Done v)])
        \/ endsRaised evs
        \/ countIf isListing evs = 40).
Proof.
  intros result listing.
  destruct (wp_run exec _ _ st
              (wp_conj _ _ _ (wp_always _ _ _ (Always_clearLoop page 40 s))
                       (wp_clearLoop page 40 s)))
    as (evs & T & [F L] & H).
  exists evs. split; [exact T |]. split; [exact L |]. split; [exact F | exact H].
Qed.

(** X9 ([uploadScreenshot]): the file is handed to the file input at most
    once, after the list was cleared and with the path given; a failure of
    the selecting click or of the wait after it is swallowed; an exception
    leaves the function only from the listing of the items, from
    setInputFiles or from the wait that follows it. *)
Theorem uploadScreenshot_outcome {World : Type} (exec : Action -> World -> Reply * World)
    (page : handle) (screenshotPath : string) (s : Store) (st : St World) :
  let result := run exec (uploadScreenshot page screenshotPath s) st in
  let setFile := OnPage page (LocatorSetInputFiles (Css "#file-input") screenshotPath) in
  exists evs,
    trace (snd result) = trace st ++ evs
    /\ snd (fst result) = s
    /\ countIf isSetInputFiles evs <= 1
    /\ (fst (fst result) = Returned tt ->
        exists pre post v,
          evs = pre ++ (setFile, Done v) :: post
          /\ Forall (fun ev => clearAction page (fst ev)) pre
          /\ countIf isListing post = 0)
    /\ (forall e, fst (fst result) = Threw e ->
        exists pre act,
          evs = pre ++ [(act, Raised e)]
          /\ (act = OnPage page (LocatorAll screenshotItems) \/ act = setFile
              \/ act = OnPage page (WaitForTimeout 500%N))).
Proof.
  intros result setFile.
  assert (W : wp (uploadScreenshot page screenshotPath s)
    (fun evs r =>
       snd r = s
       /\ countIf isSetInputFiles evs <= 1
       /\ (fst r = Returned tt ->
           exists pre post v,
             evs = pre ++ (setFile, Done v) :: post
             /\ Forall (fun ev => clearAction page (fst ev)) pre
             /\ countIf isListing post = 0)
       /\ (forall e, fst r = Threw e ->
           exists pre act,
             evs = pre ++ [(act, Raised e)]
             /\ (act = OnPage page (LocatorAll screenshotItems) \/ act = setFile
                 \/ act = OnPage page (WaitForTimeout 500%N))))).
  { unfold uploadScreenshot, clearYuzuScreenshots. apply wp_bind.
    eapply wp_mono;
      [| apply (wp_conj _ _ _ (wp_always _ _ _ (Always_clearLoop page 40 s))
                        (wp_clearLoop page 40 s))].
    intros pre [[u | e] s1] [[F L] (_ & Ht & _)]; cbn [fst snd] in *; subst s1.
    2: { split; [reflexivity |]. split.
         - assert (Z : countIf isSetInputFiles pre = 0).
           { clear - F. induction F as [| [act r] l Ha _ IH]; [reflexivity |].
             unfold countIf in *. cbn [filter fst] in *.
             destruct act; try contradiction. destruct op; try contradiction; exact IH. }
           lia.
         - split; [intros E; discriminate E |].
           intros e0 E. injection E as <-. destruct (Ht e eq_refl) as [l ->].
           exists l, (OnPage page (LocatorAll screenshotItems)). split; [reflexivity | now left]. }
    assert (Z : countIf isSetInputFiles pre = 0).
    { clear - F. induction F as [| [act r] l Ha _ IH]; [reflexivity |].
      unfold countIf in *. cbn [filter fst] in *.
      destruct act; try contradiction. destruct op; try contradiction; exact IH. }
    assert (Ok : forall post v (r : Outcome unit * Store),
              snd r = s -> fst r = Returned tt -> countIf isListing post = 0 ->
              countIf isSetInputFiles post = 0 ->
              snd r = s
              /\ countIf isSetInputFiles (pre ++ (setFile, Done v) :: post) <= 1
              /\ (fst r = Returned tt ->
                  exists pre0 post0 v0,
                    pre ++ (setFile, Done v) :: post = pre0 ++ (setFile, Done v0) :: post0
                    /\ Forall (fun ev => clearAction page (fst ev)) pre0
                    /\ countIf isListing post0 = 0)
              /\ (forall e, fst r = Threw e ->
                  exists pre0 act,
                    pre ++ (setFile, Done v) :: post = pre0 ++ [(act, Raised e)]
                    /\ (act = OnPage page (LocatorAll screenshotItems) \/ act = setFile
                        \/ act = OnPage page (WaitForTimeout 500%N)))).
    { intros post v r Hs Hr Hl Hf. split; [exact Hs |]. split; [| split].
      - change ((setFile, Done v) :: post) with ([(setFile, Done v)] ++ post).
        rewrite !countIf_app, Z, Hf. cbn. lia.
      - intros _. exists pre, post, v. repeat split; assumption.
      - intros e E. rewrite Hr in E. discriminate E. }
    wp_auto.
    - apply (Ok [_; _; _] v (Returned tt, s)); reflexivity.
    - apply (Ok [_; _; _] v (Returned tt, s)); reflexivity.
    - apply (Ok [_; _] v (Returned tt, s)); reflexivity.
    - split; [reflexivity |]. split; [rewrite !countIf_app, Z; cbn; lia |].
      split; [intros E; discriminate E |]. intros e0 E. injection E as <-.
      do 2 eexists. split; [rewrite app_nil_r, app_assoc; reflexivity | auto].
    - split; [reflexivity |]. split; [rewrite !countIf_app, Z; cbn; lia |].
      split; [intros E; discriminate E |]. intros e0 E. injection E as <-.
      do 2 eexists. split; [reflexivity | auto]. }
  destruct (wp_run exec _ _ st W) as (evs & T & H).
  exists evs. split; [exact T | exact H].
Qed.

(* ===================================================================== *)
(** ** Input and output paths *)
(* ===================================================================== *)

Section MorePaths.

Lemma plain_truthy seg : plainSegment seg = true -> Js.truthy_string seg = true.
Proof.
  intros H. unfold Js.truthy_string. apply negb_true_iff, String.eqb_neq.
  now apply plain_nonempty.
Qed.

Lemma filter_truthy_plain segs :
  Forall (fun seg => plainSegment seg = true) segs -> filter Js.truthy_string segs = segs.
Proof.
  induction 1 as [| x l Hx _ IH]; simpl; [reflexivity |].
  now rewrite (plain_truthy _ Hx), IH.
Qed.

(** [path.join] of a plain absolute directory and plain segments is the
    absolute path of all the segments. *)
Lemma join_absolute (root segs : list string) :
  root <> [] -> Forall (fun seg => plainSegment seg = true) root ->
  Forall (fun seg => plainSegment seg = true) segs ->
  Path.join (absolute root :: segs) = absolute (root ++ segs).
Proof.
  intros Hne Hroot Hsegs. unfold Path.join. cbn [filter].
  change (Js.truthy_string (absolute root)) with true. cbv iota.
  rewrite (filter_truthy_plain _ Hsegs).
  assert (Hcat : String.concat "/" (absolute root :: segs) = absolute (root ++ segs)).
  { destruct segs as [| y l]; [now rewrite app_nil_r |].
    unfold absolute. rewrite concat_app by (assumption || discriminate). reflexivity. }
  rewrite Hcat. apply normalize_absolute.
  - destruct root; [contradiction | discriminate].
  - apply Forall_app. now split.
Qed.

Lemma list_ascii_app (a b : string) :
  list_ascii_of_string (a ++ b) = list_ascii_of_string a ++ list_ascii_of_string b.
Proof. induction a as [| c a IH]; simpl; [reflexivity | now rewrite IH]. Qed.

Lemma hasSlash_chars (s : string) :
  hasSlash s = false -> forall c, In c (list_ascii_of_string s) -> Path.is_slash c = false.
Proof.
  induction s as [| x s IH]; simpl; intros H c Hin; [contradiction |].
  apply orb_false_iff in H as [Hx Hs]. destruct Hin as [<- | Hin]; [exact Hx | now apply IH].
Qed.

Lemma dirname_scan_segment (l : list ascii) (b : bool) (before : list ascii) :
  (forall c, In c l -> Path.is_slash c = false) -> l <> [] \/ b = false ->
  Path.dirname_scan b (l ++ "/"%char :: before) = Some before.
Proof.
  revert b. induction l as [| c l IH]; intros b Hl Hb.
  - destruct Hb as [Hb | ->]; [contradiction | reflexivity].
  - cbn [app Path.dirname_scan]. rewrite (Hl c (or_introl eq_refl)).
    apply IH; [intros x Hx; apply Hl; now right | now right].
Qed.

(** [path.dirname] of a plain absolute path drops the last segment. *)
Lemma dirname_absolute (segs : list string) (file : string) :
  segs <> [] -> Forall (fun seg => plainSegment seg = true) segs ->
  plainSegment file = true ->
  Path.dirname (absolute (segs ++ [file])) = absolute segs.
Proof.
  intros Hne Hsegs Hfile. unfold absolute.
  rewrite concat_app by (assumption || discriminate). cbn [String.concat].
  unfold Path.dirname. change (Path.is_slash "/") with true.
  rewrite list_ascii_app. cbn [list_ascii_of_string]. rewrite rev_app_distr.
  cbn [rev]. rewrite <- app_assoc. cbn [app].
  rewrite dirname_scan_segment.
  - assert (Hc := concat_nonempty segs Hne Hsegs).
    destruct (rev (list_ascii_of_string (String.concat "/" segs))) as [| x l] eqn:E.
    + exfalso. apply Hc. apply (f_equal (@rev ascii)) in E. rewrite rev_involutive in E.
      apply (f_equal string_of_list_ascii) in E.
      now rewrite string_of_list_ascii_of_string in E.
    + rewrite <- E, rev_involutive, string_of_list_ascii_of_string. reflexivity.
  - intros c Hc. apply in_rev in Hc. revert c Hc. apply hasSlash_chars.
    now apply plain_noSlash.
  - left. intros E. apply (f_equal (@rev ascii)) in E. rewrite rev_involutive in E.
    destruct file; [discriminate Hfile | discriminate E].
Qed.

End MorePaths.

(** X10 (the source path, lines 408-409): for a plain script directory and
    plain components the source image of a task is
    dir/rawDir/locale/id.png, where rawDir is the size's rawDir, or raw
    when that is absent or empty; the size label plays no part. *)
Theorem rawPath_layout (root : list string) (size : Size.t) (locale screenshotId : string) :
  root <> [] ->
  Forall (fun seg => plainSegment seg = true) root ->
  plainSegment (or_default (Size.rawDir size) "raw") = true ->
  plainSegment locale = true ->
  plainSegment (screenshotId ++ ".png") = true ->
  rawPathOf (absolute root) size locale screenshotId
  = absolute (root ++ [or_default (Size.rawDir size) "raw"; locale;
                       (screenshotId ++ ".png")%string]).
Proof.
  intros Hne Hroot Hd Hl Hi. unfold rawPathOf. cbv zeta.
  rewrite (join_absolute root [_]) by (assumption || now repeat constructor).
  rewrite (join_absolute (root ++ [_]) [_; _]).
  - now rewrite <- app_assoc.
  - destruct root; discriminate.
  - apply Forall_app. split; [assumption | now repeat constructor].
  - now repeat constructor.
Qed.

Lemma rawPath_layout_witness :
  rawPathOf "/repo" Sample.ipad "de" "home-screen" = "/repo/raw/de/home-screen.png".
Proof.
  apply (rawPath_layout ["repo"] Sample.ipad "de" "home-screen");
    try reflexivity; try discriminate.
  repeat constructor.
Defined.

(** X11 (the output folder, lines 386 and 411): for a plain output root
    and plain components the directory [exportScreenshot] ensures for a
    task is root/locale/sanitizedLabel. *)
Theorem output_directory (root : list string) (locale : string) (size : Size.t)
    (screenshotId : string) :
  root <> [] ->
  Forall (fun seg => plainSegment seg = true) root ->
  plainSegment locale = true ->
  plainSegment (sanitizeSize (Size.device size)) = true ->
  plainSegment (screenshotId ++ ".png") = true ->
  Path.dirname (outputPathOf (absolute root) locale size screenshotId)
  = absolute (root ++ [locale; sanitizeSize (Size.device size)]).
Proof.
  intros Hne Hroot Hl Hs Hi. unfold outputPathOf. cbv zeta.
  rewrite (join_absolute root [_; _; _]) by (assumption || now repeat constructor).
  change [locale; sanitizeSize (Size.device size); (screenshotId ++ ".png")%string]
    with ([locale; sanitizeSize (Size.device size)] ++ [(screenshotId ++ ".png")%string]).
  rewrite app_assoc. apply dirname_absolute.
  - destruct root; discriminate.
  - apply Forall_app. split; [assumption | now repeat constructor].
  - exact Hi.
Qed.

Lemma output_directory_witness :
  Path.dirname (outputPathOf "/repo/output" "de" Sample.iphone "home-screen")
  = "/repo/output/de/iPhone_6.9_".
Proof.
  apply (output_directory ["repo"; "output"] "de" Sample.iphone "home-screen");
    try reflexivity; try discriminate.
  repeat constructor.
Defined.

(* ===================================================================== *)
(** ** The export *)
(* ===================================================================== *)

Lemma wp_exportScreenshot (page : handle) (outputPath : string) (s : Store) :
  let dir := Path.dirname outputPath in
  wp (exportScreenshot page outputPath s)
    (fun evs r =>
       snd r = s
       /\ (fst r = Returned tt ->
           exists pre v d v',
             evs = pre ++ [(OnPage page (ExpectDownload DOWNLOAD_TIMEOUT_MS), Done VUndefined);
                           (OnPage page (Click "#export-current" None), Done v);
                           (OnPage page AwaitDownload, Done d);
                           (DownloadSaveAs (as_handle d) outputPath, Done v')]
             /\ Forall (fun ev => fst ev = FsAccess dir \/ fst ev = FsMkdir dir) pre)
       /\ (forall e, fst r = Threw e ->
           exists pre act,
             evs = pre ++ [(act, Raised e)]
             /\ (act = FsMkdir dir \/ act = OnPage page (Click "#export-current" None)
                 \/ act = OnPage page AwaitDownload
                 \/ exists d, act = DownloadSaveAs d outputPath))).
Proof.
  intros dir. unfold exportScreenshot, ensureDir. fold dir. wp_auto.
  all: split; [reflexivity |]; split;
    [intros E; try discriminate E | intros err E; try discriminate E; injection E as <-].
  all: try (eexists [_], _, _, _; split;
            [reflexivity | repeat (apply Forall_cons; [cbn; auto |]); apply Forall_nil]; fail).
  all: try (eexists [_; _], _, _, _; split;
            [reflexivity | repeat (apply Forall_cons; [cbn; auto |]); apply Forall_nil]; fail).
  all: try (eexists [_; _; _; _; _], _; split; [reflexivity | eauto 6]; fail).
  all: try (eexists [_; _; _; _], _; split; [reflexivity | eauto 6]; fail).
  all: try (eexists [_; _; _], _; split; [reflexivity | eauto 6]; fail).
  all: try (eexists [_; _], _; split; [reflexivity | eauto 6]; fail).
  all: try (eexists [_], _; split; [reflexivity | eauto 6]; fail).
Qed.

(** X12 ([exportScreenshot]): when the function returns, its last four
    events are the arming of the download listener, the click on the
    export button, the arrival of a download and the saving of that very
    download to the output path, all successful, and before them only the
    directory of the output path was checked or created; an exception
    leaves the function only from mkdir, the click, the wait for the
    download or the saving. *)
Theorem exportScreenshot_outcome {World : Type} (exec : Action -> World -> Reply * World)
    (page : handle) (outputPath : string) (s : Store) (st : St World) :
  let result := run exec (exportScreenshot page outputPath s) st in
  let dir := Path.dirname outputPath in
  exists evs,
    trace (snd result) = trace st ++ evs
    /\ snd (fst result) = s
    /\ (fst (fst result) = Returned tt ->
        exists pre v d v',
          evs = pre ++ [(OnPage page (ExpectDownload DOWNLOAD_TIMEOUT_MS), Done VUndefined);
                        (OnPage page (Click "#export-current" None), Done v);
                        (OnPage page AwaitDownload, Done d);
                        (DownloadSaveAs (as_handle d) outputPath, Done v')]
          /\ Forall (fun ev => fst ev = FsAccess dir \/ fst ev = FsMkdir dir) pre)
    /\ (forall e, fst (fst result) = Threw e ->
        exists pre act,
          evs = pre ++ [(act, Raised e)]
          /\ (act = FsMkdir dir \/ act = OnPage page (Click "#export-current" None)
              \/ act = OnPage page AwaitDownload
              \/ exists d, act = DownloadSaveAs d outputPath)).
Proof.
  intros result dir.
  destruct (wp_run exec _ _ st (wp_exportScreenshot page outputPath s)) as (evs & T & H).
  exists evs. split; [exact T | exact H].
Qed.

(* ===================================================================== *)
(** ** The outcomes of one task *)
(* ===================================================================== *)

Lemma endsWith_refl evs : endsWith evs evs.
Proof. now exists []. Qed.

Lemma endsWith_cons ev evs suffix : endsWith evs suffix -> endsWith (ev :: evs) suffix.
Proof. intros [l ->]. now exists (ev :: l). Qed.

(** Finds the end of a list of events. *)
Ltac ends_tac :=
  rewrite ?app_nil_r;
  repeat first [apply endsWith_refl | apply endsWith_app | apply endsWith_cons].

Section TaskOutcome.

Variable dir : string.
Variable page : handle.
Variable screenshot : Screenshot.t.
Variable locale : string.
Variable size : Size.t.
Variable design : Design.t.
Variable outputDir : string.

Let logPrefix := logPrefixOf locale size (Screenshot.id screenshot).
Let rawPath := rawPathOf dir size locale (Screenshot.id screenshot).
Let outputPath := outputPathOf outputDir locale size (Screenshot.id screenshot).

Let any (act : Action) : Prop := True.

Lemma Throws_clearLoop remaining : Throws any (clearYuzuScreenshots_loop remaining page).
Proof.
  induction remaining as [| n IH]; simpl.
  - apply Throws_ret.
  - throws_auto; exact I.
Qed.

Lemma Throws_attemptSteps attempt :
  Throws any (attemptSteps dir page screenshot locale size design outputDir attempt).
Proof.
  unfold attemptSteps, selectOutputSize, uploadScreenshot, clearYuzuScreenshots,
    configureBackground, configureDevice, enableFrame, configureText, enableHeadline,
    disableSubheadline, waitForCanvasRender, exportScreenshot, ensureDir.
  cbv zeta. ui_unfold.
  repeat (first [apply Throws_clearLoop | throws_step]); exact I.
Qed.


(** The steps of the try block, by their outcome. *)
Lemma wp_attemptSteps attempt s :
  wp (attemptSteps dir page screenshot locale size design outputDir attempt s)
     (fun evs r =>
        snd r = s
        /\ attemptsEntered evs = []
        /\ match fst r with
           | Returned true => savedAs outputPath logPrefix evs
           | Returned false =>
               exists e,
                 evs = [(FsAccess rawPath, Raised e);
                        (Console ErrorLevel (MsgRawNotFound logPrefix rawPath), Done VUndefined)]
           | Threw e => exists pre act, evs = pre ++ [(act, Raised e)]
           end).
Proof.
  assert (Shape : wp (attemptSteps dir page screenshot locale size design outputDir attempt s)
    (fun evs r =>
       match fst r with
       | Returned true => savedAs outputPath logPrefix evs
       | Returned false =>
           exists e,
             evs = [(FsAccess rawPath, Raised e);
                    (Console ErrorLevel (MsgRawNotFound logPrefix rawPath), Done VUndefined)]
       | Threw e => True
       end)).
  { unfold attemptSteps. cbv zeta. fold rawPath. fold logPrefix. fold outputPath.
    apply wp_bind, wp_tryCatch. unfold access.
    apply wp_bind, wp_bind, wp_await; intros x; cbn [fst snd].
    2: { apply wp_bind, wp_console. cbn [fst snd]. apply wp_ret. cbn [fst snd negb].
         apply wp_ret. cbn [fst]. now exists x. }
    apply wp_ret. cbn [fst snd]. apply wp_ret. cbn [fst snd negb].
    apply wp_bind, wp_console. cbn [fst snd].
    apply (wp_mono _ (fun evs r =>
             match fst r with
             | Returned true => savedAs outputPath logPrefix evs
             | Returned false => False
             | Threw _ => True
             end)).
    { intros evs [[[|] | e] s1]; cbn [fst]; [| contradiction | trivial].
      intros (d & v & H). exists d, v. do 2 apply endsWith_app. exact H. }
    apply (wp_over (taskAction page)); [unfold page_reload, onPage; always_auto |].
    intros e1 _. split; [intros _ | intros e; exact I].
    apply (wp_over (taskAction page)); [apply Always_page_waitForTimeout |]. intros e2 _.
    split; [intros _ | intros e; exact I].
    apply (wp_over (taskAction page)); [apply Always_selectOutputSize |]. intros e3 _.
    split; [intros _ | intros e; exact I].
    apply (wp_over (taskAction page)); [apply Always_uploadScreenshot |]. intros e4 _.
    split; [intros _ | intros e; exact I].
    apply (wp_over (taskAction page)); [apply Always_configureBackground |]. intros e5 _.
    split; [intros _ | intros e; exact I].
    apply (wp_over (taskAction page)); [apply Always_configureDevice |]. intros e6 _.
    split; [intros _ | intros e; exact I].
    apply (wp_over (taskAction page)); [apply Always_configureText |]. intros e7 _.
    split; [intros _ | intros e; exact I].
    apply wp_bind. eapply wp_mono; [| apply wp_exportScreenshot].
    intros e8 [[[] | e] s1] (-> & Hr & _); cbn [fst snd]; [| exact I].
    destruct (Hr eq_refl) as (pre & v1 & d & v2 & -> & _).
    apply wp_bind, wp_console. cbn [fst snd]. apply wp_ret. cbn [fst].
    exists (as_handle d), v2.
    do 7 apply endsWith_app. rewrite app_nil_r, <- app_assoc. apply endsWith_app.
    exists [(OnPage page (ExpectDownload DOWNLOAD_TIMEOUT_MS), Done VUndefined);
            (OnPage page (Click "#export-current" None), Done v1);
            (OnPage page AwaitDownload, Done d)].
    reflexivity. }
  eapply wp_mono;
    [| apply (wp_conj _ _ _
                (wp_conj _ _ _
                   (wp_always _ _ _
                      (Always_attemptSteps page dir screenshot locale size design outputDir
                                           attempt s))
                   (Throws_attemptSteps attempt s))
                Shape)].
  intros evs [[b | e] s1] [[[F L] T] Sh]; cbn [fst snd] in *.
  - split; [exact L |]. split; [now apply (attemptsEntered_task page) | exact Sh].
  - split; [exact L |]. split; [now apply (attemptsEntered_task page) |].
    destruct (T e eq_refl) as (pre & act & -> & _). now exists pre, act.
Qed.

Lemma seq_snoc_start attempt k : attempt :: seq (attempt + 1) k = seq attempt (S k).
Proof. now rewrite Nat.add_1_r. Qed.

(** [processScreenshot] from attempt [attempt] with [fuel] retries left:
    the attempts entered are consecutive, and the events end as the
    outcome tells. *)
Lemma wp_retry_outcome fuel attempt s :
  attempt + fuel = MAX_RETRIES ->
  wp (processScreenshot_rec dir fuel page screenshot locale size design outputDir attempt s)
     (fun evs r =>
        exists k,
          k <= fuel
          /\ attemptsEntered evs = seq attempt (S k)
          /\ match fst r with
             | Returned true => savedAs outputPath logPrefix evs
             | Returned false =>
                 sourceMissing rawPath logPrefix evs \/ (k = fuel /\ gaveUp logPrefix evs)
             | Threw e =>
                 k < fuel
                 /\ exists op, resetOp op /\ endsWith evs [(OnPage page op, Raised e)]
             end).
Proof.
  revert attempt s. induction fuel as [| fuel IH]; intros attempt s Hf;
    rewrite processScreenshot_rec_entry; unfold afterEntry; cbv zeta; fold logPrefix;
    apply wp_bind, wp_emit; try reflexivity; cbn [fst snd];
    apply wp_tryCatch; (eapply wp_mono; [| apply wp_attemptSteps]);
    intros evs [[b | e] s1] (-> & Hn & H); cbn [fst snd] in *.
  - exists 0. split; [apply le_n |].
    split; [rewrite attemptsEntered_app, Hn; reflexivity |].
    destruct b.
    + destruct H as (d & v & H). exists d, v. now apply endsWith_app.
    + left. destruct H as [e ->]. exists e. apply endsWith_app, endsWith_refl.
  - apply wp_bind, wp_console. cbn [fst snd].
    assert (L : Nat.ltb attempt MAX_RETRIES = false) by (apply Nat.ltb_ge; lia).
    rewrite L. apply wp_bind, wp_console. cbn [fst snd]. apply wp_ret. cbn [fst].
    exists 0. split; [apply le_n |]. split.
    + rewrite !attemptsEntered_app, Hn. reflexivity.
    + right. split; [reflexivity |]. exists (message e).
      rewrite app_nil_r. do 2 apply endsWith_app. apply endsWith_refl.
  - exists 0. split; [lia |].
    split; [rewrite attemptsEntered_app, Hn; reflexivity |].
    destruct b.
    + destruct H as (d & v & H). exists d, v. now apply endsWith_app.
    + left. destruct H as [e ->]. exists e. apply endsWith_app, endsWith_refl.
  - apply wp_bind, wp_console. cbn [fst snd].
    assert (L : Nat.ltb attempt MAX_RETRIES = true) by (apply Nat.ltb_lt; lia).
    rewrite L. unfold retryReset.
    ui_unfold. apply wp_bind, wp_bind, wp_emit; [reflexivity |]. cbn [fst snd].
    apply wp_bind, wp_bind, wp_await; intros x1; cbn [fst snd].
    2: { exists 0. split; [lia |].
         split; [rewrite ?attemptsEntered_app, ?Hn; reflexivity |].
         split; [lia |]. exists (WaitForTimeout 1500%N). split; [left; reflexivity |].
         ends_tac. }
    apply wp_ret. cbn [fst snd].
    apply wp_bind, wp_bind, wp_await; intros x2; cbn [fst snd].
    2: { exists 0. split; [lia |].
         split; [rewrite ?attemptsEntered_app, ?Hn; reflexivity |].
         split; [lia |]. exists Reload. split; [right; left; reflexivity |].
         ends_tac. }
    apply wp_ret. cbn [fst snd].
    apply wp_bind, wp_await; intros x3; cbn [fst snd].
    2: { exists 0. split; [lia |].
         split; [rewrite ?attemptsEntered_app, ?Hn; reflexivity |].
         split; [lia |]. exists (WaitForTimeout 1000%N). split; [right; right; reflexivity |].
         ends_tac. }
    apply wp_ret. cbn [fst snd].
    eapply wp_mono; [| apply (IH (attempt + 1) s); lia].
    intros evs' r' (k & Hk & Ha & Hr).
    exists (S k). split; [lia |]. split.
    + rewrite !attemptsEntered_app, Hn, Ha. cbn [attemptsEntered flat_map fst app].
      apply seq_snoc_start.
    + destruct (fst r') as [[|] | err].
      * destruct Hr as (d & v & Hr). exists d, v. ends_tac. exact Hr.
      * destruct Hr as [(e0 & Hr) | [-> Hr]].
        -- left. exists e0. ends_tac. exact Hr.
        -- right. split; [reflexivity |]. destruct Hr as (m & Hr). exists m.
           ends_tac. exact Hr.
      * destruct Hr as (Hlt & op & Hop & Hr). split; [lia |]. exists op.
        split; [exact Hop |]. ends_tac. exact Hr.
Qed.

(** Every path of a task, from attempt 1. *)
Lemma wp_task_outcome s :
  wp (processScreenshot dir page screenshot locale size design outputDir 1 s)
     (fun evs r =>
        exists k,
          k <= 2
          /\ attemptsEntered evs = seq 1 (S k)
          /\ match fst r with
             | Returned true => savedAs outputPath logPrefix evs
             | Returned false =>
                 sourceMissing rawPath logPrefix evs \/ (k = 2 /\ gaveUp logPrefix evs)
             | Threw e =>
                 k < 2
                 /\ exists op, resetOp op /\ endsWith evs [(OnPage page op, Raised e)]
             end).
Proof. unfold processScreenshot. now apply wp_retry_outcome. Qed.

End TaskOutcome.

(** X13 ([processScreenshot]): in every environment a task enters the
    attempts 1, 2, ... in order and never more than MAX_RETRIES of them;
    it assigns to no variable in scope, and all it does besides are
    actions of its own page, file checks, saving and console lines. *)
Theorem task_attempts_bounded {World : Type} (exec : Action -> World -> Reply * World)
    (dir : string) (page : handle) (screenshot : Screenshot.t) (locale : string)
    (size : Size.t) (design : Design.t) (outputDir : string) (s : Store) (st : St World) :
  let result := run exec (processScreenshot dir page screenshot locale size design
                                            outputDir 1 s) st in
  exists evs n,
    trace (snd result) = trace st ++ evs
    /\ snd (fst result) = s
    /\ 1 <= n <= MAX_RETRIES
    /\ attemptsEntered evs = seq 1 n
    /\ Forall (fun ev => taskOrEnterFrom 1 page (Screenshot.id screenshot) locale
                                         (Size.device size) (fst ev)) evs.
Proof.
  intros result.
  destruct (wp_run exec _ _ st
              (wp_conj _ _ _
                 (wp_processScreenshot dir page screenshot locale size design outputDir s)
                 (wp_task_outcome dir page screenshot locale size design outputDir s)))
    as (evs & T & (Hs & rest & -> & F) & k & Hk & Ha & _).
  exists ((Enter page (Screenshot.id screenshot) locale (Size.device size) 1, Done VUndefined)
          :: rest), (S k).
  split; [exact T |]. split; [exact Hs |]. split; [unfold MAX_RETRIES; lia |].
  split; [exact Ha |]. constructor.
  - right. exists 1. split; [apply le_n | reflexivity].
  - revert F. apply Forall_impl. intros ev [H | (a & Ha' & H)]; [now left |].
    right. exists a. split; [lia | exact H].
Qed.

(** X14 ([processScreenshot]): a task returns true only after the download
    was saved to the output path of the task; the save and the line of
    success are its last two events. *)
Theorem task_success_saved {World : Type} (exec : Action -> World -> Reply * World)
    (dir : string) (page : handle) (screenshot : Screenshot.t) (locale : string)
    (size : Size.t) (design : Design.t) (outputDir : string) (s : Store) (st : St World) :
  let result := run exec (processScreenshot dir page screenshot locale size design
                                            outputDir 1 s) st in
  fst (fst result) = Returned true ->
  exists evs,
    trace (snd result) = trace st ++ evs
    /\ savedAs (outputPathOf outputDir locale size (Screenshot.id screenshot))
               (logPrefixOf locale size (Screenshot.id screenshot)) evs.
Proof.
  intros result E.
  destruct (wp_run exec _ _ st
              (wp_task_outcome dir page screenshot locale size design outputDir s))
    as (evs & T & k & _ & _ & H).
  fold result in T, H. rewrite E in H. exists evs. split; [exact T | exact H].
Qed.

Lemma task_success_saved_witness :
  exists evs,
    trace (snd (run Sim.exec
                    (processScreenshot "/repo" 7 Sample.home "de" Sample.iphone Sample.design
                                       "/repo/output" 1 emptyStore)
                    (Sim.start Sim.healthy)))
    = trace (Sim.start Sim.healthy) ++ evs
    /\ savedAs (outputPathOf "/repo/output" "de" Sample.iphone (Screenshot.id Sample.home))
               (logPrefixOf "de" Sample.iphone (Screenshot.id Sample.home)) evs.
Proof.
  apply (task_success_saved Sim.exec "/repo" 7 Sample.home "de" Sample.iphone Sample.design
           "/repo/output" emptyStore (Sim.start Sim.healthy)).
  vm_compute. reflexivity.
Defined.

(** X15 ([processScreenshot]): a task returns false in two cases only:
    the access check of the source image failed (in whichever attempt),
    and the missing file was reported as the last event; or all of
    MAX_RETRIES attempts were entered and the last one failed. *)
Theorem task_failure_cause {World : Type} (exec : Action -> World -> Reply * World)
    (dir : string) (page : handle) (screenshot : Screenshot.t) (locale : string)
    (size : Size.t) (design : Design.t) (outputDir : string) (s : Store) (st : St World) :
  let result := run exec (processScreenshot dir page screenshot locale size design
                                            outputDir 1 s) st in
  let logPrefix := logPrefixOf locale size (Screenshot.id screenshot) in
  fst (fst result) = Returned false ->
  exists evs,
    trace (snd result) = trace st ++ evs
    /\ (sourceMissing (rawPathOf dir size locale (Screenshot.id screenshot)) logPrefix evs
        \/ (attemptsEntered evs = seq 1 MAX_RETRIES /\ gaveUp logPrefix evs)).
Proof.
  intros result logPrefix E.
  destruct (wp_run exec _ _ st
              (wp_task_outcome dir page screenshot locale size design outputDir s))
    as (evs & T & k & _ & Ha & H).
  fold result in T, H. rewrite E in H. exists evs. split; [exact T |].
  destruct H as [H | [-> H]]; [now left | right; split; [exact Ha | exact H]].
Qed.

Lemma task_failure_cause_witness :
  exists evs,
    trace (snd (run Sim.exec
                    (processScreenshot "/repo" 7 Sample.home "de" Sample.iphone Sample.design
                                       "/repo/output" 1 emptyStore)
                    (Sim.start Worlds.noDownload)))
    = trace (Sim.start Worlds.noDownload) ++ evs
    /\ (sourceMissing (rawPathOf "/repo" Sample.iphone "de" (Screenshot.id Sample.home))
                      (logPrefixOf "de" Sample.iphone (Screenshot.id Sample.home)) evs
        \/ (attemptsEntered evs = seq 1 MAX_RETRIES
            /\ gaveUp (logPrefixOf "de" Sample.iphone (Screenshot.id Sample.home)) evs)).
Proof.
  apply (task_failure_cause Sim.exec "/repo" 7 Sample.home "de" Sample.iphone Sample.design
           "/repo/output" emptyStore (Sim.start Worlds.noDownload)).
  vm_compute. reflexivity.
Defined.

(** X16 ([processScreenshot]): an exception leaves a task only from the
    catch block: it was raised by the wait, the reload or the wait that
    precede a retry, as the last event, before the last attempt was
    entered. No failure of a step of the try block leaves the task. *)
Theorem task_throw_source {World : Type} (exec : Action -> World -> Reply * World)
    (dir : string) (page : handle) (screenshot : Screenshot.t) (locale : string)
    (size : Size.t) (design : Design.t) (outputDir : string) (s : Store) (st : St World)
    (e : Error) :
  let result := run exec (processScreenshot dir page screenshot locale size design
                                            outputDir 1 s) st in
  fst (fst result) = Threw e ->
  exists evs op,
    trace (snd result) = trace st ++ evs
    /\ resetOp op
    /\ endsWith evs [(OnPage page op, Raised e)]
    /\ length (attemptsEntered evs) < MAX_RETRIES.
Proof.
  intros result E.
  destruct (wp_run exec _ _ st
              (wp_task_outcome dir page screenshot locale size design outputDir s))
    as (evs & T & k & _ & Ha & H).
  fold result in T, H. rewrite E in H. destruct H as (Hk & op & Hop & Hw).
  exists evs, op. split; [exact T |]. split; [exact Hop |]. split; [exact Hw |].
  rewrite Ha, length_seq. unfold MAX_RETRIES. lia.
Qed.

Lemma task_throw_source_witness :
  exists evs op,
    trace (snd (run Sim.exec
                    (processScreenshot "/repo" 7 Sample.home "de" Sample.iphone Sample.design
                                       "/repo/output" 1 emptyStore)
                    (Sim.start Worlds.deadPage)))
    = trace (Sim.start Worlds.deadPage) ++ evs
    /\ resetOp op
    /\ endsWith evs [(OnPage 7 op,
                      Raised {| message := "Target page, context or browser has been closed" |})]
    /\ length (attemptsEntered evs) < MAX_RETRIES.
Proof.
  apply (task_throw_source Sim.exec "/repo" 7 Sample.home "de" Sample.iphone Sample.design
           "/repo/output" emptyStore (Sim.start Worlds.deadPage)).
  vm_compute. reflexivity.
Defined.

(* ===================================================================== *)
(** ** Browsers and sessions *)
(* ===================================================================== *)

Lemma wp_launchBrowser_shape s :
  wp (launchBrowser s)
    (fun evs r =>
       exists closing reply,
         evs = closing ++ [(ChromiumLaunch, reply)]
         /\ match browser s with
            | Some b => exists rc, closing = [(BrowserClose b, rc)]
            | None => closing = []
            end
         /\ r = match reply with
                | Done v => (Returned tt, set_browser (Some (as_handle v)) s)
                | Raised e => (Threw e, s)
                end).
Proof.
  unfold launchBrowser, chromium_launch, browser_close.
  apply wp_bind, wp_tryCatch, wp_bind, wp_get. cbn [fst snd].
  destruct (browser s) as [b |]; wp_auto.
  - exists [(BrowserClose b, Done v)], (Done v0). repeat split. now exists (Done v).
  - exists [(BrowserClose b, Done v)], (Raised e). repeat split. now exists (Done v).
  - exists [(BrowserClose b, Raised e)], (Done v). repeat split. now exists (Raised e).
  - exists [(BrowserClose b, Raised e)], (Raised e0). repeat split. now exists (Raised e).
  - exists [], (Done v). repeat split.
  - exists [], (Raised e). repeat split.
Qed.

(** X17 ([launchBrowser]): the browser held by the variable, if any, is
    asked to close first, and a failure of that is swallowed; then the
    browser is launched, exactly once; the function throws exactly when
    the launch fails, and the variable is assigned exactly when it
    succeeds. *)
Theorem launchBrowser_outcome {World : Type} (exec : Action -> World -> Reply * World)
    (s : Store) (st : St World) :
  let result := run exec (launchBrowser s) st in
  exists closing reply,
    trace (snd result) = trace st ++ closing ++ [(ChromiumLaunch, reply)]
    /\ match browser s with
       | Some b => exists rc, closing = [(BrowserClose b, rc)]
       | None => closing = []
       end
    /\ fst result = match reply with
                    | Done v => (Returned tt, set_browser (Some (as_handle v)) s)
                    | Raised e => (Threw e, s)
                    end.
Proof.
  intros result.
  destruct (wp_run exec _ _ st (wp_launchBrowser_shape s))
    as (evs & T & closing & reply & -> & H).
  exists closing, reply. split; [exact T | exact H].
Qed.

Section CrashFacts.

Lemma throwsAfterCrash_app {A} evs evs' (r : Outcome A * Store) :
  throwsAfterCrash evs' r -> throwsAfterCrash (evs ++ evs') r.
Proof.
  intros H e E. destruct (H e E) as (pre & mid & act & -> & N).
  exists (evs ++ pre), mid, act. split; [now rewrite <- app_assoc | exact N].
Qed.

Lemma CrashThrows_ret {A} (a : A) : CrashThrows (ret a).
Proof. intros s e E. discriminate E. Qed.

Lemma CrashThrows_get : CrashThrows get.
Proof. intros s e E. discriminate E. Qed.

Lemma CrashThrows_modify f : CrashThrows (modify f).
Proof. intros s e E. discriminate E. Qed.

Lemma CrashThrows_emit act : CrashThrows (emit act).
Proof. intros s r _ e E. discriminate E. Qed.

Lemma CrashThrows_bind {A B} (p : Prog A) (f : A -> Prog B) :
  CrashThrows p -> (forall a, CrashThrows (f a)) -> CrashThrows (bind p f).
Proof.
  intros Hp Hf s. apply wp_bind. eapply wp_mono; [| apply Hp].
  intros evs [[a | e] s1] H; cbn [fst snd].
  - eapply wp_mono; [| apply Hf]. intros evs' r'. apply throwsAfterCrash_app.
  - intros e' E. cbn [fst] in E. injection E as <-. apply (H e eq_refl).
Qed.

Lemma CrashThrows_tryCatch {A} (p : Prog A) (h : Error -> Prog A) :
  (forall e, CrashThrows (h e)) -> CrashThrows (tryCatch p h).
Proof.
  intros Hh s. apply wp_tryCatch. eapply wp_mono; [| apply wp_True].
  intros evs [[a | e] s1] _; cbn [fst snd].
  - intros e E. discriminate E.
  - eapply wp_mono; [| apply Hh]. intros evs' r'. apply throwsAfterCrash_app.
Qed.

Lemma CrashThrows_forEach {X} (xs : list X) (body : X -> Prog unit) :
  (forall x, CrashThrows (body x)) -> CrashThrows (forEach xs body).
Proof.
  intros H. induction xs as [| x rest IH]; simpl.
  - apply CrashThrows_ret.
  - apply CrashThrows_bind; [apply H | intros _; exact IH].
Qed.

Lemma noStarts_app_l evs evs' : noStarts (evs ++ evs') -> noStarts evs.
Proof. intros H. apply Forall_app in H. apply H. Qed.

(** Opening a session with a browser at hand: an exception is raised by
    the last event. *)
Lemma wp_openSession_raised url size s b :
  browser s = Some b ->
  wp (openSession url size s)
     (fun evs r => forall e, fst r = Threw e -> exists pre act, evs = pre ++ [(act, Raised e)]).
Proof.
  intros Hb. unfold openSession. apply wp_bind, wp_get. cbn [fst snd]. rewrite Hb.
  apply wp_bind, wp_ret. cbn [fst snd app].
  assert (T : Throws (fun _ => True)
                (context <- browser_newContext b ;;
                 page <- context_newPage context ;;
                 page_goto page url ;;
                 page_waitForTimeout page 1000%N ;;
                 selectOutputSize page size ;;
                 ret (context, page))%prog).
  { unfold browser_newContext, context_newPage, selectOutputSize. cbv zeta.
    throws_auto; exact I. }
  eapply wp_mono; [| apply T]. intros evs r H e E.
  destruct (H e E) as (pre & act & -> & _). now exists pre, act.
Qed.

Lemma wp_launchBrowser_raised s :
  wp (launchBrowser s)
     (fun evs r =>
        match fst r with
        | Returned _ => exists b, browser (snd r) = Some b
        | Threw e => exists pre act, evs = pre ++ [(act, Raised e)]
        end).
Proof.
  unfold launchBrowser, chromium_launch, browser_close.
  apply wp_bind, wp_tryCatch, wp_bind, wp_get. cbn [fst snd].
  destruct (browser s) as [b |]; wp_auto;
    try (eexists; reflexivity);
    try (eexists [_], _; reflexivity);
    try (eexists [], _; reflexivity).
Qed.

Lemma CrashThrows_createFreshPage url size : CrashThrows (createFreshPage url size).
Proof.
  intros s. unfold createFreshPage. apply wp_tryCatch.
  eapply wp_mono; [| apply wp_True].
  intros evs1 [[cp | e1] s1] _; cbn [fst snd]; [intros e E; discriminate E |].
  apply wp_bind, wp_console. cbn [fst snd].
  apply wp_bind.
  eapply wp_mono; [| apply (wp_conj _ _ _ (wp_launchBrowser s1) (wp_launchBrowser_raised s1))].
  intros evs2 [[u | e2] s2] [[N2 _] H2]; cbn [fst snd] in *.
  - destruct H2 as [b Hb].
    eapply wp_mono;
      [| apply (wp_conj _ _ _ (wp_openSession url size s2)
                        (wp_openSession_raised url size s2 b Hb))].
    intros evs3 r3 [(_ & N3 & _) H3] e E. destruct (H3 e E) as (pre & act & ->).
    exists evs1, (evs2 ++ pre), act. split.
    + unfold crashLine. rewrite <- !app_assoc. reflexivity.
    + apply noStarts_app; [exact N2 | now apply noStarts_app_l in N3].
  - intros e E. injection E as <-. destruct H2 as (pre & act & ->).
    exists evs1, pre, act. split.
    + unfold crashLine. reflexivity.
    + now apply noStarts_app_l in N2.
Qed.

End CrashFacts.

(** Decomposes a goal [CrashThrows p] along the structure of [p]. *)
Ltac crash_step :=
  lazymatch goal with
  | |- CrashThrows (createFreshPage _ _) => apply CrashThrows_createFreshPage
  | |- CrashThrows (bind _ _) => apply CrashThrows_bind; [| intros ?]
  | |- CrashThrows (tryCatch _ _) => apply CrashThrows_tryCatch; intros ?
  | |- CrashThrows (ret _) => apply CrashThrows_ret
  | |- CrashThrows (emit _) => apply CrashThrows_emit
  | |- CrashThrows get => apply CrashThrows_get
  | |- CrashThrows (modify _) => apply CrashThrows_modify
  | |- CrashThrows (forEach _ _) => apply CrashThrows_forEach; intros ?
  | |- CrashThrows (if ?b then _ else _) => destruct b
  end.

Lemma CrashThrows_sizeSteps dir size yuzuUrl config outputDir :
  CrashThrows (sizeSteps dir size yuzuUrl config outputDir).
Proof.
  unfold sizeSteps, processTask, closeContext, console. repeat crash_step.
Qed.

Lemma Throws_closeBrowser : Throws (fun _ => False) closeBrowser.
Proof. unfold closeBrowser. apply Throws_tryCatch. intros e. apply Throws_ret. Qed.

Lemma Always_closeBrowser_only : Always closesBrowser closeBrowser.
Proof.
  unfold closeBrowser, browser_close. always_auto. now eexists.
Qed.

Section FreshPage.

Lemma countIf_none f evs :
  Forall (fun ev => f (fst ev) = false) evs -> countIf f evs = 0.
Proof.
  induction 1 as [| ev l H _ IH]; [reflexivity |].
  unfold countIf in *. cbn [filter]. now rewrite H.
Qed.

Lemma Always_openSession_noLaunch url size : Always noLaunch (openSession url size).
Proof.
  unfold openSession, browser_newContext, context_newPage, selectOutputSize. cbv zeta.
  always_auto.
Qed.

Lemma wp_createFreshPage_launches url size s :
  wp (createFreshPage url size s) (fun evs _ => countIf isLaunch evs <= 1).
Proof.
  unfold createFreshPage. apply wp_tryCatch.
  eapply wp_mono; [| apply (wp_always _ _ _ (Always_openSession_noLaunch url size s))].
  intros evs1 [[cp | e1] s1] [F1 L1]; cbn [fst snd] in *; subst s1;
    apply countIf_none in F1.
  - lia.
  - apply wp_bind, wp_console. cbn [fst snd]. apply wp_bind.
    eapply wp_mono; [| apply wp_launchBrowser_shape].
    intros evs2 r2 (closing & reply & -> & Hc & ->).
    assert (Z2 : countIf isLaunch closing = 0).
    { destruct (browser s) as [b |]; [destruct Hc as [rc ->] | subst closing]; reflexivity. }
    destruct reply as [v | e2]; cbn [fst snd].
    + eapply wp_mono;
        [| apply (wp_always _ _ _ (Always_openSession_noLaunch url size _))].
      intros evs3 r3 [F3 _]. apply countIf_none in F3.
      rewrite !countIf_app, F1, Z2, F3. cbn. lia.
    + rewrite !countIf_app, F1, Z2. cbn. lia.
Qed.

End FreshPage.

(** X18 ([createFreshPage]): in every environment the function relaunches
    the browser at most once and starts no task; of the variables it may
    change only [browser]; when it returns a context and a page, the page
    was created in that context by two consecutive calls; when it throws,
    the crash line was written and the exception was raised by the last
    call of the second attempt. *)
Theorem createFreshPage_outcome {World : Type} (exec : Action -> World -> Reply * World)
    (url : string) (size : Size.t) (s : Store) (st : St World) :
  let result := run exec (createFreshPage url size s) st in
  exists evs,
    trace (snd result) = trace st ++ evs
    /\ sameTask s (snd (fst result))
    /\ noStarts evs
    /\ countIf isLaunch evs <= 1
    /\ match fst (fst result) with
       | Returned cp => exists k, createdAt evs k (fst cp) (snd cp)
       | Threw e => afterCrash evs e
       end.
Proof.
  intros result.
  destruct (wp_run exec _ _ st
              (wp_conj _ _ _
                 (wp_conj _ _ _ (wp_createFreshPage url size s)
                          (wp_createFreshPage_launches url size s))
                 (CrashThrows_createFreshPage url size s)))
    as (evs & T & [(Hs & N & C) L] & H).
  exists evs. split; [exact T |]. split; [exact Hs |]. split; [exact N |].
  split; [exact L |]. fold result in C, H. unfold throwsAfterCrash in H.
  destruct (fst (fst result)) as [cp | e]; [exact C | now apply H].
Qed.

Section SizeThrows.

Variable dir : string.
Variable size : Size.t.
Variable yuzuUrl : string.
Variable config : Config.t.

Lemma wp_processSize_throws s :
  wp (processSize dir size yuzuUrl config s)
     (fun evs r =>
        forall e, fst r = Threw e ->
          evs = [(ChromiumLaunch, Raised e)]
          \/ exists pre mid act post,
               evs = pre ++ crashLine :: mid ++ (act, Raised e) :: post
               /\ noStarts mid
               /\ Forall (fun ev => closesBrowser (fst ev)) post).
Proof.
  unfold processSize. apply wp_call. cbv zeta. apply wp_bind.
  eapply wp_mono; [| apply wp_launchBrowser_shape].
  intros evs1 r1 (closing & reply & -> & Hc & ->). cbn [browser emptyStore] in Hc.
  subst closing. destruct reply as [v | e1]; cbn [fst snd app].
  2: { intros e E. injection E as <-. now left. }
  apply wp_bind, wp_tryFinally.
  eapply wp_mono; [| apply CrashThrows_sizeSteps].
  intros evs2 r2 H2.
  eapply wp_mono;
    [| apply (wp_conj _ _ _ (wp_always _ _ _ (Always_closeBrowser_only (snd r2)))
                      (Throws_closeBrowser (snd r2)))].
  intros evs3 [[u | e3] s3] [[F3 L3] T3]; cbn [fst snd] in *.
  2: { destruct (T3 e3 eq_refl) as (_ & _ & _ & []). }
  destruct (fst r2) as [u2 | e2] eqn:E2; cbn [fst snd].
  - apply wp_bind, wp_get. cbn [fst snd]. apply wp_ret. intros e E. discriminate E.
  - intros e E. injection E as <-. right.
    destruct (H2 e2 E2) as (pre & mid & act & -> & N).
    exists ((ChromiumLaunch, Done v) :: pre), mid, act, evs3.
    split; [| split; [exact N | exact F3]].
    cbn [app]. rewrite <- !app_assoc. cbn [app]. rewrite <- app_assoc. reflexivity.
Qed.

End SizeThrows.

(** X19 ([processSize]): the function rejects in two cases only: the
    browser could not be launched at the start, and that launch is the
    only event; or a session could not be opened even after a relaunch:
    the crash line was written, no task was started after it, and after
    the call that raised the exception only the browser was closed. No
    failure of a task makes [processSize] reject. *)
Theorem processSize_throw_source {World : Type} (exec : Action -> World -> Reply * World)
    (dir : string) (size : Size.t) (yuzuUrl : string) (config : Config.t)
    (s : Store) (st : St World) (e : Error) :
  let result := run exec (processSize dir size yuzuUrl config s) st in
  fst (fst result) = Threw e ->
  exists evs,
    trace (snd result) = trace st ++ evs
    /\ (evs = [(ChromiumLaunch, Raised e)]
        \/ exists pre mid act post,
             evs = pre ++ crashLine :: mid ++ (act, Raised e) :: post
             /\ noStarts mid
             /\ Forall (fun ev => closesBrowser (fst ev)) post).
Proof.
  intros result E.
  destruct (wp_run exec _ _ st (wp_processSize_throws dir size yuzuUrl config s))
    as (evs & T & H).
  exists evs. split; [exact T | now apply H].
Qed.

Lemma processSize_throw_source_witness :
  exists evs,
    trace (snd (run Sim.exec (processSize "/repo" Sample.iphone LOCAL_URL Configs.uniform
                                          emptyStore)
                    (Sim.start Worlds.deadPage)))
    = trace (Sim.start Worlds.deadPage) ++ evs
    /\ (evs = [(ChromiumLaunch,
                Raised {| message := "Target page, context or browser has been closed" |})]
        \/ exists pre mid act post,
             evs = pre ++ crashLine
                       :: mid ++ (act, Raised {| message :=
                                   "Target page, context or browser has been closed" |})
                                 :: post
             /\ noStarts mid
             /\ Forall (fun ev => closesBrowser (fst ev)) post).
Proof.
  apply (processSize_throw_source Sim.exec "/repo" Sample.iphone LOCAL_URL Configs.uniform
           emptyStore (Sim.start Worlds.deadPage)).
  vm_compute. reflexivity.
Defined.

(* ===================================================================== *)
(** ** Every browser launched is closed *)
(* ===================================================================== *)

Section KeepsFacts.

Variable inv : list Event -> Store -> Prop.

Lemma Keeps_ret {A} (a : A) : Keeps inv (ret a).
Proof. intros tr s I. apply wp_ret. now rewrite app_nil_r. Qed.

Lemma Keeps_throw {A} (e : Error) : Keeps inv (@throw A e).
Proof. intros tr s I. apply wp_throw. now rewrite app_nil_r. Qed.

Lemma Keeps_get : Keeps inv get.
Proof. intros tr s I. apply wp_get. now rewrite app_nil_r. Qed.

Lemma Keeps_deref {A} what (v : option A) : Keeps inv (deref what v).
Proof. destruct v; [apply Keeps_ret | apply Keeps_throw]. Qed.

Lemma Keeps_modify f :
  (forall tr s, inv tr s -> inv tr (f s)) -> Keeps inv (modify f).
Proof. intros H tr s I. apply wp_modify. rewrite app_nil_r. now apply H. Qed.

Lemma Keeps_bind {A B} (p : Prog A) (f : A -> Prog B) :
  Keeps inv p -> (forall a, Keeps inv (f a)) -> Keeps inv (bind p f).
Proof.
  intros Hp Hf tr s I. apply wp_bind. eapply wp_mono; [| apply (Hp tr s I)].
  intros evs [[a | e] s1] H; cbn [fst snd] in *; [| exact H].
  eapply wp_mono; [| apply (Hf a _ _ H)].
  intros evs' r' H'. now rewrite app_assoc.
Qed.

Lemma Keeps_tryCatch {A} (p : Prog A) (h : Error -> Prog A) :
  Keeps inv p -> (forall e, Keeps inv (h e)) -> Keeps inv (tryCatch p h).
Proof.
  intros Hp Hh tr s I. apply wp_tryCatch. eapply wp_mono; [| apply (Hp tr s I)].
  intros evs [[a | e] s1] H; cbn [fst snd] in *; [exact H |].
  eapply wp_mono; [| apply (Hh e _ _ H)].
  intros evs' r' H'. now rewrite app_assoc.
Qed.

Lemma Keeps_forEach {X} (xs : list X) (body : X -> Prog unit) :
  (forall x, Keeps inv (body x)) -> Keeps inv (forEach xs body).
Proof.
  intros H. induction xs as [| x rest IH]; simpl.
  - apply Keeps_ret.
  - apply Keeps_bind; [apply H | intros _; exact IH].
Qed.

Lemma Keeps_Always {A} (ok : Action -> Prop) (p : Prog A) :
  (forall tr s evs, inv tr s -> Forall (fun ev => ok (fst ev)) evs -> inv (tr ++ evs) s) ->
  Always ok p -> Keeps inv p.
Proof.
  intros H Hp tr s I. eapply wp_mono; [| apply (wp_always _ _ _ (Hp s))].
  intros evs r [F ->]. now apply H.
Qed.

End KeepsFacts.

Section BrowserFacts.

Lemma closedLater_app tr evs i h : closedLater tr i h -> closedLater (tr ++ evs) i h.
Proof.
  intros (j & r & L & H). exists j, r. split; [exact L |].
  rewrite nth_error_app1; [exact H |]. apply nth_error_Some. now rewrite H.
Qed.

(** Events that are no successful launch leave the tracking as it is. *)
Lemma Tracked_app tr s evs :
  Tracked tr s -> (forall v, ~ In (ChromiumLaunch, Done v) evs) -> Tracked (tr ++ evs) s.
Proof.
  intros (b & Hb & H) Hn. exists b. split; [exact Hb |].
  intros i h (v & Hi & Hv).
  destruct (Nat.lt_ge_cases i (length tr)) as [L | L].
  - rewrite nth_error_app1 in Hi by exact L.
    destruct (H i h) as [-> | C]; [now exists v | now left |].
    right. now apply closedLater_app.
  - rewrite nth_error_app2 in Hi by exact L. apply nth_error_In in Hi.
    exfalso. apply (Hn v Hi).
Qed.

Lemma Tracked_noLaunch tr s evs :
  Tracked tr s -> Forall (fun ev => noLaunch (fst ev)) evs -> Tracked (tr ++ evs) s.
Proof.
  intros T F. apply Tracked_app; [exact T |]. intros v Hin.
  rewrite Forall_forall in F. specialize (F _ Hin). discriminate F.
Qed.

Lemma Keeps_Tracked_launchBrowser : Keeps Tracked launchBrowser.
Proof.
  intros tr s T. eapply wp_mono; [| apply wp_launchBrowser_shape].
  intros evs r (closing & reply & -> & Hc & ->).
  destruct T as (b & Hb & H). rewrite Hb in Hc. destruct Hc as [rc ->].
  destruct reply as [v | e]; cbn [snd].
  - exists (as_handle v). split; [reflexivity |].
    intros i h (x & Hi & Hx).
    destruct (Nat.lt_ge_cases i (length tr)) as [L | L].
    + right. rewrite nth_error_app1 in Hi by exact L.
      destruct (H i h) as [-> | C]; [now exists x | | now apply closedLater_app].
      exists (length tr), rc. split; [exact L |].
      rewrite nth_error_app2 by apply le_n. now rewrite Nat.sub_diag.
    + rewrite nth_error_app2 in Hi by exact L.
      destruct (i - length tr) as [| [| k]]; cbn in Hi.
      * discriminate Hi.
      * injection Hi as <-. now left.
      * destruct k; discriminate Hi.
  - apply Tracked_app; [now exists b |].
    intros v [Hin | [Hin | []]]; discriminate Hin.
Qed.

(** Closing the browser the variable holds closes all that is left. *)
Lemma Tracked_closed tr b rc :
  (forall i h, launchedAt tr i h -> h = b \/ closedLater tr i h) ->
  browsersClosed (tr ++ [(BrowserClose b, rc)]).
Proof.
  intros H i h (x & Hi & Hx).
  destruct (Nat.lt_ge_cases i (length tr)) as [L | L].
  - rewrite nth_error_app1 in Hi by exact L.
    destruct (H i h) as [-> | C]; [now exists x | | now apply closedLater_app].
    exists (length tr), rc. split; [exact L |].
    rewrite nth_error_app2 by apply le_n. now rewrite Nat.sub_diag.
  - rewrite nth_error_app2 in Hi by exact L.
    destruct (i - length tr) as [| k]; cbn in Hi; [discriminate Hi |].
    destruct k; discriminate Hi.
Qed.

Lemma Always_processOnCurrentPage_noLaunch dir screenshot locale size design outputDir :
  Always noLaunch (processOnCurrentPage dir screenshot locale size design outputDir).
Proof.
  unfold processOnCurrentPage. apply Always_bind; [apply Always_get | intros s].
  apply Always_bind; [apply Always_deref | intros p].
  unfold processScreenshot.
  eapply Always_weaken; [| apply Always_processScreenshot_rec].
  intros act [H | (a & _ & ->)]; [| reflexivity].
  destruct act; try reflexivity; contradiction.
Qed.

Lemma Always_closeContext_noLaunch : Always noLaunch closeContext.
Proof. unfold closeContext, context_close. always_auto. Qed.

End BrowserFacts.

(** Decomposes a goal [Keeps Tracked p] along the structure of [p]. *)
Ltac keeps_step :=
  lazymatch goal with
  | |- Keeps _ launchBrowser => apply Keeps_Tracked_launchBrowser
  | |- Keeps _ (openSession _ _) =>
      apply (Keeps_Always _ noLaunch);
      [apply Tracked_noLaunch | apply Always_openSession_noLaunch]
  | |- Keeps _ closeContext =>
      apply (Keeps_Always _ noLaunch);
      [apply Tracked_noLaunch | apply Always_closeContext_noLaunch]
  | |- Keeps _ (processOnCurrentPage _ _ _ _ _ _) =>
      apply (Keeps_Always _ noLaunch);
      [apply Tracked_noLaunch | apply Always_processOnCurrentPage_noLaunch]
  | |- Keeps _ (emit _) =>
      apply (Keeps_Always _ noLaunch);
      [apply Tracked_noLaunch | apply Always_emit; reflexivity]
  | |- Keeps _ (bind _ _) => apply Keeps_bind; [| intros ?]
  | |- Keeps _ (tryCatch _ _) => apply Keeps_tryCatch; [| intros ?]
  | |- Keeps _ (ret _) => apply Keeps_ret
  | |- Keeps _ get => apply Keeps_get
  | |- Keeps _ (modify _) => apply Keeps_modify; intros ? ? T; exact T
  | |- Keeps _ (forEach _ _) => apply Keeps_forEach; intros ?
  | |- Keeps _ (if ?b then _ else _) => destruct b
  end.

Section SizeBrowsers.

Variable dir : string.
Variable size : Size.t.
Variable yuzuUrl : string.
Variable config : Config.t.

Lemma Keeps_Tracked_sizeSteps outputDir :
  Keeps Tracked (sizeSteps dir size yuzuUrl config outputDir).
Proof.
  unfold sizeSteps, processTask, createFreshPage, console. repeat keeps_step.
Qed.

Lemma wp_processSize_browsers s :
  wp (processSize dir size yuzuUrl config s) (fun evs _ => browsersClosed evs).
Proof.
  unfold processSize. apply wp_call. cbv zeta. apply wp_bind.
  eapply wp_mono; [| apply wp_launchBrowser_shape].
  intros evs1 r1 (closing & reply & -> & Hc & ->). cbn [browser emptyStore] in Hc.
  subst closing. destruct reply as [v | e1]; cbn [fst snd app].
  2: { intros i h (x & Hi & _). destruct i as [| [| i]]; discriminate Hi. }
  assert (T1 : Tracked [(ChromiumLaunch, Done v)] (set_browser (Some (as_handle v)) emptyStore)).
  { exists (as_handle v). split; [reflexivity |].
    intros i h (x & Hi & Hx). left. destruct i as [| [| i]]; try discriminate Hi.
    now injection Hi as <-. }
  apply wp_bind, wp_tryFinally.
  eapply wp_mono; [| apply (Keeps_Tracked_sizeSteps _ _ _ T1)].
  intros evs2 r2 (b & Hb & H2).
  assert (Closed : forall rc,
            browsersClosed ([(ChromiumLaunch, Done v)] ++ evs2 ++ [(BrowserClose b, rc)])).
  { intros rc. rewrite app_assoc. apply Tracked_closed. intros i h L.
    destruct (H2 i h L) as [-> | C]; [now left | now right]. }
  unfold closeBrowser, browser_close.
  apply wp_tryCatch, wp_bind, wp_get. cbn [fst snd]. rewrite Hb.
  apply wp_bind, wp_ret. cbn [fst snd app].
  apply wp_bind, wp_await; intros x; cbn [fst snd].
  - apply wp_ret. cbn [fst snd]. destruct (fst r2); cbn [fst snd].
    + apply wp_bind, wp_get. cbn [fst snd]. apply wp_ret. rewrite !app_nil_r. apply Closed.
    + rewrite !app_nil_r. apply Closed.
  - apply wp_ret. cbn [fst snd]. destruct (fst r2); cbn [fst snd].
    + apply wp_bind, wp_get. cbn [fst snd]. apply wp_ret. rewrite !app_nil_r. apply Closed.
    + rewrite !app_nil_r. apply Closed.
Qed.

End SizeBrowsers.

(** X20 ([processSize]): in every environment, on every path, normal or
    exceptional, each browser that was launched is asked to close by a
    later call: the one replaced by a relaunch before the relaunch, the
    last one in the finally block. *)
Theorem processSize_closes_browsers {World : Type} (exec : Action -> World -> Reply * World)
    (dir : string) (size : Size.t) (yuzuUrl : string) (config : Config.t)
    (s : Store) (st : St World) :
  let result := run exec (processSize dir size yuzuUrl config s) st in
  exists evs,
    trace (snd result) = trace st ++ evs
    /\ snd (fst result) = s
    /\ browsersClosed evs.
Proof.
  intros result.
  destruct (wp_run exec _ _ st
              (wp_conj _ _ _ (wp_processSize dir size yuzuUrl config s)
                       (wp_processSize_browsers dir size yuzuUrl config s)))
    as (evs & T & (Hs & _) & H).
  exists evs. split; [exact T |]. split; [exact Hs | exact H].
Qed.

(* ===================================================================== *)
(** ** A configuration without sizes *)
(* ===================================================================== *)

Lemma Throws_detectYuzuUrl args : Throws (fun _ => False) (detectYuzuUrl args).
Proof. unfold detectYuzuUrl, autoDetect. throws_auto. Qed.

(** X21 ([main] and the top-level catch, lines 572-633): with at least one
    screenshot and an empty list of sizes the run launches no browser and
    touches no file: it writes its lines, may probe the local instance,
    reports 0 successes and 0 failures out of 0, and ends with status 0. *)
Theorem run_without_sizes {World : Type} (exec : Action -> World -> Reply * World)
    (dir : string) (args : list string) (schedule : list nat) (config : Config.t)
    (s : Store) (st : St World) :
  Output.sizes (Config.output config) = [] ->
  Config.screenshots config <> [] ->
  let result := run exec (execute dir args schedule config s) st in
  exists evs,
    fst result = (Returned 0, s)
    /\ trace (snd result) = trace st ++ evs
    /\ Forall (fun ev => reportsOnly (fst ev)) evs
    /\ endsWith evs ((Console Log (MsgTotal 0), Done VUndefined) :: summaryEvents 0 0 0).
Proof.
  intros Hsizes Hshots result.
  assert (W : wp (execute dir args schedule config s)
    (fun evs r =>
       r = (Returned 0, s)
       /\ Forall (fun ev => reportsOnly (fst ev)) evs
       /\ endsWith evs ((Console Log (MsgTotal 0), Done VUndefined) :: summaryEvents 0 0 0))).
  { unfold execute, main. cbv zeta. rewrite Hsizes.
    destruct (Config.screenshots config) as [| first rest]; [contradiction |].
    apply wp_tryCatch, wp_bind.
    do 4 (apply wp_bind, wp_console; cbn [fst snd]).
    apply wp_bind.
    eapply wp_mono;
      [| apply (wp_conj _ _ _ (wp_always _ _ _ (Always_detectYuzuUrl args s))
                        (Throws_detectYuzuUrl args s))].
    intros evs1 [[url | e] s1] [[F L] T]; cbn [fst snd] in *; subst s1.
    2: { destruct (T e eq_refl) as (_ & _ & _ & []). }
    cbn [hd_error deref]. apply wp_bind, wp_ret. cbn [fst snd].
    do 5 (apply wp_bind, wp_console; cbn [fst snd]).
    cbn [filter length map]. change (Nat.ltb 0 0) with false. cbv iota.
    apply wp_bind, wp_ret. cbn [fst snd collect].
    apply wp_bind, wp_ret. cbn [fst snd app].
    change (sumOf SizeResult.successCount []) with 0.
    change (sumOf SizeResult.failureCount []) with 0.
    change (Nat.ltb 0 0) with false. cbv iota.
    do 6 (apply wp_bind, wp_console; cbn [fst snd]).
    apply wp_ret. cbn [fst snd]. apply wp_ret. cbn [fst snd].
    rewrite !Nat.mul_0_r. split; [reflexivity |]. split.
    - rewrite !app_nil_r. repeat (apply Forall_cons; [exact I |]).
      apply Forall_app. split.
      + revert F. apply Forall_impl. intros [act r] H. cbn [fst] in *.
        destruct act; try contradiction; exact I.
      + repeat (apply Forall_cons; [exact I |]). apply Forall_nil.
    - ends_tac. }
  destruct (wp_run exec _ _ st W) as (evs & T & E & H).
  exists evs. split; [exact E | split; [exact T | exact H]].
Qed.

Lemma run_without_sizes_witness :
  exists evs,
    fst (run Sim.exec (execute "/repo" [] [] (Sample.configOf [Sample.home] []) emptyStore)
             (Sim.start Worlds.noBrowser))
    = (Returned 0, emptyStore)
    /\ trace (snd (run Sim.exec
                       (execute "/repo" [] [] (Sample.configOf [Sample.home] []) emptyStore)
                       (Sim.start Worlds.noBrowser)))
       = trace (Sim.start Worlds.noBrowser) ++ evs
    /\ Forall (fun ev => reportsOnly (fst ev)) evs
    /\ endsWith evs ((Console Log (MsgTotal 0), Done VUndefined) :: summaryEvents 0 0 0).
Proof.
  apply (run_without_sizes Sim.exec "/repo" [] [] (Sample.configOf [Sample.home] [])
           emptyStore (Sim.start Worlds.noBrowser)).
  - reflexivity.
  - discriminate.
Defined.

(* ===================================================================== *)
(** ** Selecting the size and configuring the device *)
(* ===================================================================== *)

Lemma getDeviceSelectorAttr_plain sizeName :
  anyChar quoteOrSpace (getDeviceSelectorAttr sizeName) = false.
Proof.
  unfold quoteOrSpace, getDeviceSelectorAttr, Js.replace_ws_runs. rewrite anyChar_or.
  apply orb_false_iff. split.
  - now apply replace_dquotes_clean.
  - apply replace_dquotes_keeps; [reflexivity |]. now apply replace_ws_runs_clean.
Qed.

(** X22 ([selectOutputSize]): for a size entry without a yuzuDevice key
    (absent or empty), in every environment each click of the function is
    on the dropdown trigger or on a device option whose key holds no
    double quote and no whitespace; the function assigns to no variable.
    Nothing is said of the other characters of the key. *)
Theorem selectOutputSize_selector {World : Type} (exec : Action -> World -> Reply * World)
    (page : handle) (size : Size.t) (s : Store) (st : St World) :
  Size.yuzuDevice size = None \/ Size.yuzuDevice size = Some EmptyString ->
  let result := run exec (selectOutputSize page size s) st in
  exists evs,
    trace (snd result) = trace st ++ evs
    /\ snd (fst result) = s
    /\ Forall (fun ev => sizeSelectorOk (fst ev)) evs.
Proof.
  intros Hy result.
  assert (A : Always sizeSelectorOk (selectOutputSize page size)).
  { unfold selectOutputSize. cbv zeta.
    assert (E : or_default (Size.yuzuDevice size) (getDeviceSelectorAttr (Size.device size))
                = getDeviceSelectorAttr (Size.device size))
      by (destruct Hy as [-> | ->]; reflexivity).
    rewrite E. ui_unfold.
    destruct (String.eqb (getDeviceSelectorAttr (Size.device size)) "custom");
      repeat always_step; try exact I; try (left; reflexivity).
    - right. exists "custom". split; reflexivity.
    - right. exists (getDeviceSelectorAttr (Size.device size)).
      split; [reflexivity | apply getDeviceSelectorAttr_plain]. }
  destruct (run_always _ exec _ _ st (A s)) as (evs & T & F & L).
  exists evs. split; [exact T |]. split; [exact L | exact F].
Qed.

Lemma selectOutputSize_selector_witness :
  exists evs,
    trace (snd (run Sim.exec (selectOutputSize 7 Sample.iphone emptyStore)
                    (Sim.start Sim.healthy)))
    = trace (Sim.start Sim.healthy) ++ evs
    /\ snd (fst (run Sim.exec (selectOutputSize 7 Sample.iphone emptyStore)
                     (Sim.start Sim.healthy))) = emptyStore
    /\ Forall (fun ev => sizeSelectorOk (fst ev)) evs.
Proof.
  apply (selectOutputSize_selector Sim.exec 7 Sample.iphone emptyStore (Sim.start Sim.healthy)).
  left. reflexivity.
Defined.

Section DeviceFacts.

Variable page : handle.
Variable design : Design.t.
Variable size : Size.t.

Let radius : Z :=
  nullish (Size.cornerRadius size) (nullish (Design.cornerRadius (Design.device design)) 24%Z).

Lemma Throws_configureDevice :
  Throws (fun act => ~ presetStep page act) (configureDevice page design size).
Proof.
  unfold configureDevice, enableFrame. cbv zeta.
  throws_auto; intros [H | [H | [H | H]]]; discriminate H.
Qed.

Lemma Always_configureDevice_noBorder :
  Size.border size = None -> Always leavesFrame (configureDevice page design size).
Proof.
  intros Hb. unfold configureDevice. cbv zeta. rewrite Hb. always_auto.
Qed.

Lemma wp_configureDevice_radius s :
  wp (configureDevice page design size s)
     (fun evs r =>
        countIf isCornerRadius evs <= 1
        /\ (fst r = Returned tt ->
            exists v, In (OnPage page (Evaluate (SetCornerRadius radius)), Done v) evs)).
Proof.
  unfold configureDevice, enableFrame. cbv zeta. fold radius.
  destruct (Size.border size) as [border |]; wp_auto.
  all: split; [cbn; lia | intros E; try discriminate E].
  all: eexists; rewrite ?app_nil_r; cbn [app];
    repeat (first [left; reflexivity | right]).
Qed.

End DeviceFacts.

(** X23 ([configureDevice]): the corner radius is set at most once, and
    when the function returns it was set to the radius of the size, else
    of the design, else 24 (a radius of 0 is kept); a failure of any step
    of the position preset is swallowed, so an exception that leaves the
    function was raised by another call, as the last event; and for a
    size without a border the function never touches the frame toggle. *)
Theorem configureDevice_outcome {World : Type} (exec : Action -> World -> Reply * World)
    (page : handle) (design : Design.t) (size : Size.t) (s : Store) (st : St World) :
  let result := run exec (configureDevice page design size s) st in
  let radius := nullish (Size.cornerRadius size)
                        (nullish (Design.cornerRadius (Design.device design)) 24%Z) in
  exists evs,
    trace (snd result) = trace st ++ evs
    /\ snd (fst result) = s
    /\ countIf isCornerRadius evs <= 1
    /\ (fst (fst result) = Returned tt ->
        exists v, In (OnPage page (Evaluate (SetCornerRadius radius)), Done v) evs)
    /\ (forall e, fst (fst result) = Threw e ->
        exists pre act, evs = pre ++ [(act, Raised e)] /\ ~ presetStep page act)
    /\ (Size.border size = None -> Forall (fun ev => leavesFrame (fst ev)) evs).
Proof.
  intros result radius.
  destruct (wp_run exec _ _ st
              (wp_conj _ _ _
                 (wp_conj _ _ _
                    (wp_always _ _ _ (Always_configureDevice page design size s))
                    (wp_configureDevice_radius page design size s))
                 (Throws_configureDevice page design size s)))
    as (evs & T & [[F L] [C R]] & H).
  exists evs. split; [exact T |]. split; [exact L |]. split; [exact C |].
  split; [exact R |]. split; [exact H |].
  intros Hb.
  destruct (run_always _ exec _ _ st (Always_configureDevice_noBorder page design size Hb s))
    as (evs' & T' & F' & _).
  fold result in T, T'. rewrite T in T'. apply app_inv_head in T'. now subst evs'.
Qed.

(* ===================================================================== *)
(** ** The fixed waits of a task *)
(* ===================================================================== *)

Section WaitFacts.

Lemma waited_app evs evs' : waited (evs ++ evs') = (waited evs + waited evs')%N.
Proof.
  induction evs as [| ev evs IH]; cbn [app waited fold_right]; [reflexivity |].
  fold (waited (evs ++ evs')). fold (waited evs). rewrite IH. lia.
Qed.

Lemma Waits_ret {A} (a : A) : Waits 0 0 (ret a).
Proof. intros s. apply wp_ret. cbn. split; [lia | intros; lia]. Qed.

Lemma Waits_get : Waits 0 0 get.
Proof. intros s. apply wp_get. cbn. split; [lia | intros; lia]. Qed.

Lemma Waits_emit act : silent act = true -> Waits 0 0 (emit act).
Proof.
  intros Hs s. apply wp_emit; [exact Hs |].
  destruct act; try discriminate Hs; cbn; try (split; [lia | intros; lia]).
  destruct op; try discriminate Hs. cbn. split; [lia | intros; lia].
Qed.

Lemma Waits_wait page ms : Waits ms ms (await (OnPage page (WaitForTimeout ms))).
Proof.
  intros s. apply wp_await; intros x; cbn.
  - split; [lia | intros; lia].
  - split; [lia | intros a E; discriminate E].
Qed.

Lemma Waits_await act : waitless act -> Waits 0 0 (await act).
Proof.
  intros Hw s. apply wp_await; intros x.
  - assert (Z : waited [(act, Done x)] = 0%N).
    { destruct act; try reflexivity. destruct op; try reflexivity. contradiction. }
    rewrite Z. split; [lia | intros; lia].
  - assert (Z : waited [(act, Raised x)] = 0%N).
    { destruct act; try reflexivity. destruct op; reflexivity. }
    rewrite Z. split; [lia | intros a E; discriminate E].
Qed.

Lemma Waits_bind {A B} l1 u1 l2 u2 (p : Prog A) (f : A -> Prog B) :
  Waits l1 u1 p -> (forall a, Waits l2 u2 (f a)) -> Waits (l1 + l2) (u1 + u2) (bind p f).
Proof.
  intros Hp Hf s. apply wp_bind. eapply wp_mono; [| apply Hp].
  intros evs [[a | e] s1] [Hu Hl]; cbn [fst snd].
  - specialize (Hl a eq_refl). eapply wp_mono; [| apply Hf].
    intros evs' r' [Hu' Hl']. rewrite waited_app. split; [lia |].
    intros b E. specialize (Hl' b E). lia.
  - split; [lia | intros b E; discriminate E].
Qed.

Lemma Waits_tryCatch {A} l1 u1 l2 u2 (p : Prog A) (h : Error -> Prog A) :
  Waits l1 u1 p -> (forall e, Waits l2 u2 (h e)) ->
  Waits (N.min l1 l2) (u1 + u2) (tryCatch p h).
Proof.
  intros Hp Hh s. apply wp_tryCatch. eapply wp_mono; [| apply Hp].
  intros evs [[a | e] s1] [Hu Hl]; cbn [fst snd].
  - specialize (Hl a eq_refl). split; [lia |]. intros b E. lia.
  - eapply wp_mono; [| apply Hh].
    intros evs' r' [Hu' Hl']. rewrite waited_app. split; [lia |].
    intros b E. specialize (Hl' b E). lia.
Qed.

Lemma Waits_if {A} l1 u1 l2 u2 (b : bool) (p q : Prog A) :
  Waits l1 u1 p -> Waits l2 u2 q ->
  Waits (N.min l1 l2) (N.max u1 u2) (if b then p else q).
Proof.
  intros Hp Hq s. destruct b; (eapply wp_mono; [| apply Hp || apply Hq]);
    intros evs r [Hu Hl]; (split; [lia | intros a E; specialize (Hl a E); lia]).
Qed.

Lemma Waits_weaken {A} l u l' u' (p : Prog A) :
  Waits l u p -> (l' <= l)%N -> (u <= u')%N -> Waits l' u' p.
Proof.
  intros Hp Hl Hu s. eapply wp_mono; [| apply Hp].
  intros evs r [H1 H2]. split; [lia | intros a E; specialize (H2 a E); lia].
Qed.

End WaitFacts.

(** Decomposes a goal [Waits ?l ?u p] along the structure of [p],
    computing the bounds. *)
Ltac waits_step :=
  lazymatch goal with
  | |- Waits _ _ (bind _ _) => eapply Waits_bind; [| intros ?]
  | |- Waits _ _ (tryCatch _ _) => eapply Waits_tryCatch; [| intros ?]
  | |- Waits _ _ (ret _) => apply Waits_ret
  | |- Waits _ _ get => apply Waits_get
  | |- Waits _ _ (emit _) => apply Waits_emit; reflexivity
  | |- Waits _ _ (await (OnPage _ (WaitForTimeout _))) => apply Waits_wait
  | |- Waits _ _ (await _) => apply Waits_await; exact I
  | |- Waits _ _ (if _ then _ else _) => eapply Waits_if
  end.

Ltac waits_auto := ui_unfold; repeat waits_step.

Ltac waits_bounds :=
  eapply Waits_weaken; [waits_auto | vm_compute; discriminate | vm_compute; discriminate].

Section WaitBounds.

Variable page : handle.

Lemma Waits_clearLoop remaining :
  Waits 0 (300 * N.of_nat remaining) (clearYuzuScreenshots_loop remaining page).
Proof.
  induction remaining as [| n IH]; cbn [clearYuzuScreenshots_loop].
  - apply Waits_ret.
  - eapply Waits_weaken.
    + ui_unfold. repeat (first [exact IH | waits_step]).
    + lia.
    + lia.
Qed.

Lemma Waits_selectOutputSize size : Waits 800 2000 (selectOutputSize page size).
Proof. unfold selectOutputSize. cbv zeta. waits_bounds. Qed.

Lemma Waits_uploadScreenshot path : Waits 500 12700 (uploadScreenshot page path).
Proof.
  unfold uploadScreenshot, clearYuzuScreenshots.
  eapply Waits_weaken.
  - ui_unfold. repeat (first [apply (Waits_clearLoop 40) | waits_step]).
  - vm_compute; discriminate.
  - vm_compute; discriminate.
Qed.

Lemma Waits_configureBackground design : Waits 800 1000 (configureBackground page design).
Proof. unfold configureBackground. cbv zeta. waits_bounds. Qed.

Lemma Waits_configureDevice design size : Waits 1200 2700 (configureDevice page design size).
Proof.
  unfold configureDevice, enableFrame. cbv zeta.
  destruct (Size.border size) as [border |]; waits_bounds.
Qed.

Lemma Waits_configureText design title : Waits 3700 5700 (configureText page design title).
Proof.
  unfold configureText, enableHeadline, disableSubheadline, waitForCanvasRender. cbv zeta.
  waits_bounds.
Qed.

Lemma Waits_exportScreenshot path : Waits 0 0 (exportScreenshot page path).
Proof. unfold exportScreenshot, ensureDir. waits_bounds. Qed.

Lemma Waits_retryReset logPrefix : Waits 2500 2500 (retryReset page logPrefix).
Proof. unfold retryReset. waits_bounds. Qed.

End WaitBounds.

Section TaskWaits.

Variable dir : string.
Variable page : handle.
Variable screenshot : Screenshot.t.
Variable locale : string.
Variable size : Size.t.
Variable design : Design.t.
Variable outputDir : string.

(** One attempt: at most 24600 ms of fixed waits, and at least 7500 ms
    when the attempt succeeds. *)
Lemma wp_attemptSteps_waits attempt s :
  wp (attemptSteps dir page screenshot locale size design outputDir attempt s)
     (fun evs r =>
        (waited evs <= 24600)%N /\ (fst r = Returned true -> (7500 <= waited evs)%N)).
Proof.
  unfold attemptSteps. cbv zeta.
  apply wp_bind, wp_tryCatch. unfold access.
  apply wp_bind, wp_bind, wp_await; intros x; cbn [fst snd].
  2: { apply wp_bind, wp_console. cbn [fst snd]. apply wp_ret. cbn [fst snd negb].
       apply wp_ret. cbn [fst]. split; [cbn; lia | intros E; discriminate E]. }
  apply wp_ret. cbn [fst snd]. apply wp_ret. cbn [fst snd negb].
  assert (W : Waits 7500 24600
    (console Log (MsgProcessing (logPrefixOf locale size (Screenshot.id screenshot))
                                attempt MAX_RETRIES) ;;
     page_reload page ;;
     page_waitForTimeout page 500%N ;;
     selectOutputSize page size ;;
     uploadScreenshot page (rawPathOf dir size locale (Screenshot.id screenshot)) ;;
     configureBackground page design ;;
     configureDevice page design size ;;
     configureText page design (lookup (Screenshot.titles screenshot) locale) ;;
     exportScreenshot page
       (outputPathOf outputDir locale size (Screenshot.id screenshot)) ;;
     console Log (MsgDone (logPrefixOf locale size (Screenshot.id screenshot))) ;;
     ret true)%prog).
  { eapply Waits_weaken.
    - unfold console, page_reload, page_waitForTimeout, onPage.
      repeat (first [apply Waits_selectOutputSize | apply Waits_uploadScreenshot
                    | apply Waits_configureBackground | apply Waits_configureDevice
                    | apply Waits_configureText | apply Waits_exportScreenshot
                    | waits_step]).
    - vm_compute; discriminate.
    - vm_compute; discriminate. }
  eapply wp_mono; [| apply W].
  intros evs r [Hu Hl]. rewrite !app_nil_r.
  change (waited ([(FsAccess (rawPathOf dir size locale (Screenshot.id screenshot)), Done x)]
                  ++ evs)) with (0 + waited evs)%N.
  split; [lia |]. intros E. specialize (Hl true E). lia.
Qed.

Lemma wp_retry_waits fuel attempt s :
  attempt + fuel = MAX_RETRIES ->
  wp (processScreenshot_rec dir fuel page screenshot locale size design outputDir attempt s)
     (fun evs r =>
        (waited evs <= 24600 + 27100 * N.of_nat fuel)%N
        /\ (fst r = Returned true -> (7500 <= waited evs)%N)).
Proof.
  revert attempt s. induction fuel as [| fuel IH]; intros attempt s Hf;
    rewrite processScreenshot_rec_entry; unfold afterEntry; cbv zeta;
    apply wp_bind, wp_emit; try reflexivity; cbn [fst snd];
    apply wp_tryCatch; (eapply wp_mono; [| apply wp_attemptSteps_waits]);
    intros evs [[b | e] s1] [Hu Hl]; cbn [fst snd] in *.
  - rewrite waited_app. cbn [waited fold_right waitOf]. split; [lia |].
    intros E. specialize (Hl E). lia.
  - apply wp_bind, wp_console. cbn [fst snd].
    assert (L : Nat.ltb attempt MAX_RETRIES = false) by (apply Nat.ltb_ge; lia).
    rewrite L. apply wp_bind, wp_console. cbn [fst snd]. apply wp_ret. cbn [fst].
    rewrite !waited_app. cbn [waited fold_right waitOf].
    split; [lia | intros E; discriminate E].
  - rewrite waited_app. cbn [waited fold_right waitOf]. split; [lia |].
    intros E. specialize (Hl E). lia.
  - apply wp_bind, wp_console. cbn [fst snd].
    assert (L : Nat.ltb attempt MAX_RETRIES = true) by (apply Nat.ltb_lt; lia).
    rewrite L. apply wp_bind.
    eapply wp_mono; [| apply (Waits_retryReset page)].
    intros evs2 [[u | e2] s2] [Hu2 _]; cbn [fst snd].
    + eapply wp_mono; [| apply IH; lia].
      intros evs3 r3 [Hu3 Hl3]. rewrite !waited_app. cbn [waited fold_right waitOf].
      split; [lia |]. intros E. specialize (Hl3 E). lia.
    + rewrite !waited_app. cbn [waited fold_right waitOf].
      split; [lia | intros E; discriminate E].
Qed.

End TaskWaits.

(** X24 (the fixed waits, lines 122-143, 192-380 and 405-460): whatever
    the environment, the completed [waitForTimeout] calls of one task,
    retries included, add up to at most 78800 ms, which is less than
    PER_SCREENSHOT_TIMEOUT_MS; and a task that succeeds has waited at
    least 7500 ms. *)
Theorem task_fixed_waits {World : Type} (exec : Action -> World -> Reply * World)
    (dir : string) (page : handle) (screenshot : Screenshot.t) (locale : string)
    (size : Size.t) (design : Design.t) (outputDir : string) (s : Store) (st : St World) :
  let result := run exec (processScreenshot dir page screenshot locale size design
                                            outputDir 1 s) st in
  exists evs,
    trace (snd result) = trace st ++ evs
    /\ (waited evs <= 78800)%N
    /\ (78800 < PER_SCREENSHOT_TIMEOUT_MS)%N
    /\ (fst (fst result) = Returned true -> (7500 <= waited evs)%N).
Proof.
  intros result.
  destruct (wp_run exec _ _ st
              (wp_retry_waits dir page screenshot locale size design outputDir
                              (MAX_RETRIES - 1) 1 s eq_refl))
    as (evs & T & Hu & Hl).
  exists evs. split; [exact T |]. split; [| split; [reflexivity | exact Hl]].
  change (N.of_nat (MAX_RETRIES - 1)) with 2%N in Hu. lia.
Qed.

(* ===================================================================== *)
(** ** Background colours and headline text *)
(* ===================================================================== *)

(** X25 ([configureBackground]): when the function returns it has listed
    the gradient stops once; with two stops or more it has filled the
    first with color1 and the second with color2; with fewer it has
    filled no colour at all, and still returns normally. *)
Theorem configureBackground_colours {World : Type} (exec : Action -> World -> Reply * World)
    (page : handle) (design : Design.t) (s : Store) (st : St World) :
  let result := run exec (configureBackground page design s) st in
  fst (fst result) = Returned tt ->
  exists evs stops,
    trace (snd result) = trace st ++ evs
    /\ In (OnPage page (LocatorAll gradientStops), Done stops) evs
    /\ countIf isListing evs = 1
    /\ if Nat.leb 2 (as_length stops) then
         exists v1 v2,
           In (OnPage page (LocatorFill (Within (Item gradientStops 0) colorInput)
                                        (Design.color1 (Design.background design))), Done v1) evs
           /\ In (OnPage page (LocatorFill (Within (Item gradientStops 1) colorInput)
                                           (Design.color2 (Design.background design))), Done v2)
                 evs
           /\ countIf isLocatorFill evs = 2
       else countIf isLocatorFill evs = 0.
Proof.
  intros result E.
  assert (W : wp (configureBackground page design s)
    (fun evs r =>
       fst r = Returned tt ->
       exists stops,
         In (OnPage page (LocatorAll gradientStops), Done stops) evs
         /\ countIf isListing evs = 1
         /\ if Nat.leb 2 (as_length stops) then
              exists v1 v2,
                In (OnPage page (LocatorFill (Within (Item gradientStops 0) colorInput)
                                   (Design.color1 (Design.background design))), Done v1) evs
                /\ In (OnPage page (LocatorFill (Within (Item gradientStops 1) colorInput)
                                      (Design.color2 (Design.background design))), Done v2) evs
                /\ countIf isLocatorFill evs = 2
            else countIf isLocatorFill evs = 0)).
  { unfold configureBackground. cbv zeta. fold gradientStops. wp_auto.
    all: intros R; try discriminate R.
    all: eexists; split;
      [rewrite ?app_nil_r; cbn [app]; repeat (first [left; reflexivity | right]) |].
    all: split; [reflexivity |].
    all: match goal with H : Nat.leb 2 _ = _ |- _ => rewrite H end.
    - do 2 eexists. split; [| split; [| reflexivity]];
        rewrite ?app_nil_r; cbn [app]; repeat (first [left; reflexivity | right]).
    - reflexivity. }
  destruct (wp_run exec _ _ st W) as (evs & T & H).
  destruct (H E) as (stops & H1 & H2 & H3).
  exists evs, stops. split; [exact T |]. split; [exact H1 |]. split; [exact H2 | exact H3].
Qed.

Lemma configureBackground_colours_witness :
  exists evs stops,
    trace (snd (run Sim.exec (configureBackground 7 Sample.design emptyStore)
                    (Sim.start Sim.healthy)))
    = trace (Sim.start Sim.healthy) ++ evs
    /\ In (OnPage 7 (LocatorAll gradientStops), Done stops) evs
    /\ countIf isListing evs = 1
    /\ if Nat.leb 2 (as_length stops) then
         exists v1 v2,
           In (OnPage 7 (LocatorFill (Within (Item gradientStops 0) colorInput)
                                     (Design.color1 (Design.background Sample.design))),
               Done v1) evs
           /\ In (OnPage 7 (LocatorFill (Within (Item gradientStops 1) colorInput)
                                        (Design.color2 (Design.background Sample.design))),
                  Done v2) evs
           /\ countIf isLocatorFill evs = 2
       else countIf isLocatorFill evs = 0.
Proof.
  apply (configureBackground_colours Sim.exec 7 Sample.design emptyStore
           (Sim.start Sim.healthy)).
  vm_compute. reflexivity.
Defined.

Section Headline.

Lemma lookup_In (titles : list (string * string)) (key : string) :
  In key (keys titles) -> In (key, lookup titles key) titles.
Proof.
  induction titles as [| [k v] rest IH]; cbn [keys map fst In lookup]; [intros [] |].
  intros H. destruct (String.eqb_spec k key) as [-> | Hne].
  - now left.
  - right. apply IH. destruct H as [H | H]; [contradiction | exact H].
Qed.

Lemma Always_attemptSteps_headline dir page screenshot locale size design outputDir attempt :
  Always (headlineIs (lookup (Screenshot.titles screenshot) locale))
         (attemptSteps dir page screenshot locale size design outputDir attempt).
Proof.
  unfold attemptSteps, selectOutputSize, uploadScreenshot, clearYuzuScreenshots,
    configureBackground, configureDevice, enableFrame, configureText, enableHeadline,
    disableSubheadline, waitForCanvasRender, exportScreenshot, ensureDir.
  cbv zeta. ui_unfold.
  assert (C : forall n, Always (headlineIs (lookup (Screenshot.titles screenshot) locale))
                               (clearYuzuScreenshots_loop n page)).
  { induction n as [| n IH]; cbn [clearYuzuScreenshots_loop];
      [apply Always_ret | ui_unfold; repeat (first [exact IH | always_step]); exact I]. }
  repeat (first [apply C | always_step]);
    try exact I; try (intros H; discriminate H); try (intros _; reflexivity).
Qed.

Lemma Always_processScreenshot_headline
    dir fuel page screenshot locale size design outputDir attempt :
  Always (headlineIs (lookup (Screenshot.titles screenshot) locale))
         (processScreenshot_rec dir fuel page screenshot locale size design outputDir attempt).
Proof.
  revert attempt. induction fuel as [| fuel IH]; intros attempt;
    rewrite processScreenshot_rec_unfold; cbv zeta; unfold retryReset; ui_unfold;
    repeat (first
      [ always_step
      | lazymatch goal with
        | |- Always _ (attemptSteps _ _ _ _ _ _ _ _) => apply Always_attemptSteps_headline
        | |- Always _ (processScreenshot_rec _ _ _ _ _ _ _ _ _) => apply IH
        end ]);
    exact I.
Qed.

End Headline.

(** X26 (the headline, lines 407 and 336): for a locale that is a key of
    the screenshot's titles, whenever a task fills the headline text, in
    any attempt, the text is a title the screenshot declares under that
    locale; no other text is ever written to the headline. *)
Theorem task_headline {World : Type} (exec : Action -> World -> Reply * World)
    (dir : string) (page : handle) (screenshot : Screenshot.t) (locale : string)
    (size : Size.t) (design : Design.t) (outputDir : string) (s : Store) (st : St World) :
  In locale (keys (Screenshot.titles screenshot)) ->
  let result := run exec (processScreenshot dir page screenshot locale size design
                                            outputDir 1 s) st in
  exists evs title,
    trace (snd result) = trace st ++ evs
    /\ In (locale, title) (Screenshot.titles screenshot)
    /\ forall p text r, In (OnPage p (Fill "#headline-text" text), r) evs -> text = title.
Proof.
  intros Hl result.
  destruct (run_always _ exec _ _ st
              (Always_processScreenshot_headline dir (MAX_RETRIES - 1) page screenshot locale
                 size design outputDir 1 s))
    as (evs & T & F & _).
  exists evs, (lookup (Screenshot.titles screenshot) locale).
  split; [exact T |]. split; [now apply lookup_In |].
  intros p text r Hin. rewrite Forall_forall in F. specialize (F _ Hin).
  cbn [fst headlineIs] in F. now apply F.
Qed.

Lemma task_headline_witness :
  exists evs title,
    trace (snd (run Sim.exec
                    (processScreenshot "/repo" 7 Sample.home "de" Sample.iphone Sample.design
                                       "/repo/output" 1 emptyStore)
                    (Sim.start Sim.healthy)))
    = trace (Sim.start Sim.healthy) ++ evs
    /\ In ("de", title) (Screenshot.titles Sample.home)
    /\ forall p text r, In (OnPage p (Fill "#headline-text" text), r) evs -> text = title.
Proof.
  apply (task_headline Sim.exec "/repo" 7 Sample.home "de" Sample.iphone Sample.design
           "/repo/output" emptyStore (Sim.start Sim.healthy)).
  right. left. reflexivity.
Defined.

(* ===================================================================== *)
(** ** Waiting for the canvas *)
(* ===================================================================== *)

(** X27 ([waitForCanvasRender]): the function waits CANVAS_WAIT_MS, asks
    once whether the canvas has content, and when the answer is not truthy
    writes a warning and waits one more second; a blank canvas is never an
    error: the function returns whenever its calls do, and an exception
    that leaves it was raised by its last call. *)
Theorem waitForCanvasRender_outcome {World : Type} (exec : Action -> World -> Reply * World)
    (page : handle) (s : Store) (st : St World) :
  let result := run exec (waitForCanvasRender page s) st in
  let wait ms := OnPage page (WaitForTimeout ms) in
  let check := OnPage page (Evaluate CanvasHasContent) in
  exists evs,
    trace (snd result) = trace st ++ evs
    /\ snd (fst result) = s
    /\ match fst (fst result) with
       | Returned _ =>
           exists v1 v,
             (truthy v = true /\ evs = [(wait CANVAS_WAIT_MS, Done v1); (check, Done v)])
             \/ exists v2,
                  truthy v = false
                  /\ evs = [(wait CANVAS_WAIT_MS, Done v1); (check, Done v);
                            (Console Warn MsgCanvasBlank, Done VUndefined);
                            (wait 1000%N, Done v2)]
       | Threw e => exists pre act, evs = pre ++ [(act, Raised e)]
       end.
Proof.
  intros result wait check.
  assert (W : wp (waitForCanvasRender page s)
    (fun evs r =>
       snd r = s
       /\ match fst r with
          | Returned _ =>
              exists v1 v,
                (truthy v = true /\ evs = [(wait CANVAS_WAIT_MS, Done v1); (check, Done v)])
                \/ exists v2,
                     truthy v = false
                     /\ evs = [(wait CANVAS_WAIT_MS, Done v1); (check, Done v);
                               (Console Warn MsgCanvasBlank, Done VUndefined);
                               (wait 1000%N, Done v2)]
          | Threw e => exists pre act, evs = pre ++ [(act, Raised e)]
          end)).
  { unfold waitForCanvasRender. wp_auto.
    all: split; [reflexivity |].
    - exists v, v0. right. exists v1. split; [| reflexivity].
      now apply negb_true_iff.
    - eexists [_; _; _], _. reflexivity.
    - exists v, v0. left. split; [| reflexivity]. now apply negb_false_iff.
    - eexists [_], _. reflexivity.
    - eexists [], _. reflexivity. }
  destruct (wp_run exec _ _ st W) as (evs & T & H).
  exists evs. split; [exact T | exact H].
Qed.

(* ===================================================================== *)
(** ** Retry exhaustion: what an attempt runs *)
(* ===================================================================== *)

Section Sequence.

Context {World : Type}.
Variable exec : Action -> World -> Reply * World.

(** A chain of steps followed by a tail that cannot throw: when the chain
    throws, one of the steps did, and the steps in order end in the same
    state with the same exception. *)
Lemma run_inOrder_threw {B} (steps : list (Prog unit)) (k : Prog B) s (st : St World) e :
  (forall s' st', exists b, fst (fst (run exec (k s') st')) = Returned b) ->
  fst (fst (run exec (fold_right (fun p q => (p ;; q)%prog) k steps s) st)) = Threw e ->
  exists s',
    run exec (inOrder steps s) st
    = ((Threw e, s'), snd (run exec (fold_right (fun p q => (p ;; q)%prog) k steps s) st)).
Proof.
  intros K. revert s st. induction steps as [| p rest IH]; intros s st H; cbn [fold_right] in *.
  - destruct (K s st) as [b Hb]. rewrite Hb in H. discriminate H.
  - unfold inOrder. cbn [forEach]. rewrite run_bind in H. rewrite !run_bind.
    destruct (run exec (p s) st) as [[[u | e'] s1] st1]; cbn [fst snd] in *.
    + apply IH. exact H.
    + injection H as <-. exists s1. reflexivity.
Qed.

Variable dir : string.
Variable page : handle.
Variable screenshot : Screenshot.t.
Variable locale : string.
Variable size : Size.t.
Variable design : Design.t.
Variable outputDir : string.

(** An attempt that throws passed the access check and ran the sequence up
    to the step that raised. *)
Lemma attemptRun_ranUpToRaise attempt s (st : St World) e :
  fst (fst (attemptRun exec dir page screenshot locale size design outputDir attempt s st))
  = Threw e ->
  ranUpToRaise exec dir page screenshot locale size design outputDir attempt s st e
    (snd (attemptRun exec dir page screenshot locale size design outputDir attempt s st)).
Proof.
  intros H.
  assert (Last : exists pre act,
            trace (snd (attemptRun exec dir page screenshot locale size design outputDir
                                   attempt s st))
            = pre ++ [(act, Raised e)]).
  { unfold attemptRun in *.
    destruct (wp_run exec _ _
                (note (Enter page (Screenshot.id screenshot) locale (Size.device size) attempt) st)
                (Throws_attemptSteps dir page screenshot locale size design outputDir attempt s))
      as (evs & T & Th).
    destruct (Th e H) as (pre & act & -> & _).
    eexists _, act. rewrite T, app_assoc. reflexivity. }
  revert H Last. unfold attemptRun, ranUpToRaise, attemptSteps. cbv zeta.
  set (rawPath := rawPathOf dir size locale (Screenshot.id screenshot)).
  set (logPrefix := logPrefixOf locale size (Screenshot.id screenshot)).
  set (st0 := note _ st).
  destruct (exec (FsAccess rawPath) (world st0)) as [[v | e0] w] eqn:E.
  - erewrite run_bind_ret; cycle 1.
    { eapply run_catch_ret, run_bind_ret; [| apply run_ret].
      unfold access. eapply run_bind_ret; [| apply run_ret].
      eapply run_await_done; [reflexivity | reflexivity | exact E]. }
    { reflexivity. }
    cbn [negb].
    erewrite run_bind_ret; [| apply run_console | reflexivity].
    unfold st0 in *. cbn [note world trace] in *. rewrite <- !app_assoc. cbn [app].
    intros H Last. exists v, w.
    destruct (run_inOrder_threw
                (reconfigureSequence dir page screenshot locale size design outputDir)
                (console Log (MsgDone logPrefix) ;; ret true)%prog s _ e
                ltac:(intros s' st'; exists true; rewrite run_bind, run_console; reflexivity)
                H) as (s' & R).
    exists s'. split; [exact E |]. split; [exact R | exact Last].
  - erewrite run_bind_ret; cycle 1.
    { eapply run_catch_threw.
      - unfold access. eapply run_bind_threw, run_bind_threw, run_await_raised;
          [reflexivity | exact E].
      - eapply run_bind_ret; [apply run_console | apply run_ret]. }
    { reflexivity. }
    cbn [negb]. rewrite run_ret. intros H. discriminate H.
Qed.

End Sequence.

(** C2 (amended): in a run of [processScreenshot] in which no export click
    raised, when the first attempt raises it ran the sequence (reload,
    settle, reselect the size, upload, configure background, device and
    text, export) in order up to the step that raised, and nothing after
    it. When the reset that follows (error line, wait, reload, wait) raises,
    that exception leaves [processScreenshot] and no further attempt is
    entered. When the reset returns and the second attempt raises, the same
    holds of the second attempt and its reset. When that reset returns too
    and the third attempt raises, the third attempt ran the sequence up to
    the step that raised, the two failure lines are written, the result is
    false, and the attempts entered are exactly 1, 2 and 3. *)
Theorem retry_exhaustion {World : Type} (exec : Action -> World -> Reply * World)
    (dir : string) (page : handle) (screenshot : Screenshot.t) (locale : string)
    (size : Size.t) (design : Design.t) (outputDir : string) (s : Store) (st : St World)
    (e1 e2 e3 : Error) :
  let logPrefix := logPrefixOf locale size (Screenshot.id screenshot) in
  let a1 := attemptRun exec dir page screenshot locale size design outputDir 1 s st in
  let r1 := resetRun exec page screenshot locale size e1 a1 in
  let a2 := attemptRun exec dir page screenshot locale size design outputDir 2
                       (snd (fst r1)) (snd r1) in
  let r2 := resetRun exec page screenshot locale size e2 a2 in
  let a3 := attemptRun exec dir page screenshot locale size design outputDir 3
                       (snd (fst r2)) (snd r2) in
  let result := run exec (processScreenshot dir page screenshot locale size design
                                            outputDir 1 s) st in
  listenersHandled (trace (snd result)) = true ->
  fst (fst a1) = Threw e1 ->
  ranUpToRaise exec dir page screenshot locale size design outputDir 1 s st e1 (snd a1)
  /\ (forall x, fst (fst r1) = Threw x ->
        result = ((Threw x, snd (fst r1)), snd r1)
        /\ attemptsEntered (trace (snd result)) = attemptsEntered (trace st) ++ [1])
  /\ (fst (fst r1) = Returned tt -> fst (fst a2) = Threw e2 ->
        ranUpToRaise exec dir page screenshot locale size design outputDir 2
                     (snd (fst r1)) (snd r1) e2 (snd a2)
        /\ (forall x, fst (fst r2) = Threw x ->
              result = ((Threw x, snd (fst r2)), snd r2)
              /\ attemptsEntered (trace (snd result)) = attemptsEntered (trace st) ++ [1; 2])
        /\ (fst (fst r2) = Returned tt -> fst (fst a3) = Threw e3 ->
              ranUpToRaise exec dir page screenshot locale size design outputDir 3
                           (snd (fst r2)) (snd r2) e3 (snd a3)
              /\ result
                 = ((Returned false, snd (fst a3)),
                    note (Console ErrorLevel (MsgFailedAfter logPrefix MAX_RETRIES))
                         (note (Console ErrorLevel (MsgError logPrefix (message e3))) (snd a3)))
              /\ attemptsEntered (trace (snd result))
                 = attemptsEntered (trace st) ++ [1; 2; 3])).
Proof.
  intros logPrefix a1 r1 a2 r2 a3 result _ H1.
  assert (A1 : attemptsEntered (trace (snd a1)) = attemptsEntered (trace st) ++ [1])
    by apply attemptRun_entered.
  assert (B1 : attemptsEntered (trace (snd r1)) = attemptsEntered (trace st) ++ [1])
    by (unfold r1; rewrite (resetRun_entered exec page); exact A1).
  assert (E1 : result
    = match fst (fst r1) with
      | Returned _ =>
          run exec (processScreenshot_rec dir 1 page screenshot locale size design outputDir 2
                                          (snd (fst r1))) (snd r1)
      | Threw x => ((Threw x, snd (fst r1)), snd r1)
      end).
  { unfold result, processScreenshot. change (MAX_RETRIES - 1) with 2.
    rewrite run_processScreenshot_rec. cbv zeta.
    change (run exec (attemptSteps dir page screenshot locale size design outputDir 1 s) _)
      with a1.
    rewrite H1. change (Nat.ltb 1 MAX_RETRIES) with true. cbv iota.
    change (run exec (retryReset page _ (snd (fst a1))) _) with r1.
    reflexivity. }
  split; [now apply attemptRun_ranUpToRaise |]. split.
  { intros x Hx. rewrite E1, Hx. split; [reflexivity | exact B1]. }
  intros R1 H2.
  assert (A2 : attemptsEntered (trace (snd a2)) = attemptsEntered (trace st) ++ [1; 2]).
  { unfold a2. rewrite (attemptRun_entered exec dir page), B1, <- app_assoc. reflexivity. }
  assert (B2 : attemptsEntered (trace (snd r2)) = attemptsEntered (trace st) ++ [1; 2])
    by (unfold r2; rewrite (resetRun_entered exec page); exact A2).
  assert (E2 : result
    = match fst (fst r2) with
      | Returned _ =>
          run exec (processScreenshot_rec dir 0 page screenshot locale size design outputDir 3
                                          (snd (fst r2))) (snd r2)
      | Threw x => ((Threw x, snd (fst r2)), snd r2)
      end).
  { rewrite E1, R1. rewrite run_processScreenshot_rec. cbv zeta.
    change (run exec (attemptSteps dir page screenshot locale size design outputDir 2 _) _)
      with a2.
    rewrite H2. change (Nat.ltb 2 MAX_RETRIES) with true. cbv iota.
    change (run exec (retryReset page _ (snd (fst a2))) _) with r2.
    reflexivity. }
  split; [now apply attemptRun_ranUpToRaise |]. split.
  { intros x Hx. rewrite E2, Hx. split; [reflexivity | exact B2]. }
  intros R2 H3.
  assert (E3 : result
    = ((Returned false, snd (fst a3)),
       note (Console ErrorLevel (MsgFailedAfter logPrefix MAX_RETRIES))
            (note (Console ErrorLevel (MsgError logPrefix (message e3))) (snd a3)))).
  { rewrite E2, R2. rewrite run_processScreenshot_rec. cbv zeta.
    change (run exec (attemptSteps dir page screenshot locale size design outputDir 3 _) _)
      with a3.
    rewrite H3. reflexivity. }
  split; [now apply attemptRun_ranUpToRaise |]. split; [exact E3 |].
  rewrite E3. cbn [snd note trace]. rewrite !attemptsEntered_app.
  unfold a3. rewrite (attemptRun_entered exec dir page), B2.
  cbn. rewrite !app_nil_r, <- !app_assoc. reflexivity.
Qed.

(** An environment in which the export click goes through and no download
    ever arrives: the listener's promise rejects with its handler attached,
    three times. *)
Lemma retry_exhaustion_witness :
  let result := run Sim.exec
                  (processScreenshot "/repo" 7 Sample.home "de" Sample.iphone Sample.design
                                     "/repo/output" 1 emptyStore)
                  (Sim.start Worlds.noDownload) in
  listenersHandled (trace (snd result)) = true
  /\ fst (fst result) = Returned false
  /\ attemptsEntered (trace (snd result)) = [1; 2; 3].
Proof.
  pose (timeout := {| message := "Timeout 30000ms exceeded while waiting for event download" |}).
  destruct (retry_exhaustion Sim.exec "/repo" 7 Sample.home "de" Sample.iphone Sample.design
              "/repo/output" emptyStore (Sim.start Worlds.noDownload) timeout timeout timeout)
    as (_ & _ & H); try (vm_compute; reflexivity).
  destruct H as (_ & _ & H); try (vm_compute; reflexivity).
  destruct H as (_ & E & A); try (vm_compute; reflexivity).
  cbv zeta. split; [vm_compute; reflexivity |]. rewrite E in *.
  split; [reflexivity | exact A].
Defined.

(* ===================================================================== *)
(** ** The verdict lines of a task *)
(* ===================================================================== *)

Section VerdictFacts.

Lemma tally_none evs :
  Forall (fun ev => noVerdict (fst ev)) evs ->
  countIf isDoneLine evs = 0 /\ countIf isFailureLine evs = 0.
Proof.
  intros F. split; apply countIf_none; revert F; apply Forall_impl; intros ev H;
    unfold noVerdict, isVerdictLine in H; apply orb_false_elim in H; apply H.
Qed.

Lemma Tallied_plain tr s evs :
  Tallied tr s -> Forall (fun ev => noVerdict (fst ev)) evs -> Tallied (tr ++ evs) s.
Proof.
  intros [Hs Hf] F. destruct (tally_none evs F) as [D Fl].
  unfold Tallied. rewrite !countIf_app, D, Fl, !Nat.add_0_r. split; assumption.
Qed.

Lemma callVerdict_plain o pre evs :
  Forall (fun ev => noVerdict (fst ev)) pre -> callVerdict o evs -> callVerdict o (pre ++ evs).
Proof.
  intros F [D Fl]. destruct (tally_none pre F) as [D0 F0].
  unfold callVerdict. rewrite !countIf_app, D0, F0. split; assumption.
Qed.

Lemma callVerdict_threw e evs : Forall (fun ev => noVerdict (fst ev)) evs -> callVerdict (Threw e) evs.
Proof. intros F. exact (tally_none evs F). Qed.

Lemma callVerdict_after e o evs evs' :
  callVerdict (Threw e) evs -> callVerdict o evs' -> callVerdict o (evs ++ evs').
Proof.
  intros [D0 F0] [D Fl]. unfold callVerdict. rewrite !countIf_app, D0, F0. split; assumption.
Qed.

Lemma Tallied_verdict tr s (b : bool) evs :
  Tallied tr s -> callVerdict (Returned b) evs -> TalliedBut b (tr ++ evs) s.
Proof.
  intros [Hs Hf] [D Fl]. unfold TalliedBut. rewrite !countIf_app, D, Fl, Hs, Hf.
  destruct b; split; reflexivity.
Qed.

Lemma Tallied_threw tr s e evs :
  Tallied tr s -> callVerdict (Threw e) evs -> Tallied (tr ++ evs) s.
Proof.
  intros [Hs Hf] [D Fl]. unfold Tallied. rewrite !countIf_app, D, Fl, !Nat.add_0_r.
  split; assumption.
Qed.

(** Steps over a part of a sequence that writes no verdict. *)
Lemma wp_plain_then {A} (p : Prog A) (f : A -> Prog bool) s :
  Always noVerdict p ->
  (forall a, wp (f a s) (fun evs r => callVerdict (fst r) evs)) ->
  wp (bind p f s) (fun evs r => callVerdict (fst r) evs).
Proof.
  intros Hp Hf. apply (wp_over noVerdict); [exact Hp |]. intros evs F. split.
  - intros a. eapply wp_mono; [| apply Hf]. intros evs' r' V. now apply callVerdict_plain.
  - intros e. now apply callVerdict_threw.
Qed.

Lemma Plain_clearLoop page remaining :
  Always noVerdict (clearYuzuScreenshots_loop remaining page).
Proof.
  induction remaining as [| n IH]; simpl.
  - apply Always_ret.
  - always_auto.
Qed.

End VerdictFacts.

(** Proves that a part of the control surface writes no verdict. *)
Ltac plain_auto :=
  unfold retryReset, selectOutputSize, uploadScreenshot, clearYuzuScreenshots,
    configureBackground, configureDevice, enableFrame, configureText, enableHeadline,
    disableSubheadline, waitForCanvasRender, exportScreenshot, ensureDir;
  cbv zeta; ui_unfold;
  repeat first [apply Plain_clearLoop | always_step]; reflexivity.

Section TaskVerdict.

Variable dir : string.
Variable page : handle.
Variable screenshot : Screenshot.t.
Variable locale : string.
Variable size : Size.t.
Variable design : Design.t.
Variable outputDir : string.

(** One attempt writes the line of success exactly when it returns true,
    and the line of the missing source exactly when it returns false. *)
Lemma wp_attemptSteps_verdict attempt s :
  wp (attemptSteps dir page screenshot locale size design outputDir attempt s)
     (fun evs r => callVerdict (fst r) evs).
Proof.
  unfold attemptSteps. cbv zeta.
  apply wp_bind, wp_tryCatch. unfold access.
  apply wp_bind, wp_bind, wp_await; intros x; cbn [fst snd].
  2: { apply wp_bind, wp_console. cbn [fst snd]. apply wp_ret. cbn [fst snd negb].
       apply wp_ret. split; reflexivity. }
  apply wp_ret. cbn [fst snd]. apply wp_ret. cbn [fst snd negb].
  eapply wp_mono.
  { intros evs r V. apply (callVerdict_plain _ [(FsAccess _, Done x)]);
      [repeat constructor | exact V]. }
  repeat (apply wp_plain_then; [solve [plain_auto] | intros _]).
  apply wp_bind, wp_console. cbn [fst snd]. apply wp_ret. split; reflexivity.
Qed.

(** [processScreenshot] from any attempt: one verdict line when it
    returns, none when it throws. *)
Lemma wp_retry_verdict fuel attempt s :
  wp (processScreenshot_rec dir fuel page screenshot locale size design outputDir attempt s)
     (fun evs r => callVerdict (fst r) evs).
Proof.
  revert attempt s. induction fuel as [| fuel IH]; intros attempt s;
    rewrite processScreenshot_rec_entry; unfold afterEntry; cbv zeta;
    (apply wp_plain_then; [apply Always_emit; reflexivity | intros _]);
    apply wp_tryCatch;
    (eapply wp_mono;
     [| apply (wp_conj _ _ _
                 (wp_always _ _ _
                    (Always_attemptSteps page dir screenshot locale size design outputDir
                                         attempt s))
                 (wp_attemptSteps_verdict attempt s))]);
    intros evs [[b | e] s1] [[_ L] V]; cbn [fst snd] in *; subst s1; try exact V;
    (eapply wp_mono; [intros evs' r' V'; apply (callVerdict_after e); [exact V | exact V'] |]);
    (apply wp_plain_then; [apply Always_emit; reflexivity | intros _]);
    destruct (Nat.ltb attempt MAX_RETRIES).
  - apply wp_plain_then; [solve [plain_auto] | intros _]. apply wp_throw. split; reflexivity.
  - apply wp_bind, wp_console. cbn [fst snd]. apply wp_ret. split; reflexivity.
  - apply wp_plain_then; [solve [plain_auto] | intros _]. apply IH.
  - apply wp_bind, wp_console. cbn [fst snd]. apply wp_ret. split; reflexivity.
Qed.

End TaskVerdict.

Section CallVerdict.

Variable dir : string.
Variable screenshot : Screenshot.t.
Variable locale : string.
Variable size : Size.t.
Variable design : Design.t.
Variable outputDir : string.

Lemma wp_processOnCurrentPage_verdict s :
  wp (processOnCurrentPage dir screenshot locale size design outputDir s)
     (fun evs r => snd r = s /\ callVerdict (fst r) evs).
Proof.
  unfold processOnCurrentPage. apply wp_bind, wp_get. cbn [fst snd].
  apply wp_bind. destruct (page s) as [p |]; cbn [deref].
  2: { apply wp_throw. cbn [fst snd]. split; [reflexivity | split; reflexivity]. }
  apply wp_ret. cbn [fst snd app].
  eapply wp_mono;
    [| apply (wp_conj _ _ _
                (wp_processScreenshot dir p screenshot locale size design outputDir s)
                (wp_retry_verdict dir p screenshot locale size design outputDir _ 1 s))].
  intros evs r [[L _] V]. split; [exact L | exact V].
Qed.

End CallVerdict.

(* ===================================================================== *)
(** ** The counters of a size tell its verdict lines *)
(* ===================================================================== *)

Section TallyFacts.

Lemma Keeps_Tallied_plain {A} (p : Prog A) : Always noVerdict p -> Keeps Tallied p.
Proof. apply Keeps_Always. apply Tallied_plain. Qed.

Lemma Keeps_tryFinally (inv : list Event -> Store -> Prop) {A} (p : Prog A) (f : Prog unit) :
  Keeps inv p -> Keeps inv f -> Keeps inv (tryFinally p f).
Proof.
  intros Hp Hf tr s I. apply wp_tryFinally. eapply wp_mono; [| apply (Hp tr s I)].
  intros evs r H. eapply wp_mono; [| apply (Hf _ _ H)].
  intros evs' [[u | e] s'] H'; cbn [fst snd] in *; now rewrite app_assoc.
Qed.

(** Steps over a part of a sequence that keeps an invariant. *)
Lemma wp_keeps (inv : list Event -> Store -> Prop) {A B} (p : Prog A) (f : A -> Prog B)
    tr s (Q : list Event -> Outcome B * Store -> Prop) :
  Keeps inv p -> inv tr s ->
  (forall evs a s', inv (tr ++ evs) s' -> wp (f a s') (fun evs' r' => Q (evs ++ evs') r')) ->
  (forall evs e s', inv (tr ++ evs) s' -> Q evs (Threw e, s')) ->
  wp (bind p f s) Q.
Proof.
  intros Hp I Hf He. apply wp_bind. eapply wp_mono; [| apply (Hp tr s I)].
  intros evs [[a | e] s'] H; cbn [fst snd] in *; [now apply Hf | now apply He].
Qed.

End TallyFacts.

(** Decomposes a goal [Keeps Tallied p] along the structure of [p]. *)
Ltac tally_step :=
  lazymatch goal with
  | |- Keeps _ (bind _ _) => apply Keeps_bind; [| intros ?]
  | |- Keeps _ (tryCatch _ _) => apply Keeps_tryCatch; [| intros ?]
  | |- Keeps _ (ret _) => apply Keeps_ret
  | |- Keeps _ (throw _) => apply Keeps_throw
  | |- Keeps _ get => apply Keeps_get
  | |- Keeps _ (deref _ _) => apply Keeps_deref
  | |- Keeps _ (modify _) =>
      let H := fresh in apply Keeps_modify; intros ? ? H; exact H
  | |- Keeps _ (forEach _ _) => apply Keeps_forEach; intros ?
  | |- Keeps _ (await _) => apply Keeps_Tallied_plain, Always_await; reflexivity
  | |- Keeps _ (emit _) => apply Keeps_Tallied_plain, Always_emit; reflexivity
  | |- Keeps _ (if ?b then _ else _) => destruct b
  | |- Keeps _ (match ?x with _ => _ end) => destruct x
  end.

Ltac tally_auto :=
  unfold createFreshPage, openSession, launchBrowser, closeContext, closeBrowser,
    chromium_launch, browser_close, browser_newContext, context_close, context_newPage,
    selectOutputSize;
  cbv zeta; ui_unfold; repeat tally_step.

Section TaskTally.

Variable dir : string.
Variable size : Size.t.
Variable yuzuUrl : string.
Variable config : Config.t.
Variable outputDir : string.

Lemma Keeps_Tallied_launchBrowser : Keeps Tallied launchBrowser.
Proof. tally_auto. Qed.

Lemma Keeps_Tallied_createFreshPage : Keeps Tallied (createFreshPage yuzuUrl size).
Proof. tally_auto. Qed.

Lemma Keeps_Tallied_closeContext : Keeps Tallied closeContext.
Proof. tally_auto. Qed.

Lemma Keeps_Tallied_closeBrowser : Keeps Tallied closeBrowser.
Proof. tally_auto. Qed.

(** The update of the counters that ends an iteration. *)
Lemma wp_tallyOutcome tr s (success : bool) :
  TalliedBut success tr s ->
  wp ((s1 <- get ;;
       modify (set_processedInContext (processedInContext s1 + 1)) ;;
       s2 <- get ;;
       if success then modify (set_successCount (successCount s2 + 1))
       else modify (set_failureCount (failureCount s2 + 1)))%prog s)
     (fun evs r => Tallied (tr ++ evs) (snd r)).
Proof.
  intros [Hs Hf].
  apply wp_bind, wp_get. cbn [fst snd]. apply wp_bind, wp_modify. cbn [fst snd].
  apply wp_bind, wp_get. cbn [fst snd].
  destruct success; apply wp_modify; cbn [fst snd app]; rewrite app_nil_r;
    split; cbn; lia.
Qed.

(** The recovery of the catch block, up to the verdict of the second call. *)
Lemma wp_recover_verdict screenshot locale tr s (fatalError : Error) :
  Tallied tr s ->
  wp ((console Log (MsgRecovering (message fatalError)) ;;
       closeContext ;;
       cp <- createFreshPage yuzuUrl size ;;
       modify (set_session cp) ;;
       modify (set_processedInContext 0) ;;
       tryCatch
         (processOnCurrentPage dir screenshot locale size (Config.design config) outputDir)
         (fun retryError =>
            console ErrorLevel (MsgSkipping (message retryError)) ;;
            ret false))%prog s)
     (fun evs r =>
        match fst r with
        | Returned b => TalliedBut b (tr ++ evs) (snd r)
        | Threw _ => Tallied (tr ++ evs) (snd r)
        end).
Proof.
  intros T.
  apply (wp_keeps Tallied _ _ tr s); [tally_auto | exact T | | intros evs e s' H; exact H].
  intros e0 _ s0 T0.
  apply (wp_keeps Tallied _ _ (tr ++ e0) s0);
    [apply Keeps_Tallied_closeContext | exact T0 | | intros evs e s' H; now rewrite app_assoc].
  intros e1 _ s1 T1.
  apply (wp_keeps Tallied _ _ ((tr ++ e0) ++ e1) s1);
    [apply Keeps_Tallied_createFreshPage | exact T1 |
    | intros evs e s' H; now rewrite !app_assoc].
  intros e2 cp s2 T2.
  apply wp_bind, wp_modify. cbn [fst snd]. apply wp_bind, wp_modify. cbn [fst snd app].
  set (s3 := set_processedInContext 0 (set_session cp s2)).
  assert (T3 : Tallied (((tr ++ e0) ++ e1) ++ e2) s3) by exact T2.
  apply wp_tryCatch. eapply wp_mono; [| apply wp_processOnCurrentPage_verdict].
  intros e3 [[b | e] s4] [-> V]; cbn [fst snd] in *.
  - rewrite !app_assoc. now apply Tallied_verdict.
  - apply wp_bind, wp_console. cbn [fst snd]. apply wp_ret. cbn [fst snd].
    rewrite app_nil_r, !app_assoc.
    apply (Tallied_verdict _ _ false); [now apply (Tallied_threw _ _ e) |].
    split; reflexivity.
Qed.

(** One iteration keeps the counters in step with the verdict lines. *)
Lemma Keeps_Tallied_processTask screenshot locale :
  Keeps Tallied (processTask dir size yuzuUrl config outputDir screenshot locale).
Proof.
  intros tr s T. unfold processTask.
  apply wp_bind, wp_get. cbn [fst snd app].
  apply (wp_keeps Tallied _ _ tr s);
    [unfold console; tally_step; tally_auto;
     try apply Keeps_Tallied_closeContext; try apply Keeps_Tallied_createFreshPage
    | exact T | | intros evs e s' H; exact H].
  intros e0 _ s0 T0.
  apply wp_bind, wp_tryCatch.
  eapply wp_mono; [| apply wp_processOnCurrentPage_verdict].
  intros e1 [[b | e] s1] [-> V]; cbn [fst snd] in *.
  - eapply wp_mono; [| apply (wp_tallyOutcome ((tr ++ e0) ++ e1) s0 b);
                       now apply Tallied_verdict].
    intros e2 r H. cbv beta in H. norm_app. norm_app_in H. exact H.
  - eapply wp_mono;
      [| apply (wp_recover_verdict screenshot locale ((tr ++ e0) ++ e1) s0 e);
         now apply (Tallied_threw _ _ e)].
    intros e2 [[b | e'] s2] H; cbn [fst snd] in *.
    + eapply wp_mono; [| apply (wp_tallyOutcome _ _ b H)].
      intros e3 r H3. cbv beta in H3. norm_app. norm_app_in H3. exact H3.
    + norm_app. norm_app_in H. exact H.
Qed.

Lemma Keeps_Tallied_sizeSteps : Keeps Tallied (sizeSteps dir size yuzuUrl config outputDir).
Proof.
  unfold sizeSteps, console.
  repeat first [apply Keeps_Tallied_createFreshPage | apply Keeps_Tallied_closeContext
               | apply Keeps_Tallied_processTask | tally_step].
Qed.

End TaskTally.

Section SizeTally.

Variable dir : string.
Variable size : Size.t.
Variable yuzuUrl : string.
Variable config : Config.t.

(** The result of [processSize] counts the verdict lines of the size. *)
Lemma wp_processSize_tally s :
  wp (processSize dir size yuzuUrl config s)
     (fun evs r =>
        forall result, fst r = Returned result ->
          SizeResult.successCount result = countIf isDoneLine evs
          /\ SizeResult.failureCount result = countIf isFailureLine evs).
Proof.
  unfold processSize. apply wp_call. cbv zeta.
  apply (wp_keeps Tallied _ _ [] emptyStore);
    [apply Keeps_Tallied_launchBrowser | split; reflexivity |
    | intros evs e s' _ result E; discriminate E].
  intros e1 _ s1 T1. cbn [app] in T1.
  apply (wp_keeps Tallied _ _ e1 s1);
    [apply Keeps_tryFinally; [apply Keeps_Tallied_sizeSteps | apply Keeps_Tallied_closeBrowser]
    | exact T1 | | intros evs e s' _ result E; discriminate E].
  intros e2 _ s2 T2.
  apply wp_bind, wp_get. cbn [fst snd]. apply wp_ret.
  intros result E. injection E as <-. cbn [SizeResult.successCount SizeResult.failureCount].
  rewrite !app_nil_r. exact T2.
Qed.

Lemma raisedOutsideTasks_insertable : insertable raisedOutsideTasks.
Proof.
  intros a b ev e (before & act & after & E & H).
  apply app_eq_app in E. destruct E as [l [[Ea Eb] | [Eb Ea]]].
  - destruct l as [| x l]; cbn in Eb.
    + subst b. rewrite app_nil_r in Ea. subst a.
      exists (before ++ [ev]), act, after. split; [now rewrite <- app_assoc |].
      destruct H as [H | [H K]]; [now left | right; split; [| exact K]].
      apply in_or_app; now left.
    + injection Eb as <- ->. subst a.
      exists before, act, (l ++ ev :: b). split; [now rewrite <- app_assoc | exact H].
  - subst before b.
    exists (a ++ ev :: l), act, after. split; [now rewrite <- app_assoc |].
    destruct H as [H | [H K]]; [now left | right; split; [| exact K]].
    apply in_app_or in H. apply in_or_app. destruct H as [H | H]; [now left | right; now right].
Qed.

Lemma raisedOutsideTasks_app_l pre evs e :
  raisedOutsideTasks evs e -> raisedOutsideTasks (pre ++ evs) e.
Proof.
  intros (before & act & after & -> & H).
  exists (pre ++ before), act, after. split; [now rewrite <- app_assoc |].
  destruct H as [H | [H K]]; [now left | right; split; [| exact K]].
  apply in_or_app; now right.
Qed.

Lemma raisedOutsideTasks_app_r evs post e :
  raisedOutsideTasks evs e -> raisedOutsideTasks (evs ++ post) e.
Proof.
  intros (before & act & after & -> & H).
  exists before, act, (after ++ post). split; [now rewrite <- app_assoc | exact H].
Qed.

(** Opening a session with a browser at hand: an exception is raised by
    one of the calls that open it, as the last event. *)
Lemma wp_openSession_rejects s b :
  browser s = Some b ->
  wp (openSession yuzuUrl size s)
     (fun evs r =>
        forall e, fst r = Threw e ->
          exists pre act, evs = pre ++ [(act, Raised e)] /\ opensSession act).
Proof.
  intros Hb. unfold openSession. apply wp_bind, wp_get. cbn [fst snd]. rewrite Hb.
  apply wp_bind, wp_ret. cbn [fst snd app].
  assert (T : Throws opensSession
                (context <- browser_newContext b ;;
                 page <- context_newPage context ;;
                 page_goto page yuzuUrl ;;
                 page_waitForTimeout page 1000%N ;;
                 selectOutputSize page size ;;
                 ret (context, page))%prog).
  { unfold browser_newContext, context_newPage, selectOutputSize. cbv zeta.
    throws_auto; exact I. }
  apply T.
Qed.

(** When [createFreshPage] throws, the line of the relaunch was written and
    the exception was raised by the relaunch or by the reopening. *)
Lemma Rejects_createFreshPage : Rejects raisedOutsideTasks (createFreshPage yuzuUrl size).
Proof.
  intros s. unfold createFreshPage. apply wp_tryCatch.
  eapply wp_mono; [| apply wp_True].
  intros evs1 [[cp | e1] s1] _; cbn [fst snd]; [intros e E; discriminate E |].
  apply wp_bind, wp_console. cbn [fst snd].
  apply wp_bind. eapply wp_mono; [| apply wp_launchBrowser_shape].
  intros evs2 r2 (closing & reply & -> & _ & ->).
  destruct reply as [v | e2]; cbn [fst snd].
  - eapply wp_mono;
      [| apply (wp_openSession_rejects (set_browser (Some (as_handle v)) s1) (as_handle v)
                  eq_refl)].
    intros evs3 r3 H3 e E. destruct (H3 e E) as (pre & act & -> & K).
    exists (evs1 ++ [crashLine] ++ (closing ++ [(ChromiumLaunch, Done v)]) ++ pre), act, [].
    split; [unfold crashLine; now rewrite <- !app_assoc |].
    right. split; [| exact K]. apply in_or_app. right. now left.
  - intros e E. injection E as <-.
    exists (evs1 ++ [crashLine] ++ closing), ChromiumLaunch, [].
    split; [unfold crashLine; now rewrite <- !app_assoc | now left].
Qed.

End SizeTally.

Section RejectFacts.

Variable P : list Event -> Error -> Prop.
Hypothesis P_app_l : forall pre evs e, P evs e -> P (pre ++ evs) e.

Lemma Rejects_ret {A} (a : A) : Rejects P (ret a).
Proof. intros s e E. discriminate E. Qed.

Lemma Rejects_get : Rejects P get.
Proof. intros s e E. discriminate E. Qed.

Lemma Rejects_modify f : Rejects P (modify f).
Proof. intros s e E. discriminate E. Qed.

Lemma Rejects_emit act : Rejects P (emit act).
Proof. intros s r _ e E. discriminate E. Qed.

Lemma Rejects_bind {A B} (p : Prog A) (f : A -> Prog B) :
  Rejects P p -> (forall a, Rejects P (f a)) -> Rejects P (bind p f).
Proof.
  intros Hp Hf s. apply wp_bind. eapply wp_mono; [| apply Hp].
  intros evs [[a | e] s1] H; cbn [fst snd].
  - eapply wp_mono; [| apply Hf]. intros evs' r' H' e E. apply P_app_l. now apply H'.
  - intros e' E. cbn [fst] in E. injection E as <-. apply (H e eq_refl).
Qed.

Lemma Rejects_tryCatch {A} (p : Prog A) (h : Error -> Prog A) :
  (forall e, Rejects P (h e)) -> Rejects P (tryCatch p h).
Proof.
  intros Hh s. apply wp_tryCatch. eapply wp_mono; [| apply wp_True].
  intros evs [[a | e] s1] _; cbn [fst snd].
  - intros e E. discriminate E.
  - eapply wp_mono; [| apply Hh]. intros evs' r' H' e0 E. apply P_app_l. now apply H'.
Qed.

Lemma Rejects_forEach {X} (xs : list X) (body : X -> Prog unit) :
  (forall x, Rejects P (body x)) -> Rejects P (forEach xs body).
Proof.
  intros H. induction xs as [| x rest IH]; simpl.
  - apply Rejects_ret.
  - apply Rejects_bind; [apply H | intros _; exact IH].
Qed.

End RejectFacts.

(** Decomposes a goal [Rejects P p] along the structure of [p]. *)
Ltac reject_step L :=
  lazymatch goal with
  | |- Rejects _ (createFreshPage _ _) => apply Rejects_createFreshPage
  | |- Rejects _ (bind _ _) => apply (Rejects_bind _ L); [| intros ?]
  | |- Rejects _ (tryCatch _ _) => apply (Rejects_tryCatch _ L); intros ?
  | |- Rejects _ (ret _) => apply Rejects_ret
  | |- Rejects _ (emit _) => apply Rejects_emit
  | |- Rejects _ get => apply Rejects_get
  | |- Rejects _ (modify _) => apply Rejects_modify
  | |- Rejects _ (forEach _ _) => apply (Rejects_forEach _ L); intros ?
  | |- Rejects _ (if ?b then _ else _) => destruct b
  end.

Section SizeRejects.

Variable dir : string.
Variable size : Size.t.
Variable yuzuUrl : string.
Variable config : Config.t.

Lemma Rejects_sizeSteps outputDir :
  Rejects raisedOutsideTasks (sizeSteps dir size yuzuUrl config outputDir).
Proof.
  unfold sizeSteps, processTask, closeContext, console.
  repeat reject_step raisedOutsideTasks_app_l.
Qed.

(** When [processSize] rejects, the error was raised outside the tasks. *)
Lemma wp_processSize_fatal s :
  wp (processSize dir size yuzuUrl config s)
     (fun evs r => forall e, fst r = Threw e -> raisedOutsideTasks evs e).
Proof.
  unfold processSize. apply wp_call. cbv zeta. apply wp_bind.
  eapply wp_mono; [| apply wp_launchBrowser_shape].
  intros evs1 r1 (closing & reply & -> & Hc & ->). cbn [browser emptyStore] in Hc.
  subst closing. destruct reply as [v | e1]; cbn [fst snd app].
  2: { intros e E. injection E as <-. exists [], ChromiumLaunch, [].
       split; [reflexivity | now left]. }
  apply wp_bind, wp_tryFinally.
  eapply wp_mono; [| apply Rejects_sizeSteps].
  intros evs2 r2 H2.
  eapply wp_mono; [| apply (Throws_closeBrowser (snd r2))].
  intros evs3 [[u | e3] s3] T3; cbn [fst snd] in *.
  2: { destruct (T3 e3 eq_refl) as (_ & _ & _ & []). }
  destruct (fst r2) as [u2 | e2] eqn:E2; cbn [fst snd].
  - apply wp_bind, wp_get. cbn [fst snd]. apply wp_ret. intros e E. discriminate E.
  - intros e E. injection E as <-.
    apply (raisedOutsideTasks_app_l [(ChromiumLaunch, Done v)]).
    apply raisedOutsideTasks_app_r. now apply H2.
Qed.

End SizeRejects.

(* ===================================================================== *)
(** ** Counting and rejecting across Promise.all and the sequential wave *)
(* ===================================================================== *)

Section WaveFacts.

Context {A : Type}.

Lemma insertable_cons C ev : insertable C -> insertable (fun evs e => C (ev :: evs) e).
Proof. intros H a b x e. apply (H (ev :: a)). Qed.

Lemma insertable_front C :
  insertable C -> forall pre evs e, C evs e -> C (pre ++ evs) e.
Proof.
  intros H pre. induction pre as [| x pre IH]; intros evs e Hc; [exact Hc |].
  apply (H [] (pre ++ evs)). apply IH, Hc.
Qed.

Lemma Forall_replaceAt {X} (P : X -> Prop) i x l :
  Forall P l -> P x -> Forall P (replaceAt i x l).
Proof.
  intros H Hx. revert i. induction H as [| y l Hy Hl IH]; intros i.
  - destruct i; constructor.
  - destruct i as [| i]; cbn [replaceAt]; constructor; auto.
Qed.

Lemma list_sum_replaceAt i n d ns :
  nth_error ns i = Some n -> list_sum (replaceAt i (n + d) ns) = list_sum ns + d.
Proof.
  revert i. induction ns as [| m ns IH]; intros [| i] E; simpl in E; try discriminate.
  - injection E as ->. cbn. lia.
  - cbn [replaceAt]. cbn [list_sum fold_right]. change (fold_right Nat.add 0) with list_sum.
    rewrite (IH i E). lia.
Qed.

Lemma list_sum_zeros {X} (l : list X) : list_sum (map (fun _ => 0) l) = 0.
Proof. induction l; simpl; [reflexivity | exact IHl]. Qed.

(** When the promises are settled in order and one rejects, its error
    satisfies what the rejection of a single promise guarantees. *)
Lemma wp_settleInOrder_threw (C : list Event -> Error -> Prop)
    (ts : list (Tree (Outcome A * Store))) :
  insertable C ->
  Forall (fun t => wp t (fun evs r => forall e, fst r = Threw e -> C evs e)) ts ->
  wp (settleInOrder ts) (fun evs o => forall e, o = Threw e -> C evs e).
Proof.
  intros HC. induction 1 as [| t ts Ht _ IH]; cbn [settleInOrder].
  - intros e E. discriminate E.
  - apply wp_tbind. eapply wp_mono; [| exact Ht].
    intros e1 [[a | e] s1] H1; cbn [fst snd] in *.
    + apply wp_tbind. eapply wp_mono; [| exact IH].
      intros e2 [l | e] H2; cbn [wp]; intros e0 E; [discriminate E |].
      injection E as <-. rewrite app_nil_r. apply insertable_front; [exact HC | now apply H2].
    + intros e0 E. injection E as <-. rewrite app_nil_r. now apply H1.
Qed.

Lemma wp_interleave_threw (C : list Event -> Error -> Prop) schedule
    (ts : list (Tree (Outcome A * Store))) :
  insertable C ->
  Forall (fun t => wp t (fun evs r => forall e, fst r = Threw e -> C evs e)) ts ->
  wp (interleave schedule ts) (fun evs o => forall e, o = Threw e -> C evs e).
Proof.
  revert C ts. induction schedule as [| i later IH]; intros C ts HC H; cbn [interleave].
  - now apply wp_settleInOrder_threw.
  - destruct (nth_error ts i) as [[[[a | e] s1] | act k] |] eqn:E.
    + now apply IH.
    + intros e0 E0. injection E0 as <-.
      rewrite Forall_forall in H. specialize (H _ (nth_error_In _ _ E)). now apply H.
    + intros r Hr. apply (IH (fun evs e => C ((act, r) :: evs) e)).
      * now apply insertable_cons.
      * apply Forall_replaceAt.
        -- revert H. apply Forall_impl. intros t Ht. eapply wp_mono; [| exact Ht].
           intros evs r0 Hc e0 E0. apply (HC [] evs). now apply Hc.
        -- rewrite Forall_forall in H. specialize (H _ (nth_error_In _ _ E)).
           cbn [wp] in H. apply (H r Hr).
    + now apply IH.
Qed.

(** When all promises are fulfilled, what each counted adds up. *)
Lemma wp_settleInOrder_count (f : Action -> bool) (c : A -> nat)
    (ts : list (Tree (Outcome A * Store))) (ns : list nat) :
  Forall2 (fun t n => wp t (fun evs r =>
             forall a, fst r = Returned a -> n + countIf f evs = c a)) ts ns ->
  wp (settleInOrder ts)
     (fun evs o => forall l, o = Returned l ->
        list_sum ns + countIf f evs = list_sum (map c l)).
Proof.
  induction 1 as [| t n ts ns Ht _ IH]; cbn [settleInOrder].
  - intros l E. injection E as <-. reflexivity.
  - apply wp_tbind. eapply wp_mono; [| exact Ht].
    intros e1 [[a | e] s1] H1; cbn [fst snd] in *; [| intros l E; discriminate E].
    apply wp_tbind. eapply wp_mono; [| exact IH].
    intros e2 [l | e] H2; cbn [wp]; intros l0 E; [| discriminate E].
    injection E as <-. rewrite app_nil_r, countIf_app.
    specialize (H1 a eq_refl). specialize (H2 l eq_refl).
    cbn [map list_sum fold_right]. change (fold_right Nat.add 0) with list_sum. lia.
Qed.

Lemma wp_interleave_count (f : Action -> bool) (c : A -> nat) schedule
    (ts : list (Tree (Outcome A * Store))) (ns : list nat) :
  Forall2 (fun t n => wp t (fun evs r =>
             forall a, fst r = Returned a -> n + countIf f evs = c a)) ts ns ->
  wp (interleave schedule ts)
     (fun evs o => forall l, o = Returned l ->
        list_sum ns + countIf f evs = list_sum (map c l)).
Proof.
  revert ts ns. induction schedule as [| i later IH]; intros ts ns H; cbn [interleave].
  - now apply wp_settleInOrder_count.
  - destruct (nth_error ts i) as [[[[a | e] s1] | act k] |] eqn:E.
    + now apply IH.
    + intros l El. discriminate El.
    + destruct (Forall2_nth_error _ _ _ _ _ H E) as (n & En & Hn).
      intros r Hr. cbn [wp] in Hn. specialize (Hn r Hr).
      eapply wp_mono; cycle 1.
      { apply (IH _ (replaceAt i (n + countIf f [(act, r)]) ns)).
        apply Forall2_replaceAt; [exact H |].
        eapply wp_mono; [| exact Hn]. intros evs r0 Hc a Ea. specialize (Hc a Ea).
        rewrite <- Hc. change ((act, r) :: evs) with ([(act, r)] ++ evs).
        rewrite countIf_app. lia. }
      intros evs o Ho l El. specialize (Ho l El).
      rewrite (list_sum_replaceAt _ _ _ _ En) in Ho.
      change ((act, r) :: evs) with ([(act, r)] ++ evs). rewrite countIf_app. lia.
    + now apply IH.
Qed.

End WaveFacts.

Section WaveResults.

Lemma wp_promiseAll_threw {X A} (C : list Event -> Error -> Prop) schedule (xs : list X)
    (g : X -> Prog A) s :
  insertable C ->
  (forall x, In x xs -> wp (g x s) (fun evs r => forall e, fst r = Threw e -> C evs e)) ->
  wp (promiseAll schedule (map g xs) s) (fun evs r => forall e, fst r = Threw e -> C evs e).
Proof.
  intros HC H. unfold promiseAll. apply wp_tbind. rewrite map_map.
  eapply wp_mono; cycle 1.
  { apply (wp_interleave_threw C schedule); [exact HC |].
    apply Forall_forall. intros t Ht. apply in_map_iff in Ht. destruct Ht as (x & <- & Hx).
    now apply H. }
  intros evs o Ho. cbn [wp fst snd]. rewrite app_nil_r. exact Ho.
Qed.

Lemma wp_promiseAll_count {X A} (f : Action -> bool) (c : A -> nat) schedule (xs : list X)
    (g : X -> Prog A) s :
  (forall x, In x xs ->
     wp (g x s) (fun evs r => forall a, fst r = Returned a -> countIf f evs = c a)) ->
  wp (promiseAll schedule (map g xs) s)
     (fun evs r => forall l, fst r = Returned l -> countIf f evs = list_sum (map c l)).
Proof.
  intros H. unfold promiseAll. apply wp_tbind. rewrite map_map.
  eapply wp_mono; cycle 1.
  { apply (wp_interleave_count f c schedule _ (map (fun _ => 0) xs)).
    apply (Forall2_map_both
             (fun t n => wp t (fun evs r =>
                forall a, fst r = Returned a -> n + countIf f evs = c a))).
    intros x Hx. eapply wp_mono; [| apply (H x Hx)]. intros evs r Hc a Ea. now apply Hc. }
  intros evs o Ho. cbn [wp fst snd]. rewrite app_nil_r. intros l El.
  specialize (Ho l El). now rewrite list_sum_zeros in Ho.
Qed.

Lemma wp_collect_threw {X A} (C : list Event -> Error -> Prop) (xs : list X)
    (g : X -> Prog A) s :
  insertable C ->
  (forall x, In x xs ->
     wp (g x s) (fun evs r => snd r = s /\ forall e, fst r = Threw e -> C evs e)) ->
  wp (collect xs g s) (fun evs r => snd r = s /\ forall e, fst r = Threw e -> C evs e).
Proof.
  intros HC. induction xs as [| x xs IH]; intros H; cbn [collect].
  - apply wp_ret. split; [reflexivity | intros e E; discriminate E].
  - apply wp_bind. eapply wp_mono; [| apply (H x (or_introl eq_refl))].
    intros e1 [[a | e] s1] [-> Hq]; cbn [fst snd] in *.
    2: { split; [reflexivity |]. intros e0 E. injection E as <-. now apply Hq. }
    apply wp_bind. eapply wp_mono; [| apply IH; intros y Hy; apply H; now right].
    intros e2 [[l | e] s2] [-> Hl]; cbn [fst snd] in *.
    2: { split; [reflexivity |]. intros e0 E. apply insertable_front; [exact HC | now apply Hl]. }
    apply wp_ret. split; [reflexivity | intros e E; discriminate E].
Qed.

Lemma wp_collect_count {X A} (f : Action -> bool) (c : A -> nat) (xs : list X)
    (g : X -> Prog A) s :
  (forall x, In x xs ->
     wp (g x s) (fun evs r =>
       snd r = s /\ forall a, fst r = Returned a -> countIf f evs = c a)) ->
  wp (collect xs g s)
     (fun evs r =>
        snd r = s /\ forall l, fst r = Returned l -> countIf f evs = list_sum (map c l)).
Proof.
  induction xs as [| x xs IH]; intros H; cbn [collect].
  - apply wp_ret. split; [reflexivity |]. intros l E. injection E as <-. reflexivity.
  - apply wp_bind. eapply wp_mono; [| apply (H x (or_introl eq_refl))].
    intros e1 [[a | e] s1] [-> Hq]; cbn [fst snd] in *.
    2: { split; [reflexivity | intros l E; discriminate E]. }
    apply wp_bind. eapply wp_mono; [| apply IH; intros y Hy; apply H; now right].
    intros e2 [[l | e] s2] [-> Hl]; cbn [fst snd] in *.
    2: { split; [reflexivity | intros l E; discriminate E]. }
    apply wp_ret. cbn [fst snd]. split; [reflexivity |].
    intros l0 E. injection E as <-. rewrite app_nil_r, countIf_app.
    rewrite (Hq a eq_refl), (Hl l eq_refl).
    cbn [map list_sum fold_right]. reflexivity.
Qed.

End WaveResults.

(* ===================================================================== *)
(** ** The run coordinator: verdicts, counters and fatal errors *)
(* ===================================================================== *)

Lemma raisedOutsideTasks_cons ev evs e :
  raisedOutsideTasks evs e -> raisedOutsideTasks (ev :: evs) e.
Proof. apply (raisedOutsideTasks_app_l [ev]). Qed.

Lemma countIf_cons f act r evs :
  countIf f ((act, r) :: evs) = (if f act then 1 else 0) + countIf f evs.
Proof. unfold countIf. cbn [filter fst]. destruct (f act); reflexivity. Qed.

(** Walks to the part of a list of events in which an error was raised. *)
Ltac raised_tac :=
  repeat first [apply raisedOutsideTasks_cons | apply raisedOutsideTasks_app_l].

Section MainTally.

Variable dir : string.
Variable args : list string.
Variable schedule : list nat.
Variable config : Config.t.

Lemma wp_processSize_counts (f : Action -> bool) (c : SizeResult.t -> nat) size yuzuUrl s :
  (f = isDoneLine /\ c = SizeResult.successCount)
  \/ (f = isFailureLine /\ c = SizeResult.failureCount) ->
  wp (processSize dir size yuzuUrl config s)
     (fun evs r => snd r = s /\ forall a, fst r = Returned a -> countIf f evs = c a).
Proof.
  intros H.
  eapply wp_mono;
    [| apply (wp_conj _ _ _ (wp_processSize_outcome dir config size yuzuUrl s)
                      (wp_processSize_tally dir size yuzuUrl config s))].
  intros evs r [[Hs _] T]. split; [exact Hs |]. intros a Ea.
  destruct (T a Ea) as [D Fl]. destruct H as [[-> ->] | [-> ->]]; now symmetry.
Qed.

(** The parallel wave: the verdict lines are those the results count, and
    a rejection was raised outside the tasks. *)
Lemma wp_wave1_tally yuzuUrl s :
  let iphoneSizes := filter isIphone (Output.sizes (Config.output config)) in
  wp ((if Nat.ltb 0 (length iphoneSizes) then
         console Log (MsgWave1 (map Size.device iphoneSizes)) ;;
         promiseAll schedule (map (fun size => processSize dir size yuzuUrl config) iphoneSizes)
       else ret [])%prog s)
     (fun evs r =>
        (forall l, fst r = Returned l ->
           countIf isDoneLine evs = list_sum (map SizeResult.successCount l)
           /\ countIf isFailureLine evs = list_sum (map SizeResult.failureCount l))
        /\ (forall e, fst r = Threw e -> raisedOutsideTasks evs e)).
Proof.
  intros iphoneSizes. destruct iphoneSizes as [| x xs] eqn:E.
  - apply wp_ret. split.
    + intros l El. injection El as <-. split; reflexivity.
    + intros e El. discriminate El.
  - cbn [length Nat.ltb Nat.leb]. rewrite <- E.
    apply wp_bind, wp_console. cbn [fst snd].
    eapply wp_mono; cycle 1.
    { apply (wp_conj _ _ _
               (wp_conj _ _ _
                  (wp_promiseAll_count isDoneLine SizeResult.successCount schedule iphoneSizes
                     (fun size => processSize dir size yuzuUrl config) s
                     (fun size _ =>
                        wp_mono _ _ _ (fun evs r H => proj2 H)
                          (wp_processSize_counts _ _ size yuzuUrl s
                             (or_introl (conj eq_refl eq_refl)))))
                  (wp_promiseAll_count isFailureLine SizeResult.failureCount schedule
                     iphoneSizes (fun size => processSize dir size yuzuUrl config) s
                     (fun size _ =>
                        wp_mono _ _ _ (fun evs r H => proj2 H)
                          (wp_processSize_counts _ _ size yuzuUrl s
                             (or_intror (conj eq_refl eq_refl))))))
               (wp_promiseAll_threw raisedOutsideTasks schedule iphoneSizes
                  (fun size => processSize dir size yuzuUrl config) s
                  raisedOutsideTasks_insertable
                  (fun size _ => wp_processSize_fatal dir size yuzuUrl config s))). }
    intros evs r [[Hd Hf] Ht]. split.
    + intros l El. split; [rewrite <- (Hd l El) | rewrite <- (Hf l El)]; reflexivity.
    + intros e El.
      apply (raisedOutsideTasks_app_l
               [(Console Log (MsgWave1 (map Size.device iphoneSizes)), Done VUndefined)]).
      now apply Ht.
Qed.

(** The sequential wave. *)
Lemma wp_wave2_tally yuzuUrl s :
  let ipadSizes := filter (fun s => negb (isIphone s)) (Output.sizes (Config.output config)) in
  wp (collect ipadSizes (fun size =>
        console Log (MsgWaveSequential (Size.device size)) ;;
        processSize dir size yuzuUrl config)%prog s)
     (fun evs r =>
        (forall l, fst r = Returned l ->
           countIf isDoneLine evs = list_sum (map SizeResult.successCount l)
           /\ countIf isFailureLine evs = list_sum (map SizeResult.failureCount l))
        /\ (forall e, fst r = Threw e -> raisedOutsideTasks evs e)).
Proof.
  intros ipadSizes.
  assert (Hc : forall f c,
            (f = isDoneLine /\ c = SizeResult.successCount)
            \/ (f = isFailureLine /\ c = SizeResult.failureCount) ->
            forall size, In size ipadSizes ->
              wp ((console Log (MsgWaveSequential (Size.device size)) ;;
                   processSize dir size yuzuUrl config)%prog s)
                 (fun evs r =>
                    snd r = s /\ forall a, fst r = Returned a -> countIf f evs = c a)).
  { intros f c H size _. apply wp_bind, wp_console. cbn [fst snd].
    eapply wp_mono; [| apply (wp_processSize_counts f c size yuzuUrl s H)].
    intros evs r [Hs Hn]. split; [exact Hs |]. intros a Ea. rewrite <- (Hn a Ea).
    destruct H as [[-> _] | [-> _]]; reflexivity. }
  assert (Ht : forall size, In size ipadSizes ->
            wp ((console Log (MsgWaveSequential (Size.device size)) ;;
                 processSize dir size yuzuUrl config)%prog s)
               (fun evs r =>
                  snd r = s /\ forall e, fst r = Threw e -> raisedOutsideTasks evs e)).
  { intros size _. apply wp_bind, wp_console. cbn [fst snd].
    eapply wp_mono;
      [| apply (wp_conj _ _ _ (wp_processSize_outcome dir config size yuzuUrl s)
                        (wp_processSize_fatal dir size yuzuUrl config s))].
    intros evs r [[Hs _] Hf]. split; [exact Hs |]. intros e Ee.
    apply (raisedOutsideTasks_app_l [_]). now apply Hf. }
  eapply wp_mono; cycle 1.
  { apply (wp_conj _ _ _
             (wp_conj _ _ _
                (wp_collect_count isDoneLine SizeResult.successCount ipadSizes _ s
                   (Hc _ _ (or_introl (conj eq_refl eq_refl))))
                (wp_collect_count isFailureLine SizeResult.failureCount ipadSizes _ s
                   (Hc _ _ (or_intror (conj eq_refl eq_refl)))))
             (wp_collect_threw raisedOutsideTasks ipadSizes _ s
                raisedOutsideTasks_insertable Ht)). }
  intros evs r [[[_ Hd] [_ Hf]] [_ Hx]]. split.
  - intros l El. split; [now apply Hd | now apply Hf].
  - exact Hx.
Qed.

Lemma detectAction_plain evs :
  Forall (fun ev => detectAction (fst ev)) evs ->
  countIf isDoneLine evs = 0 /\ countIf isFailureLine evs = 0.
Proof.
  intros F. apply tally_none. revert F. apply Forall_impl. intros [act r] H. cbn [fst] in *.
  destruct act; try contradiction; try reflexivity.
  destruct level; try contradiction. destruct msg; try contradiction; reflexivity.
Qed.

(** [main] on every path: when it returns it completed, and the counters
    of the summary are the numbers of lines of success and of failure
    written; when it throws, the cause is one of three. *)
Lemma wp_main_full s :
  wp (main dir args schedule config s)
     (fun evs r =>
        match fst r with
        | Returned c =>
            exists sc fc,
              completed config evs sc fc
              /\ sc = countIf isDoneLine evs /\ fc = countIf isFailureLine evs
              /\ c = (if Nat.ltb 0 fc then Exited 1 else Finished)
        | Threw e => fatalCause config evs e
        end).
Proof.
  unfold main.
  do 4 (apply wp_bind, wp_console; cbn [fst snd]).
  apply wp_bind.
  eapply wp_mono;
    [| apply (wp_conj _ _ _ (wp_always _ _ _ (Always_detectYuzuUrl args s))
                      (Throws_detectYuzuUrl args s))].
  intros e1 [[yuzuUrl | e] s1] [[F1 L1] T1]; cbn [fst snd] in *; subst s1.
  2: { destruct (T1 e eq_refl) as (_ & _ & _ & []). }
  destruct (Config.screenshots config) as [| first rest] eqn:Es; cbn [hd_error deref].
  { apply wp_bind, wp_throw. cbn [fst snd]. left. split; [exact Es | reflexivity]. }
  apply wp_bind, wp_ret. cbn [fst snd]. cbv zeta.
  do 5 (apply wp_bind, wp_console; cbn [fst snd]).
  apply wp_bind.
  eapply wp_mono;
    [| apply (wp_conj _ _ _ (wp_wave1 dir schedule config yuzuUrl s)
                      (wp_wave1_tally yuzuUrl s))].
  intros e2 [[l1 | e] s2] [[Hs2 H1] [C1 X1]]; cbn [fst snd] in *; subst s2.
  2: { right. norm_app. raised_tac. now apply X1. }
  apply wp_bind.
  eapply wp_mono;
    [| apply (wp_conj _ _ _ (wp_wave2 dir config yuzuUrl s) (wp_wave2_tally yuzuUrl s))].
  intros e3 [[l2 | e] s3] [[Hs3 H2] [C2 X2]]; cbn [fst snd] in *; subst s3.
  2: { right. norm_app. raised_tac. now apply X2. }
  eapply wp_mono; [| apply wp_summary].
  intros e4 r [-> ->]. cbn [fst snd].
  specialize (H1 l1 eq_refl). specialize (H2 l2 eq_refl).
  apply wave_settled in H1 as [N1 A1]. apply wave_settled in H2 as [N2 A2].
  destruct (C1 l1 eq_refl) as [D1 Fl1]. destruct (C2 l2 eq_refl) as [D2 Fl2].
  destruct (detectAction_plain e1 F1) as [D0 Fl0].
  exists (sumOf SizeResult.successCount (l1 ++ l2)), (sumOf SizeResult.failureCount (l1 ++ l2)).
  split; [| split; [| split; [| reflexivity]]].
  - eexists. split; [| split].
    + unfold totalExpected. rewrite Es. cbn [hd length].
      rewrite !app_assoc. reflexivity.
    + unfold declaredTasks.
      rewrite <- (filter_length isIphone (Output.sizes (Config.output config))).
      rewrite !sumOf_list_sum, !map_app, !list_sum_app.
      rewrite !sumOf_list_sum in N1, N2. nia.
    + intros size Hsize.
      destruct (isIphone size) eqn:Hi.
      * eapply allEntered_incl; [| apply A1; apply filter_In; now split].
        intros ev Hev. rewrite !in_app_iff. tauto.
      * eapply allEntered_incl;
          [| apply A2; apply filter_In; split; [exact Hsize | now rewrite Hi]].
        intros ev Hev. rewrite !in_app_iff. tauto.
  - rewrite sumOf_list_sum, map_app, list_sum_app, <- D1, <- D2.
    unfold summaryEvents. destruct (Nat.ltb 0 _); norm_app;
      repeat (rewrite countIf_cons || rewrite countIf_app); rewrite D0;
      cbn [isDoneLine countIf filter length]; lia.
  - rewrite sumOf_list_sum, map_app, list_sum_app, <- Fl1, <- Fl2.
    unfold summaryEvents. destruct (Nat.ltb 0 _); norm_app;
      repeat (rewrite countIf_cons || rewrite countIf_app); rewrite Fl0;
      cbn [isFailureLine countIf filter length]; lia.
Qed.

End MainTally.

(** With an export button that cannot be clicked the first attempt already
    leaves a listener without handler: such a run is none of those the
    amended C2 and C6 speak of. *)
Lemma stuck_export_abandons_listener :
  let st := Sim.start Sim.healthy in
  let a1 := attemptRun execStuckExport "/repo" 7 Sample.home "de" Sample.iphone Sample.design
                       "/repo/output" 1 emptyStore st in
  fst (fst a1) = Threw {| message := "Timeout 30000ms exceeded" |}
  /\ listenersHandled (trace (snd a1)) = false.
Proof. vm_compute. split; reflexivity. Qed.

(** C6 (amended): in a run in which no export click raised, the process
    ends with an exit status in one of two ways. Either [main] completed:
    every declared task was started, the counters of the summary are the
    numbers of lines of success and of lines of failure (source missing,
    failed after the last attempt, skipped after a recovery) written
    during the run, together they account for every declared task, and the
    status is 1 when a line of failure was written and 0 otherwise. Or an
    error left [main] and was reported by the top-level handler with
    status 1; that error comes from the empty screenshot list, from a
    launch of the browser, or, after the line announcing a relaunch had
    been written, from one of the calls that open a session. *)
Theorem exit_status {World : Type} (exec : Action -> World -> Reply * World)
    (dir : string) (args : list string) (schedule : list nat) (config : Config.t)
    (s : Store) (st : St World) :
  let result := run exec (execute dir args schedule config s) st in
  listenersHandled (trace (snd result)) = true ->
  exists evs,
    trace (snd result) = trace st ++ evs
    /\ ((exists sc fc,
           completed config evs sc fc
           /\ sc = countIf isDoneLine evs
           /\ fc = countIf isFailureLine evs
           /\ fst (fst result) = Returned (if Nat.ltb 0 fc then 1 else 0))
        \/ (exists pre e,
              evs = pre ++ fatalEvents (message e)
              /\ fatalCause config pre e
              /\ fst (fst result) = Returned 1)).
Proof.
  intros result _.
  assert (W : wp (execute dir args schedule config s)
                 (fun evs r =>
                    (exists sc fc,
                       completed config evs sc fc
                       /\ sc = countIf isDoneLine evs
                       /\ fc = countIf isFailureLine evs
                       /\ fst r = Returned (if Nat.ltb 0 fc then 1 else 0))
                    \/ (exists pre e,
                          evs = pre ++ fatalEvents (message e)
                          /\ fatalCause config pre e
                          /\ fst r = Returned 1))).
  { unfold execute. apply wp_tryCatch, wp_bind.
    eapply wp_mono; [| apply wp_main_full].
    intros evs [[c | e] s1] H; cbn [fst snd] in *.
    - destruct H as (sc & fc & Hc & Hs & Hf & ->).
      destruct (Nat.ltb 0 fc) eqn:L; apply wp_ret; cbn [fst snd]; rewrite app_nil_r;
        left; exists sc, fc; rewrite L; repeat split; assumption.
    - apply wp_bind, wp_console. cbn [fst snd].
      apply wp_bind, wp_emit; [reflexivity |]. cbn [fst snd]. apply wp_ret. cbn [fst snd].
      right. exists evs, e. split; [reflexivity |]. split; [exact H | reflexivity]. }
  destruct (wp_run exec _ _ st W) as (evs & T & H).
  exists evs. split; [exact T | exact H].
Qed.

(** A run in which one source image is missing: every export click goes
    through, the run completes and exits with status 1. *)
Lemma exit_status_witness :
  let result := run Sim.exec (execute "/repo" [] [] Configs.uniform emptyStore)
                    (Sim.start Worlds.missingSource) in
  fst (fst result) = Returned 1
  /\ exists evs,
       trace (snd result) = trace (Sim.start Worlds.missingSource) ++ evs
       /\ ((exists sc fc,
              completed Configs.uniform evs sc fc
              /\ sc = countIf isDoneLine evs
              /\ fc = countIf isFailureLine evs
              /\ fst (fst result) = Returned (if Nat.ltb 0 fc then 1 else 0))
           \/ (exists pre e,
                 evs = pre ++ fatalEvents (message e)
                 /\ fatalCause Configs.uniform pre e
                 /\ fst (fst result) = Returned 1)).
Proof.
  split; [vm_compute; reflexivity |].
  apply (exit_status Sim.exec "/repo" [] [] Configs.uniform emptyStore
           (Sim.start Worlds.missingSource)).
  vm_compute. reflexivity.
Defined.
